(** * siggen: field solver and signal generator for point-contact Ge detectors

    A shallow embedding of [detector_geometry.c], [calc_signal.c] and of the
    relaxation solver of [mjd_fieldgen.c], with the properties claimed for
    them by the specification.

    Conventions of the embedding.
    - C [int] is [Z]; C integer division by a constant or by a divisor
      that the code has bounded is [Z.quot]; the division of line 179 of
      [calc_signal.c] is [int_div] and that of lines 70-71 is [long_div],
      which have no result where the division kills the program (a
      zero divisor).
    - C [float] and [double] share one carrier [F] whose operations are the
      fields of the class [FloatOps]: every definition and every general
      theorem is stated for an arbitrary [FloatOps], so nothing is assumed
      about rounding.  The bound of the bulletized top in
      [detector_geometry.c], which C evaluates and compares in [double], is
      computed on the second carrier [dbl] of the class.  Two instances
      are used for evaluation: exact rationals ([Q_ops]) and IEEE-754
      binary32 with binary64 for [dbl] ([B32_ops], built on the
      [SpecFloat] specification of the standard library).
    - [malloc] may fail: the functions that call it take the number of
      their calls that succeed as an argument.
    - A one-dimensional C array is a [list F] read and written at [Z]
      indices; a read outside the array gives [fzero] and a write outside
      it is dropped (both are undefined in C).
    - A two-dimensional array of the solver is a total function
      [Z -> Z -> _] with point-wise update.
    - Functions of the program that live in other translation units
      ([fields.c], [point.c], libm) are parameters. *)

From Stdlib Require Import ZArith QArith Qround Qabs List Bool Lia Ascii
  SpecFloat.
Import ListNotations.

Set Implicit Arguments.

(* ================================================================== *)
(** * Part I: definitions *)
(* ================================================================== *)

(** ** Floating-point interface *)

Declare Scope fl_scope.
Delimit Scope fl_scope with fl.

Class FloatOps (F : Type) : Type := {
  fzero : F;
  fone : F;
  fadd : F -> F -> F;
  fsub : F -> F -> F;
  fmul : F -> F -> F;
  fdiv : F -> F -> F;
  fneg : F -> F;
  fsqrt : F -> F;
  fltb : F -> F -> bool;
  fleb : F -> F -> bool;
  feqb : F -> F -> bool;
  fmin : F -> F -> F;          (* fminf *)
  of_int : Z -> F;             (* (float) i *)
  to_int : F -> Z;             (* (int) x *)
  lrint : F -> Z;              (* lrint, lrintf *)
  lit : Q -> F;                (* a decimal literal of the source text *)
  dbl : Type;                  (* double *)
  to_dbl : F -> dbl;           (* (double) x *)
  dadd : dbl -> dbl -> dbl;
  dsqrt : dbl -> dbl;          (* sqrt *)
  dltb : dbl -> dbl -> bool
}.

Infix "+" := fadd : fl_scope.
Infix "-" := fsub : fl_scope.
Infix "*" := fmul : fl_scope.
Infix "/" := fdiv : fl_scope.
Notation "- x" := (fneg x) : fl_scope.
Notation "x <? y" := (fltb x y) : fl_scope.
Notation "x <=? y" := (fleb x y) : fl_scope.
Notation "x >? y" := (fltb y x) : fl_scope.
Notation "x >=? y" := (fleb y x) : fl_scope.
Notation "x =? y" := (feqb x y) : fl_scope.

(** Laws of a NaN-free ordered arithmetic; only the theorems that compare
    values against each other assume them. *)
Class FloatOrder (F : Type) {ops : FloatOps F} : Prop := {
  fleb_refl : forall x : F, fleb x x = true;
  fltb_fleb : forall x y : F, fltb x y = negb (fleb y x);
  fleb_fltb_trans :
    forall x y z : F, fleb x y = true -> fltb y z = true -> fltb x z = true;
  fltb_trans :
    forall x y z : F, fltb x y = true -> fltb y z = true -> fltb x z = true;
  fltb_fleb_incl : forall x y : F, fltb x y = true -> fleb x y = true;
  fadd_pos_lit :
    forall (x : F) (q : Q), fltb fzero x = true -> (0 < q)%Q ->
      fltb fzero (fadd x (lit q)) = true
}.

Arguments FloatOrder F {ops}.

(** *** Exact rational instance *)

Definition Qltb (x y : Q) : bool := negb (Qle_bool y x).

(** [sqrt] rounded down to a multiple of [10^-9 / Qden q]. *)
Definition Qsqrt_lo (q : Q) : Q :=
  Qred (Z.sqrt (Qnum q * Zpos (Qden q) * 10 ^ 18) # (Qden q * 10 ^ 9)).

(** Round to nearest, ties to even. *)
Definition Qlrint (q : Q) : Z :=
  let f := Qfloor q in
  let d := Qred (q - inject_Z f) in
  if Qltb d (1 # 2) then f
  else if Qltb (1 # 2) d then (f + 1)%Z
  else if Z.even f then f else (f + 1)%Z.

#[export] Instance Q_ops : FloatOps Q := {
  fzero := 0%Q;
  fone := 1%Q;
  fadd x y := Qred (x + y);
  fsub x y := Qred (x - y);
  fmul x y := Qred (x * y);
  fdiv x y := Qred (x / y);
  fneg x := Qred (- x);
  fsqrt := Qsqrt_lo;
  fltb := Qltb;
  fleb := Qle_bool;
  feqb := Qeq_bool;
  fmin x y := if Qltb y x then y else x;
  of_int := inject_Z;
  to_int q := Z.quot (Qnum q) (Zpos (Qden q));
  lrint := Qlrint;
  lit q := Qred q;
  dbl := Q;
  to_dbl x := x;
  dadd x y := Qred (x + y);
  dsqrt := Qsqrt_lo;
  dltb := Qltb
}.

(** *** IEEE-754 binary32 instance: the C type [float] *)

Module B32.
Definition prec : Z := 24.
Definition emax : Z := 128.
Definition t := spec_float.

Definition of_Z (n : Z) : t := binary_normalize prec emax n 0 false.

(** The rational value of a finite float; [0] for infinities and NaN. *)
Definition to_Q (x : t) : Q :=
  match x with
  | S754_finite s m e =>
      let v := match e with
               | Z0 => inject_Z (Zpos m)
               | Zpos p => inject_Z (Zpos m * 2 ^ Zpos p)
               | Zneg p => Qred (Zpos m # (2 ^ p)%positive)
               end in
      if s then Qred (- v) else v
  | _ => 0%Q
  end.

(** A decimal literal [n/d] with [n] and [d] exactly representable is
    the correctly rounded quotient. *)
Definition of_Q (q : Q) : t :=
  SFdiv prec emax (of_Z (Qnum q)) (of_Z (Zpos (Qden q))).

Definition min (x y : t) : t :=
  match x, y with
  | S754_nan, _ => y
  | _, S754_nan => x
  | _, _ => if SFltb y x then y else x
  end.
End B32.

(** IEEE-754 binary64: the C type [double]. *)
Module B64.
Definition prec : Z := 53.
Definition emax : Z := 1024.

(** [(double) x] for a [float] [x]: the same number, in the
    representation of binary64. *)
Definition of_float (x : spec_float) : spec_float :=
  match x with
  | S754_finite s m e => binary_round prec emax s m e
  | _ => x
  end.
End B64.

#[export] Instance B32_ops : FloatOps B32.t := {
  fzero := S754_zero false;
  fone := B32.of_Z 1;
  fadd := SFadd B32.prec B32.emax;
  fsub := SFsub B32.prec B32.emax;
  fmul := SFmul B32.prec B32.emax;
  fdiv := SFdiv B32.prec B32.emax;
  fneg := SFopp;
  fsqrt := SFsqrt B32.prec B32.emax;
  fltb := SFltb;
  fleb := SFleb;
  feqb := SFeqb;
  fmin := B32.min;
  of_int := B32.of_Z;
  to_int x := to_int (B32.to_Q x);
  lrint x := Qlrint (B32.to_Q x);
  lit := B32.of_Q;
  dbl := spec_float;
  to_dbl := B64.of_float;
  dadd := SFadd B64.prec B64.emax;
  dsqrt := SFsqrt B64.prec B64.emax;
  dltb := SFltb
}.

(** ** Integer division *)

(** [a / b] for two [int]: the quotient truncated towards zero.  There
    is no result ([None]) when [b] is 0, nor when the quotient does not
    fit an [int] ([INT_MIN / -1]): the division raises SIGFPE and the
    program is killed. *)
Definition int_div (a b : Z) : option Z :=
  if ((b =? 0) || ((a =? - 2 ^ 31) && (b =? -1)))%Z then None
  else Some (Z.quot a b).

(** [a / b] for an [int] [a] and a [long] [b]: the division is done in
    [long], of 64 bits, where every quotient of an [int] fits; there is
    no result when [b] is 0. *)
Definition long_div (a b : Z) : option Z :=
  if (b =? 0)%Z then None else Some (Z.quot a b).

(** ** Arrays and counted loops *)

Section Arrays.
Context {A : Type}.

Fixpoint set_nth (n : nat) (x : A) (a : list A) : list A :=
  match a, n with
  | [], _ => []
  | _ :: t, O => x :: t
  | h :: t, S n' => h :: set_nth n' x t
  end.

(** [a[i]] *)
Definition aget (d : A) (a : list A) (i : Z) : A :=
  if (i <? 0)%Z then d else nth (Z.to_nat i) a d.

(** [a[i] = x] *)
Definition aset (a : list A) (i : Z) (x : A) : list A :=
  if (i <? 0)%Z then a else set_nth (Z.to_nat i) x a.

(** [for (i = lo; i < hi; i++) body] *)
Definition for_up {St : Type} (lo hi : Z) (body : Z -> St -> St) (s : St)
  : St :=
  fold_left (fun s k => body (lo + Z.of_nat k)%Z s)
            (seq 0 (Z.to_nat (hi - lo))) s.

(** [for (i = hi; i > lo; i--) body] *)
Definition for_down {St : Type} (hi lo : Z) (body : Z -> St -> St) (s : St)
  : St :=
  fold_left (fun s k => body (hi - Z.of_nat k)%Z s)
            (seq 0 (Z.to_nat (hi - lo))) s.

(** [for (i = lo; i < hi; i++) { body; if (...) break; }]: the body
    gives the new state and whether it breaks; the result also holds
    the final value of [i]. *)
Fixpoint iter_break {St : Type} (body : Z -> St -> St * bool) (k : nat)
         (i : Z) (s : St) : Z * St :=
  match k with
  | O => (i, s)
  | S k' =>
      let '(s', brk) := body i s in
      if brk then (i, s') else iter_break body k' (i + 1)%Z s'
  end.

Definition for_up_break {St : Type} (lo hi : Z)
           (body : Z -> St -> St * bool) (s : St) : Z * St :=
  iter_break body (Z.to_nat (hi - lo)) lo s.
End Arrays.

(** ** [point.h], [mjd_siggen.h]: points and the setup structure *)

Section Setup.
Context {F : Type}.

(** C fields [x], [y], [z] and [r], [phi], [z]. *)
Record point : Type := { px : F; py : F; pz : F }.
Definition vector : Type := point.
Record cyl_pt : Type := { cr : F; cphi : F; cz : F }.

Record MJD_Siggen_Setup : Type := {
  xtal_length : F;   (* z length *)
  xtal_radius : F;   (* radius *)
  top_bullet_radius : F;   (* bulletization radius at top of crystal *)
  pc_length : F;   (* point contact length *)
  pc_radius : F;   (* point contact radius *)
  taper_length : F;   (* size of 45-degree taper at bottom of crystal *)
  wrap_around_radius : F;   (* wrap-around radius for BEGes *)
  ditch_depth : F;   (* depth of ditch next to wrap-around *)
  ditch_thickness : F;   (* width of ditch next to wrap-around *)
  xtal_grid : F;   (* grid size in mm for field files *)
  impurity_z0 : F;   (* net impurity concentration at Z=0 *)
  impurity_gradient : F;   (* net impurity gradient *)
  xtal_HV : F;   (* detector bias for fieldgen, in Volts *)
  max_iterations : Z;   (* maximum number of iterations *)
  xtal_temp : F;   (* crystal temperature in Kelvin *)
  preamp_tau : F;   (* integration time constant for preamplifier, in ns *)
  time_steps_calc : Z;   (* number of time steps used in calculations *)
  step_time_calc : F;   (* length of time step used for calculation, in ns *)
  step_time_out : F;   (* length of time step for output signal, in ns *)
  charge_cloud_size : F;   (* initial FWHM of charge cloud, in mm *)
  use_diffusion : Z;   (* 0/1 for ignore/add diffusion *)
  ntsteps_out : Z;   (* number of time steps in output signal *)
  rmax : F;   (* data for fields.c *)
  zmax : F;   (* data for fields.c *)
  dpath_e : list point;   (* data for calc_signal.c *)
  dpath_h : list point;
  initial_vel : F;
  final_vel : F;
  final_charge_size_sq : F
}.

(** Assignments to the fields that [calc_signal.c] writes. *)
Definition set_dpath_e (s : MJD_Siggen_Setup) (v : list point)
  : MJD_Siggen_Setup :=
  {| xtal_length := xtal_length s; xtal_radius := xtal_radius s;
     top_bullet_radius := top_bullet_radius s; pc_length := pc_length s;
     pc_radius := pc_radius s; taper_length := taper_length s;
     wrap_around_radius := wrap_around_radius s;
     ditch_depth := ditch_depth s; ditch_thickness := ditch_thickness s;
     xtal_grid := xtal_grid s; impurity_z0 := impurity_z0 s;
     impurity_gradient := impurity_gradient s; xtal_HV := xtal_HV s;
     max_iterations := max_iterations s; xtal_temp := xtal_temp s;
     preamp_tau := preamp_tau s; time_steps_calc := time_steps_calc s;
     step_time_calc := step_time_calc s; step_time_out := step_time_out s;
     charge_cloud_size := charge_cloud_size s;
     use_diffusion := use_diffusion s; ntsteps_out := ntsteps_out s;
     rmax := rmax s; zmax := zmax s; dpath_e := v; dpath_h := dpath_h s;
     initial_vel := initial_vel s; final_vel := final_vel s;
     final_charge_size_sq := final_charge_size_sq s |}.
Definition set_dpath_h (s : MJD_Siggen_Setup) (v : list point)
  : MJD_Siggen_Setup :=
  {| xtal_length := xtal_length s; xtal_radius := xtal_radius s;
     top_bullet_radius := top_bullet_radius s; pc_length := pc_length s;
     pc_radius := pc_radius s; taper_length := taper_length s;
     wrap_around_radius := wrap_around_radius s;
     ditch_depth := ditch_depth s; ditch_thickness := ditch_thickness s;
     xtal_grid := xtal_grid s; impurity_z0 := impurity_z0 s;
     impurity_gradient := impurity_gradient s; xtal_HV := xtal_HV s;
     max_iterations := max_iterations s; xtal_temp := xtal_temp s;
     preamp_tau := preamp_tau s; time_steps_calc := time_steps_calc s;
     step_time_calc := step_time_calc s; step_time_out := step_time_out s;
     charge_cloud_size := charge_cloud_size s;
     use_diffusion := use_diffusion s; ntsteps_out := ntsteps_out s;
     rmax := rmax s; zmax := zmax s; dpath_e := dpath_e s; dpath_h := v;
     initial_vel := initial_vel s; final_vel := final_vel s;
     final_charge_size_sq := final_charge_size_sq s |}.
Definition set_initial_vel (s : MJD_Siggen_Setup) (v : F) : MJD_Siggen_Setup :=
  {| xtal_length := xtal_length s; xtal_radius := xtal_radius s;
     top_bullet_radius := top_bullet_radius s; pc_length := pc_length s;
     pc_radius := pc_radius s; taper_length := taper_length s;
     wrap_around_radius := wrap_around_radius s;
     ditch_depth := ditch_depth s; ditch_thickness := ditch_thickness s;
     xtal_grid := xtal_grid s; impurity_z0 := impurity_z0 s;
     impurity_gradient := impurity_gradient s; xtal_HV := xtal_HV s;
     max_iterations := max_iterations s; xtal_temp := xtal_temp s;
     preamp_tau := preamp_tau s; time_steps_calc := time_steps_calc s;
     step_time_calc := step_time_calc s; step_time_out := step_time_out s;
     charge_cloud_size := charge_cloud_size s;
     use_diffusion := use_diffusion s; ntsteps_out := ntsteps_out s;
     rmax := rmax s; zmax := zmax s; dpath_e := dpath_e s;
     dpath_h := dpath_h s; initial_vel := v; final_vel := final_vel s;
     final_charge_size_sq := final_charge_size_sq s |}.
Definition set_final_vel (s : MJD_Siggen_Setup) (v : F) : MJD_Siggen_Setup :=
  {| xtal_length := xtal_length s; xtal_radius := xtal_radius s;
     top_bullet_radius := top_bullet_radius s; pc_length := pc_length s;
     pc_radius := pc_radius s; taper_length := taper_length s;
     wrap_around_radius := wrap_around_radius s;
     ditch_depth := ditch_depth s; ditch_thickness := ditch_thickness s;
     xtal_grid := xtal_grid s; impurity_z0 := impurity_z0 s;
     impurity_gradient := impurity_gradient s; xtal_HV := xtal_HV s;
     max_iterations := max_iterations s; xtal_temp := xtal_temp s;
     preamp_tau := preamp_tau s; time_steps_calc := time_steps_calc s;
     step_time_calc := step_time_calc s; step_time_out := step_time_out s;
     charge_cloud_size := charge_cloud_size s;
     use_diffusion := use_diffusion s; ntsteps_out := ntsteps_out s;
     rmax := rmax s; zmax := zmax s; dpath_e := dpath_e s;
     dpath_h := dpath_h s; initial_vel := initial_vel s; final_vel := v;
     final_charge_size_sq := final_charge_size_sq s |}.
Definition set_final_charge_size_sq (s : MJD_Siggen_Setup) (v : F)
  : MJD_Siggen_Setup :=
  {| xtal_length := xtal_length s; xtal_radius := xtal_radius s;
     top_bullet_radius := top_bullet_radius s; pc_length := pc_length s;
     pc_radius := pc_radius s; taper_length := taper_length s;
     wrap_around_radius := wrap_around_radius s;
     ditch_depth := ditch_depth s; ditch_thickness := ditch_thickness s;
     xtal_grid := xtal_grid s; impurity_z0 := impurity_z0 s;
     impurity_gradient := impurity_gradient s; xtal_HV := xtal_HV s;
     max_iterations := max_iterations s; xtal_temp := xtal_temp s;
     preamp_tau := preamp_tau s; time_steps_calc := time_steps_calc s;
     step_time_calc := step_time_calc s; step_time_out := step_time_out s;
     charge_cloud_size := charge_cloud_size s;
     use_diffusion := use_diffusion s; ntsteps_out := ntsteps_out s;
     rmax := rmax s; zmax := zmax s; dpath_e := dpath_e s;
     dpath_h := dpath_h s; initial_vel := initial_vel s;
     final_vel := final_vel s; final_charge_size_sq := v |}.
End Setup.

Arguments point : clear implicits.
Arguments vector : clear implicits.
Arguments cyl_pt : clear implicits.
Arguments MJD_Siggen_Setup : clear implicits.

(** ** [detector_geometry.c] *)

Section DetectorGeometry.
Context {F : Type} {ops : FloatOps F}.
Local Open Scope fl_scope.

Definition SQ (a : F) : F := a * a.

(** Lines 30 and 49: the bound
    [(rmax - br) + sqrt(SQ(br) - SQ(z - (zmax - br)))] of the radius
    under the bulletized top.  The difference [rmax - br] and the
    argument of [sqrt] are of type [float]; [sqrt] takes and gives a
    [double], so the square root and the sum are evaluated in
    [double], and so is the comparison of [r] with the bound. *)
Definition bullet_bound_dbl (setup : MJD_Siggen_Setup F) (z : F)
  : dbl (F := F) :=
  let br := top_bullet_radius setup in
  dadd (to_dbl (rmax setup - br))
       (dsqrt (to_dbl (SQ br - SQ (z - (zmax setup - br))))).

(** returns 1 if pt is outside the detector, 0 if inside detector *)
Definition outside_detector (pt : point F) (setup : MJD_Siggen_Setup F) : Z :=
  let z := pz pt in
  if (z >=? zmax setup) || (z <? fzero) then 1%Z else
  let r := fsqrt (SQ (px pt) + SQ (py pt)) in
  if r >? rmax setup then 1%Z else
  let br := top_bullet_radius setup in
  if (z >? zmax setup - br) &&
     dltb (bullet_bound_dbl setup z) (to_dbl r)
  then 1%Z else
  if (pc_radius setup >? fzero) &&
     (z <=? pc_length setup) && (r <=? pc_radius setup)
  then 1%Z else
  if (taper_length setup >? fzero) && (z <? taper_length setup) &&
     (r >? zmax setup - taper_length setup + z)
  then 1%Z else
  0%Z.

Definition outside_detector_cyl (pt : cyl_pt F) (setup : MJD_Siggen_Setup F)
  : Z :=
  let z := cz pt in
  if (z >=? zmax setup) || (z <? fzero) then 1%Z else
  let r := cr pt in
  if r >? rmax setup then 1%Z else
  let br := top_bullet_radius setup in
  if (z >? zmax setup - br) &&
     dltb (bullet_bound_dbl setup z) (to_dbl r)
  then 1%Z else
  if (pc_radius setup >? fzero) &&
     (z <=? pc_length setup) && (r <=? pc_radius setup)
  then 1%Z else
  if (taper_length setup >? fzero) && (z <? taper_length setup) &&
     (r >? zmax setup - taper_length setup + z)
  then 1%Z else
  0%Z.
End DetectorGeometry.

(** ** [calc_signal.c]: [rc_integrate] *)

Section RcIntegrate.
Context {F : Type} {ops : FloatOps F}.
Local Open Scope fl_scope.

(** Memory: a block of floats per pointer; [s_in] and [s_out] are block
    addresses, equal when the caller passes the same buffer twice. *)
Definition ptr := nat.
Definition mem := ptr -> list F.

Definition load (m : mem) (p : ptr) (j : Z) : F := aget fzero (m p) j.
Definition store (m : mem) (p : ptr) (j : Z) (x : F) : mem :=
  fun q => if Nat.eqb q p then aset (m p) j x else m q.

Definition rc_shift_body (s_in s_out : ptr) (j : Z) (m : mem) : mem :=
  store m s_out j (load m s_in (j - 1)).

(** The state of the second loop is the memory and [s_in_old]. *)
Definition rc_step_body (s_in s_out : ptr) (tau : F) (j : Z)
           (st : mem * F) : mem * F :=
  let '(m, s_in_old) := st in
  let s := load m s_out (j - 1) + (s_in_old - load m s_out (j - 1)) / tau in
  let s_in_old := load m s_in j in
  (store m s_out j s, s_in_old).

Definition rc_integrate (m : mem) (s_in s_out : ptr) (tau : F)
           (time_steps : Z) : mem :=
  if tau <? fone then
    let m := for_down (time_steps - 1) 0 (rc_shift_body s_in s_out) m in
    store m s_out 0 fzero
  else
    let s_in_old := load m s_in 0 in
    let m := store m s_out 0 fzero in
    fst (for_up 1 time_steps (rc_step_body s_in s_out tau) (m, s_in_old)).

(** The recurrence that the specification gives for the integrated
    signal, on the input array [x]:
    y[0] = 0, y[j] = y[j-1] + (x[j-1] - y[j-1]) / tau. *)
Fixpoint rc_rec (tau : F) (x : list F) (n : nat) : F :=
  match n with
  | O => fzero
  | S n' =>
      rc_rec tau x n' + (aget fzero x (Z.of_nat n') - rc_rec tau x n') / tau
  end.
End RcIntegrate.

(** ** [calc_signal.c]: the signal calculation *)

Section CalcSignal.
Context {F : Type} {ops : FloatOps F}.
Local Open Scope fl_scope.
Local Abbreviation Setup := (MJD_Siggen_Setup F).

(** What [calc_signal.c] takes from [fields.c], [point.c],
    [calc_signal.h] and libm.  [drift_velocity] and [wpotential] give
    [None] when the C function reports failure (a negative, resp.
    non-zero, return value), in which case they leave their output
    argument alone. *)
Record Externals : Type := {
  drift_velocity : point F -> F -> Setup -> option (vector F);
  wpotential : point F -> Setup -> option F;
  vector_add : point F -> vector F -> point F;
  vector_scale : vector F -> F -> vector F;
  vector_length : vector F -> F;
  WP_THRESH_ELECTRONS : F;
  c_exp : F -> F
}.

Definition HOLE_CHARGE : F := fone.
Definition ELECTRON_CHARGE : F := - fone.
Definition DIFFUSION_COEF_H (setup : Setup) : F :=
  lit (29 # 100000) * step_time_calc setup * lit 77 / xtal_temp setup.
Definition DIFFUSION_COEF_E (setup : Setup) : F :=
  lit (37 # 100000) * step_time_calc setup * lit 77 / xtal_temp setup.

(** The variables with static storage duration: of [get_signal]
    ([signal], [sum], [tmp], [tsteps]) and of [make_signal] ([wpot],
    [wpot_old], [dwpot]).  They live as long as the process. *)
Record Statics : Type := {
  signal : list F;
  sum : list F;
  tmp : list F;
  tsteps : Z;
  wpot : F;
  wpot_old : F;
  dwpot : F
}.

(** The state of the program at start-up. *)
Definition statics_init : Statics :=
  {| signal := []; sum := []; tmp := []; tsteps := 0;
     wpot := fzero; wpot_old := fzero; dwpot := fzero |}.

Definition zero_pt : point F := {| px := fzero; py := fzero; pz := fzero |}.

Variable E : Externals.

(** *** [make_signal] *)

(** The variables that the drift loop of [make_signal] reads and
    writes. *)
Record drift : Type := {
  d_t : Z;
  d_new_pt : point F;
  d_v : vector F;
  d_dx : vector F;
  d_vel1 : F;
  d_signal : list F;
  d_setup : Setup;
  d_wpot : F;
  d_wpot_old : F
}.

(** How the drift loop is left. *)
Inductive drift_exit : Type :=
| LeftField (d : drift)                      (* drift_velocity < 0 *)
| Break (low_field : bool) (d : drift)       (* break *)
| Return (d : drift)                         (* return -1 *)
| OutOfFuel.

(** The state in which the loop is left. *)
Definition exit_state (x : drift_exit) : option drift :=
  match x with
  | LeftField d | Break _ d | Return d => Some d
  | OutOfFuel => None
  end.

Definition record_path (q : F) (setup : Setup) (t : Z) (pt : point F)
  : Setup :=
  if q >? fzero then set_dpath_h setup (aset (dpath_h setup) t pt)
  else set_dpath_e setup (aset (dpath_e setup) t pt).

(** Lines 222-235: the bookkeeping of the cloud size for the carrier
    collected at the point contact; gives the new [setup] and [vel1]. *)
Definition track_cloud (collect2pc : bool) (diffusion_coeff : F) (t : Z)
           (v : vector F) (setup : Setup) (vel1 : F) : Setup * F :=
  if collect2pc then
    if (t =? 1)%Z then
      let len := vector_length E v in
      let setup := set_initial_vel setup len in
      let setup := set_final_vel setup len in
      let vel1 := len in
      let setup :=
        set_final_charge_size_sq setup
          (charge_cloud_size setup * charge_cloud_size setup) in
      (setup, vel1)
    else if negb (use_diffusion setup =? 0)%Z then
      let vel0 := vel1 in
      let vel1 := vector_length E v in
      let setup :=
        set_final_charge_size_sq setup
          (final_charge_size_sq setup * (vel1 * vel1) / (vel0 * vel0)
           + diffusion_coeff) in
      (setup, vel1)
    else (setup, vel1)
  else (setup, vel1).

(** Lines 216-265, one call per evaluation of the loop condition. *)
Fixpoint drift_loop (fuel : nat) (q : F) (collect2pc : bool)
         (diffusion_coeff : F) (ntsteps : Z) (d : drift) : drift_exit :=
  match fuel with
  | O => OutOfFuel
  | S fuel' =>
    match drift_velocity E (d_new_pt d) q (d_setup d) with
    | None => LeftField d
    | Some v =>
      let t := d_t d in
      let new_pt := d_new_pt d in
      let setup := record_path q (d_setup d) t new_pt in
      let '(setup, vel1) :=
        track_cloud collect2pc diffusion_coeff t v setup (d_vel1 d) in
      let d1 := {| d_t := t; d_new_pt := new_pt; d_v := v; d_dx := d_dx d;
                   d_vel1 := vel1; d_signal := d_signal d;
                   d_setup := setup; d_wpot := d_wpot d;
                   d_wpot_old := d_wpot_old d |} in
      if (t >=? ntsteps - 2)%Z then
        Break (collect2pc || (d_wpot d >? WP_THRESH_ELECTRONS E)) d1
      else
        match wpotential E new_pt setup with
        | None => Return d1
        | Some wpot =>
          let wpot_old := d_wpot_old d in
          let signal :=
            if (t >? 0)%Z then
              aset (d_signal d) t
                   (aget fzero (d_signal d) t + q * (wpot - wpot_old))
            else d_signal d in
          if (wpot >=? lit (999 # 1000)) &&
             (wpot - wpot_old <? lit (2 # 10000)) then
            Break true
                  {| d_t := t; d_new_pt := new_pt; d_v := v;
                     d_dx := d_dx d; d_vel1 := vel1; d_signal := signal;
                     d_setup := setup; d_wpot := wpot;
                     d_wpot_old := wpot_old |}
          else
            let wpot_old := wpot in
            let dx := vector_scale E v (step_time_calc setup) in
            let new_pt := vector_add E new_pt dx in
            drift_loop fuel' q collect2pc diffusion_coeff ntsteps
              {| d_t := t + 1; d_new_pt := new_pt; d_v := v; d_dx := dx;
                 d_vel1 := vel1; d_signal := signal; d_setup := setup;
                 d_wpot := wpot; d_wpot_old := wpot_old |}
        end
    end
  end.

(** Lines 280-285: the straight drift to the crystal boundary; the
    state is [new_pt] and [setup], the result also holds [n]. *)
Definition edge_body (q : F) (dx : vector F) (t : Z) (n : Z)
           (st : point F * Setup) : (point F * Setup) * bool :=
  let '(new_pt, setup) := st in
  let new_pt := vector_add E new_pt dx in
  let setup := record_path q setup (t + n) new_pt in
  ((new_pt, setup), negb (outside_detector new_pt setup =? 0)%Z).

(** Lines 308-311. *)
Definition smear_body (q dwpot : F) (t : Z) (i : Z) (signal : list F)
  : list F :=
  aset signal (i + t) (aget fzero signal (i + t) + q * dwpot).

(** The result of a call: the return value, the [signal] array, the
    setup and the statics of [make_signal]. *)
Record ms_result : Type := {
  ms_ret : Z;
  ms_signal : list F;
  ms_setup : Setup;
  ms_wpot : F;
  ms_wpot_old : F;
  ms_dwpot : F
}.

Definition ms_return (ret : Z) (signal : list F) (setup : Setup)
           (wpot wpot_old dwpot : F) : option ms_result :=
  Some {| ms_ret := ret; ms_signal := signal; ms_setup := setup;
          ms_wpot := wpot; ms_wpot_old := wpot_old; ms_dwpot := dwpot |}.

(** Lines 280-286: the number [n] of further steps, the last point
    and the setup with the recorded path. *)
Definition edge_drift (q : F) (ntsteps : Z) (d : drift)
  : Z * (point F * Setup) :=
  let t := d_t d in
  let '(n, st) :=
    for_up_break 0 (ntsteps - t) (edge_body q (d_dx d) t)
                 (d_new_pt d, d_setup d) in
  (if (n =? 0)%Z then 1%Z else n, st).

(** Line 292: the steps are used up. *)
Definition truncated (q : F) (ntsteps : Z) (d : drift) : bool :=
  (fst (edge_drift q ntsteps d) + d_t d >=? ntsteps)%Z.

(** Lines 266-316: what follows the drift loop. *)
Definition after_drift (q : F) (ntsteps : Z) (dwpot : F)
           (low_field : bool) (d : drift) : option ms_result :=
  let t := d_t d in
  let wpot := d_wpot d in
  let wpot_old := d_wpot_old d in
  if (t =? 0)%Z then
    ms_return (-1) (d_signal d) (d_setup d) wpot wpot_old dwpot
  else
    let finish signal setup dwpot :=
      let setup :=
        if q >? fzero then set_final_vel setup (vector_length E (d_v d))
        else setup in
      ms_return 0 signal setup wpot wpot_old dwpot in
    if low_field then finish (d_signal d) (d_setup d) dwpot
    else
      let '(n, (new_pt, setup)) := edge_drift q ntsteps d in
      if truncated q ntsteps d &&
         ((q >? fzero) || (wpot >? WP_THRESH_ELECTRONS E)) then
        ms_return (-1) (d_signal d) setup wpot wpot_old dwpot
      else
        let n := if truncated q ntsteps d then (ntsteps - t)%Z else n in
        let dwpot :=
          if wpot >? lit (3 # 10) then (fone - wpot) / of_int n
          else - wpot / of_int n in
        let signal := for_up 0 n (smear_body q dwpot t) (d_signal d) in
        finish signal setup dwpot.

(** The variables on entry of the drift loop; [v], [dx] and [vel0] are
    not initialised and are written before they are read. *)
Definition drift_start (pt : point F) (signal : list F) (setup : Setup)
           (wpot wpot_old : F) : drift :=
  {| d_t := 0; d_new_pt := pt; d_v := zero_pt; d_dx := zero_pt;
     d_vel1 := fzero; d_signal := signal; d_setup := setup;
     d_wpot := wpot; d_wpot_old := wpot_old |}.

(** Lines 208-209: holes for p-type, electrons for n-type. *)
Definition collect2pc (q : F) (setup : Setup) : bool :=
  ((q >? fzero) && (impurity_z0 setup <? fzero)) ||
  ((q <? fzero) && (impurity_z0 setup >? fzero)).

(** Lines 210-214. *)
Definition diffusion_coeff (q : F) (setup : Setup) : F :=
  if q >? fzero then DIFFUSION_COEF_H setup else DIFFUSION_COEF_E setup.

(** Lines 215-265: the drift loop of a call.  The loop is left at the
    latest when [t] reaches [ntsteps - 2], so the fuel suffices
    ([drift_run_fuel]). *)
Definition drift_run (pt : point F) (signal : list F) (q : F)
           (setup : Setup) (wpot wpot_old : F) : drift_exit :=
  let ntsteps := time_steps_calc setup in
  drift_loop (S (Z.to_nat (ntsteps - 2))) q (collect2pc q setup)
             (diffusion_coeff q setup) ntsteps
             (drift_start pt signal setup wpot wpot_old).

(** [static int make_signal(point pt, float *signal, float q,
    MJD_Siggen_Setup *setup)], with the statics [wpot], [wpot_old] and
    [dwpot] as further arguments; [None] only if the drift loop were
    to run out of fuel. *)
Definition make_signal (pt : point F) (signal : list F) (q : F)
           (setup : Setup) (wpot wpot_old dwpot : F) : option ms_result :=
  let ntsteps := time_steps_calc setup in
  match drift_run pt signal q setup wpot wpot_old with
  | OutOfFuel => None
  | Return d =>
      ms_return (-1) (d_signal d) (d_setup d) (d_wpot d) (d_wpot_old d)
                dwpot
  | LeftField d => after_drift q ntsteps dwpot false d
  | Break low_field d => after_drift q ntsteps dwpot low_field d
  end.

(** *** [get_signal] *)

(** [malloc(n * sizeof(float))]: the contents of the new block are
    indeterminate; here they are what the old block held, cut or
    zero-padded to [n] cells. *)
Definition alloc (n : Z) (old : list F) : list F :=
  firstn (Z.to_nat n) (old ++ repeat fzero (Z.to_nat n)).

(** [memset(a, 0, n * sizeof(point))] *)
Definition clear_path (n : Z) (a : list (point F)) : list (point F) :=
  for_up 0 n (fun j a => aset a j zero_pt) a.

(** Lines 103-113 when no call of [malloc] fails: the scratch arrays
    are (re)allocated when the number of steps changes, and [signal] is
    cleared. *)
Definition prepare_statics (setup : Setup) (st : Statics) : Statics :=
  let st :=
    if negb (tsteps st =? time_steps_calc setup)%Z then
      let n := time_steps_calc setup in
      {| signal := alloc n (signal st); sum := alloc n (sum st);
         tmp := alloc n (tmp st); tsteps := n;
         wpot := wpot st; wpot_old := wpot_old st; dwpot := dwpot st |}
    else st in
  {| signal := for_up 0 (tsteps st) (fun j a => aset a j fzero) (signal st);
     sum := sum st; tmp := tmp st; tsteps := tsteps st;
     wpot := wpot st; wpot_old := wpot_old st; dwpot := dwpot st |}.

(** Lines 121-122. *)
Definition clear_paths (setup : Setup) (st : Statics) : Setup :=
  let n := tsteps st in
  let setup := set_dpath_e setup (clear_path n (dpath_e setup)) in
  set_dpath_h setup (clear_path n (dpath_h setup)).

(** Line 124: the call for the electron. *)
Definition electron_call (pt : point F) (setup : Setup) (st : Statics)
  : option ms_result :=
  make_signal pt (signal st) ELECTRON_CHARGE (clear_paths setup st)
              (wpot st) (wpot_old st) (dwpot st).

(** Line 125: the call for the hole, in the state [e] that the call
    for the electron has left. *)
Definition hole_call (pt : point F) (e : ms_result) : option ms_result :=
  make_signal pt (ms_signal e) HOLE_CHARGE (ms_setup e)
              (ms_wpot e) (ms_wpot_old e) (ms_dwpot e).

(** Lines 121-126: the two calls of [make_signal]; [err] is the return
    value of the second. *)
Definition drift_both (pt : point F) (setup : Setup) (st : Statics)
  : option (Z * Setup * Statics) :=
  match electron_call pt setup st with
  | None => None
  | Some e =>
    match hole_call pt e with
    | None => None
    | Some h =>
      Some (ms_ret h, ms_setup h,
            {| signal := ms_signal h; sum := sum st; tmp := tmp st;
               tsteps := tsteps st; wpot := ms_wpot h;
               wpot_old := ms_wpot_old h; dwpot := ms_dwpot h |})
    end
  end.

(** Line 130: from current to charge. *)
Definition integrate_current (n : Z) (signal : list F) : list F :=
  for_up 1 n
    (fun j a => aset a j (aget fzero a j + aget fzero a (j - 1))) signal.

(** Lines 141-151: the width of the Gaussian, in time steps. *)
Definition cloud_dt (setup : Setup) : Z :=
  let dt :=
    to_int (lit (15 # 10) +
            charge_cloud_size setup /
            (step_time_calc setup * initial_vel setup)) in
  let dt := if initial_vel setup <? lit (1 # 100000) then 0%Z else dt in
  if negb (use_diffusion setup =? 0)%Z then
    to_int (lit (15 # 10) +
            fsqrt (final_charge_size_sq setup) /
            (step_time_calc setup * final_vel setup))
  else dt.

(** Lines 164-169; the state is ([signal], [sum], [tmp]) and [signal]
    is only read. *)
Definition conv_inner (k : Z) (y : F) (j : Z)
           (st : list F * list F * list F) : list F * list F * list F :=
  let '(signal, sum, tmp) := st in
  let sum := aset sum j (aget fzero sum j + y) in
  let tmp := aset tmp j (aget fzero tmp j + aget fzero signal (j + k) * y) in
  let sum := aset sum (j + k) (aget fzero sum (j + k) + y) in
  let tmp :=
    aset tmp (j + k) (aget fzero tmp (j + k) + aget fzero signal j * y) in
  (signal, sum, tmp).

(** Lines 161-173, for the [i]-th value [k = l + i*l] of the loop
    variable. *)
Definition conv_outer (n : Z) (w : F) (l : Z) (i : Z)
           (st : list F * list F * list F) : list F * list F * list F :=
  let k := (l + i * l)%Z in
  let x := of_int k / w in
  let y := c_exp E (- (x * x)) in
  let '(signal, sum, tmp) := for_up 0 (n - k) (conv_inner k y) st in
  let signal :=
    for_up 0 n
      (fun j a => aset a j (aget fzero tmp j / aget fzero sum j)) signal in
  (signal, sum, tmp).

(** Lines 152-174.  The loop [for (k = l; k < 2*dt; k += l)] runs for
    the [(2*dt - 1) / l] multiples of [l] below [2*dt]. *)
Definition gaussian (n : Z) (dt : Z) (st : list F * list F * list F)
  : list F * list F * list F :=
  let '(signal, sum, tmp) := st in
  if (dt >? 1)%Z then
    let w := of_int dt / lit (2355 # 1000) in
    let l := Z.quot dt 5 in
    let l := if (l <? 1)%Z then 1%Z else l in
    let sum := for_up 0 n (fun j a => aset a j fone) sum in
    let tmp := for_up 0 n (fun j a => aset a j (aget fzero signal j)) tmp in
    for_up 0 (Z.quot (2 * dt - 1) l) (conv_outer n w l) (signal, sum, tmp)
  else st.

(** Lines 179-182; [None] when the division of line 179 kills the
    program, before [signal_out] is written.  The divisor [comp_f] of
    line 182 is not 0 when the loop runs. *)
Definition compress (setup : Setup) (signal : list F) (signal_out : list F)
  : option (list F) :=
  match int_div (time_steps_calc setup) (ntsteps_out setup) with
  | None => None
  | Some comp_f =>
    let signal_out :=
      for_up 0 (ntsteps_out setup) (fun j a => aset a j fzero) signal_out in
    Some (for_up 0 (ntsteps_out setup * comp_f)
            (fun j a =>
               aset a (Z.quot j comp_f)
                    (aget fzero a (Z.quot j comp_f) +
                     aget fzero signal j / of_int comp_f))
            signal_out)
  end.

(** Lines 185-187: the RC integration for the preamp rise time, done
    in place: both pointers are [signal_out]. *)
Definition preamp (setup : Setup) (signal_out : list F) : list F :=
  let tau := preamp_tau setup / step_time_out setup in
  if tau >=? lit (1 # 10) then
    rc_integrate (fun _ => signal_out) 0%nat 0%nat tau (ntsteps_out setup)
                 0%nat
  else signal_out.

(** Lines 132-188; [signal_out] is [None] for a NULL pointer, and the
    result is [None] when the program is killed at line 179. *)
Definition shape_signal (setup : Setup) (st : Statics)
           (signal_out : option (list F))
  : option (Statics * option (list F)) :=
  match signal_out with
  | None => Some (st, None)
  | Some out =>
    let '(signal, sum, tmp) :=
      if (charge_cloud_size setup >? lit (1 # 1000)) ||
         negb (use_diffusion setup =? 0)%Z
      then gaussian (tsteps st) (cloud_dt setup) (signal st, sum st, tmp st)
      else (signal st, sum st, tmp st) in
    match compress setup signal out with
    | None => None
    | Some out =>
      let out := preamp setup out in
      Some ({| signal := signal; sum := sum; tmp := tmp;
               tsteps := tsteps st; wpot := wpot st;
               wpot_old := wpot_old st; dwpot := dwpot st |},
            Some out)
    end
  end.

(** The outcome of a call of [get_signal]: the return value, the
    caller's [signal_out], the caller's setup and the statics. *)
Record gs_result : Type := {
  gs_ret : Z;
  gs_out : option (list F);
  gs_setup : Setup;
  gs_statics : Statics
}.

(** Lines 104-110 when one of the three calls of [malloc] fails, of
    which [granted] (0, 1 or 2) have succeeded: [tsteps] is written
    first; [signal], [tmp] and [sum] are assigned in this order up to
    the call that fails, which leaves a NULL pointer, a block of no
    cells here; the pointers after it keep their blocks. *)
Definition alloc_failed (granted : nat) (setup : Setup) (st : Statics)
  : Statics :=
  let n := time_steps_calc setup in
  {| signal := match granted with
               | O => []
               | _ => alloc n (signal st)
               end;
     sum := match granted with
            | O | 1%nat => sum st
            | _ => []
            end;
     tmp := match granted with
            | O => tmp st
            | 1%nat => []
            | _ => alloc n (tmp st)
            end;
     tsteps := n;
     wpot := wpot st; wpot_old := wpot_old st; dwpot := dwpot st |}.

(** The calls of [malloc] of lines 105-107 are not made, or all three
    succeed. *)
Definition allocated (granted : nat) (setup : Setup) (st : Statics)
  : bool :=
  (tsteps st =? time_steps_calc setup)%Z || (3 <=? granted)%nat.

(** [int get_signal(point pt, float *signal_out, MJD_Siggen_Setup
    *setup)], in a process with the statics [st]; [granted] is the
    number of calls of [malloc] that succeed, if the function makes
    them.  The result is [None] when the call does not return: the
    program is killed by the division of line 179 (the drift loops do
    not run out of fuel, [drift_run_fuel]). *)
Definition get_signal (granted : nat) (pt : point F)
           (signal_out : option (list F)) (setup : Setup) (st : Statics)
  : option gs_result :=
  if negb (allocated granted setup st) then
    Some {| gs_ret := -1; gs_out := signal_out; gs_setup := setup;
            gs_statics := alloc_failed granted setup st |}
  else
  let st := prepare_statics setup st in
  if negb (outside_detector pt setup =? 0)%Z then
    Some {| gs_ret := -1; gs_out := signal_out; gs_setup := setup;
            gs_statics := st |}
  else
    match drift_both pt setup st with
    | None => None
    | Some (err, setup, st) =>
      let st :=
        {| signal := integrate_current (tsteps st) (signal st);
           sum := sum st; tmp := tmp st; tsteps := tsteps st;
           wpot := wpot st; wpot_old := wpot_old st; dwpot := dwpot st |} in
      match shape_signal setup st signal_out with
      | None => None
      | Some (st, out) =>
        Some {| gs_ret := if negb (err =? 0)%Z then -1 else 1;
                gs_out := out; gs_setup := setup; gs_statics := st |}
      end
    end.
(** The scratch arrays hold [tsteps] cells: so it is at start-up and
    after every call in which no allocation fails. *)
Definition statics_ok (st : Statics) : Prop :=
  length (signal st) = Z.to_nat (tsteps st) /\
  length (sum st) = Z.to_nat (tsteps st) /\
  length (tmp st) = Z.to_nat (tsteps st).

(** What a call gives to its caller (return value, output signal and
    setup) and the static of [make_signal] that the next call reads
    before it is written. *)
Definition visible (r : gs_result) : Z * option (list F) * Setup * F :=
  (gs_ret r, gs_out r, gs_setup r, wpot_old (gs_statics r)).

(** The three arrays of the Gaussian smoothing keep their lengths. *)
Definition same_lengths (st st' : list F * list F * list F) : Prop :=
  let '(s, u, t) := st in
  let '(s', u', t') := st' in
  length s' = length s /\ length u' = length u /\ length t' = length t.
End CalcSignal.

(** ** [mjd_fieldgen.c]: the relaxation on one grid *)

Section Fieldgen.
Context {F : Type} {ops : FloatOps F}.
Local Open Scope fl_scope.
Local Open Scope Z_scope.
Local Abbreviation Setup := (MJD_Siggen_Setup F).

(** [a[z][r]] for a two-dimensional array [a]. *)
Definition upd2 {A : Type} (a : Z -> Z -> A) (z r : Z) (x : A)
  : Z -> Z -> A :=
  fun z' r' => if (z' =? z) && (r' =? r) then x else a z' r'.

(** [v[b][z][r] = x] for the two planes [v[0]] and [v[1]]. *)
Definition vset (v : Z -> Z -> Z -> F) (b z r : Z) (x : F)
  : Z -> Z -> Z -> F :=
  fun b' => if b' =? b then upd2 (v b) z r x else v b'.

(** The geometry in units of the current grid size. *)
Record Dims : Type := {
  L : Z;    (* length of detector *)
  R : Z;    (* radius of detector *)
  LC : Z;   (* length of central contact *)
  RC : Z;   (* radius of central contact *)
  LT : Z;   (* length of taper *)
  RO : Z;   (* radius of wrap-around outer contact *)
  LO : Z;   (* length of ditch *)
  WO : Z;   (* width of ditch *)
  dLC : F;  (* from PC length to the middle of the nearest pixel *)
  dRC : F   (* from PC radius to the middle of the nearest pixel *)
}.

(** Lines 392-413 (with [tol = 0.01]) and 757-774 (with [tol = 0.05]):
    the dimensions for the grid size [grid]. *)
Definition level_dims (tol : F) (setup : Setup) (grid : F) : Dims :=
  let L := lrint (xtal_length setup / grid)%fl in
  let R := lrint (xtal_radius setup / grid)%fl in
  let LC := lrint (pc_length setup / grid)%fl in
  let dLC := (pc_length setup / grid - of_int LC)%fl in
  let dLC := if (dLC <? tol)%fl && (dLC >? - tol)%fl then fzero else dLC in
  let RC := lrint (pc_radius setup / grid)%fl in
  let dRC := (pc_radius setup / grid - of_int RC)%fl in
  let dRC :=
    if (dRC <? lit (5 # 100))%fl && (dRC >? - lit (5 # 100))%fl
    then fzero else dRC in
  let LT := lrint (taper_length setup / grid)%fl in
  let RO := lrint (wrap_around_radius setup / grid)%fl in
  let LO := lrint (ditch_depth setup / grid)%fl in
  let WO := lrint (ditch_thickness setup / grid)%fl in
  let RO := if (RO <=? 0) || (RO >=? R) then R - LT else RO in
  {| L := L; R := R; LC := LC; RC := RC; LT := LT; RO := RO; LO := LO;
     WO := WO; dLC := dLC; dRC := dRC |}.

(** The pixel is on the outside (HV) contact: lines 447-450, 822-825. *)
Definition on_outer (D : Dims) (z r : Z) : bool :=
  (z =? L D) || (r =? R D) || (r >=? z + R D - LT D) ||
  ((z =? 0) && (r >=? RO D)).

(** The pixel is on the inside (point) contact: lines 455, 830. *)
Definition on_pc (D : Dims) (z r : Z) : bool :=
  (z <=? LC D) && (r <=? RC D).

(** Lines 319-324: the weights of the relaxation as a function of r. *)
Definition s1 (r : Z) : F :=
  if r =? 0 then lit 2 else (fone + lit (5 # 10) / of_int r)%fl.
Definition s2 (r : Z) : F :=
  if r =? 0 then fzero else (fone - lit (5 # 10) / of_int r)%fl.

(** *** Permittivity: lines 429-436 and 808-815 *)

Record Eps : Type := {
  eps : Z -> Z -> F;
  eps_dr : Z -> Z -> F;
  eps_dz : Z -> Z -> F
}.

Definition eps_pixel (D : Dims) (z r : Z) (e : Eps) : Eps :=
  let eps0 := upd2 (eps e) z r (lit 16) in
  let eps_dz0 := upd2 (eps_dz e) z r (lit 16) in
  let eps_dr0 := upd2 (eps_dr e) z r (lit 16) in
  let eps0 :=
    if (z <? LO D) && (r <? RO D) && (r >? RO D - WO D - 1)
    then upd2 eps0 z r fone else eps0 in
  let eps_dr0 :=
    if r >? 0
    then upd2 eps_dr0 z (r - 1)%Z ((eps0 z (r - 1)%Z + eps0 z r) / lit 2)%fl
    else eps_dr0 in
  let eps_dz0 :=
    if z >? 0
    then upd2 eps_dz0 (z - 1)%Z r ((eps0 (z - 1)%Z r + eps0 z r) / lit 2)%fl
    else eps_dz0 in
  {| eps := eps0; eps_dr := eps_dr0; eps_dz := eps_dz0 |}.

Definition set_permittivity (D : Dims) (e : Eps) : Eps :=
  for_up 0 (L D + 1) (fun z => for_up 0 (R D + 1) (eps_pixel D z)) e.

(** *** Boundary conditions *)

(** What the boundary loops write: the pixel tags [bulk], the fraction
    of the pixel that carries space charge, the two planes of the
    potential and the interpolation weights of the contact edges. *)
Record Bounds : Type := {
  vfraction : Z -> Z -> F;
  bulk : Z -> Z -> Z;
  v : Z -> Z -> Z -> F;
  fRC : F;
  fLC : F
}.

Definition fix_pixel (b : Bounds) (z r : Z) (tag : Z) (x : F) : Bounds :=
  {| vfraction := vfraction b; bulk := upd2 (bulk b) z r tag;
     v := vset (vset (v b) 1 z r x) 0 z r x; fRC := fRC b; fLC := fLC b |}.

Definition tag_pixel (b : Bounds) (z r : Z) (tag : Z) : Bounds :=
  {| vfraction := vfraction b; bulk := upd2 (bulk b) z r tag;
     v := v b; fRC := fRC b; fLC := fLC b |}.

Definition set_vfraction (b : Bounds) (z r : Z) (x : F) : Bounds :=
  {| vfraction := upd2 (vfraction b) z r x; bulk := bulk b;
     v := v b; fRC := fRC b; fLC := fLC b |}.

Definition set_fRC (b : Bounds) (x : F) : Bounds :=
  {| vfraction := vfraction b; bulk := bulk b; v := v b;
     fRC := x; fLC := fLC b |}.

Definition set_fLC (b : Bounds) (x : F) : Bounds :=
  {| vfraction := vfraction b; bulk := bulk b; v := v b;
     fRC := fRC b; fLC := x |}.

(** Lines 440-490: the body of the boundary loop of the potential. *)
Definition bounds_pixel (D : Dims) (BV : F) (z r : Z) (b : Bounds)
  : Bounds :=
  let b := set_vfraction b z r fone in
  let b :=
    if (z <? LO D) && (r <? RO D) && (r >? RO D - WO D - 1)
    then set_vfraction b z r fzero else b in
  let b := tag_pixel b z r 0 in
  if on_outer D z r then fix_pixel b z r (-1) BV
  else if on_pc D z r then
    let b := fix_pixel b z r (-1) fzero in
    let b :=
      if (r =? RC D) && (dRC D <? - lit (5 # 100))%fl then
        let b := tag_pixel b z r 1 in
        let b := set_fRC b (- fone / dRC D)%fl in
        set_vfraction b z r (vfraction b z r * (- lit 2 * dRC D))%fl
      else b in
    if (z =? LC D) && (dLC D <? - lit (5 # 100))%fl then
      let b := tag_pixel b z r 2 in
      let b := set_fLC b (- fone / dLC D)%fl in
      set_vfraction b z r (vfraction b z r * (- lit 2 * dRC D))%fl
    else b
  else if (z <=? LC D) && (r =? RC D + 1) && (dRC D >? lit (5 # 100))%fl
  then
    let b := tag_pixel b z r 1 in
    set_fRC b (fone / (fone - dRC D))%fl
  else if (z =? LC D + 1) && (r <=? RC D) && (dLC D >? lit (5 # 100))%fl
  then
    let b := tag_pixel b z r 2 in
    set_fLC b (fone / (fone - dLC D))%fl
  else b.

(** Lines 438-492. *)
Definition set_bounds (D : Dims) (BV : F) (b : Bounds) : Bounds :=
  for_up 0 (L D + 1) (fun z => for_up 0 (R D + 1) (bounds_pixel D BV z)) b.

(** *** The relaxation of the potential *)

(** What a sweep reads but does not write. *)
Record Level : Type := {
  dims : Dims;
  perm : Eps;
  tags : Z -> Z -> Z;           (* bulk *)
  vfrac : Z -> Z -> F;          (* vfraction *)
  w_fRC : F;
  w_fLC : F;
  N : F;                        (* charge density at z = 0 *)
  MM : F;                       (* gradient per grid step *)
  e_over_E : F
}.

(** What a sweep writes. *)
Record Relax : Type := {
  pot : Z -> Z -> Z -> F;              (* v *)
  undepleted : Z -> Z -> Ascii.ascii;  (* undepleted[r][z] *)
  bubble_volts : F;
  sum_dif : F;
  max_dif : F
}.

(** The weighted sum [v_sum], the sum of weights [eps_sum] and the
    minimum [min] of the neighbours of a pixel. *)
Record Stencil : Type := { v_sum : F; eps_sum : F; min : F }.

(** [v_sum += term; eps_sum += w; min = fminf(min, x)] *)
Definition st_add (s : Stencil) (x term w : F) : Stencil :=
  {| v_sum := (v_sum s + term)%fl; eps_sum := (eps_sum s + w)%fl;
     min := fmin (min s) x |}.

(** [v_sum += term; eps_sum += w] *)
Definition st_add_nomin (s : Stencil) (term w : F) : Stencil :=
  {| v_sum := (v_sum s + term)%fl; eps_sum := (eps_sum s + w)%fl;
     min := min s |}.

(** Lines 512-578: [None] is the [return 1] of an undefined tag. *)
Definition stencil (lv : Level) (vo : Z -> Z -> F) (z r : Z)
  : option Stencil :=
  let edz := eps_dz (perm lv) in
  let edr := eps_dr (perm lv) in
  let tag := tags lv z r in
  let up := {| v_sum := (vo (z + 1)%Z r * edz z r
                         + vo z (r + 1)%Z * edr z r * s1 r)%fl;
               eps_sum := (edz z r + edr z r * s1 r)%fl;
               min := fmin (vo (z + 1)%Z r) (vo z (r + 1)%Z) |} in
  let below (s : Stencil) :=
    if z >? 0 then
      st_add s (vo (z - 1)%Z r) (vo (z - 1)%Z r * edz (z - 1)%Z r)%fl
             (edz (z - 1)%Z r)
    else   (* reflection symmetry around z = 0 *)
      st_add_nomin s (vo (z + 1)%Z r * edz z r)%fl (edz z r) in
  let inner (s : Stencil) :=
    if r >? 0 then
      st_add s (vo z (r - 1)%Z) (vo z (r - 1)%Z * edr z (r - 1)%Z * s2 r)%fl
             (edr z (r - 1)%Z * s2 r)%fl
    else   (* reflection symmetry around r = 0 *)
      st_add_nomin s (vo z (r + 1)%Z * edr z r * s1 r)%fl
                   (edr z r * s1 r)%fl in
  if tag =? 0 then Some (inner (below up))
  else if tag =? 1 then
    let s :=
      {| v_sum := (v_sum up + vo z (r - 1)%Z * edr z (r - 1)%Z * s2 r
                             * w_fRC lv)%fl;
         eps_sum := (eps_sum up + edr z (r - 1)%Z * s2 r * w_fRC lv)%fl;
         min := fmin (min up) (vo z (r - 1)%Z) |} in
    Some (below s)
  else if tag =? 2 then
    let s :=
      {| v_sum := (v_sum up + vo (z - 1)%Z r * edz (z - 1)%Z r * w_fLC lv)%fl;
         eps_sum := (eps_sum up + edz (z - 1)%Z r * w_fLC lv)%fl;
         min := fmin (min up) (vo (z - 1)%Z r) |} in
    let s := inner s in
    if (z =? LC (dims lv)) && (tags lv (z - 1)%Z r =? 1) then
      Some {| v_sum := (v_sum s + vo z (r - 1)%Z * edr z (r - 1)%Z * s2 r
                                  * (w_fRC lv - fone))%fl;
              eps_sum := (eps_sum s + edr z (r - 1)%Z * s2 r
                                      * (w_fRC lv - fone))%fl;
              min := fmin (min s) (vo z (r - 1)%Z) |}
    else Some s
  else None.

(** Lines 583-592: given the value [v_new] of line 582, the new value
    of the pixel, of [bubble_volts] and of the mark [undepleted[r][z]]. *)
Definition clamp (vfr v_new mn bubble : F) (mark : Ascii.ascii)
  : F * F * Ascii.ascii :=
  let mark := if (vfr >? lit (45 # 100))%fl then "."%char else mark in
  if (v_new <=? fzero)%fl then
    (fzero, bubble,
     if (vfr >? lit (45 # 100))%fl then "*"%char else mark)
  else if (v_new <? mn)%fl then
    let bubble :=
      if (bubble =? fzero)%fl then (mn + lit (1 # 10))%fl else bubble in
    (bubble, bubble,
     if (vfr >? lit (45 # 100))%fl then "*"%char else mark)
  else (v_new, bubble, mark).

(** Lines 594-597. *)
Definition track_dif (v_old v_new : F) (sum_dif max_dif : F) : F * F :=
  let dif := (v_old - v_new)%fl in
  let dif := if (dif <? fzero)%fl then (- dif)%fl else dif in
  let sum_dif := (sum_dif + dif)%fl in
  (sum_dif, if (max_dif <? dif)%fl then dif else max_dif).

(** Lines 581-582: the interpolated mean potential and the effect of
    the space charge. *)
Definition raw_value (lv : Level) (st : Stencil) (z r : Z) : F :=
  let mean := (v_sum st / eps_sum st)%fl in
  (mean + vfrac lv z r * (N lv + MM lv * of_int z) * e_over_E lv)%fl.

(** Lines 510-598: the body of the sweep; [None] once [main] has
    returned. *)
Definition relax_pixel (lv : Level) (old new : Z) (z r : Z)
           (s : option Relax) : option Relax :=
  match s with
  | None => None
  | Some s =>
    if tags lv z r <? 0 then Some s
    else
      match stencil lv (pot s old) z r with
      | None => None
      | Some st =>
        let v_new := raw_value lv st z r in
        let '(v_new, bubble, mark) :=
          clamp (vfrac lv z r) v_new (min st) (bubble_volts s)
                (undepleted s r z) in
        let '(sum_dif, max_dif) :=
          track_dif (pot s old z r) v_new (sum_dif s) (max_dif s) in
        Some {| pot := vset (pot s) new z r v_new;
                undepleted := upd2 (undepleted s) r z mark;
                bubble_volts := bubble;
                sum_dif := sum_dif; max_dif := max_dif |}
      end
  end.

(** Lines 504-599: one iteration, reading plane [old] and writing
    plane [new]. *)
Definition sweep (lv : Level) (old new : Z) (s : Relax) : option Relax :=
  let s := {| pot := pot s; undepleted := undepleted s;
              bubble_volts := fzero; sum_dif := fzero;
              max_dif := fzero |} in
  for_up 0 (L (dims lv))
         (fun z => for_up 0 (R (dims lv)) (relax_pixel lv old new z))
         (Some s).

(** The same iteration when its loops reach the pixel [(z, r)]: the
    rows below [z] and the pixels of row [z] below [r] are done.  The
    sweep itself is [sweep_until] at [(L, 0)]. *)
Definition sweep_until (lv : Level) (old new : Z) (s : Relax) (z r : Z)
  : option Relax :=
  let s := {| pot := pot s; undepleted := undepleted s;
              bubble_volts := fzero; sum_dif := fzero;
              max_dif := fzero |} in
  for_up 0 r (relax_pixel lv old new z)
    (for_up 0 z
       (fun z' => for_up 0 (R (dims lv)) (relax_pixel lv old new z'))
       (Some s)).

(** Lines 497-503: the planes are exchanged at the start of every
    iteration; [old] is 1 before the first. *)
Definition flip (old : Z) : Z := if old =? 0 then 1 else 0.

(** The state of the iteration: [old] and what the sweeps write. *)
Definition relax_body (lv : Level) (tol : F) (iter : Z)
           (st : Z * option Relax) : (Z * option Relax) * bool :=
  let '(old, s) := st in
  match s with
  | None => (st, true)
  | Some s =>
    let old := flip old in
    let new := flip old in
    match sweep lv old new s with
    | None => ((old, None), true)
    | Some s' => ((old, Some s'), (max_dif s' <? tol)%fl)
    end
  end.

(** Lines 496-604: the relaxation, at most [max_its] iterations; the
    result is the number of iterations done before the loop was left,
    [old] and the state. *)
Definition relax (lv : Level) (max_its : Z) (s : Relax)
  : Z * (Z * option Relax) :=
  for_up_break 0 max_its (relax_body lv (lit (1 # 1000000000)))
               (1, Some s).

(** Lines 429-492 for one grid: the tables of the level and the
    potential with its boundary values, from the potential [v0] that
    the initial guess or the coarser grid left. *)
Definition level_of (D : Dims) (e : Eps) (b : Bounds) (n mm eoe : F)
  : Level :=
  {| dims := D; perm := e; tags := bulk b; vfrac := vfraction b;
     w_fRC := fRC b; w_fLC := fLC b; N := n; MM := mm; e_over_E := eoe |}.

(** Lines 415-423: the initial guess on the first grid. *)
Definition initial_guess (D : Dims) (BV : F) (v : Z -> Z -> Z -> F)
  : Z -> Z -> Z -> F :=
  for_up 0 (L D)
    (fun z v =>
       let a := (BV * of_int z / of_int (L D))%fl in
       for_up 0 (R D)
         (fun r v =>
            vset v 0 z r (a + (BV - a) * of_int r / of_int (R D))%fl) v)
    v.

(** Lines 358-492 for one grid size: the tables of the level and the
    boundary values.  The potential [v b] comes from the coarser grid,
    or is guessed on the first grid ([istep = 0]). *)
Definition potential_setup (setup : Setup) (grid BV n m : F) (istep : Z)
           (e : Eps) (b : Bounds) : Level * Bounds :=
  let eoe := (lit (7072 # 10000) * lit 4 * grid * grid)%fl in
  let mm := (lit (1 # 10) * m * grid)%fl in
  let D := level_dims (lit (1 # 100)) setup grid in
  let v0 := if istep =? 0 then initial_guess D BV (v b) else v b in
  let e := set_permittivity D e in
  let b := set_bounds D BV
             {| vfraction := vfraction b; bulk := bulk b; v := v0;
                fRC := fRC b; fLC := fLC b |} in
  (level_of D e b n mm eoe, b).

(** The variables of the sweeps before the first iteration: lines
    358-360 and 504-506. *)
Definition relax_start (b : Bounds) (marks : Z -> Z -> Ascii.ascii)
  : Relax :=
  {| pot := v b; undepleted := marks; bubble_volts := fzero;
     sum_dif := fzero; max_dif := fzero |}.

(** Lines 358-604 for one grid size. *)
Definition potential_level (setup : Setup) (grid BV n m : F) (istep : Z)
           (max_its : Z) (e : Eps) (b : Bounds)
           (marks : Z -> Z -> Ascii.ascii)
  : Level * (Z * (Z * option Relax)) :=
  let '(lv, b) := potential_setup setup grid BV n m istep e b in
  (lv, relax lv max_its (relax_start b marks)).

(** Lines 608-616: pinch-off is told from no depletion. *)
Definition mark_pinch_off (D : Dims) (vn : Z -> Z -> F)
           (st : Z * (Z -> Z -> Ascii.ascii))
  : Z * (Z -> Z -> Ascii.ascii) :=
  for_up 0 (R D + 1)
    (fun r =>
       for_up 0 (L D + 1)
         (fun z (st : Z * (Z -> Z -> Ascii.ascii)) =>
            let '(fully_depleted, marks) := st in
            if Ascii.eqb (marks r z) "*" then
              (0,
               if (vn z r >? lit (1 # 1000))%fl
               then upd2 marks r z "B"%char else marks)
            else st))
    (1, snd st).

(** *** The relaxation of the weighting potential *)

(** Lines 819-863: the body of the boundary loop of the weighting
    potential. *)
Definition wp_bounds_pixel (D : Dims) (fully_depleted gridfact : Z)
           (marks : Z -> Z -> Ascii.ascii) (z r : Z) (b : Bounds)
  : Bounds :=
  let b := tag_pixel b z r 0 in
  let b :=
    if on_outer D z r then fix_pixel b z r (-1) fzero
    else if on_pc D z r then
      let b := fix_pixel b z r (-1) fone in
      let b :=
        if (r =? RC D) && (dRC D <? - lit (5 # 100))%fl then
          set_fRC (tag_pixel b z r 1) (- fone / dRC D)%fl
        else b in
      if (z =? LC D) && (dLC D <? - lit (5 # 100))%fl then
        set_fLC (tag_pixel b z r 2) (- fone / dLC D)%fl
      else b
    else if (z <=? LC D) && (r =? RC D + 1) && (dRC D >? lit (5 # 100))%fl
    then set_fRC (tag_pixel b z r 1) (fone / (fone - dRC D))%fl
    else if (z =? LC D + 1) && (r <=? RC D) && (dLC D >? lit (5 # 100))%fl
    then set_fLC (tag_pixel b z r 2) (fone / (fone - dLC D))%fl
    else b in
  if fully_depleted =? 0 then
    if Ascii.eqb (marks (r * gridfact) (z * gridfact)) "*" then
      fix_pixel b z r (-1) fone
    else if Ascii.eqb (marks (r * gridfact) (z * gridfact)) "B" then
      tag_pixel b z r 3
    else b
  else b.

(** Lines 817-865. *)
Definition wp_set_bounds (D : Dims) (fully_depleted gridfact : Z)
           (marks : Z -> Z -> Ascii.ascii) (b : Bounds) : Bounds :=
  for_up 0 (L D + 1)
    (fun z =>
       for_up 0 (R D + 1)
              (wp_bounds_pixel D fully_depleted gridfact marks z)) b.

(** What a sweep of the weighting potential writes. *)
Record WRelax : Type := {
  wpot_v : Z -> Z -> Z -> F;    (* v *)
  w_sum_dif : F;
  w_max_dif : F;
  pinched_sum1 : F;
  pinched_sum2 : F
}.

(** Lines 930-945: a pinched-off pixel adds its normal-bulk neighbours
    to the sums of the island. *)
Definition pinched (lv : Level) (vo : Z -> Z -> F) (z r : Z)
           (p : F * F) : F * F :=
  let edz := eps_dz (perm lv) in
  let edr := eps_dr (perm lv) in
  let add (c : bool) (term w : F) (p : F * F) : F * F :=
    if c then ((fst p + term)%fl, (snd p + w)%fl) else p in
  let p := add (tags lv (z + 1)%Z r =? 0)
               (vo (z + 1)%Z r * edz z r)%fl (edz z r) p in
  let p := add (tags lv z (r + 1)%Z =? 0)
               (vo z (r + 1)%Z * edr z r * s1 r)%fl (edr z r * s1 r)%fl p in
  let p := add ((z >? 0) && (tags lv (z - 1)%Z r =? 0))
               (vo (z - 1)%Z r * edz (z - 1)%Z r)%fl (edz (z - 1)%Z r) p in
  add ((r >? 0) && (tags lv z (r - 1)%Z =? 0))
      (vo z (r - 1)%Z * edr z (r - 1)%Z * s2 r)%fl
      (edr z (r - 1)%Z * s2 r)%fl p.

(** Lines 882-961; the sums of lines 884-927 are those of the
    potential, without the minimum. *)
Definition wp_pixel (lv : Level) (old new : Z) (z r : Z)
           (s : option WRelax) : option WRelax :=
  match s with
  | None => None
  | Some s =>
    let tag := tags lv z r in
    if tag <? 0 then Some s
    else if tag =? 3 then
      let '(p1, p2) :=
        pinched lv (wpot_v s old) z r (pinched_sum1 s, pinched_sum2 s) in
      Some {| wpot_v := wpot_v s; w_sum_dif := w_sum_dif s;
              w_max_dif := w_max_dif s;
              pinched_sum1 := p1; pinched_sum2 := p2 |}
    else
      match stencil lv (wpot_v s old) z r with
      | None => None
      | Some st =>
        let mean := (v_sum st / eps_sum st)%fl in
        let '(sum_dif, max_dif) :=
          track_dif (wpot_v s old z r) mean (w_sum_dif s) (w_max_dif s) in
        Some {| wpot_v := vset (wpot_v s) new z r mean;
                w_sum_dif := sum_dif; w_max_dif := max_dif;
                pinched_sum1 := pinched_sum1 s;
                pinched_sum2 := pinched_sum2 s |}
      end
  end.

(** Lines 967-977: every pinched-off pixel takes the mean of the
    island. *)
Definition float_pixel (lv : Level) (old new : Z) (mean : F) (z r : Z)
           (s : WRelax) : WRelax :=
  if tags lv z r =? 3 then
    let '(sum_dif, max_dif) :=
      track_dif (wpot_v s old z r) mean (w_sum_dif s) (w_max_dif s) in
    {| wpot_v := vset (wpot_v s) new z r mean;
       w_sum_dif := sum_dif; w_max_dif := max_dif;
       pinched_sum1 := pinched_sum1 s; pinched_sum2 := pinched_sum2 s |}
  else s.

(** Lines 876-978: one iteration. *)
Definition wp_sweep (lv : Level) (old new : Z) (s : WRelax)
  : option WRelax :=
  let s := {| wpot_v := wpot_v s; w_sum_dif := fzero; w_max_dif := fzero;
              pinched_sum1 := fzero; pinched_sum2 := fzero |} in
  match for_up 0 (L (dims lv))
               (fun z => for_up 0 (R (dims lv)) (wp_pixel lv old new z))
               (Some s) with
  | None => None
  | Some s =>
    if (pinched_sum2 s >? lit (1 # 10))%fl then
      let mean := (pinched_sum1 s / pinched_sum2 s)%fl in
      Some (for_up 0 (L (dims lv))
              (fun z =>
                 for_up 0 (R (dims lv)) (float_pixel lv old new mean z)) s)
    else Some s
  end.

Definition wp_relax_body (lv : Level) (tol : F) (iter : Z)
           (st : Z * option WRelax) : (Z * option WRelax) * bool :=
  let '(old, s) := st in
  match s with
  | None => (st, true)
  | Some s =>
    let old := flip old in
    let new := flip old in
    match wp_sweep lv old new s with
    | None => ((old, None), true)
    | Some s' => ((old, Some s'), (w_max_dif s' <? tol)%fl)
    end
  end.

(** Lines 868-986. *)
Definition wp_relax (lv : Level) (max_its : Z) (s : WRelax)
  : Z * (Z * option WRelax) :=
  for_up_break 0 max_its (wp_relax_body lv (lit (1 # 10000000000)))
               (1, Some s).

(** Lines 776-802: the initial weighting potential on the first grid. *)
Definition wp_initial_guess (D : Dims) (v : Z -> Z -> Z -> F)
  : Z -> Z -> Z -> F :=
  let both (v : Z -> Z -> Z -> F) z r x := vset (vset v 1 z r x) 0 z r x in
  let v :=
    for_up 0 (L D + 1)
      (fun z => for_up 0 (R D + 1) (fun r v => both v z r fzero)) v in
  let a := of_int (LC D + Z.quot (RC D) 2) in
  let b := (lit 2 * a / of_int (L D + R D))%fl in
  let v :=
    for_up 1 (L D)
      (fun z =>
         for_up 1 (R D)
           (fun r v =>
              let c := (a / fsqrt (of_int (z * z + r * r)) - b)%fl in
              let c := if (c <? fzero)%fl then fzero else c in
              let c := if (c >? fone)%fl then fone else c in
              both v z r c)) v in
  for_up 0 (LC D + 1)
    (fun z => for_up 0 (RC D + 1) (fun r v => both v z r fone)) v.

(** Lines 724-865 for one grid size. *)
Definition weighting_setup (setup : Setup) (grid n mm eoe : F) (istep : Z)
           (fully_depleted : Z) (marks : Z -> Z -> Ascii.ascii)
           (e : Eps) (b : Bounds) : Level * Bounds :=
  let gridfact := lrint (grid / xtal_grid setup)%fl in
  let D := level_dims (lit (5 # 100)) setup grid in
  let v0 := if istep =? 0 then wp_initial_guess D (v b) else v b in
  let e := set_permittivity D e in
  let b := wp_set_bounds D fully_depleted gridfact marks
             {| vfraction := vfraction b; bulk := bulk b; v := v0;
                fRC := fRC b; fLC := fLC b |} in
  (level_of D e b n mm eoe, b).

(** The variables of the sweeps before the first iteration: lines
    725-726 and 876-878. *)
Definition wp_start (b : Bounds) : WRelax :=
  {| wpot_v := v b; w_sum_dif := fzero; w_max_dif := fzero;
     pinched_sum1 := fzero; pinched_sum2 := fzero |}.

(** Lines 724-986 for one grid size. *)
Definition weighting_level (setup : Setup) (grid n mm eoe : F) (istep : Z)
           (max_its : Z) (fully_depleted : Z)
           (marks : Z -> Z -> Ascii.ascii) (e : Eps) (b : Bounds)
  : Level * (Z * (Z * option WRelax)) :=
  let '(lv, b) :=
    weighting_setup setup grid n mm eoe istep fully_depleted marks e b in
  (lv, wp_relax lv max_its (wp_start b)).
(** *** The states of a relaxation *)

(** The pixel is on an edge of the point contact that does not fall on
    the middle of a pixel: lines 461 and 470, 834 and 839. *)
Definition pc_edge (D : Dims) (z r : Z) : bool :=
  ((r =? RC D) && (dRC D <? - lit (5 # 100))%fl) ||
  ((z =? LC D) && (dLC D <? - lit (5 # 100))%fl).

(** The tag that lines 445-490 give to a pixel. *)
Definition bounds_tag (D : Dims) (z r : Z) : Z :=
  if on_outer D z r then -1
  else if on_pc D z r then
    if (z =? LC D) && (dLC D <? - lit (5 # 100))%fl then 2
    else if (r =? RC D) && (dRC D <? - lit (5 # 100))%fl then 1
    else -1
  else if (z <=? LC D) && (r =? RC D + 1) && (dRC D >? lit (5 # 100))%fl
  then 1
  else if (z =? LC D + 1) && (r <=? RC D) && (dLC D >? lit (5 # 100))%fl
  then 2
  else 0.

(** What a boundary loop leaves at a pixel: the tag, and the value
    [outer] on the outer contact and [inner] on the point contact, in
    both planes. *)
Definition bounds_at (D : Dims) (outer inner : F) (tag : Z) (z r : Z)
           (b : Bounds) : Prop :=
  bulk b z r = tag /\
  (on_outer D z r = true -> v b 0 z r = outer /\ v b 1 z r = outer) /\
  (on_outer D z r = false -> on_pc D z r = true ->
   v b 0 z r = inner /\ v b 1 z r = inner).

(** [undepleted[r*gridfact][z*gridfact] == c], looked at only when the
    detector is not fully depleted: lines 856-860. *)
Definition marked (fully_depleted gridfact : Z)
           (marks : Z -> Z -> Ascii.ascii) (c : Ascii.ascii) (z r : Z)
  : bool :=
  (fully_depleted =? 0) &&
  Ascii.eqb (marks (r * gridfact) (z * gridfact)) c.

(** The tag that lines 820-862 give to a pixel. *)
Definition wp_bounds_tag (D : Dims) (fully_depleted gridfact : Z)
           (marks : Z -> Z -> Ascii.ascii) (z r : Z) : Z :=
  if marked fully_depleted gridfact marks "*" z r then -1
  else if marked fully_depleted gridfact marks "B" z r then 3
  else bounds_tag D z r.

(** What the boundary loop of the weighting potential leaves at a
    pixel: the tag, and in both planes 1 where the detector is not
    depleted, else 0 on the outer contact and 1 on the point contact. *)
Definition wp_bounds_at (D : Dims) (fully_depleted gridfact : Z)
           (marks : Z -> Z -> Ascii.ascii) (z r : Z) (b : Bounds) : Prop :=
  bulk b z r = wp_bounds_tag D fully_depleted gridfact marks z r /\
  (marked fully_depleted gridfact marks "*" z r = true ->
   v b 0 z r = fone /\ v b 1 z r = fone) /\
  (marked fully_depleted gridfact marks "*" z r = false ->
   (on_outer D z r = true -> v b 0 z r = fzero /\ v b 1 z r = fzero) /\
   (on_outer D z r = false -> on_pc D z r = true ->
    v b 0 z r = fone /\ v b 1 z r = fone)).

(** [iterates lv st0 (old, s)]: some number of iterations of the
    relaxation loop leads from [st0] to the plane index [old] and the
    state [s]. *)
Inductive iterates (lv : Level) (st0 : Z * Relax) : Z * Relax -> Prop :=
| it_start : iterates lv st0 st0
| it_sweep old s s' :
    iterates lv st0 (old, s) ->
    sweep lv (flip old) (flip (flip old)) s = Some s' ->
    iterates lv st0 (flip old, s').

Inductive wp_iterates (lv : Level) (st0 : Z * WRelax)
  : Z * WRelax -> Prop :=
| wit_start : wp_iterates lv st0 st0
| wit_sweep old s s' :
    wp_iterates lv st0 (old, s) ->
    wp_sweep lv (flip old) (flip (flip old)) s = Some s' ->
    wp_iterates lv st0 (flip old, s').
End Fieldgen.

(** ** The inside test in the words of the specification *)

Section InsideSpec.
Context {F : Type} {ops : FloatOps F}.
Local Open Scope fl_scope.

(** The bound of the bulletized top at height [z]. *)
Definition bullet_bound (setup : MJD_Siggen_Setup F) (z : F) : F :=
  let br := top_bullet_radius setup in
  (rmax setup - br) + fsqrt (SQ br - SQ (z - (zmax setup - br))).

(** Section 4.A of the specification, with L_z = [zmax] and
    R_max = [rmax]. *)
Definition inside_spec (setup : MJD_Siggen_Setup F) (r z : F) : Prop :=
  ((fzero <=? z) = true /\ (z <? zmax setup) = true) /\
  (r <=? rmax setup) = true /\
  ((z >? zmax setup - top_bullet_radius setup) = true ->
   (r <=? bullet_bound setup z) = true) /\
  ~ ((z <=? pc_length setup) = true /\ (r <=? pc_radius setup) = true) /\
  ~ ((z <? taper_length setup) = true /\
     (r >? zmax setup - taper_length setup + z) = true).

(** The same, with a cavity only when the point contact has a
    positive radius, and with the bound of the bulletized top as the
    code evaluates it, in double precision: under the top, [r] is not
    above the bound. *)
Definition inside_guarded (setup : MJD_Siggen_Setup F) (r z : F) : Prop :=
  ((fzero <=? z) = true /\ (z <? zmax setup) = true) /\
  (r <=? rmax setup) = true /\
  ((z >? zmax setup - top_bullet_radius setup) = true ->
   dltb (bullet_bound_dbl setup z) (to_dbl r) = false) /\
  ~ ((pc_radius setup >? fzero) = true /\
     (z <=? pc_length setup) = true /\ (r <=? pc_radius setup) = true) /\
  ~ ((z <? taper_length setup) = true /\
     (r >? zmax setup - taper_length setup + z) = true).

(** The comparisons that the test makes of [z] with [zmax] and 0 and
    of [r] with [rmax] are decided at [(r, z)] as in a total order, and
    0 <= z < [taper_length] makes the taper length positive: so it is
    in every ordered arithmetic, and in IEEE arithmetic when none of
    [r], [z], [zmax] and [rmax] is a NaN. *)
Definition ordered_at (setup : MJD_Siggen_Setup F) (r z : F) : Prop :=
  (z <? zmax setup) = negb (zmax setup <=? z) /\
  (z <? fzero) = negb (fzero <=? z) /\
  (rmax setup <? r) = negb (r <=? rmax setup) /\
  ((fzero <=? z) = true -> (z <? taper_length setup) = true ->
   (fzero <? taper_length setup) = true).

(** The cylindrical coordinates of a Cartesian point, as line 26
    computes the radius; the angle is not used. *)
Definition to_cyl (pt : point F) : cyl_pt F :=
  {| cr := fsqrt (SQ (px pt) + SQ (py pt)); cphi := fzero; cz := pz pt |}.
End InsideSpec.

(** ** Inputs for evaluation *)

Section Demo.
Context {F : Type} {ops : FloatOps F}.
Local Open Scope fl_scope.

(** A cylinder without bulletization, taper, wrap-around or ditch, at
    77 K, with point charges, no diffusion and steps of 1 ns. *)
Definition plain_setup (length radius pcl pcr grid hv n0 tau tout : F)
           (tsc nout : Z) : MJD_Siggen_Setup F :=
  {| xtal_length := length; xtal_radius := radius;
     top_bullet_radius := fzero; pc_length := pcl; pc_radius := pcr;
     taper_length := fzero; wrap_around_radius := fzero;
     ditch_depth := fzero; ditch_thickness := fzero; xtal_grid := grid;
     impurity_z0 := n0; impurity_gradient := fzero; xtal_HV := hv;
     max_iterations := 0; xtal_temp := lit 77; preamp_tau := tau;
     time_steps_calc := tsc; step_time_calc := fone;
     step_time_out := tout; charge_cloud_size := fzero;
     use_diffusion := 0; ntsteps_out := nout; rmax := radius;
     zmax := length;
     dpath_e := repeat zero_pt (Z.to_nat tsc);
     dpath_h := repeat zero_pt (Z.to_nat tsc);
     initial_vel := fzero; final_vel := fzero;
     final_charge_size_sq := fzero |}.

(** Preamplifier of 30 ns, output steps of 10 ns. *)
Definition rc_setup : MJD_Siggen_Setup F :=
  plain_setup (lit 4) (lit 4) fzero fzero fone fzero (- fone)
              (lit 30) (lit 10) 40 4.

(** Preamplifier of [tau] ns, output steps of 10 ns. *)
Definition tau_setup (tau : F) : MJD_Siggen_Setup F :=
  plain_setup (lit 4) (lit 4) fzero fzero fone fzero (- fone)
              tau (lit 10) 30 3.

(** A crystal of 4 x 4 mm on a grid of 1 mm with a point contact of
    length 1 mm and radius [pcr], biased at [hv] volts, with an impurity
    concentration of -1 and no gradient. *)
Definition small_crystal (pcr hv : F) : MJD_Siggen_Setup F :=
  plain_setup (lit 4) (lit 4) fone pcr fone hv (- fone) fzero fone 8 8.

(** The arrays of [main] before the first grid. *)
Definition blank_eps : Eps (F := F) :=
  {| eps := fun _ _ => fzero; eps_dr := fun _ _ => fzero;
     eps_dz := fun _ _ => fzero |}.
Definition blank_bounds : Bounds (F := F) :=
  {| vfraction := fun _ _ => fzero; bulk := fun _ _ => 0%Z;
     v := fun _ _ _ => fzero; fRC := fzero; fLC := fzero |}.
Definition blank_marks : Z -> Z -> Ascii.ascii := fun _ _ => " "%char.

(** The first grid of the potential for [small_crystal pcr hv]. *)
Definition small_level (pcr hv : F) : Level * Bounds :=
  potential_setup (small_crystal pcr hv) fone hv (- fone) fzero 0
                  blank_eps blank_bounds.
End Demo.

Definition unit_step {F : Type} {ops : FloatOps F} (n : nat) : list F :=
  repeat fone n.

(** [x] is [d] to three decimals. *)
Definition three_decimals (x d : Q) : Prop := (Qabs (x - d) <= 5 # 10000)%Q.

Module Axis.
(** A field on the axis of a p-type crystal, for exact arithmetic: the
    field grid covers 0 <= z <= 2, holes drift down the axis and
    electrons up, one unit per step; the weighting potential is 1 on
    the contact at z <= 0, 0.9995 up to z = 1, 0.25 up to z = 2 and 0
    above. *)
Definition in_grid (pt : point Q) : bool :=
  Qle_bool 0 (pz pt) && Qle_bool (pz pt) 2.

Definition wp (zz : Q) : Q :=
  if Qle_bool zz 0 then 1
  else if Qle_bool zz 1 then 1999 # 2000
  else if Qle_bool zz 2 then 1 # 4
  else 0.

Definition exp_taylor (a : Q) : Q :=
  fold_right (fun k acc => Qred (1 + a * acc / inject_Z k)) 1
             (map Z.of_nat (seq 1 12)).

Definition world : Externals (F := Q) :=
  {| drift_velocity pt q _ :=
       if in_grid pt
       then Some {| px := 0; py := 0;
                    pz := if Qltb 0 q then -1 else 1 |}
       else None;
     wpotential pt _ := if in_grid pt then Some (wp (pz pt)) else None;
     vector_add a b :=
       {| px := fadd (px a) (px b); py := fadd (py a) (py b);
          pz := fadd (pz a) (pz b) |};
     vector_scale a k :=
       {| px := fmul (px a) k; py := fmul (py a) k; pz := fmul (pz a) k |};
     vector_length a :=
       fsqrt (fadd (fadd (SQ (px a)) (SQ (py a))) (SQ (pz a)));
     WP_THRESH_ELECTRONS := 1 # 10000;
     c_exp := exp_taylor |}.

(** A crystal of length [len] and radius 4 without point-contact
    cavity, [tsc] steps of calculation and as many of output, no
    preamplifier. *)
Definition setup (len : Q) (tsc : Z) : MJD_Siggen_Setup Q :=
  plain_setup len 4 0 0 1 0 (-1) 0 1 tsc tsc.

Definition start : point Q := {| px := 0; py := 0; pz := 1 |}.
End Axis.

(** ** [calc_signal.c]: initialisation and the drift paths *)

Section CalcSignalInit.
Context {F : Type} {ops : FloatOps F}.
Local Open Scope fl_scope.
Local Abbreviation Setup := (MJD_Siggen_Setup F).

Definition set_ntsteps_out (s : Setup) (n : Z) : Setup :=
  {| xtal_length := xtal_length s; xtal_radius := xtal_radius s;
     top_bullet_radius := top_bullet_radius s; pc_length := pc_length s;
     pc_radius := pc_radius s; taper_length := taper_length s;
     wrap_around_radius := wrap_around_radius s;
     ditch_depth := ditch_depth s; ditch_thickness := ditch_thickness s;
     xtal_grid := xtal_grid s; impurity_z0 := impurity_z0 s;
     impurity_gradient := impurity_gradient s; xtal_HV := xtal_HV s;
     max_iterations := max_iterations s; xtal_temp := xtal_temp s;
     preamp_tau := preamp_tau s; time_steps_calc := time_steps_calc s;
     step_time_calc := step_time_calc s; step_time_out := step_time_out s;
     charge_cloud_size := charge_cloud_size s;
     use_diffusion := use_diffusion s; ntsteps_out := n;
     rmax := rmax s; zmax := zmax s; dpath_e := dpath_e s;
     dpath_h := dpath_h s; initial_vel := initial_vel s;
     final_vel := final_vel s;
     final_charge_size_sq := final_charge_size_sq s |}.

(** What [signal_calc_init] takes from [read_config.c] and [fields.c]:
    both functions write the setup and return 0 for success. *)
Record InitExternals : Type := {
  read_config : list ascii -> Setup -> Z * Setup;
  field_setup : Setup -> Z * Setup
}.

(** [malloc(n * sizeof(point))]: the contents of the new block are
    not specified. *)
Definition alloc_path (n : Z) (old : list (point F)) : list (point F) :=
  firstn (Z.to_nat n) (old ++ repeat zero_pt (Z.to_nat n)).

(** [int signal_calc_init(char *config_file_name, MJD_Siggen_Setup
    *setup)]: the return value and the setup; [None] when the division
    of lines 70-71 kills the program.  [granted] is the number of the
    two calls of [malloc] of lines 80-81 that succeed: the first that
    fails leaves a NULL pointer, a block of no cells here, and the
    second is then not made. *)
Definition signal_calc_init (X : InitExternals) (granted : nat)
           (config_file_name : list ascii) (setup : Setup)
  : option (Z * Setup) :=
  let '(rc, setup) := read_config X config_file_name setup in
  if negb (rc =? 0)%Z then Some (1%Z, setup)
  else
    match long_div (time_steps_calc setup)
                   (lrint (step_time_out setup / step_time_calc setup)) with
    | None => None
    | Some n =>
      let setup := set_ntsteps_out setup n in
      let '(rc, setup) := field_setup X setup in
      if negb (rc =? 0)%Z then Some ((-1)%Z, setup)
      else
        match granted with
        | O => Some ((-1)%Z, set_dpath_e setup [])
        | 1%nat =>
          let setup :=
            set_dpath_e setup
              (alloc_path (time_steps_calc setup) (dpath_e setup)) in
          Some ((-1)%Z, set_dpath_h setup [])
        | _ =>
          let setup :=
            set_dpath_e setup
              (alloc_path (time_steps_calc setup) (dpath_e setup)) in
          let setup :=
            set_dpath_h setup
              (alloc_path (time_steps_calc setup) (dpath_h setup)) in
          Some (0%Z, setup)
        end
    end.

(** [int drift_path_e(point **pp, MJD_Siggen_Setup *setup)]: the
    pointer stored in [*pp] and the return value. *)
Definition drift_path_e (setup : Setup) : list (point F) * Z :=
  (dpath_e setup, time_steps_calc setup).

Definition drift_path_h (setup : Setup) : list (point F) * Z :=
  (dpath_h setup, time_steps_calc setup).

(** The setup with the five fields that [calc_signal.c] writes after
    the initialisation cleared: two setups with the same [fixed_part]
    agree on every other field. *)
Definition fixed_part (s : Setup) : Setup :=
  set_dpath_e
    (set_dpath_h
       (set_initial_vel
          (set_final_vel (set_final_charge_size_sq s fzero) fzero) fzero)
       []) [].

(** The path arrays hold [time_steps_calc] points. *)
Definition paths_ok (s : Setup) : Prop :=
  length (dpath_e s) = Z.to_nat (time_steps_calc s) /\
  length (dpath_h s) = Z.to_nat (time_steps_calc s).

(** [comp_f] of line 179; [None] when the division kills the
    program. *)
Definition comp_f (setup : Setup) : option Z :=
  int_div (time_steps_calc setup) (ntsteps_out setup).
End CalcSignalInit.

(** The left-to-right sum of the first [t] of the [c] samples of [s]
    that start at sample [k * c], each divided by [c]; with [t = c] it
    is the mean of the block as lines 179-182 accumulate it. *)
Definition block_sum {F : Type} {ops : FloatOps F} (c : Z) (s : list F)
           (k : Z) (t : nat) : F :=
  fold_left
    (fun acc i =>
       fadd acc (fdiv (aget fzero s (k * c + Z.of_nat i)) (of_int c)))
    (seq 0 t) fzero.

Section PathFrames.
Context {F : Type} {ops : FloatOps F}.
Local Open Scope fl_scope.
Local Abbreviation Setup := (MJD_Siggen_Setup F).

(** [s'] is [s] but for the velocities and the cloud size, and for the
    cells outside [K] of the drift path of the carrier [q]. *)
Definition paths_kept (q : F) (K : Z -> Prop) (s s' : Setup) : Prop :=
  fixed_part s' = fixed_part s /\
  length (dpath_e s') = length (dpath_e s) /\
  length (dpath_h s') = length (dpath_h s) /\
  ((q >? fzero) = true -> dpath_e s' = dpath_e s) /\
  ((q >? fzero) = false -> dpath_h s' = dpath_h s) /\
  (forall j, K j ->
     aget zero_pt (dpath_e s') j = aget zero_pt (dpath_e s) j) /\
  (forall j, K j ->
     aget zero_pt (dpath_h s') j = aget zero_pt (dpath_h s) j).

(** The velocities and the cloud size of [s'] are those of [s]. *)
Definition cloud_kept (s s' : Setup) : Prop :=
  initial_vel s' = initial_vel s /\ final_vel s' = final_vel s /\
  final_charge_size_sq s' = final_charge_size_sq s.

(** The path of the carrier [q]. *)
Definition own_path (q : F) (s : Setup) : list (point F) :=
  if q >? fzero then dpath_h s else dpath_e s.
End PathFrames.

(** [read_config] that reads a crystal of the axis with [tsc] steps of
    1 ns and output steps of [tout] ns, and [field_setup] that finds
    its files and leaves the setup alone. *)
Definition axis_files (tout : Q) (tsc : Z) : InitExternals (F := Q) :=
  {| read_config := fun _ _ =>
       (0%Z, plain_setup 4 4 0 0 1 0 (-1) 0 tout tsc 0);
     field_setup := fun s => (0%Z, s) |}.

(** ** [mjd_fieldgen.c]: the start of [main] *)

Section FieldgenMain.
Context {F : Type} {ops : FloatOps F}.
Local Open Scope fl_scope.
Local Abbreviation Setup := (MJD_Siggen_Setup F).

(** Lines 275-284: bias and impurity of one sign are refused ([None]
    is the [return 1]); for n-type material the polarity is swapped.
    The result is [BV], [M] and [N]. *)
Definition check_polarity (BV N M : F) : option (F * F * F) :=
  if ((BV <? fzero) && (N <? fzero)) || ((BV >? fzero) && (N >? fzero))
  then None
  else if N >? fzero then Some (- BV, - M, - N)
  else Some (BV, M, N).

(** Lines 343-344: the two ratios of the three grid sizes. *)
Definition grid_ratios (i : Z) : Z * Z :=
  let j := Z.quot (i + 4) 5 in
  let i := Z.quot (i + j - 1) j in
  (i, j).

(** Lines 331-350: [gridstep[0]], [gridstep[1]] and [gridstep[2]]. *)
Definition gridsteps (setup : Setup) (grid : F) : F * F * F :=
  let cs := fsqrt (xtal_length setup * xtal_radius setup) in
  let i := (1 + Z.quot (to_int (cs / grid)%fl) 100)%Z in
  if (i <? 2)%Z then (grid, fzero, fzero)
  else if (i <? 6)%Z then (of_int i * grid, grid, fzero)
  else
    let '(i, j) := grid_ratios i in
    (of_int (i * j) * grid, of_int j * grid, grid).

(** The permittivity of a pixel: 1 in the ditch and 16 in the
    germanium (lines 431-432). *)
Definition eps_at (D : @Dims F) (z r : Z) : F :=
  if ((z <? LO D) && (r <? RO D) && (r >? RO D - WO D - 1))%Z
  then fone else lit 16.

(** The first guess of the weighting potential in the bulk: lines
    789-791. *)
Definition wp_guess_at (D : @Dims F) (z r : Z) : F :=
  let a := of_int (LC D + Z.quot (RC D) 2) in
  let b := lit 2 * a / of_int (L D + R D) in
  let c := a / fsqrt (of_int (z * z + r * r)) - b in
  let c := if c <? fzero then fzero else c in
  if c >? fone then fone else c.
End FieldgenMain.

(** *** The potential of a coarser grid, expanded *)

Section Refinement.
Context {F : Type} {ops : FloatOps F}.
Local Open Scope Z_scope.

(** The weight [f1z] or [f1r] after [n] additions of [f] to 0.0. *)
Fixpoint ramp (f : F) (n : nat) : F :=
  match n with
  | O => fzero
  | S n => (ramp f n + f)%fl
  end.

(** Lines 380-382: the value between the four pixels of the coarser
    grid at (z, r), with the weights [f1z] and [f1r]. *)
Definition interpolate (v1 : Z -> Z -> F) (z r : Z) (f1z f1r : F) : F :=
  let f2z := (fone - f1z)%fl in
  let f2r := (fone - f1r)%fl in
  (f2z * f2r * v1 z r + f1z * f2r * v1 (z + 1)%Z r
   + f2z * f1r * v1 z (r + 1)%Z + f1z * f1r * v1 (z + 1)%Z (r + 1)%Z)%fl.

(** Lines 376-384: the row [zz] of the finer grid within the coarse
    pixel (z, r); plane 1 is read and plane 0 written. *)
Definition refine_row (i : Z) (f : F) (z r zz : Z) (f1z : F)
           (v : Z -> Z -> Z -> F) : Z -> Z -> Z -> F :=
  let f2z := (fone - f1z)%fl in
  fst (for_up (i * r) (i * r + i)
         (fun rr (st : (Z -> Z -> Z -> F) * F) =>
            let '(v, f1r) := st in
            let f2r := (fone - f1r)%fl in
            (vset v 0 zz rr
               (f2z * f2r * v 1%Z z r + f1z * f2r * v 1%Z (z + 1)%Z r
                + f2z * f1r * v 1%Z z (r + 1)%Z
                + f1z * f1r * v 1%Z (z + 1)%Z (r + 1)%Z)%fl,
             (f1r + f)%fl))
         (v, fzero)).

(** Lines 374-386: the [i] x [i] pixels of the finer grid within the
    coarse pixel (z, r). *)
Definition refine_block (i : Z) (f : F) (z r : Z)
           (v : Z -> Z -> Z -> F) : Z -> Z -> Z -> F :=
  fst (for_up (i * z) (i * z + i)
         (fun zz (st : (Z -> Z -> Z -> F) * F) =>
            let '(v, f1z) := st in
            (refine_row i f z r zz f1z v, (f1z + f)%fl))
         (v, fzero)).

(** Lines 368-388 (and 734-754 for the weighting potential): the
    potential of the grid [g_prev], of [L] x [R] pixels, is expanded to
    the grid [g]. *)
Definition refine (g_prev g : F) (L R : Z) (v : Z -> Z -> Z -> F)
  : Z -> Z -> Z -> F :=
  let i := to_int (g_prev / g + lit (5 # 10))%fl in
  let f := (fone / of_int i)%fl in
  for_up 0 L (fun z => for_up 0 R (refine_block i f z)) v.

End Refinement.

Section SweepReadings.
Context {F : Type} {ops : FloatOps F}.

(** Lines 594-595: the change of a pixel in a sweep, made positive. *)
Definition abs_dif (v_old v_new : F) : F :=
  let dif := (v_old - v_new)%fl in
  if (dif <? fzero)%fl then (- dif)%fl else dif.

End SweepReadings.

(** *** [main]: the options *)

Section FieldgenOptions.
Context {F : Type} {ops : FloatOps F}.
Local Open Scope fl_scope.
Local Abbreviation Setup := (MJD_Siggen_Setup F).

(** [t] is at the start of [s]. *)
Fixpoint starts_with (t s : list ascii) : bool :=
  match t, s with
  | [], _ => true
  | a :: t', b :: s' => Ascii.eqb a b && starts_with t' s'
  | _ :: _, [] => false
  end.

(** [strstr(s, t) != NULL]: the string [t] occurs in [s]. *)
Fixpoint strstr (s t : list ascii) : bool :=
  starts_with t s ||
  match s with
  | [] => false
  | _ :: s' => strstr s' t
  end.

(** Line 203: [setup.xtal_grid = x]. *)
Definition set_xtal_grid (s : Setup) (x : F) : Setup :=
  {| xtal_length := xtal_length s; xtal_radius := xtal_radius s;
     top_bullet_radius := top_bullet_radius s; pc_length := pc_length s;
     pc_radius := pc_radius s; taper_length := taper_length s;
     wrap_around_radius := wrap_around_radius s;
     ditch_depth := ditch_depth s; ditch_thickness := ditch_thickness s;
     xtal_grid := x; impurity_z0 := impurity_z0 s;
     impurity_gradient := impurity_gradient s; xtal_HV := xtal_HV s;
     max_iterations := max_iterations s; xtal_temp := xtal_temp s;
     preamp_tau := preamp_tau s; time_steps_calc := time_steps_calc s;
     step_time_calc := step_time_calc s; step_time_out := step_time_out s;
     charge_cloud_size := charge_cloud_size s;
     use_diffusion := use_diffusion s; ntsteps_out := ntsteps_out s;
     rmax := rmax s; zmax := zmax s; dpath_e := dpath_e s;
     dpath_h := dpath_h s; initial_vel := initial_vel s;
     final_vel := final_vel s;
     final_charge_size_sq := final_charge_size_sq s |}.

(** What [main] takes from [read_config.c] and libc.  [read_config]
    writes the setup and returns 0 for success; the fields
    [write_field] and [write_WP] of the setup it has written, which the
    record [MJD_Siggen_Setup] above leaves out, are given beside it. *)
Record MainExternals : Type := {
  main_read_config : list ascii -> Setup -> Z * Setup * (Z * Z);
  atof : list ascii -> F;
  atoi : list ascii -> Z
}.

(** The variables of [main] that the options set (lines 153-172). *)
Record MainVars : Type := {
  o_setup : Setup;
  o_grid : F;
  o_R : Z; o_L : Z; o_RC : Z; o_LC : Z; o_LT : Z;
  o_RO : Z; o_LO : Z; o_WO : Z;
  o_BV : F; o_N : F; o_M : F;
  o_WV : Z; o_WP : Z
}.

(** Lines 156-172 and 181: the values before the options are read;
    [setup] is not initialised. *)
Definition main_defaults (setup : Setup) : MainVars :=
  {| o_setup := setup; o_grid := lit (5 # 10);
     o_R := 0; o_L := 0; o_RC := 0; o_LC := 0; o_LT := 0;
     o_RO := 0; o_LO := 0; o_WO := 0;
     o_BV := fzero; o_N := fone; o_M := fzero; o_WV := 0; o_WP := 0 |}.

Definition set_o_BV (o : MainVars) (x : F) : MainVars :=
  {| o_setup := o_setup o; o_grid := o_grid o;
     o_R := o_R o; o_L := o_L o; o_RC := o_RC o; o_LC := o_LC o;
     o_LT := o_LT o; o_RO := o_RO o; o_LO := o_LO o; o_WO := o_WO o;
     o_BV := x; o_N := o_N o; o_M := o_M o;
     o_WV := o_WV o; o_WP := o_WP o |}.

Definition set_o_WV (o : MainVars) (n : Z) : MainVars :=
  {| o_setup := o_setup o; o_grid := o_grid o;
     o_R := o_R o; o_L := o_L o; o_RC := o_RC o; o_LC := o_LC o;
     o_LT := o_LT o; o_RO := o_RO o; o_LO := o_LO o; o_WO := o_WO o;
     o_BV := o_BV o; o_N := o_N o; o_M := o_M o;
     o_WV := n; o_WP := o_WP o |}.

Definition set_o_WP (o : MainVars) (n : Z) : MainVars :=
  {| o_setup := o_setup o; o_grid := o_grid o;
     o_R := o_R o; o_L := o_L o; o_RC := o_RC o; o_LC := o_LC o;
     o_LT := o_LT o; o_RO := o_RO o; o_LO := o_LO o; o_WO := o_WO o;
     o_BV := o_BV o; o_N := o_N o; o_M := o_M o;
     o_WV := o_WV o; o_WP := n |}.

Definition set_o_RO (o : MainVars) (n : Z) : MainVars :=
  {| o_setup := o_setup o; o_grid := o_grid o;
     o_R := o_R o; o_L := o_L o; o_RC := o_RC o; o_LC := o_LC o;
     o_LT := o_LT o; o_RO := n; o_LO := o_LO o; o_WO := o_WO o;
     o_BV := o_BV o; o_N := o_N o; o_M := o_M o;
     o_WV := o_WV o; o_WP := o_WP o |}.

(** Lines 281-283: [BV], [M] and [N] after the check of the polarity. *)
Definition set_polarity (o : MainVars) (p : F * F * F) : MainVars :=
  let '(BV, M, N) := p in
  {| o_setup := o_setup o; o_grid := o_grid o;
     o_R := o_R o; o_L := o_L o; o_RC := o_RC o; o_LC := o_LC o;
     o_LT := o_LT o; o_RO := o_RO o; o_LO := o_LO o; o_WO := o_WO o;
     o_BV := BV; o_N := N; o_M := M;
     o_WV := o_WV o; o_WP := o_WP o |}.

(** Lines 200-228: an option that [main] knows. *)
Definition known_option (flag : list ascii) : bool :=
  strstr flag ["-"; "c"]%char || strstr flag ["-"; "b"]%char ||
  strstr flag ["-"; "w"]%char || strstr flag ["-"; "p"]%char.

(** Lines 200-236: one option [flag] with its value; [None] is the
    [return 1]. *)
Definition parse_option (X : MainExternals) (flag value : list ascii)
           (o : MainVars) : option MainVars :=
  if strstr flag ["-"; "c"]%char then
    let '(rc, setup, (wf, wp)) := main_read_config X value (o_setup o) in
    if negb (rc =? 0)%Z then None
    else
      let setup :=
        if xtal_grid setup <? lit (1 # 1000)
        then set_xtal_grid setup (lit (5 # 10)) else setup in
      let grid := xtal_grid setup in
      Some {| o_setup := setup; o_grid := grid;
              o_R := lrint (xtal_radius setup / grid);
              o_L := lrint (xtal_length setup / grid);
              o_RC := lrint (pc_radius setup / grid);
              o_LC := lrint (pc_length setup / grid);
              o_LT := lrint (taper_length setup / grid);
              o_RO := lrint (wrap_around_radius setup / grid);
              o_LO := lrint (ditch_depth setup / grid);
              o_WO := lrint (ditch_thickness setup / grid);
              o_BV := xtal_HV setup; o_N := impurity_z0 setup;
              o_M := impurity_gradient setup;
              o_WV := wf; o_WP := wp |}
  else if strstr flag ["-"; "b"]%char then Some (set_o_BV o (atof X value))
  else if strstr flag ["-"; "w"]%char then Some (set_o_WV o (atoi X value))
  else if strstr flag ["-"; "p"]%char then Some (set_o_WP o (atoi X value))
  else None.

(** Lines 199-237: [for (i=1; i<argc-1; i+=2)] over [args], the
    arguments from [argv[1]] on, two at a time. *)
Fixpoint parse_options (X : MainExternals) (args : list (list ascii))
         (o : MainVars) : option MainVars :=
  match args with
  | flag :: value :: rest =>
      match parse_option X flag value o with
      | None => None
      | Some o => parse_options X rest o
      end
  | _ => Some o
  end.

(** The options with their values, as the loop takes them. *)
Fixpoint pairs {A : Type} (l : list A) : list (A * A) :=
  match l with
  | a :: b :: rest => (a, b) :: pairs rest
  | _ => []
  end.

(** The value of an [int] expression: 32 bits, two's complement. *)
Definition to_int32 (x : Z) : Z :=
  ((x + 2 ^ 31) mod 2 ^ 32 - 2 ^ 31)%Z.

(** Lines 190-284 of [main]: the options are read and checked; [None]
    is a [return 1].  [setup] is what the variable [setup] holds at
    the start. *)
Definition main_options (X : MainExternals) (argv : list (list ascii))
           (setup : Setup) : option MainVars :=
  let argc := Z.of_nat (length argv) in
  if negb (Z.rem argc 2 =? 1)%Z then None
  else
    match parse_options X (tl argv) (main_defaults setup) with
    | None => None
    | Some o =>
      if ((o_L o <=? 1) || (o_R o <=? 1))%Z then None
      else if (to_int32 (o_L o * o_R o) >? 2500 * 2500)%Z then None
      else
        let o :=
          if ((o_WV o <? 0) || (o_WV o >? 2))%Z then set_o_WV o 0 else o in
        let o :=
          if ((o_RO o <=? 0) || (o_RO o >=? o_R o))%Z
          then set_o_RO o (o_R o - o_LT o) else o in
        match check_polarity (o_BV o) (o_N o) (o_M o) with
        | None => None
        | Some p => Some (set_polarity o p)
        end
    end.

End FieldgenOptions.

(** A configuration file that holds [small_crystal 1 100] and asks for
    both output files; every number on the command line reads as 250,
    resp. 1. *)
Definition small_files : MainExternals (F := Q) :=
  {| main_read_config := fun _ _ => (0%Z, small_crystal 1 100, (1%Z, 1%Z));
     atof := fun _ => 250%Q;
     atoi := fun _ => 1%Z |}.

(* ================================================================== *)
(** * Part II: properties *)
(* ================================================================== *)

(** ** Integer division *)

Lemma int_div_pos a b : (0 < b)%Z -> int_div a b = Some (Z.quot a b).
Proof.
  intros H. unfold int_div.
  destruct (Z.eqb_spec b 0); [lia|].
  destruct (Z.eqb_spec b (-1)); [lia|].
  now rewrite andb_false_r.
Qed.

Lemma int_div_zero a : int_div a 0 = None.
Proof. reflexivity. Qed.

Lemma long_div_some a b : b <> 0%Z -> long_div a b = Some (Z.quot a b).
Proof.
  intros H. unfold long_div. now destruct (Z.eqb_spec b 0).
Qed.

(** ** Arrays and loops *)

Section ArrayFacts.
Context {A : Type}.
Implicit Types (a : list A) (x d : A).

Lemma length_set_nth n x a : length (set_nth n x a) = length a.
Proof.
  revert n; induction a as [|h t IH]; intros [|n]; simpl; auto.
Qed.

Lemma nth_set_nth_eq n x a d :
  (n < length a)%nat -> nth n (set_nth n x a) d = x.
Proof.
  revert n; induction a as [|h t IH]; intros [|n] Hn; simpl in *;
    try lia; auto.
  apply IH; lia.
Qed.

Lemma nth_set_nth_neq n k x a d :
  n <> k -> nth k (set_nth n x a) d = nth k a d.
Proof.
  revert n k; induction a as [|h t IH]; intros [|n] [|k] Hnk; simpl;
    auto; try congruence.
Qed.

Lemma length_aset a i x : length (aset a i x) = length a.
Proof.
  unfold aset; destruct (i <? 0)%Z; auto using length_set_nth.
Qed.

Lemma aget_aset_eq d a i x :
  (0 <= i < Z.of_nat (length a))%Z -> aget d (aset a i x) i = x.
Proof.
  intros Hi; unfold aget, aset.
  destruct (i <? 0)%Z eqn:E; [apply Z.ltb_lt in E; lia|].
  apply nth_set_nth_eq; lia.
Qed.

Lemma aget_aset_neq d a i j x :
  i <> j -> aget d (aset a i x) j = aget d a j.
Proof.
  intros Hij; unfold aget, aset.
  destruct (j <? 0)%Z eqn:Ej; auto.
  destruct (i <? 0)%Z eqn:Ei; auto.
  apply Z.ltb_ge in Ej, Ei.
  apply nth_set_nth_neq; lia.
Qed.

Lemma aget_outside d a i :
  (i < 0 \/ Z.of_nat (length a) <= i)%Z -> aget d a i = d.
Proof.
  intros Hi; unfold aget.
  destruct (i <? 0)%Z eqn:E; auto.
  apply Z.ltb_ge in E; apply nth_overflow; lia.
Qed.

(** Two arrays of one length that agree at every index are equal. *)
Lemma aget_ext d a b :
  length a = length b ->
  (forall i, (0 <= i < Z.of_nat (length a))%Z -> aget d a i = aget d b i) ->
  a = b.
Proof.
  revert b; induction a as [|h t IH]; intros [|h' t'] Hlen Hext;
    simpl in *; try discriminate; auto.
  f_equal.
  - apply (Hext 0%Z); lia.
  - apply IH; [lia|].
    intros i Hi. specialize (Hext (i + 1)%Z).
    unfold aget in *.
    destruct (i <? 0)%Z eqn:E; [apply Z.ltb_lt in E; lia|].
    destruct (i + 1 <? 0)%Z eqn:E'; [apply Z.ltb_lt in E'; lia|].
    replace (Z.to_nat (i + 1)) with (S (Z.to_nat i)) in Hext by lia.
    apply Hext; lia.
Qed.
End ArrayFacts.

Section LoopFacts.
Context {St : Type}.

(** Invariant rule of the ascending loop: [P i] holds on entry of
    iteration [i], and [P hi] on exit. *)
Lemma for_up_ind (P : Z -> St -> Prop) lo hi (body : Z -> St -> St) s :
  (lo <= hi)%Z ->
  P lo s ->
  (forall i s, (lo <= i < hi)%Z -> P i s -> P (i + 1)%Z (body i s)) ->
  P hi (for_up lo hi body s).
Proof.
  intros Hle H0 Hstep; unfold for_up.
  assert (G : forall n, (Z.of_nat n <= hi - lo)%Z ->
    P (lo + Z.of_nat n)%Z
      (fold_left (fun s k => body (lo + Z.of_nat k)%Z s) (seq 0 n) s)).
  { induction n as [|n IH]; intros Hn.
    - simpl; now rewrite Z.add_0_r.
    - rewrite seq_S, fold_left_app, Nat2Z.inj_succ.
      cbn [fold_left Nat.add].
      replace (lo + Z.succ (Z.of_nat n))%Z
        with (lo + Z.of_nat n + 1)%Z by lia.
      apply Hstep; [lia|]. apply IH; lia. }
  specialize (G (Z.to_nat (hi - lo))).
  replace (lo + Z.of_nat (Z.to_nat (hi - lo)))%Z with hi in G by lia.
  apply G; lia.
Qed.

(** Invariant rule of the descending loop. *)
Lemma for_down_ind (P : Z -> St -> Prop) hi lo (body : Z -> St -> St) s :
  (lo <= hi)%Z ->
  P hi s ->
  (forall i s, (lo < i <= hi)%Z -> P i s -> P (i - 1)%Z (body i s)) ->
  P lo (for_down hi lo body s).
Proof.
  intros Hle H0 Hstep; unfold for_down.
  assert (G : forall n, (Z.of_nat n <= hi - lo)%Z ->
    P (hi - Z.of_nat n)%Z
      (fold_left (fun s k => body (hi - Z.of_nat k)%Z s) (seq 0 n) s)).
  { induction n as [|n IH]; intros Hn.
    - simpl; now rewrite Z.sub_0_r.
    - rewrite seq_S, fold_left_app, Nat2Z.inj_succ.
      cbn [fold_left Nat.add].
      replace (hi - Z.succ (Z.of_nat n))%Z
        with (hi - Z.of_nat n - 1)%Z by lia.
      apply Hstep; [lia|]. apply IH; lia. }
  specialize (G (Z.to_nat (hi - lo))).
  replace (hi - Z.of_nat (Z.to_nat (hi - lo)))%Z with lo in G by lia.
  apply G; lia.
Qed.

(** Invariants that do not mention the counter. *)
Lemma for_up_inv (P : St -> Prop) lo hi (body : Z -> St -> St) s :
  P s -> (forall i s, P s -> P (body i s)) -> P (for_up lo hi body s).
Proof.
  intros H0 Hstep; unfold for_up.
  generalize (seq 0 (Z.to_nat (hi - lo))); intros l; revert s H0.
  induction l as [|k l IH]; simpl; auto.
Qed.

Lemma for_up_empty lo hi (body : Z -> St -> St) s :
  (hi <= lo)%Z -> for_up lo hi body s = s.
Proof.
  intros H; unfold for_up.
  replace (Z.to_nat (hi - lo)) with 0%nat by lia; reflexivity.
Qed.

Lemma for_down_empty hi lo (body : Z -> St -> St) s :
  (hi <= lo)%Z -> for_down hi lo body s = s.
Proof.
  intros H; unfold for_down.
  replace (Z.to_nat (hi - lo)) with 0%nat by lia; reflexivity.
Qed.

(** The same, with the range of the counter at hand. *)
Lemma for_up_inv_range (P : St -> Prop) lo hi (body : Z -> St -> St) s :
  P s -> (forall i s, (lo <= i < hi)%Z -> P s -> P (body i s)) ->
  P (for_up lo hi body s).
Proof.
  intros H0 Hstep.
  destruct (Z_le_gt_dec lo hi) as [Hle|Hgt].
  - apply (for_up_ind (fun _ => P)); auto.
  - rewrite for_up_empty by lia; auto.
Qed.

Lemma for_down_inv (P : St -> Prop) hi lo (body : Z -> St -> St) s :
  P s -> (forall i s, P s -> P (body i s)) -> P (for_down hi lo body s).
Proof.
  intros H0 Hstep; unfold for_down.
  generalize (seq 0 (Z.to_nat (hi - lo))); intros l; revert s H0.
  induction l as [|k l IH]; simpl; auto.
Qed.
(** The indices of a loop can be shifted. *)
Lemma fold_left_seq_shift (f : Z -> St -> St) n a k s :
  fold_left (fun s i => f (a + Z.of_nat i)%Z s) (seq k n) s =
  fold_left (fun s i => f (a + Z.of_nat k + Z.of_nat i)%Z s) (seq 0 n) s.
Proof.
  revert a k s; induction n as [|n IH]; intros a k s; [reflexivity|].
  cbn [seq fold_left]. rewrite (IH a (S k)), (IH (a + Z.of_nat k)%Z 1%nat).
  rewrite Z.add_0_r.
  replace (a + Z.of_nat (S k))%Z with (a + Z.of_nat k + Z.of_nat 1)%Z
    by lia.
  reflexivity.
Qed.

(** A counted loop is the loop up to [mid] followed by the loop from
    [mid]. *)
Lemma for_up_split lo mid hi (body : Z -> St -> St) s :
  (lo <= mid <= hi)%Z ->
  for_up lo hi body s = for_up mid hi body (for_up lo mid body s).
Proof.
  intros H. unfold for_up.
  replace (Z.to_nat (hi - lo))
    with (Z.to_nat (mid - lo) + Z.to_nat (hi - mid))%nat by lia.
  rewrite seq_app, fold_left_app. cbn [Nat.add].
  rewrite fold_left_seq_shift.
  replace (lo + Z.of_nat (Z.to_nat (mid - lo)))%Z with mid by lia.
  reflexivity.
Qed.

Lemma for_up_snoc lo i (body : Z -> St -> St) s :
  (lo <= i)%Z ->
  for_up lo (i + 1) body s = body i (for_up lo i body s).
Proof.
  intros H. rewrite for_up_split with (mid := i) by lia.
  unfold for_up at 1.
  replace (Z.to_nat (i + 1 - i)) with 1%nat by lia.
  cbn [seq fold_left]. now rewrite Z.add_0_r.
Qed.
End LoopFacts.

(** ** [rc_integrate] *)

Section RcFacts.
Context {F : Type} {ops : FloatOps F}.
Local Open Scope fl_scope.
Implicit Types (m : @mem F) (p q s_in s_out : ptr).

Lemma length_store m p i x q :
  length (store m p i x q) = length (m q).
Proof.
  unfold store; destruct (Nat.eqb q p) eqn:E; auto.
  apply Nat.eqb_eq in E; subst; apply length_aset.
Qed.

Lemma load_store_same m p i x :
  (0 <= i < Z.of_nat (length (m p)))%Z -> load (store m p i x) p i = x.
Proof.
  intros Hi; unfold load, store; rewrite Nat.eqb_refl.
  now apply aget_aset_eq.
Qed.

Lemma load_store_other m p i x q j :
  q <> p \/ j <> i -> load (store m p i x) q j = load m q j.
Proof.
  intros H; unfold load, store.
  destruct (Nat.eqb q p) eqn:E; auto.
  apply Nat.eqb_eq in E; subst.
  destruct H as [H|H]; [congruence|].
  apply aget_aset_neq; congruence.
Qed.

(** First branch: the output is the input delayed by one sample,
    whether or not the two buffers are the same block. *)
Lemma rc_integrate_shift m s_in s_out tau N :
  (tau <? fone) = true ->
  (0 < N)%Z ->
  Z.of_nat (length (m s_out)) = N ->
  let m' := rc_integrate m s_in s_out tau N in
  length (m' s_out) = length (m s_out) /\
  forall j, (0 <= j < N)%Z ->
    load m' s_out j = if (j =? 0)%Z then fzero else load m s_in (j - 1).
Proof.
  intros Htau HN Hlen; unfold rc_integrate; rewrite Htau; cbv zeta.
  set (P := fun (i : Z) (m' : @mem F) =>
    length (m' s_out) = length (m s_out) /\
    (forall j, (i < j < N)%Z -> load m' s_out j = load m s_in (j - 1)) /\
    (forall j, (j <= i)%Z -> load m' s_in j = load m s_in j)).
  assert (HP : P 0%Z (for_down (N - 1) 0 (rc_shift_body s_in s_out) m)).
  { apply for_down_ind; [lia| |].
    - repeat split; auto. intros; lia.
    - intros i m1 Hi (Hl & Hout & Hin); unfold rc_shift_body.
      repeat split.
      + now rewrite length_store.
      + intros j Hj. destruct (Z.eq_dec j i) as [->|Hne].
        * rewrite load_store_same by lia. apply Hin; lia.
        * rewrite load_store_other by auto. apply Hout; lia.
      + intros j Hj. rewrite load_store_other by (right; lia).
        apply Hin; lia. }
  destruct HP as (Hl & Hout & Hin). split.
  - now rewrite length_store.
  - intros j Hj. destruct (Z.eqb_spec j 0) as [->|Hne].
    + apply load_store_same; lia.
    + rewrite load_store_other by auto. apply Hout; lia.
Qed.

(** Second branch: the output obeys the recurrence on the original
    input, whether or not the two buffers are the same block. *)
Lemma rc_integrate_rec m s_in s_out tau N :
  (tau <? fone) = false ->
  (0 < N)%Z ->
  Z.of_nat (length (m s_out)) = N ->
  let m' := rc_integrate m s_in s_out tau N in
  length (m' s_out) = length (m s_out) /\
  forall j, (0 <= j < N)%Z ->
    load m' s_out j = rc_rec tau (m s_in) (Z.to_nat j).
Proof.
  intros Htau HN Hlen; unfold rc_integrate; rewrite Htau; cbv zeta.
  set (P := fun (i : Z) (st : @mem F * F) =>
    length (fst st s_out) = length (m s_out) /\
    (forall j, (0 <= j < i)%Z ->
       load (fst st) s_out j = rc_rec tau (m s_in) (Z.to_nat j)) /\
    (forall j, (i <= j)%Z -> load (fst st) s_in j = load m s_in j) /\
    snd st = load m s_in (i - 1)).
  assert (HP : P N (for_up 1 N (rc_step_body s_in s_out tau)
                      (store m s_out 0 fzero, load m s_in 0))).
  { apply for_up_ind; [lia| |].
    - unfold P; simpl; repeat split.
      + now rewrite length_store.
      + intros j Hj. replace j with 0%Z by lia.
        rewrite load_store_same by lia; reflexivity.
      + intros j Hj. apply load_store_other; right; lia.
    - intros i [m1 old] Hi (Hl & Hout & Hin & Hold); simpl in *.
      unfold P; simpl; repeat split.
      + now rewrite length_store.
      + intros j Hj. destruct (Z.eq_dec j i) as [->|Hne].
        * rewrite load_store_same by lia.
          rewrite Hout by lia. rewrite Hold.
          replace (Z.to_nat i) with (S (Z.to_nat (i - 1))) by lia.
          simpl. unfold load. now rewrite Z2Nat.id by lia.
        * rewrite load_store_other by auto. apply Hout; lia.
      + intros j Hj. rewrite load_store_other by (right; lia).
        apply Hin; lia.
      + replace (i + 1 - 1)%Z with i by lia. apply Hin; lia. }
  destruct HP as (Hl & Hout & _). split; auto.
Qed.

(** [rc_integrate] never changes the length of a block. *)
Lemma length_rc_integrate m s_in s_out tau N p :
  length (rc_integrate m s_in s_out tau N p) = length (m p).
Proof.
  unfold rc_integrate. destruct (tau <? fone).
  - rewrite length_store.
    apply (for_down_inv (fun m' => length (m' p) = length (m p))); auto.
    intros i m' H; unfold rc_shift_body; now rewrite length_store.
  - apply (for_up_inv (fun st : @mem F * F =>
                         length (fst st p) = length (m p))).
    + simpl; now rewrite length_store.
    + intros i [m' old] H; simpl in *; now rewrite length_store.
Qed.

(** The contents of the output block do not depend on whether it is
    the input block: both branches are functions of the input array. *)
Lemma rc_integrate_out m s_in s_out tau N :
  (0 < N)%Z ->
  Z.of_nat (length (m s_out)) = N ->
  forall j, (0 <= j < N)%Z ->
    load (rc_integrate m s_in s_out tau N) s_out j =
    if tau <? fone
    then (if (j =? 0)%Z then fzero else load m s_in (j - 1))
    else rc_rec tau (m s_in) (Z.to_nat j).
Proof.
  intros HN Hlen j Hj. destruct (tau <? fone) eqn:Htau.
  - now apply rc_integrate_shift.
  - now apply rc_integrate_rec.
Qed.

(** C8.  Calling [rc_integrate] with the output buffer aliased to the
    input buffer ([s_out == s_in]) produces exactly the output array
    that a call with any other output buffer [s_out] of the same
    length produces, for every input array and every [tau]. *)
Theorem rc_integrate_alias_safe m (s_in s_out : ptr) (tau : F) (N : Z) :
  Z.of_nat (length (m s_in)) = N ->
  Z.of_nat (length (m s_out)) = N ->
  rc_integrate m s_in s_in tau N s_in =
  rc_integrate m s_in s_out tau N s_out.
Proof.
  intros Hin Hout.
  apply (aget_ext fzero).
  - rewrite !length_rc_integrate; lia.
  - intros j Hj. rewrite length_rc_integrate in Hj.
    change (load (rc_integrate m s_in s_in tau N) s_in j =
            load (rc_integrate m s_in s_out tau N) s_out j).
    rewrite !rc_integrate_out by lia. reflexivity.
Qed.
End RcFacts.

(** ** Exact rationals are an ordered arithmetic *)

Lemma Qltb_lt (x y : Q) : Qltb x y = true <-> (x < y)%Q.
Proof.
  unfold Qltb; rewrite negb_true_iff, <- not_true_iff_false, Qle_bool_iff.
  split; [apply Qnot_le_lt | apply Qlt_not_le].
Qed.

#[export] Instance Q_order : FloatOrder Q.
Proof.
  constructor; cbn [fleb fltb fadd fzero lit Q_ops].
  - intros x; apply Qle_bool_iff, Qle_refl.
  - reflexivity.
  - intros x y z Hxy Hyz; apply Qle_bool_iff in Hxy.
    apply Qltb_lt in Hyz; apply Qltb_lt; eapply Qle_lt_trans; eauto.
  - intros x y z Hxy Hyz; apply Qltb_lt in Hxy, Hyz; apply Qltb_lt.
    eapply Qlt_trans; eauto.
  - intros x y Hxy; apply Qltb_lt in Hxy; apply Qle_bool_iff.
    now apply Qlt_le_weak.
  - intros x q Hx Hq; apply Qltb_lt in Hx; apply Qltb_lt.
    rewrite !Qred_correct.
    apply Qlt_trans with x; auto.
    rewrite <- (Qplus_0_r x) at 1. now apply Qplus_lt_r.
Qed.

(** *** The preamplifier stage of [get_signal] *)

Section PreampFacts.
Context {F : Type} {ops : FloatOps F}.
Local Open Scope fl_scope.

(** C6, as the code has it.  With [tau] the time constant in units of
    the output step and [x] the compressed signal of [N] samples, the
    preamplifier stage of [get_signal] gives: for [tau >= 1] the
    recurrence y[0] = 0, y[j] = y[j-1] + (x[j-1] - y[j-1]) / tau; for
    [0.1 <= tau < 1] the input shifted right by one sample with y[0] =
    0; and for [tau < 0.1] the input itself. *)
Theorem preamp_branches (setup : MJD_Siggen_Setup F) (x : list F) :
  let tau := preamp_tau setup / step_time_out setup in
  let N := ntsteps_out setup in
  let y := preamp setup x in
  (0 < N)%Z -> Z.of_nat (length x) = N ->
  ((tau >=? lit (1 # 10)) = true -> (tau <? fone) = false ->
   aget fzero y 0 = fzero /\
   forall j, (1 <= j < N)%Z ->
     aget fzero y j =
     aget fzero y (j - 1) +
     (aget fzero x (j - 1) - aget fzero y (j - 1)) / tau) /\
  ((tau >=? lit (1 # 10)) = true -> (tau <? fone) = true ->
   aget fzero y 0 = fzero /\
   forall j, (1 <= j < N)%Z -> aget fzero y j = aget fzero x (j - 1)) /\
  ((tau >=? lit (1 # 10)) = false -> y = x).
Proof.
  intros tau N y HN Hlen.
  assert (Hy : (tau >=? lit (1 # 10)) = true ->
               forall j, (0 <= j < N)%Z ->
                 aget fzero y j =
                 if tau <? fone
                 then (if (j =? 0)%Z then fzero else aget fzero x (j - 1))
                 else rc_rec tau x (Z.to_nat j)).
  { intros Hge j Hj. subst y; unfold preamp. fold tau; rewrite Hge.
    apply (rc_integrate_out (fun _ => x) 0%nat 0%nat tau HN Hlen Hj). }
  repeat split.
  - rewrite (Hy H) by lia. now rewrite H0.
  - intros j Hj. rewrite !(Hy H) by lia. rewrite H0.
    replace (Z.to_nat j) with (S (Z.to_nat (j - 1))) by lia.
    simpl. now rewrite Z2Nat.id by lia.
  - rewrite (Hy H) by lia. now rewrite H0.
  - intros j Hj. rewrite (Hy H) by lia. rewrite H0.
    destruct (Z.eqb_spec j 0); [lia | reflexivity].
  - intros Hlt. subst y; unfold preamp. fold tau. now rewrite Hlt.
Qed.
End PreampFacts.

(** The three branches, for a preamplifier of 30 ns, of 5 ns and of
    0.5 ns with output steps of 10 ns. *)
Lemma preamp_branches_witness :
  let x := [1; 2; 3]%Q in
  let N := ntsteps_out (tau_setup 30%Q) in
  ((0 < N)%Z /\ Z.of_nat (length x) = N) /\
  (aget fzero (preamp (tau_setup 30%Q) x) 0 = fzero /\
   aget fzero (preamp (tau_setup 5%Q) x) 0 = fzero /\
   preamp (tau_setup (1 # 2)%Q) x = x).
Proof.
  intros x N.
  assert (HN : (0 < N)%Z) by reflexivity.
  assert (Hlen : Z.of_nat (length x) = N) by reflexivity.
  split; [now split|].
  destruct (preamp_branches (tau_setup 30%Q) x HN Hlen) as (H30 & _ & _).
  destruct (preamp_branches (tau_setup 5%Q) x HN Hlen) as (_ & H5 & _).
  destruct (preamp_branches (tau_setup (1 # 2)%Q) x HN Hlen)
    as (_ & _ & H05).
  split; [|split].
  - apply (proj1 (H30 eq_refl eq_refl)).
  - apply (proj1 (H5 eq_refl eq_refl)).
  - apply (H05 eq_refl).
Defined.

(** C6 as stated fails: with a time constant of half an output step
    ([tau/dt = 0.5 >= 0.1]) the output is the shifted input and not the
    recurrence, and with a twentieth of a step ([tau/dt < 0.1]) the
    output is the input itself and not shifted. *)
Lemma preamp_not_as_claimed :
  let x := [1; 2; 3]%Q in
  let tau := fdiv 5%Q 10%Q in
  let y := preamp (tau_setup 5%Q) x in
  let y' := preamp (tau_setup (1 # 2)%Q) x in
  (fleb (lit (1 # 10)) tau = true /\
   aget 0%Q y 1 <>
   fadd (aget 0%Q y 0) (fdiv (fsub (aget 0%Q x 0) (aget 0%Q y 0)) tau)) /\
  (fleb (lit (1 # 10)) (fdiv (1 # 2)%Q 10%Q) = false /\
   aget 0%Q y' 0 <> 0%Q).
Proof.
  vm_compute. repeat split; try discriminate.
Qed.

(** The aliased call on a concrete memory. *)
Lemma rc_integrate_alias_safe_witness :
  let m : @mem Q := fun p => match p with
                             | O => [1; 2; 3]%Q
                             | _ => [7; 7; 7]%Q
                             end in
  rc_integrate m 0%nat 0%nat 3%Q 3 0%nat =
  rc_integrate m 0%nat 1%nat 3%Q 3 1%nat.
Proof.
  intros m.
  apply (rc_integrate_alias_safe m 0%nat 1%nat 3%Q (N := 3));
    reflexivity.
Defined.

(** *** The step response *)

(** C7, as the code has it.  With a time constant of 30 ns, output steps
    of 10 ns and a unit step as input, the integrated output is 1/3 =
    0.333 at sample 1 and 5/9 = 0.556 at sample 2: the values 1 -
    (2/3)^1 and 1 - (2/3)^2 of the recurrence.  In exact arithmetic they
    are exact, in binary32 they are met to within 10^-7. *)
Theorem rc_step_response :
  let y := preamp rc_setup (unit_step (F := Q) 4) in
  let y32 := map B32.to_Q (preamp rc_setup (unit_step (F := B32.t) 4)) in
  (aget 0 y 1 = 1 # 3 /\ aget 0 y 2 = 5 # 9)%Q /\
  (Qabs (aget 0 y32 1 - (1 # 3)) < 1 # 10000000)%Q /\
  (Qabs (aget 0 y32 2 - (5 # 9)) < 1 # 10000000)%Q /\
  three_decimals (aget 0%Q y32 1) (333 # 1000) /\
  three_decimals (aget 0%Q y32 2) (556 # 1000).
Proof.
  vm_compute. repeat split; intro H; discriminate H.
Qed.

(** C7 as stated fails: neither in exact arithmetic nor in binary32 is
    the output 0.283 at sample 1, or 0.487 at sample 2, to three
    decimals; nor is it for a step that rises at sample 1, where the
    output is 0 at sample 1 and 1/3 at sample 2. *)
Lemma rc_step_response_not_exponential :
  let y := preamp rc_setup (unit_step (F := Q) 4) in
  let y32 := map B32.to_Q (preamp rc_setup (unit_step (F := B32.t) 4)) in
  let late := preamp rc_setup (0%Q :: unit_step (F := Q) 3) in
  ~ three_decimals (aget 0%Q y 1) (283 # 1000) /\
  ~ three_decimals (aget 0%Q y 2) (487 # 1000) /\
  ~ three_decimals (aget 0%Q y32 1) (283 # 1000) /\
  ~ three_decimals (aget 0%Q y32 2) (487 # 1000) /\
  ~ three_decimals (aget 0%Q late 1) (283 # 1000) /\
  ~ three_decimals (aget 0%Q late 2) (487 # 1000).
Proof.
  vm_compute. repeat split; intro H; apply H; reflexivity.
Qed.

(** ** [detector_geometry.c] *)

Section GeometryPoint.
Context {F : Type} {ops : FloatOps F}.
Local Open Scope fl_scope.

(** The result is 0 exactly for the points of [inside_guarded], where
    the comparisons are those of an order. *)
Lemma outside_detector_cyl_inside_at (pt : cyl_pt F) setup :
  ordered_at setup (cr pt) (cz pt) ->
  outside_detector_cyl pt setup = 0%Z <->
  inside_guarded setup (cr pt) (cz pt).
Proof.
  unfold outside_detector_cyl, inside_guarded, ordered_at.
  destruct pt as [r phi z]; cbn [cr cz].
  intros (O1 & O2 & O3 & O4).
  destruct (z >=? zmax setup) eqn:E1; cbn [orb].
  { split; [discriminate|]. intros ((_ & H) & _).
    rewrite O1 in H; discriminate. }
  destruct (z <? fzero) eqn:E2.
  { split; [discriminate|]. intros ((H & _) & _).
    rewrite H in O2; discriminate. }
  assert (Z1 : (z <? zmax setup) = true) by exact O1.
  assert (Z2 : (fzero <=? z) = true)
    by (destruct (fzero <=? z); [reflexivity|discriminate]).
  destruct (r >? rmax setup) eqn:E3.
  { split; [discriminate|]. intros (_ & H & _).
    rewrite H in O3; discriminate. }
  assert (Z3 : (r <=? rmax setup) = true)
    by (destruct (r <=? rmax setup); [reflexivity|discriminate]).
  destruct ((z >? zmax setup - top_bullet_radius setup) &&
            dltb (bullet_bound_dbl setup z) (to_dbl r)) eqn:E4.
  { split; [discriminate|]. intros (_ & _ & H & _).
    apply andb_true_iff in E4 as [E4 E4'].
    specialize (H E4). congruence. }
  destruct ((pc_radius setup >? fzero) && (z <=? pc_length setup) &&
            (r <=? pc_radius setup)) eqn:E5.
  { split; [discriminate|]. intros (_ & _ & _ & H & _).
    apply andb_true_iff in E5 as [E5 E5'].
    apply andb_true_iff in E5 as [E5 E5'']. tauto. }
  destruct ((taper_length setup >? fzero) && (z <? taper_length setup) &&
            (r >? zmax setup - taper_length setup + z)) eqn:E6.
  { split; [discriminate|]. intros (_ & _ & _ & _ & H).
    apply andb_true_iff in E6 as [E6 E6'].
    apply andb_true_iff in E6 as [E6 E6'']. tauto. }
  split; [intros _|reflexivity].
  repeat split; auto.
  - intros Hz. apply andb_false_iff in E4 as [E4|E4]; congruence.
  - intros (H1 & H2 & H3). now rewrite H1, H2, H3 in E5.
  - intros (H1 & H2).
    rewrite (O4 Z2 H1), H1, H2 in E6. discriminate.
Qed.
End GeometryPoint.

Section GeometryFacts.
Context {F : Type} {ops : FloatOps F} {ord : FloatOrder F}.
Local Open Scope fl_scope.

Lemma fltb_false_fleb (a b : F) : (a <? b) = false <-> (b <=? a) = true.
Proof. rewrite fltb_fleb, negb_false_iff; tauto. Qed.

Lemma fleb_false_fltb (a b : F) : (a <=? b) = false <-> (b <? a) = true.
Proof. rewrite fltb_fleb, negb_true_iff; tauto. Qed.

Lemma ordered_at_total (setup : MJD_Siggen_Setup F) (r z : F) :
  ordered_at setup r z.
Proof.
  unfold ordered_at. repeat split; try apply fltb_fleb.
  apply fleb_fltb_trans.
Qed.

(** The result is 0 exactly for the points of [inside_guarded]. *)
Lemma outside_detector_cyl_inside (pt : cyl_pt F) setup :
  outside_detector_cyl pt setup = 0%Z <->
  inside_guarded setup (cr pt) (cz pt).
Proof. apply outside_detector_cyl_inside_at, ordered_at_total. Qed.
End GeometryFacts.

Section GeometryAgree.
Context {F : Type} {ops : FloatOps F}.

(** The Cartesian test is the cylindrical test at the radius of the
    point. *)
Lemma outside_detector_to_cyl (pt : point F) setup :
  outside_detector pt setup = outside_detector_cyl (to_cyl pt) setup.
Proof. reflexivity. Qed.

Lemma outside_detector_cyl_01 (pt : cyl_pt F) setup :
  outside_detector_cyl pt setup = 0%Z \/ outside_detector_cyl pt setup = 1%Z.
Proof.
  unfold outside_detector_cyl.
  repeat match goal with
         | |- context [if ?b then _ else _] => destruct b
         end; auto.
Qed.
End GeometryAgree.

(** C4, as the code has it.  In an ordered arithmetic, which has no
    NaN, [outside_detector_cyl] returns 0 exactly when 0 <= z < L_z,
    r <= R_max, the point is not outside the bulletized top (if
    z > L_z - b_t then not r > (R_max - b_t) + sqrt(b_t^2 - (z - (L_z -
    b_t))^2), where the sum, the square root and the comparison are
    those of double precision), not inside the point-contact cavity,
    which exists only for R_c > 0 (not (R_c > 0 and z <= L_c and
    r <= R_c)), and not beyond the taper (not (z < L_t and
    r > L_z - L_t + z)); it returns 1 otherwise; and the Cartesian
    version is the cylindrical one at r = sqrt(x^2 + y^2). *)
Theorem outside_detector_spec
        {F : Type} {ops : FloatOps F} {ord : FloatOrder F}
        (setup : MJD_Siggen_Setup F) :
  (forall pt : cyl_pt F,
     (outside_detector_cyl pt setup = 0%Z <->
      inside_guarded setup (cr pt) (cz pt)) /\
     (outside_detector_cyl pt setup = 0%Z \/
      outside_detector_cyl pt setup = 1%Z)) /\
  (forall pt : point F,
     outside_detector pt setup = outside_detector_cyl (to_cyl pt) setup).
Proof.
  split.
  - intros pt; split.
    + apply outside_detector_cyl_inside.
    + apply outside_detector_cyl_01.
  - intros pt; apply outside_detector_to_cyl.
Qed.

(** The theorem at a crystal of 4 x 4 mm with a point contact of
    1 x 1 mm, in exact arithmetic. *)
Lemma outside_detector_spec_witness :
  let setup := plain_setup (F := Q) 4 4 1 1 1 0 (-1) 0 1 8 8 in
  let pt := {| cr := 2%Q; cphi := 0%Q; cz := 2%Q |} in
  outside_detector_cyl pt setup = 0%Z <->
  inside_guarded setup (cr pt) (cz pt).
Proof.
  intros setup pt.
  apply (proj1 (outside_detector_spec (ord := Q_order) setup)).
Defined.

(** C4 as stated fails: for a point contact of radius 0 the code has no
    cavity, so the point r = 0, z = 1/2 below the contact length 1 is
    inside for the code and outside for the predicate of the
    specification. *)
Lemma outside_detector_not_inside_spec :
  let setup := plain_setup (F := Q) 4 4 1 0 1 0 (-1) 0 1 8 8 in
  let pt := {| cr := 0%Q; cphi := 0%Q; cz := (1 # 2)%Q |} in
  outside_detector_cyl pt setup = 0%Z /\
  ~ inside_spec setup (cr pt) (cz pt).
Proof.
  split; [reflexivity|].
  intros (_ & _ & _ & H & _). apply H; split; reflexivity.
Qed.

(** ** [calc_signal.c]: [make_signal] and [get_signal] *)

Section SignalFacts.
Context {F : Type} {ops : FloatOps F}.
Variable E : Externals (F := F).
Local Open Scope fl_scope.
Local Abbreviation Setup := (MJD_Siggen_Setup F).

(** *** The drift loop terminates *)

Lemma drift_loop_fuel fuel q c dc ntsteps (d : drift) :
  (0 < fuel)%nat ->
  (ntsteps - 2 - d_t d < Z.of_nat fuel)%Z ->
  drift_loop E fuel q c dc ntsteps d <> OutOfFuel.
Proof.
  revert d; induction fuel as [|fuel IH]; intros d Hpos Hfuel; [lia|].
  cbn [drift_loop].
  destruct (drift_velocity E (d_new_pt d) q (d_setup d)) as [vel|];
    [|discriminate].
  destruct (track_cloud E c dc (d_t d) vel _ (d_vel1 d)) as [setup vel1].
  destruct (d_t d >=? ntsteps - 2)%Z eqn:Et; [discriminate|].
  destruct (wpotential E (d_new_pt d) setup); [|discriminate].
  match goal with
  | |- context [if ?b then _ else _] => destruct b; [discriminate|]
  end.
  rewrite Z.geb_leb in Et; apply Z.leb_gt in Et.
  apply IH; cbn [d_t]; lia.
Qed.

Lemma drift_run_fuel pt signal q setup wpot wpot_old :
  drift_run E pt signal q setup wpot wpot_old <> OutOfFuel.
Proof.
  unfold drift_run; apply drift_loop_fuel; cbn [d_t drift_start]; lia.
Qed.

(** *** Index 0 of the signal array is not written *)

Lemma drift_loop_step0 fuel q c dc ntsteps (d d' : drift) :
  (0 <= d_t d)%Z ->
  exit_state (drift_loop E fuel q c dc ntsteps d) = Some d' ->
  aget fzero (d_signal d') 0 = aget fzero (d_signal d) 0 /\
  (0 <= d_t d')%Z.
Proof.
  revert d; induction fuel as [|fuel IH]; intros d Ht; [discriminate|].
  cbn [drift_loop].
  destruct (drift_velocity E (d_new_pt d) q (d_setup d)) as [vel|];
    [|intros [= <-]; auto].
  destruct (track_cloud E c dc (d_t d) vel _ (d_vel1 d)) as [setup vel1].
  destruct (d_t d >=? ntsteps - 2)%Z; [intros [= <-]; auto|].
  destruct (wpotential E (d_new_pt d) setup) as [w|];
    [|intros [= <-]; auto].
  assert (Hsig :
    aget fzero
      (if (d_t d >? 0)%Z
       then aset (d_signal d) (d_t d)
                 (aget fzero (d_signal d) (d_t d) + q * (w - d_wpot_old d))
       else d_signal d) 0 = aget fzero (d_signal d) 0).
  { destruct (d_t d >? 0)%Z eqn:Egt; auto.
    apply Z.gtb_lt in Egt. apply aget_aset_neq; lia. }
  match goal with
  | |- context [if ?b then Break _ _ else _] => destruct b
  end.
  - intros [= <-]; auto.
  - intros Hexit. apply IH in Hexit; cbn [d_t d_signal] in *; [|lia].
    destruct Hexit as [H1 H2]; split; [congruence | lia].
Qed.

Lemma after_drift_result q ntsteps dwpot low_field (d : drift) :
  exists r,
    after_drift E q ntsteps dwpot low_field d = Some r /\
    (ms_ret r = 0%Z \/ ms_ret r = (-1)%Z) /\
    ((0 <= d_t d)%Z ->
     aget fzero (ms_signal r) 0 = aget fzero (d_signal d) 0).
Proof.
  unfold after_drift, ms_return.
  destruct (d_t d =? 0)%Z eqn:Et0; [eexists; split; eauto|].
  apply Z.eqb_neq in Et0.
  destruct low_field; [eexists; split; eauto|].
  destruct (edge_drift E q ntsteps d) as [n [new_pt setup]].
  match goal with
  | |- context [if ?b then Some _ else _] =>
      destruct b; [eexists; split; eauto|]
  end.
  eexists; split; [reflexivity|]; cbn [ms_ret ms_signal]; split; auto.
  intros Ht. apply for_up_inv_range; auto.
  intros i s Hi Hs; unfold smear_body.
  rewrite aget_aset_neq by lia. exact Hs.
Qed.

(** [make_signal] returns, with 0 or -1, and leaves [signal[0]] as it
    is. *)
Lemma make_signal_result pt signal q setup wpot wpot_old dwpot :
  exists r,
    make_signal E pt signal q setup wpot wpot_old dwpot = Some r /\
    (ms_ret r = 0%Z \/ ms_ret r = (-1)%Z) /\
    aget fzero (ms_signal r) 0 = aget fzero signal 0.
Proof.
  unfold make_signal.
  pose proof (drift_run_fuel pt signal q setup wpot wpot_old) as Hfuel.
  pose proof (fun d' =>
    @drift_loop_step0 (S (Z.to_nat (time_steps_calc setup - 2))) q
      (collect2pc q setup) (diffusion_coeff q setup)
      (time_steps_calc setup)
      (drift_start pt signal setup wpot wpot_old) d' (Z.le_refl 0))
    as Hstep.
  fold (drift_run E pt signal q setup wpot wpot_old) in Hstep.
  destruct (drift_run E pt signal q setup wpot wpot_old) as [d|lf d|d|];
    [| | |congruence];
    destruct (Hstep d eq_refl) as [H0 Ht]; cbn [d_signal drift_start] in H0.
  - destruct (after_drift_result q (time_steps_calc setup) dwpot false d)
      as (r & Hr & Hret & Hsig).
    exists r; repeat split; auto. rewrite Hsig; auto.
  - destruct (after_drift_result q (time_steps_calc setup) dwpot lf d)
      as (r & Hr & Hret & Hsig).
    exists r; repeat split; auto. rewrite Hsig; auto.
  - unfold ms_return; eexists; split; [reflexivity|].
    cbn [ms_ret ms_signal]; auto.
Qed.
Lemma aget_aset_default (a : list F) i :
  aget fzero (aset a i fzero) i = fzero.
Proof.
  destruct (Z_lt_dec i 0) as [Hneg|Hpos];
    [apply aget_outside; lia|].
  destruct (Z_lt_dec i (Z.of_nat (length a))) as [Hlt|Hge].
  - apply aget_aset_eq; lia.
  - apply aget_outside; rewrite length_aset; lia.
Qed.

Lemma prepare_statics_step0 (setup : Setup) (st : Statics) :
  (0 < time_steps_calc setup)%Z ->
  aget fzero (signal (prepare_statics setup st)) 0 = fzero.
Proof.
  intros Hn; unfold prepare_statics.
  set (st1 := if negb (tsteps st =? time_steps_calc setup)%Z
              then _ else st).
  cbn [signal].
  assert (Ht : tsteps st1 = time_steps_calc setup).
  { subst st1.
    destruct (tsteps st =? time_steps_calc setup)%Z eqn:Et; cbn; auto.
    now apply Z.eqb_eq in Et. }
  rewrite Ht.
  apply (for_up_ind
           (fun i a => (0 < i)%Z -> aget fzero a 0 = fzero)); try lia.
  intros i a Hi Ha _.
  destruct (Z.eq_dec i 0) as [->|Hne]; [apply aget_aset_default|].
  rewrite aget_aset_neq by lia. apply Ha; lia.
Qed.

(** C10.  [make_signal] returns and never modifies index 0 of the
    signal array; so, for a setup with at least one time step, the
    current sample of step 0 that [get_signal] holds after the calls
    for the electron and the hole, before the sum over the previous
    steps, is zero. *)
Theorem make_signal_keeps_step0 :
  (forall pt signal q (setup : Setup) wpot wpot_old dwpot,
     exists r,
       make_signal E pt signal q setup wpot wpot_old dwpot = Some r /\
       aget fzero (ms_signal r) 0 = aget fzero signal 0) /\
  (forall pt (setup : Setup) (st : Statics),
     (0 < time_steps_calc setup)%Z ->
     exists err setup' st',
       drift_both E pt setup (prepare_statics setup st) =
         Some (err, setup', st') /\
       aget fzero (signal st') 0 = fzero).
Proof.
  split.
  - intros pt sig q setup wpot wpot_old dwpot.
    destruct (make_signal_result pt sig q setup wpot wpot_old dwpot)
      as (r & Hr & _ & H0); eauto.
  - intros pt setup st Hn. unfold drift_both, electron_call, hole_call.
    set (st1 := prepare_statics setup st).
    destruct (make_signal_result pt (signal st1) ELECTRON_CHARGE
                (clear_paths setup st1) (wpot st1) (wpot_old st1)
                (dwpot st1)) as (e & He & _ & He0).
    rewrite He.
    destruct (make_signal_result pt (ms_signal e) HOLE_CHARGE
                (ms_setup e) (ms_wpot e) (ms_wpot_old e) (ms_dwpot e))
      as (h & Hh & _ & Hh0).
    rewrite Hh. do 3 eexists; split; [reflexivity|].
    cbn [signal]. rewrite Hh0, He0.
    now apply prepare_statics_step0.
Qed.

(** *** Failures of [make_signal] *)

Lemma drift_run_outside pt signal q (setup : Setup) wpot wpot_old :
  drift_velocity E pt q setup = None ->
  drift_run E pt signal q setup wpot wpot_old =
  LeftField (drift_start pt signal setup wpot wpot_old).
Proof.
  intros H; unfold drift_run; cbn [drift_loop drift_start d_new_pt d_setup].
  now rewrite H.
Qed.

(** C5, as the code has it.  [make_signal] fails when the very first
    drift step (t = 0) is already outside the field.  When the drift has
    left the field grid, or has stopped without the low-field mark, at a
    step t > 0 and the straight drift to the crystal boundary uses up
    the time steps, then the call fails for a hole and for an electron
    whose last weighting potential is above [WP_THRESH_ELECTRONS]; for
    an electron with a weighting potential up to that threshold the
    exhaustion is absorbed and the call succeeds. *)
Theorem make_signal_failures pt signal q (setup : Setup)
        wpot wpot_old dwpot :
  let ntsteps := time_steps_calc setup in
  let run := drift_run E pt signal q setup wpot wpot_old in
  (drift_velocity E pt q setup = None ->
   exists r,
     make_signal E pt signal q setup wpot wpot_old dwpot = Some r /\
     ms_ret r = (-1)%Z) /\
  (forall d,
     run = LeftField d \/ run = Break false d ->
     d_t d <> 0%Z ->
     truncated E q ntsteps d = true ->
     exists r,
       make_signal E pt signal q setup wpot wpot_old dwpot = Some r /\
       ms_ret r =
       if (q >? fzero) || (d_wpot d >? WP_THRESH_ELECTRONS E)
       then (-1)%Z else 0%Z).
Proof.
  intros ntsteps run; split.
  - intros Hout. unfold make_signal.
    rewrite drift_run_outside by exact Hout.
    unfold after_drift, ms_return; cbn [d_t drift_start Z.eqb].
    eexists; split; reflexivity.
  - intros d Hrun Ht Htrunc.
    assert (Hafter :
      make_signal E pt signal q setup wpot wpot_old dwpot =
      after_drift E q ntsteps dwpot false d).
    { unfold make_signal; fold run ntsteps.
      destruct Hrun as [-> | ->]; reflexivity. }
    rewrite Hafter; unfold after_drift, ms_return.
    apply Z.eqb_neq in Ht; rewrite Ht, Htrunc.
    destruct (edge_drift E q ntsteps d) as [n [new_pt setup']].
    cbn [andb].
    destruct ((q >? fzero) || (d_wpot d >? WP_THRESH_ELECTRONS E));
      eexists; split; reflexivity.
Qed.

End SignalFacts.

(** *** The theorems on the axis field *)

(** C10 at a crystal of length 4 with 8 steps: the sample of step 0 is
    zero after the two calls. *)
Lemma make_signal_keeps_step0_witness :
  let setup := Axis.setup 4 8 in
  (0 < time_steps_calc setup)%Z /\
  exists err setup' st',
    drift_both Axis.world Axis.start setup
               (prepare_statics setup statics_init) =
      Some (err, setup', st') /\
    aget fzero (signal st') 0 = fzero.
Proof.
  intros setup.
  assert (Hn : (0 < time_steps_calc setup)%Z) by reflexivity.
  split; [exact Hn|].
  exact (proj2 (make_signal_keeps_step0 Axis.world) Axis.start setup
               statics_init Hn).
Defined.

(** In a crystal of length 100 whose field grid ends at z = 2, the
    electron leaves the grid at step 2 with a weighting potential of
    0.25 and is still inside the crystal when the 8 steps are used up. *)
Lemma make_signal_failures_witness :
  let setup := Axis.setup 100 8 in
  let st := prepare_statics setup statics_init in
  let q : Q := ELECTRON_CHARGE in
  let run := drift_run Axis.world Axis.start (signal st) q
                       (clear_paths setup st) (wpot st) (wpot_old st) in
  exists d,
    (run = LeftField d /\ d_t d <> 0%Z /\
     truncated Axis.world q 8 d = true) /\
    exists r,
      make_signal Axis.world Axis.start (signal st) q (clear_paths setup st)
                  (wpot st) (wpot_old st) (dwpot st) = Some r /\
      ms_ret r =
      if (q >? fzero)%fl || (d_wpot d >? WP_THRESH_ELECTRONS Axis.world)%fl
      then (-1)%Z else 0%Z.
Proof.
  intros setup st q run.
  pose (d := match run with
             | LeftField d => d
             | _ => drift_start Axis.start (signal st) setup 0%Q 0%Q
             end).
  assert (Hrun : run = LeftField d) by (vm_compute; reflexivity).
  assert (Ht : d_t d <> 0%Z) by (vm_compute; discriminate).
  assert (Htr : truncated Axis.world q 8 d = true)
    by (vm_compute; reflexivity).
  exists d; split; [auto|].
  exact (proj2 (make_signal_failures Axis.world Axis.start (signal st) q
                  (clear_paths setup st) (wpot st) (wpot_old st) (dwpot st))
               d (or_introl Hrun) Ht Htr).
Defined.

(** C5 as stated fails: the electron of the example above has used up
    its steps after leaving the field grid, and its call fails. *)
Lemma electron_truncation_not_absorbed :
  let setup := Axis.setup 100 8 in
  let st := prepare_statics setup statics_init in
  let q : Q := ELECTRON_CHARGE in
  exists d r,
    drift_run Axis.world Axis.start (signal st) q (clear_paths setup st)
              (wpot st) (wpot_old st) = LeftField d /\
    d_t d = 2%Z /\
    truncated Axis.world q (time_steps_calc setup) d = true /\
    (q <? fzero)%fl = true /\
    electron_call Axis.world Axis.start setup st = Some r /\
    ms_ret r = (-1)%Z.
Proof.
  intros setup st q.
  do 2 eexists.
  split; [vm_compute; reflexivity|].
  split; [reflexivity|].
  split; [vm_compute; reflexivity|].
  split; [reflexivity|].
  split; [vm_compute; reflexivity|reflexivity].
Qed.

(** ** The state between the calls of [get_signal] *)

Section FillFacts.
Context {A : Type}.

(** A loop that writes [f j] to every cell [j < n] of an array of [n]
    cells leaves nothing of what the array held. *)
Lemma fill_spec (d : A) (f : Z -> A) n (a : list A) :
  (0 <= n)%Z -> length a = Z.to_nat n ->
  let a' := for_up 0 n (fun j a => aset a j (f j)) a in
  length a' = length a /\
  forall j, (0 <= j < n)%Z -> aget d a' j = f j.
Proof.
  intros Hn Hlen a'; subst a'.
  apply (for_up_ind
           (fun i a' => length a' = length a /\
                        forall j, (0 <= j < i)%Z -> aget d a' j = f j));
    [lia | split; auto; intros; lia |].
  intros i a1 Hi [Hl Hf]; split; [now rewrite length_aset|].
  intros j Hj. destruct (Z.eq_dec j i) as [->|Hne].
  - apply aget_aset_eq; lia.
  - rewrite aget_aset_neq by lia. apply Hf; lia.
Qed.

Lemma fill_eq (d : A) (f : Z -> A) n (a1 a2 : list A) :
  length a1 = Z.to_nat n -> length a2 = Z.to_nat n ->
  for_up 0 n (fun j a => aset a j (f j)) a1 =
  for_up 0 n (fun j a => aset a j (f j)) a2.
Proof.
  intros H1 H2.
  destruct (Z_lt_dec n 0) as [Hneg|Hpos].
  - rewrite !for_up_empty by lia.
    destruct a1, a2; simpl in *; auto; lia.
  - destruct (@fill_spec d f n a1) as [Hl1 Hf1]; [lia | auto |].
    destruct (@fill_spec d f n a2) as [Hl2 Hf2]; [lia | auto |].
    apply (aget_ext d); [lia|].
    intros j Hj. rewrite Hf1, Hf2 by lia. reflexivity.
Qed.

Lemma length_for_up_aset {St : Type} lo hi (body : Z -> list A -> list A)
      (a : list A) :
  (forall i a, length (body i a) = length a) ->
  length (for_up lo hi body a) = length a.
Proof.
  intros Hbody.
  apply (for_up_inv (fun a' => length a' = length a)); auto.
  intros i a' H; now rewrite Hbody.
Qed.
End FillFacts.

Section StaticsFacts.
Context {F : Type} {ops : FloatOps F}.
Variable E : Externals (F := F).
Local Open Scope fl_scope.
Local Abbreviation Setup := (MJD_Siggen_Setup F).

Lemma length_alloc n (old : list F) : length (alloc n old) = Z.to_nat n.
Proof.
  unfold alloc. rewrite length_firstn, length_app, repeat_length. lia.
Qed.

(** After lines 103-113 the arrays hold [time_steps_calc] cells and
    [signal] holds zeros, whatever the arrays held before. *)
Lemma prepare_statics_ok (setup : Setup) (st : Statics) :
  statics_ok st ->
  let st' := prepare_statics setup st in
  tsteps st' = time_steps_calc setup /\ statics_ok st' /\
  wpot st' = wpot st /\ wpot_old st' = wpot_old st.
Proof.
  intros (Hs & Hu & Ht); unfold prepare_statics, statics_ok.
  destruct (Z.eqb_spec (tsteps st) (time_steps_calc setup)) as [Heq|Hne];
    cbn [negb signal sum tmp tsteps wpot wpot_old];
    rewrite ?(@length_for_up_aset F (list F)) by (intros; apply length_aset);
    rewrite ?length_alloc; repeat split; auto; congruence.
Qed.

Lemma prepare_statics_signal (setup : Setup) (st1 st2 : Statics) :
  statics_ok st1 -> statics_ok st2 ->
  signal (prepare_statics setup st1) = signal (prepare_statics setup st2).
Proof.
  intros (Hs1 & _) (Hs2 & _); unfold prepare_statics.
  destruct (Z.eqb_spec (tsteps st1) (time_steps_calc setup)) as [E1|N1];
    destruct (Z.eqb_spec (tsteps st2) (time_steps_calc setup)) as [E2|N2];
    cbn [negb signal tsteps];
    rewrite ?E1, ?E2;
    apply (fill_eq fzero (fun _ => fzero));
    rewrite ?length_alloc; congruence.
Qed.

(** *** [make_signal] keeps the length of the signal array and does not
    read [dwpot] *)

Lemma drift_loop_length fuel q c dc ntsteps (d d' : drift) :
  exit_state (drift_loop E fuel q c dc ntsteps d) = Some d' ->
  length (d_signal d') = length (d_signal d).
Proof.
  revert d; induction fuel as [|fuel IH]; intros d; [discriminate|].
  cbn [drift_loop].
  destruct (drift_velocity E (d_new_pt d) q (d_setup d)) as [vel|];
    [|intros [= <-]; auto].
  destruct (track_cloud E c dc (d_t d) vel _ (d_vel1 d)) as [setup vel1].
  destruct (d_t d >=? ntsteps - 2)%Z; [intros [= <-]; auto|].
  destruct (wpotential E (d_new_pt d) setup) as [w|];
    [|intros [= <-]; auto].
  assert (Hlen :
    length (if (d_t d >? 0)%Z
            then aset (d_signal d) (d_t d)
                   (aget fzero (d_signal d) (d_t d) + q * (w - d_wpot_old d))
            else d_signal d) = length (d_signal d)).
  { destruct (d_t d >? 0)%Z; auto using length_aset. }
  match goal with
  | |- context [if ?b then Break _ _ else _] => destruct b
  end.
  - intros [= <-]; auto.
  - intros Hexit. apply IH in Hexit; cbn [d_signal] in *. congruence.
Qed.

(** What follows the drift loop reads [dwpot] only after writing it. *)
Lemma after_drift_dwpot q ntsteps dw1 dw2 lf (d : drift) :
  exists r1 r2,
    after_drift E q ntsteps dw1 lf d = Some r1 /\
    after_drift E q ntsteps dw2 lf d = Some r2 /\
    ms_ret r1 = ms_ret r2 /\ ms_signal r1 = ms_signal r2 /\
    ms_setup r1 = ms_setup r2 /\ ms_wpot_old r1 = ms_wpot_old r2 /\
    length (ms_signal r1) = length (d_signal d).
Proof.
  unfold after_drift, ms_return.
  destruct (d_t d =? 0)%Z; [do 2 eexists; repeat split; auto|].
  destruct lf; [do 2 eexists; repeat split; auto|].
  destruct (edge_drift E q ntsteps d) as [n [p s']].
  match goal with
  | |- context [if ?b then Some _ else _] =>
      destruct b; [do 2 eexists; repeat split; auto|]
  end.
  do 2 eexists; repeat split; cbn [ms_signal].
  rewrite (@length_for_up_aset F (list F)); auto.
  intros; unfold smear_body; apply length_aset.
Qed.

(** Of its statics [make_signal] reads only [wpot_old] before writing
    it: [dwpot] is written at lines 300-304 before it is read, and
    [wpot] is read before [wpotential] has written it only at step 0
    (line 240), from where the call returns -1 whatever it held. *)
Lemma make_signal_statics pt signal q (setup : Setup) w1 w2 wo dw1 dw2 :
  exists r1 r2,
    make_signal E pt signal q setup w1 wo dw1 = Some r1 /\
    make_signal E pt signal q setup w2 wo dw2 = Some r2 /\
    ms_ret r1 = ms_ret r2 /\ ms_signal r1 = ms_signal r2 /\
    ms_setup r1 = ms_setup r2 /\ ms_wpot_old r1 = ms_wpot_old r2 /\
    length (ms_signal r1) = length signal.
Proof.
  unfold make_signal.
  pose proof (drift_run_fuel E pt signal q setup w1 wo) as Hfuel.
  pose proof (fun d' =>
    @drift_loop_length (S (Z.to_nat (time_steps_calc setup - 2))) q
      (collect2pc q setup) (diffusion_coeff q setup)
      (time_steps_calc setup)
      (drift_start pt signal setup w1 wo) d') as Hlen.
  revert Hfuel Hlen. unfold drift_run.
  cbn [drift_loop drift_start d_t d_new_pt d_v d_dx d_vel1 d_signal
       d_setup d_wpot d_wpot_old].
  destruct (drift_velocity E pt q setup) as [vel|].
  2: { intros _ _. unfold after_drift, ms_return; cbn [d_t Z.eqb].
       do 2 eexists; repeat split. }
  destruct (track_cloud E _ _ 0 vel _ fzero) as [setup' vel1].
  destruct (0 >=? time_steps_calc setup - 2)%Z.
  { intros _ _. unfold after_drift, ms_return; cbn [d_t Z.eqb].
    do 2 eexists; repeat split. }
  destruct (wpotential E pt setup') as [w|].
  2: { intros _ _. unfold ms_return. do 2 eexists; repeat split. }
  change (0 >? 0)%Z with false; cbv iota.
  match goal with
  | |- context [if ?b then Break _ _ else _] => destruct b
  end.
  - intros _ _.
    match goal with
    | |- context [after_drift E q ?n dw1 true ?d] =>
        destruct (after_drift_dwpot q n dw1 dw2 true d)
          as (r1 & r2 & H1 & H2 & Hr & Hs & Hst & Hwo & Hl)
    end.
    exists r1, r2; repeat split; auto.
  - match goal with
    | |- context [match ?run with OutOfFuel => _ | _ => _ end] =>
        destruct run as [d|lf d|d|]
    end; intros Hfuel Hlen; [| | |congruence];
      specialize (Hlen d eq_refl); cbn [d_signal] in Hlen.
    + destruct (after_drift_dwpot q (time_steps_calc setup) dw1 dw2 false d)
        as (r1 & r2 & H1 & H2 & Hr & Hs & Hst & Hwo & Hl).
      exists r1, r2; repeat split; auto; congruence.
    + destruct (after_drift_dwpot q (time_steps_calc setup) dw1 dw2 lf d)
        as (r1 & r2 & H1 & H2 & Hr & Hs & Hst & Hwo & Hl).
      exists r1, r2; repeat split; auto; congruence.
    + unfold ms_return; do 2 eexists; repeat split; auto.
Qed.

(** *** The shaping of the signal *)

Lemma length_integrate_current n (a : list F) :
  length (integrate_current n a) = length a.
Proof.
  unfold integrate_current.
  apply (@length_for_up_aset F (list F)); intros; apply length_aset.
Qed.

Lemma conv_inner_lengths k y j st st' :
  same_lengths st st' -> same_lengths st (conv_inner k y j st').
Proof.
  destruct st as [[s u] t], st' as [[s' u'] t']; cbn.
  rewrite !length_aset; auto.
Qed.

Lemma conv_outer_lengths n w l i st st' :
  same_lengths st st' -> same_lengths st (conv_outer E n w l i st').
Proof.
  intros H. unfold conv_outer.
  pose proof (for_up_inv (same_lengths st) 0 (n - (l + i * l))
                (conv_inner (l + i * l)
                   (c_exp E (- (of_int (l + i * l) / w *
                                (of_int (l + i * l) / w)))))
                st' H
                (fun j s Hs => conv_inner_lengths _ _ j st s Hs)) as Hin.
  destruct (for_up 0 (n - (l + i * l)) _ st') as [[s1 u1] t1].
  destruct st as [[s u] t]; cbn in *.
  destruct Hin as (Hs & Hu & Ht); repeat split; auto.
  rewrite (@length_for_up_aset F (list F)); auto.
  intros; apply length_aset.
Qed.

Lemma gaussian_lengths n dt st : same_lengths st (gaussian E n dt st).
Proof.
  assert (Hrefl : forall st : list F * list F * list F,
             same_lengths st st)
    by (intros [[? ?] ?]; cbn; auto).
  destruct st as [[s u] t]; unfold gaussian.
  destruct (dt >? 1)%Z; [|apply Hrefl].
  apply for_up_inv.
  - cbn. rewrite !(@length_for_up_aset F (list F)); auto;
      intros; apply length_aset.
  - intros i st' Hst'. now apply conv_outer_lengths.
Qed.

(** What [sum] and [tmp] held does not reach [signal]: the two arrays
    are filled at lines 155-158 before they are read. *)
Lemma gaussian_scratch n dt (s u1 t1 u2 t2 : list F) :
  length u1 = Z.to_nat n -> length u2 = Z.to_nat n ->
  length t1 = Z.to_nat n -> length t2 = Z.to_nat n ->
  fst (fst (gaussian E n dt (s, u1, t1))) =
  fst (fst (gaussian E n dt (s, u2, t2))).
Proof.
  intros Hu1 Hu2 Ht1 Ht2. unfold gaussian.
  destruct (dt >? 1)%Z; [|reflexivity].
  rewrite (@fill_eq F fzero (fun _ => fone) n u1 u2 Hu1 Hu2).
  rewrite (@fill_eq F fzero (fun j => aget fzero s j) n t1 t2 Ht1 Ht2).
  reflexivity.
Qed.

Lemma shape_signal_scratch (setup : Setup) (st1 st2 : Statics) out :
  statics_ok st1 -> statics_ok st2 ->
  signal st1 = signal st2 -> tsteps st1 = tsteps st2 ->
  wpot_old st1 = wpot_old st2 ->
  match shape_signal E setup st1 out, shape_signal E setup st2 out with
  | Some r1, Some r2 =>
      snd r1 = snd r2 /\ wpot_old (fst r1) = wpot_old (fst r2) /\
      statics_ok (fst r1) /\ statics_ok (fst r2)
  | None, None => True
  | _, _ => False
  end.
Proof.
  intros (Hs1 & Hu1 & Ht1) (Hs2 & Hu2 & Ht2) Hsig Hn Hwo.
  unfold shape_signal. destruct out as [out|]; cbn zeta.
  2: { cbn [fst snd]; unfold statics_ok; repeat split; auto. }
  assert (Hg := @gaussian_scratch (tsteps st1) (cloud_dt setup) (signal st1)
                  (sum st1) (tmp st1) (sum st2) (tmp st2)
                  Hu1 ltac:(congruence) Ht1 ltac:(congruence)).
  assert (Hl1 := gaussian_lengths (tsteps st1) (cloud_dt setup)
                   (signal st1, sum st1, tmp st1)).
  assert (Hl2 := gaussian_lengths (tsteps st1) (cloud_dt setup)
                   (signal st1, sum st2, tmp st2)).
  rewrite <- Hn, <- Hsig, <- Hwo.
  destruct ((charge_cloud_size setup >? lit (1 # 1000)) ||
            negb (use_diffusion setup =? 0)%Z).
  - destruct (gaussian E (tsteps st1) _ (signal st1, sum st1, tmp st1))
      as [[s1 u1] t1].
    destruct (gaussian E (tsteps st1) _ (signal st1, sum st2, tmp st2))
      as [[s2 u2] t2].
    cbn [fst snd] in *. subst s2.
    destruct (compress setup s1 out) as [out'|]; [|exact I].
    cbn [fst snd]. unfold statics_ok.
    cbn [signal sum tmp tsteps wpot wpot_old].
    destruct Hl1 as (? & ? & ?), Hl2 as (? & ? & ?).
    repeat split; congruence.
  - destruct (compress setup (signal st1) out) as [out'|]; [|exact I].
    cbn [fst snd]. unfold statics_ok.
    cbn [signal sum tmp tsteps wpot wpot_old].
    repeat split; congruence.
Qed.

(** Of the state that [get_signal] keeps between calls (the arrays
    [signal], [sum], [tmp] with their length [tsteps], and [wpot],
    [wpot_old], [dwpot] of [make_signal]) only [wpot_old] reaches the
    caller, when no allocation fails. *)
Lemma get_signal_scratch g1 g2 pt out (setup : Setup) (st1 st2 : Statics) :
  statics_ok st1 -> statics_ok st2 ->
  wpot_old st1 = wpot_old st2 ->
  allocated g1 setup st1 = true -> allocated g2 setup st2 = true ->
  match get_signal E g1 pt out setup st1,
        get_signal E g2 pt out setup st2 with
  | Some r1, Some r2 =>
      visible r1 = visible r2 /\
      statics_ok (gs_statics r1) /\ statics_ok (gs_statics r2)
  | None, None => True
  | _, _ => False
  end.
Proof.
  intros Hok1 Hok2 Hwo Ha1 Ha2.
  destruct (prepare_statics_ok setup Hok1) as (Hn1 & Hp1 & _ & Hwo1).
  destruct (prepare_statics_ok setup Hok2) as (Hn2 & Hp2 & _ & Hwo2).
  pose proof (prepare_statics_signal setup Hok1 Hok2) as Hsig.
  unfold get_signal. rewrite Ha1, Ha2; cbn [negb].
  set (p1 := prepare_statics setup st1) in *.
  set (p2 := prepare_statics setup st2) in *.
  assert (Hn : tsteps p2 = tsteps p1) by congruence.
  assert (Hpwo : wpot_old p2 = wpot_old p1) by congruence.
  destruct (negb (outside_detector pt setup =? 0)%Z).
  { split; [|split; assumption].
    unfold visible; cbn [gs_ret gs_out gs_setup gs_statics]; congruence. }
  unfold drift_both, electron_call, hole_call, clear_paths.
  rewrite Hn, Hpwo, <- Hsig.
  destruct (make_signal_statics pt (signal p1) ELECTRON_CHARGE
              (set_dpath_h
                 (set_dpath_e setup (clear_path (tsteps p1) (dpath_e setup)))
                 (clear_path (tsteps p1)
                    (dpath_h
                       (set_dpath_e setup
                          (clear_path (tsteps p1) (dpath_e setup))))))
              (wpot p1) (wpot p2) (wpot_old p1) (dwpot p1) (dwpot p2))
    as (e1 & e2 & He1 & He2 & _ & Hes & Hest & Hewo & Hel).
  rewrite He1, He2, <- Hes, <- Hest, <- Hewo.
  destruct (make_signal_statics pt (ms_signal e1) HOLE_CHARGE (ms_setup e1)
              (ms_wpot e1) (ms_wpot e2) (ms_wpot_old e1)
              (ms_dwpot e1) (ms_dwpot e2))
    as (h1 & h2 & Hh1 & Hh2 & Hhr & Hhs & Hhst & Hhwo & Hhl).
  rewrite Hh1, Hh2, <- Hhr, <- Hhs, <- Hhst, <- Hhwo.
  cbn [signal sum tmp tsteps wpot wpot_old dwpot].
  match goal with
  | |- context [shape_signal E ?s ?a out] =>
    match goal with
    | |- context [shape_signal E s ?b out] =>
      lazymatch b with
      | a => fail
      | _ => pose proof (@shape_signal_scratch s a b out) as Hshape
      end
    end
  end.
  destruct Hp1 as (Hs1 & Hu1 & Ht1), Hp2 as (Hs2 & Hu2 & Ht2).
  cbn [signal sum tmp tsteps wpot wpot_old dwpot] in Hshape.
  unfold statics_ok at 1 2 in Hshape.
  cbn [signal sum tmp tsteps wpot wpot_old dwpot] in Hshape.
  rewrite !length_integrate_current in Hshape.
  specialize (Hshape ltac:(repeat split; congruence)
                     ltac:(repeat split; congruence)
                     eq_refl eq_refl eq_refl).
  do 2 destruct (shape_signal E (ms_setup h1) _ out) as [[? ?]|];
    try exact Hshape.
  cbn [fst snd] in *.
  destruct Hshape as (Hout & Hswo & Hsok1 & Hsok2).
  split; [|split; assumption].
  unfold visible; cbn [gs_ret gs_out gs_setup gs_statics]; congruence.
Qed.
End StaticsFacts.

(** ** [mjd_fieldgen.c]: the relaxation *)

Section GridLoops.
Context {St : Type}.

(** A loop over the pixels whose body establishes [Good z r] at its own
    pixel and keeps [Good] at the others, under an invariant [Inv],
    ends with [Good] at every pixel. *)
Lemma grid_loop (Inv : St -> Prop) (Good : Z -> Z -> St -> Prop)
      (body : Z -> Z -> St -> St) (nz nr : Z) (s : St) :
  Inv s ->
  (forall z r s, (0 <= z < nz)%Z -> (0 <= r < nr)%Z -> Inv s ->
     Inv (body z r s) /\ Good z r (body z r s)) ->
  (forall z r z' r' s, (0 <= z < nz)%Z -> (0 <= r < nr)%Z ->
     z' <> z \/ r' <> r -> Inv s -> Good z' r' s ->
     Good z' r' (body z r s)) ->
  let s' := for_up 0 nz (fun z => for_up 0 nr (body z)) s in
  Inv s' /\
  forall z r, (0 <= z < nz)%Z -> (0 <= r < nr)%Z -> Good z r s'.
Proof.
  intros HInv Hat Hother s'; subst s'. split.
  - apply for_up_inv_range; auto. intros z s1 Hz H1.
    apply for_up_inv_range; auto. intros r s2 Hr H2.
    now apply Hat.
  - intros z r Hz Hr.
    pose (P := fun (i : Z) (s1 : St) =>
      Inv s1 /\
      forall z' r', (0 <= z' < i)%Z -> (0 <= r' < nr)%Z -> Good z' r' s1).
    assert (HP : P nz (for_up 0 nz (fun z => for_up 0 nr (body z)) s)).
    { apply for_up_ind; [lia| |].
      - split; auto. intros; lia.
      - intros i s1 Hi [Hinv Hdone].
        pose (Q := fun (j : Z) (s2 : St) =>
          Inv s2 /\
          (forall z' r', (0 <= z' < i)%Z -> (0 <= r' < nr)%Z ->
             Good z' r' s2) /\
          (forall r', (0 <= r' < j)%Z -> Good i r' s2)).
        assert (HQ : Q nr (for_up 0 nr (body i) s1)).
        { apply for_up_ind; [lia| |].
          - repeat split; auto. intros; lia.
          - intros j s2 Hj (Hinv2 & Hrows & Hrow).
            destruct (Hat i j s2 Hi Hj Hinv2) as [Hinv3 Hgood].
            repeat split; auto.
            + intros z' r' Hz' Hr'.
              apply Hother; auto. left; lia.
            + intros r' Hr'. destruct (Z.eq_dec r' j) as [->|Hne]; auto.
              apply Hother; auto. apply Hrow; lia. }
        destruct HQ as (Hinv2 & Hrows & Hrow). split; auto.
        intros z' r' Hz' Hr'.
        destruct (Z.eq_dec z' i) as [->|Hne]; auto.
        apply Hrows; auto; lia. }
    destruct HP as [_ HP]. now apply HP.
Qed.
End GridLoops.

Section UpdateFacts.
Context {F : Type} {ops : FloatOps F}.
Local Open Scope Z_scope.

Lemma upd2_same {A : Type} (a : Z -> Z -> A) z r x : upd2 a z r x z r = x.
Proof. unfold upd2; now rewrite !Z.eqb_refl. Qed.

Lemma upd2_other {A : Type} (a : Z -> Z -> A) z r x z' r' :
  z' <> z \/ r' <> r -> upd2 a z r x z' r' = a z' r'.
Proof.
  intros H; unfold upd2.
  destruct (Z.eqb_spec z' z); destruct (Z.eqb_spec r' r); auto; lia.
Qed.

Lemma vset_same (v : Z -> Z -> Z -> F) b z r x : vset v b z r x b z r = x.
Proof. unfold vset; rewrite Z.eqb_refl; apply upd2_same. Qed.

Lemma vset_other_pixel (v : Z -> Z -> Z -> F) b z r x b' z' r' :
  z' <> z \/ r' <> r -> vset v b z r x b' z' r' = v b' z' r'.
Proof.
  intros H; unfold vset.
  destruct (Z.eqb_spec b' b); subst; auto using upd2_other.
Qed.

Lemma vset_other_plane (v : Z -> Z -> Z -> F) b z r x b' z' r' :
  b' <> b -> vset v b z r x b' z' r' = v b' z' r'.
Proof.
  intros H; unfold vset. destruct (Z.eqb_spec b' b); auto; lia.
Qed.

Lemma fix_pixel_v (b : @Bounds F) z r tag x k :
  k = 0 \/ k = 1 -> v (fix_pixel b z r tag x) k z r = x.
Proof.
  intros [-> | ->]; cbn [v fix_pixel].
  - apply vset_same.
  - rewrite vset_other_plane by lia. apply vset_same.
Qed.

End UpdateFacts.

Ltac bounds_simpl :=
  cbn [v bulk vfraction fRC fLC fix_pixel tag_pixel set_vfraction
       set_fRC set_fLC];
  rewrite ?upd2_same.

Ltac bounds_cases :=
  repeat match goal with
         | |- context [if ?c then _ else _] => destruct c eqn:?
         end.

Ltac bounds_done :=
  repeat split; intros; try discriminate; try reflexivity;
  rewrite ?vset_same; try reflexivity;
  rewrite vset_other_plane by lia; rewrite ?vset_same; reflexivity.

Section BoundsFacts.
Context {F : Type} {ops : FloatOps F}.
Local Open Scope Z_scope.

Lemma bounds_pixel_at (D : @Dims F) BV z r (b : @Bounds F) :
  bounds_at D BV fzero (bounds_tag D z r) z r (bounds_pixel D BV z r b).
Proof.
  unfold bounds_at, bounds_pixel, bounds_tag.
  destruct (on_outer D z r) eqn:Eo; [|destruct (on_pc D z r) eqn:Ep];
    bounds_cases; bounds_simpl; bounds_done.
Qed.

Lemma bounds_pixel_other (D : @Dims F) BV z r (b : @Bounds F) z' r' :
  z' <> z \/ r' <> r ->
  bulk (bounds_pixel D BV z r b) z' r' = bulk b z' r' /\
  forall k, v (bounds_pixel D BV z r b) k z' r' = v b k z' r'.
Proof.
  intros Hne; unfold bounds_pixel.
  bounds_cases; bounds_simpl; rewrite ?upd2_other by auto;
    (split; [reflexivity|]); intros k;
    rewrite ?vset_other_pixel by auto; reflexivity.
Qed.

(** After the boundary loop of the potential every pixel of the grid
    has its tag, the pixels of the outer contact hold [BV] and those of
    the point contact 0, in both planes. *)
Lemma set_bounds_spec (D : @Dims F) BV (b : @Bounds F) z r :
  0 <= z <= L D -> 0 <= r <= R D ->
  bounds_at D BV fzero (bounds_tag D z r) z r (set_bounds D BV b).
Proof.
  intros Hz Hr. unfold set_bounds.
  apply (grid_loop (fun _ => True)
           (fun z r b => bounds_at D BV fzero (bounds_tag D z r) z r b));
    auto; try lia.
  - intros; split; auto using bounds_pixel_at.
  - intros z0 r0 z' r' b' _ _ Hne _ (Htag & Ho & Hp).
    destruct (bounds_pixel_other D BV b' Hne) as [Hb Hv].
    unfold bounds_at. rewrite Hb, !Hv. auto.
Qed.

Lemma bounds_tag_range (D : @Dims F) z r :
  bounds_tag D z r = -1 \/ bounds_tag D z r = 0 \/
  bounds_tag D z r = 1 \/ bounds_tag D z r = 2.
Proof. unfold bounds_tag; bounds_cases; auto. Qed.

(** The fixed pixels are those of the outer contact and those of the
    point contact that are not on an interpolated edge. *)
Lemma bounds_tag_fixed (D : @Dims F) z r :
  bounds_tag D z r < 0 <->
  on_outer D z r = true \/ (on_pc D z r = true /\ pc_edge D z r = false).
Proof.
  unfold bounds_tag, pc_edge.
  destruct (on_outer D z r); [split; auto; lia|].
  destruct (on_pc D z r).
  - destruct ((z =? LC D) && (dLC D <? - lit (5 # 100))%fl);
      destruct ((r =? RC D) && (dRC D <? - lit (5 # 100))%fl);
      cbn [orb]; split; try lia; auto;
      intros [H|[_ H]]; discriminate.
  - bounds_cases; split; try lia; intros [H|[H _]]; discriminate.
Qed.
End BoundsFacts.

(** An invariant of the loop with [break]. *)
Lemma iter_break_inv {St : Type} (P : St -> Prop)
      (body : Z -> St -> St * bool) k i (st : St) :
  P st -> (forall i st, P st -> P (fst (body i st))) ->
  P (snd (iter_break body k i st)).
Proof.
  revert i st; induction k as [|k IH]; intros i st Hs Hbody; cbn; auto.
  pose proof (Hbody i st Hs) as Hnext.
  destruct (body i st) as [st' brk]; destruct brk; cbn in *; auto.
Qed.


Section SweepFacts.
Context {F : Type} {ops : FloatOps F}.
Local Open Scope Z_scope.
Implicit Types (lv : @Level F) (s : @Relax F).

(** *** The sweep leaves the fixed pixels alone *)

Lemma relax_pixel_fixed lv old new z r s s' :
  relax_pixel lv old new z r (Some s) = Some s' ->
  forall b z' r', tags lv z' r' < 0 -> pot s' b z' r' = pot s b z' r'.
Proof.
  unfold relax_pixel.
  destruct (tags lv z r <? 0) eqn:Etag; [intros [= <-]; auto|].
  apply Z.ltb_ge in Etag.
  destruct (stencil lv (pot s old) z r) as [st|]; [|discriminate].
  destruct (clamp _ _ _ _ _) as [[v_new bubble] mark].
  destruct (track_dif _ _ _ _) as [sd md].
  intros [= <-] b z' r' Hfix; cbn [pot].
  apply vset_other_pixel.
  destruct (Z.eq_dec z' z); destruct (Z.eq_dec r' r); subst; auto; lia.
Qed.

Lemma sweep_fixed lv old new s s' :
  sweep lv old new s = Some s' ->
  forall b z r, tags lv z r < 0 -> pot s' b z r = pot s b z r.
Proof.
  unfold sweep.
  set (s0 := {| pot := pot s; undepleted := undepleted s;
                bubble_volts := fzero; sum_dif := fzero;
                max_dif := fzero |}).
  intros Hsweep.
  assert (H : forall o,
    o = for_up 0 (L (dims lv))
          (fun z => for_up 0 (R (dims lv)) (relax_pixel lv old new z))
          (Some s0) ->
    forall s1, o = Some s1 ->
    forall b z r, tags lv z r < 0 -> pot s1 b z r = pot s b z r).
  { intros o ->.
    apply (for_up_inv
             (fun o => forall s1, o = Some s1 ->
                forall b z r, tags lv z r < 0 ->
                              pot s1 b z r = pot s b z r)).
    - intros s1 [= <-]; reflexivity.
    - intros z o Ho.
      apply for_up_inv; auto.
      intros r [s1|] H1 s2 H2; [|discriminate].
      intros b z' r' Hfix.
      rewrite (relax_pixel_fixed _ _ _ _ _ _ H2 b z' r' Hfix).
      now apply H1. }
  eapply H; eauto.
Qed.

(** *** The sweep does not stop on a tag of the boundary loop *)

Lemma stencil_defined lv vo z r :
  0 <= tags lv z r <= 2 -> exists st, stencil lv vo z r = Some st.
Proof.
  intros Htag; unfold stencil.
  destruct (Z.eqb_spec (tags lv z r) 0); [eauto|].
  destruct (Z.eqb_spec (tags lv z r) 1); [eauto|].
  destruct (Z.eqb_spec (tags lv z r) 2); [|lia].
  destruct ((z =? LC (dims lv)) && (tags lv (z - 1) r =? 1)); eauto.
Qed.

Lemma sweep_defined lv old new s :
  (forall z r, 0 <= z < L (dims lv) -> 0 <= r < R (dims lv) ->
               tags lv z r <= 2) ->
  exists s', sweep lv old new s = Some s'.
Proof.
  intros Htags; unfold sweep.
  apply (for_up_inv_range (fun o : option Relax => exists s', o = Some s'));
    [eauto|].
  intros z o Hz Ho.
  apply for_up_inv_range; auto.
  intros r o1 Hr [s1 ->]; unfold relax_pixel.
  destruct (tags lv z r <? 0) eqn:Etag; [eauto|].
  apply Z.ltb_ge in Etag.
  destruct (stencil_defined lv (pot s1 old) z r) as [st ->];
    [specialize (Htags z r Hz Hr); lia|].
  destruct (clamp _ _ _ _ _) as [[v_new bubble] mark].
  destruct (track_dif _ _ _ _) as [sd md]. eauto.
Qed.

(** *** The iterations *)

Lemma iterates_fixed lv st0 old s :
  iterates lv st0 (old, s) ->
  forall b z r, tags lv z r < 0 -> pot s b z r = pot (snd st0) b z r.
Proof.
  intros Hit.
  remember (old, s) as st eqn:Est; revert old s Est.
  induction Hit as [|old1 s1 s' Hit IH Hsweep]; intros old s Est.
  - subst; reflexivity.
  - injection Est as <- <-. intros b z r Hfix.
    rewrite (sweep_fixed _ _ _ _ Hsweep b z r Hfix).
    now apply (IH old1 s1 eq_refl).
Qed.

(** The relaxation loop ends in a state of the iteration. *)
Lemma relax_iterates lv max_its s :
  (forall z r, 0 <= z < L (dims lv) -> 0 <= r < R (dims lv) ->
               tags lv z r <= 2) ->
  exists old s',
    snd (relax lv max_its s) = (old, Some s') /\
    iterates lv (1, s) (old, s').
Proof.
  intros Htags; unfold relax, for_up_break.
  apply (iter_break_inv
           (fun st : Z * option Relax =>
              exists old s', st = (old, Some s') /\
                             iterates lv (1, s) (old, s'))).
  - exists 1, s; split; auto. constructor.
  - intros i st (old & s1 & -> & Hit); unfold relax_body.
    destruct (sweep_defined lv (flip old) (flip (flip old)) s1 Htags)
      as [s2 Hs2].
    rewrite Hs2; cbn [fst].
    exists (flip old), s2; split; auto.
    now apply it_sweep with (s := s1).
Qed.
End SweepFacts.

(** *** The order of the pixels in a sweep *)

Section SweepOrder.
Context {F : Type} {ops : FloatOps F}.
Local Open Scope Z_scope.
Implicit Types (lv : @Level F) (s : @Relax F).

(** An invariant of the pixels of a row, and of the rows, that are
    done without leaving [main]. *)
Lemma relax_row_inv (T : @Relax F -> Prop) lv old new z a b o :
  (forall r s1 s2, a <= r < b -> T s1 ->
     relax_pixel lv old new z r (Some s1) = Some s2 -> T s2) ->
  (forall s1, o = Some s1 -> T s1) ->
  forall s2, for_up a b (relax_pixel lv old new z) o = Some s2 -> T s2.
Proof.
  intros Hstep H0.
  apply (for_up_inv_range (fun o => forall s2, o = Some s2 -> T s2));
    [exact H0|].
  intros r [s1|] Hr H1 s2 H2; [|discriminate].
  exact (Hstep r s1 s2 Hr (H1 s1 eq_refl) H2).
Qed.

Lemma relax_rows_inv (T : @Relax F -> Prop) lv old new a b o :
  (forall z r s1 s2, a <= z < b -> 0 <= r < R (dims lv) -> T s1 ->
     relax_pixel lv old new z r (Some s1) = Some s2 -> T s2) ->
  (forall s1, o = Some s1 -> T s1) ->
  forall s2,
    for_up a b (fun z => for_up 0 (R (dims lv)) (relax_pixel lv old new z))
           o = Some s2 -> T s2.
Proof.
  intros Hstep H0.
  apply (for_up_inv_range (fun o => forall s2, o = Some s2 -> T s2));
    [exact H0|].
  intros z o1 Hz H1.
  apply relax_row_inv; [|exact H1].
  intros r s1 s2 Hr. now apply Hstep.
Qed.

Lemma relax_row_none lv old new z a b :
  for_up a b (relax_pixel lv old new z) None = None.
Proof.
  apply (for_up_inv (fun o : option (@Relax F) => o = None));
    [reflexivity|].
  now intros r o ->.
Qed.

Lemma relax_rows_none lv old new a b :
  for_up a b (fun z => for_up 0 (R (dims lv)) (relax_pixel lv old new z))
         None = None.
Proof.
  apply (for_up_inv (fun o : option (@Relax F) => o = None)); [reflexivity|].
  intros z o ->. apply relax_row_none.
Qed.

(** A pixel writes its own value and mark only, and the plane [new]
    only. *)
Lemma relax_pixel_other lv old new z r z' r' s1 s2 :
  relax_pixel lv old new z' r' (Some s1) = Some s2 ->
  z' <> z \/ r' <> r ->
  pot s2 new z r = pot s1 new z r /\
  undepleted s2 r z = undepleted s1 r z.
Proof.
  unfold relax_pixel. intros H Hne.
  destruct (tags lv z' r' <? 0); [injection H as <-; auto|].
  destruct (stencil lv (pot s1 old) z' r') as [st|]; [|discriminate].
  destruct (clamp _ _ _ _ _) as [[v_new bubble] mark].
  destruct (track_dif _ _ _ _) as [sd md].
  injection H as <-. cbn [pot undepleted]. split.
  - apply vset_other_pixel. lia.
  - apply upd2_other. lia.
Qed.

Lemma relax_pixel_planes lv old new z r s1 s2 :
  relax_pixel lv old new z r (Some s1) = Some s2 ->
  forall p a b, p <> new -> pot s2 p a b = pot s1 p a b.
Proof.
  unfold relax_pixel. intros H p a b Hp.
  destruct (tags lv z r <? 0); [injection H as <-; auto|].
  destruct (stencil lv (pot s1 old) z r) as [st|]; [|discriminate].
  destruct (clamp _ _ _ _ _) as [[v_new bubble] mark].
  destruct (track_dif _ _ _ _) as [sd md].
  injection H as <-. cbn [pot]. now apply vset_other_plane.
Qed.

(** The sweep starts with [bubble_volts] at 0 (line 506). *)
Lemma sweep_until_start lv old new s :
  exists s0,
    sweep_until lv old new s 0 0 = Some s0 /\
    bubble_volts s0 = fzero /\
    pot s0 = pot s /\ undepleted s0 = undepleted s.
Proof.
  unfold sweep_until. rewrite !for_up_empty by lia.
  eexists; split; [reflexivity|]. auto.
Qed.

(** The state passes from a pixel to the next of its row, from the end
    of a row to the start of the next, and from the last row to the end
    of the sweep. *)
Lemma sweep_until_step lv old new s z r :
  0 <= r ->
  sweep_until lv old new s z (r + 1) =
  relax_pixel lv old new z r (sweep_until lv old new s z r).
Proof. intros Hr. unfold sweep_until. now rewrite for_up_snoc. Qed.

Lemma sweep_until_row lv old new s z :
  0 <= z ->
  sweep_until lv old new s (z + 1) 0 =
  sweep_until lv old new s z (R (dims lv)).
Proof.
  intros Hz. unfold sweep_until.
  rewrite for_up_snoc by lia.
  now rewrite for_up_empty with (hi := 0) by lia.
Qed.

Lemma sweep_until_end lv old new s :
  sweep_until lv old new s (L (dims lv)) 0 = sweep lv old new s.
Proof.
  unfold sweep_until, sweep.
  now rewrite for_up_empty with (hi := 0) by lia.
Qed.

(** The sweep at one of its pixels: the state [s1] in which the loops
    reach the pixel and the state [s2] in which they leave it.  What
    the pixel writes is not written again, and what it reads of its own
    mark and of the other planes is what the sweep started with. *)
Lemma sweep_at_pixel lv old new s s' z r :
  sweep lv old new s = Some s' ->
  0 <= z < L (dims lv) -> 0 <= r < R (dims lv) ->
  exists s1 s2,
    sweep_until lv old new s z r = Some s1 /\
    sweep_until lv old new s z (r + 1) = Some s2 /\
    relax_pixel lv old new z r (Some s1) = Some s2 /\
    pot s' new z r = pot s2 new z r /\
    undepleted s' r z = undepleted s2 r z /\
    undepleted s1 r z = undepleted s r z /\
    pot s1 new z r = pot s new z r /\
    (forall p a b, p <> new -> pot s1 p a b = pot s p a b).
Proof.
  intros Hsweep Hz Hr.
  pose proof (sweep_until_step lv old new s z (proj1 Hr)) as Hstep.
  assert (Hrest :
    sweep lv old new s =
    for_up (z + 1) (L (dims lv))
      (fun z' => for_up 0 (R (dims lv)) (relax_pixel lv old new z'))
      (for_up (r + 1) (R (dims lv)) (relax_pixel lv old new z)
         (sweep_until lv old new s z (r + 1)))).
  { unfold sweep, sweep_until.
    rewrite for_up_split with (mid := z + 1) by lia.
    rewrite for_up_snoc by lia.
    rewrite for_up_split
      with (mid := r + 1) (body := relax_pixel lv old new z) by lia.
    reflexivity. }
  rewrite Hsweep in Hrest. symmetry in Hrest.
  destruct (sweep_until lv old new s z (r + 1)) as [s2|] eqn:E2.
  2: { rewrite relax_row_none, relax_rows_none in Hrest. discriminate. }
  destruct (sweep_until lv old new s z r) as [s1|] eqn:E1;
    [|discriminate].
  exists s1, s2. split; [reflexivity|]. split; [reflexivity|].
  split; [now symmetry|].
  (* after the pixel *)
  pose (K := fun (a b : @Relax F) =>
    pot b new z r = pot a new z r /\ undepleted b r z = undepleted a r z).
  assert (Hafter : K s2 s').
  { revert Hrest.
    apply (relax_rows_inv (K s2)).
    - intros z' r' sa sb Hz' Hr' [Ka1 Ka2] Hpx.
      destruct (@relax_pixel_other lv old new z r z' r' sa sb Hpx)
        as [P1 P2]; [lia|].
      split; congruence.
    - intros sa Hsa. revert sa Hsa.
      apply (relax_row_inv (K s2)).
      + intros r' sa sb Hr' [Ka1 Ka2] Hpx.
        destruct (@relax_pixel_other lv old new z r z r' sa sb Hpx)
          as [P1 P2]; [lia|].
        split; congruence.
      + intros sa [= <-]. split; reflexivity. }
  destruct Hafter as [A1 A2].
  split; [exact A1|]. split; [exact A2|].
  (* before the pixel *)
  set (s0 := {| pot := pot s; undepleted := undepleted s;
                bubble_volts := fzero; sum_dif := fzero;
                max_dif := fzero |}).
  pose (B := fun (b : @Relax F) =>
    undepleted b r z = undepleted s r z /\
    pot b new z r = pot s new z r /\
    forall p a c, p <> new -> pot b p a c = pot s p a c).
  assert (Hbefore : B s1).
  { revert E1. unfold sweep_until. fold s0.
    apply (relax_row_inv B).
    - intros r' sa sb Hr' (B1 & B2 & B3) Hpx.
      destruct (@relax_pixel_other lv old new z r z r' sa sb Hpx)
        as [P1 P2]; [lia|].
      pose proof (@relax_pixel_planes lv old new z r' sa sb Hpx) as P3.
      split; [congruence|]. split; [congruence|].
      intros p a c Hp. rewrite P3 by exact Hp. now apply B3.
    - apply (relax_rows_inv B).
      + intros z' r' sa sb Hz' Hr' (B1 & B2 & B3) Hpx.
        destruct (@relax_pixel_other lv old new z r z' r' sa sb Hpx)
          as [P1 P2]; [lia|].
        pose proof (@relax_pixel_planes lv old new z' r' sa sb Hpx) as P3.
        split; [congruence|]. split; [congruence|].
        intros p a c Hp. rewrite P3 by exact Hp. now apply B3.
      + intros sa [= <-]. repeat split. }
  exact Hbefore.
Qed.
End SweepOrder.

(** *** The clamping of the potential *)

Section ClampFacts.
Context {F : Type} {ops : FloatOps F} {ord : FloatOrder F}.
Local Open Scope Z_scope.
Implicit Types (lv : @Level F) (s : @Relax F).

Lemma fleb_false_pos (x : F) : fleb x fzero = false -> fltb fzero x = true.
Proof. intros H; now rewrite fltb_fleb, H. Qed.

(** With [bubble_volts] not negative, so are the clamped value and the
    new [bubble_volts]. *)
Lemma clamp_nonneg (vfr v_new mn bubble : F) mark v' b' m' :
  fleb fzero bubble = true ->
  clamp vfr v_new mn bubble mark = (v', b', m') ->
  fleb fzero v' = true /\ fleb fzero b' = true.
Proof.
  intros Hb; unfold clamp.
  destruct (fleb v_new fzero) eqn:Ele.
  - intros [= <- <- _]; split; auto using fleb_refl.
  - apply fleb_false_pos in Ele.
    destruct (fltb v_new mn) eqn:Elt.
    + intros [= <- <- _].
      destruct (feqb bubble fzero); auto.
      assert (Hpos : fltb fzero (fadd mn (lit (1 # 10))) = true).
      { apply fadd_pos_lit; [|reflexivity].
        eapply fltb_trans; eauto. }
      apply fltb_fleb_incl in Hpos; auto.
    + intros [= <- <- _]; split; auto using fltb_fleb_incl.
Qed.

Lemma relax_pixel_nonneg lv old new z r s s' :
  relax_pixel lv old new z r (Some s) = Some s' ->
  fleb fzero (bubble_volts s) = true ->
  fleb fzero (bubble_volts s') = true /\
  (0 <= tags lv z r -> fleb fzero (pot s' new z r) = true) /\
  (forall z' r', z' <> z \/ r' <> r ->
                 pot s' new z' r' = pot s new z' r').
Proof.
  unfold relax_pixel.
  destruct (tags lv z r <? 0) eqn:Etag.
  { apply Z.ltb_lt in Etag. intros [= <-] Hb; repeat split; auto; lia. }
  destruct (stencil lv (pot s old) z r) as [st|]; [|discriminate].
  destruct (clamp _ _ _ _ _) as [[v_new bubble] mark] eqn:Eclamp.
  destruct (track_dif _ _ _ _) as [sd md].
  intros [= <-] Hb; cbn [pot bubble_volts].
  destruct (@clamp_nonneg _ _ _ _ _ _ _ _ Hb Eclamp) as [Hv Hb'].
  repeat split; auto.
  - intros _. now rewrite vset_same.
  - intros z' r' Hne. now apply vset_other_pixel.
Qed.

(** After a sweep every pixel that is not fixed holds a value that is
    not negative, in the plane that the sweep has written. *)
Lemma sweep_nonneg lv old new s s' :
  sweep lv old new s = Some s' ->
  forall z r, 0 <= z < L (dims lv) -> 0 <= r < R (dims lv) ->
    0 <= tags lv z r -> fleb fzero (pot s' new z r) = true.
Proof.
  unfold sweep. intros Hsweep z r Hz Hr Htag.
  pose (Inv := fun o : option (@Relax F) =>
    forall s1, o = Some s1 -> fleb fzero (bubble_volts s1) = true).
  pose (Good := fun (z r : Z) (o : option (@Relax F)) =>
    forall s1, o = Some s1 -> 0 <= tags lv z r ->
               fleb fzero (pot s1 new z r) = true).
  match type of Hsweep with
  | for_up _ _ _ ?o = _ => pose (start := o)
  end.
  destruct (@grid_loop _ Inv Good (relax_pixel lv old new)
              (L (dims lv)) (R (dims lv)) start) as [_ HG].
  - intros s1 [= <-]; cbn. apply fleb_refl.
  - intros z0 r0 [s1|] _ _ Hinv; [|split; intros s2 H; discriminate H].
    specialize (Hinv s1 eq_refl).
    split; intros s2 H2;
      destruct (@relax_pixel_nonneg lv old new z0 r0 s1 s2 H2 Hinv)
        as (Hb & Hat & _);
      auto.
  - intros z0 r0 z' r' [s1|] _ _ Hne Hinv HGood s2 H2; [|discriminate].
    destruct (@relax_pixel_nonneg lv old new z0 r0 s1 s2 H2
                (Hinv s1 eq_refl))
      as (_ & _ & Hother).
    rewrite (Hother z' r' Hne). now apply HGood.
  - exact (HG z r Hz Hr s' Hsweep Htag).
Qed.

End ClampFacts.

Section ClampedSweep.
Context {F : Type} {ops : FloatOps F}.
Local Open Scope Z_scope.
Implicit Types (lv : @Level F) (s : @Relax F).

(** C2, as the code has it.  A sweep of the potential that completes
    starts with [bubble_volts] at 0 and carries it from pixel to pixel
    in the order of the loops: [s1] is the state in which the loops
    reach a pixel and [s2] the state in which they leave it; a fixed
    pixel leaves the state as it is.  For a pixel that is not fixed,
    with [v_new] the value of the kernel on the plane [old] as the
    sweep finds it, [mn] the minimum of the neighbour values used in its
    update and [vfr] its fraction of bulk: if [v_new <= 0] the pixel is
    set to 0; otherwise, if [v_new < mn], [bubble_volts] is set to
    [mn + 0.1] unless it is already non-zero in this sweep, and the
    pixel is set to [bubble_volts]; in both cases the pixel is marked
    undepleted ('*') only when [vfr > 0.45]; otherwise the pixel takes
    [v_new].  The value and the mark that the pixel is given are those
    that the sweep ends with.  In an ordered arithmetic every pixel
    that is not fixed is then not negative after the sweep, and the
    fixed pixels are as they were. *)
Theorem poisson_clamping lv old new (s s' : @Relax F) :
  sweep lv old new s = Some s' ->
  (exists s0,
     sweep_until lv old new s 0 0 = Some s0 /\ bubble_volts s0 = fzero) /\
  (forall z, 0 <= z ->
     sweep_until lv old new s (z + 1) 0 =
     sweep_until lv old new s z (R (dims lv))) /\
  sweep_until lv old new s (L (dims lv)) 0 = Some s' /\
  (forall z r, 0 <= z < L (dims lv) -> 0 <= r < R (dims lv) ->
     exists s1 s2,
       sweep_until lv old new s z r = Some s1 /\
       sweep_until lv old new s z (r + 1) = Some s2 /\
       pot s' new z r = pot s2 new z r /\
       undepleted s' r z = undepleted s2 r z /\
       (tags lv z r < 0 -> s2 = s1 /\ pot s' new z r = pot s new z r) /\
       (0 <= tags lv z r ->
        exists st,
          stencil lv (pot s1 old) z r = Some st /\
          let v_new := raw_value lv st z r in
          let mn := min st in
          let over := fltb (lit (45 # 100)) (vfrac lv z r) in
          let star := if over then "*"%char else undepleted s r z in
          let dot := if over then "."%char else undepleted s r z in
          (fleb v_new fzero = true ->
           pot s2 new z r = fzero /\
           bubble_volts s2 = bubble_volts s1 /\
           undepleted s2 r z = star) /\
          (fleb v_new fzero = false -> fltb v_new mn = true ->
           bubble_volts s2 =
             (if feqb (bubble_volts s1) fzero
              then fadd mn (lit (1 # 10)) else bubble_volts s1) /\
           pot s2 new z r = bubble_volts s2 /\
           undepleted s2 r z = star) /\
          (fleb v_new fzero = false -> fltb v_new mn = false ->
           pot s2 new z r = v_new /\
           bubble_volts s2 = bubble_volts s1 /\
           undepleted s2 r z = dot) /\
          (FloatOrder F -> fleb fzero (pot s' new z r) = true))).
Proof.
  intros Hsweep.
  split.
  { destruct (@sweep_until_start F ops lv old new s)
      as (s0 & H0 & Hb & _).
    now exists s0. }
  split; [intros z Hz; now apply sweep_until_row|].
  split; [now rewrite sweep_until_end|].
  intros z r Hz Hr.
  destruct (@sweep_at_pixel F ops lv old new s s' z r Hsweep Hz Hr)
    as (s1 & s2 & E1 & E2 & Hpx & A1 & A2 & M & P & _).
  exists s1, s2.
  split; [exact E1|]. split; [exact E2|].
  split; [exact A1|]. split; [exact A2|].
  unfold relax_pixel in Hpx.
  destruct (tags lv z r <? 0) eqn:Etag.
  { apply Z.ltb_lt in Etag. injection Hpx as <-.
    split; [|intros; lia]. intros _. split; [reflexivity|congruence]. }
  apply Z.ltb_ge in Etag. split; [intros; lia|]. intros _.
  destruct (stencil lv (pot s1 old) z r) as [st|]; [|discriminate].
  exists st. split; [reflexivity|]. cbv zeta.
  rewrite M in Hpx.
  destruct (clamp _ _ _ _ _) as [[v' b'] m'] eqn:Ec.
  destruct (track_dif _ _ _ _) as [sd md].
  injection Hpx as <-. cbn [pot undepleted bubble_volts].
  rewrite vset_same, upd2_same.
  split; [|split; [|split]].
  4: { intros ord.
       exact (@sweep_nonneg F ops ord lv old new s s' Hsweep z r Hz Hr
                Etag). }
  all: revert Ec; unfold clamp;
    destruct (fleb (raw_value lv st z r) fzero);
    [|destruct (fltb (raw_value lv st z r) (min st))];
    intros [= <- <- <-];
    destruct (fltb (lit (45 # 100)) (vfrac lv z r));
    repeat split; intros; try discriminate; reflexivity.
Qed.
End ClampedSweep.

(** *** The weighting potential *)

Section WeightingFacts.
Context {F : Type} {ops : FloatOps F}.
Local Open Scope Z_scope.
Implicit Types (lv : @Level F) (s : @WRelax F) (b : @Bounds F)
         (D : @Dims F).

Lemma wp_bounds_pixel_at D fd gf marks z r b :
  wp_bounds_at D fd gf marks z r (wp_bounds_pixel D fd gf marks z r b).
Proof.
  unfold wp_bounds_at, wp_bounds_pixel, wp_bounds_tag, bounds_tag, marked.
  destruct (fd =? 0); cbn [andb];
    [destruct (Ascii.eqb (marks (r * gf) (z * gf)) "*") eqn:Estar;
     [|destruct (Ascii.eqb (marks (r * gf) (z * gf)) "B") eqn:EB]|];
    (destruct (on_outer D z r) eqn:Eo; [|destruct (on_pc D z r) eqn:Ep]);
    bounds_cases; bounds_simpl; bounds_done.
Qed.

Lemma wp_bounds_pixel_other D fd gf marks z r b z' r' :
  z' <> z \/ r' <> r ->
  bulk (wp_bounds_pixel D fd gf marks z r b) z' r' = bulk b z' r' /\
  forall k, v (wp_bounds_pixel D fd gf marks z r b) k z' r' = v b k z' r'.
Proof.
  intros Hne; unfold wp_bounds_pixel.
  bounds_cases; bounds_simpl; rewrite ?upd2_other by auto;
    (split; [reflexivity|]); intros k;
    rewrite ?vset_other_pixel by auto; reflexivity.
Qed.

Lemma wp_set_bounds_spec D fd gf marks b z r :
  0 <= z <= L D -> 0 <= r <= R D ->
  wp_bounds_at D fd gf marks z r (wp_set_bounds D fd gf marks b).
Proof.
  intros Hz Hr. unfold wp_set_bounds.
  apply (grid_loop (fun _ => True)
           (fun z r b => wp_bounds_at D fd gf marks z r b));
    auto; try lia.
  - intros; split; auto using wp_bounds_pixel_at.
  - intros z0 r0 z' r' b' _ _ Hne _ H.
    destruct (@wp_bounds_pixel_other D fd gf marks z0 r0 b' z' r' Hne)
      as [Hb Hv].
    unfold wp_bounds_at in *. rewrite Hb, !Hv. exact H.
Qed.

Lemma wp_bounds_tag_range D fd gf marks z r :
  -1 <= wp_bounds_tag D fd gf marks z r <= 3.
Proof.
  unfold wp_bounds_tag.
  destruct (marked fd gf marks "*" z r); [lia|].
  destruct (marked fd gf marks "B" z r); [lia|].
  destruct (bounds_tag_range D z r) as [H|[H|[H|H]]]; lia.
Qed.

(** The sweeps leave the fixed pixels alone. *)
Lemma wp_pixel_fixed lv old new z r s s' :
  wp_pixel lv old new z r (Some s) = Some s' ->
  forall k z' r', tags lv z' r' < 0 -> wpot_v s' k z' r' = wpot_v s k z' r'.
Proof.
  unfold wp_pixel.
  destruct (tags lv z r <? 0) eqn:Etag; [intros [= <-]; auto|].
  apply Z.ltb_ge in Etag.
  destruct (tags lv z r =? 3).
  { destruct (pinched _ _ _ _ _) as [p1 p2]. intros [= <-]; auto. }
  destruct (stencil lv (wpot_v s old) z r) as [st|]; [|discriminate].
  destruct (track_dif _ _ _ _) as [sd md].
  intros [= <-] k z' r' Hfix; cbn [wpot_v].
  apply vset_other_pixel.
  destruct (Z.eq_dec z' z); destruct (Z.eq_dec r' r); subst; auto; lia.
Qed.

Lemma float_pixel_fixed lv old new mean z r s :
  forall k z' r', tags lv z' r' < 0 ->
    wpot_v (float_pixel lv old new mean z r s) k z' r' = wpot_v s k z' r'.
Proof.
  intros k z' r' Hfix; unfold float_pixel.
  destruct (Z.eqb_spec (tags lv z r) 3) as [E3|]; auto.
  destruct (track_dif _ _ _ _) as [sd md]; cbn [wpot_v].
  apply vset_other_pixel.
  destruct (Z.eq_dec z' z); destruct (Z.eq_dec r' r); subst; auto; lia.
Qed.

Lemma wp_sweep_fixed lv old new s s' :
  wp_sweep lv old new s = Some s' ->
  forall k z r, tags lv z r < 0 -> wpot_v s' k z r = wpot_v s k z r.
Proof.
  unfold wp_sweep.
  match goal with
  | |- context [for_up 0 _ _ (Some ?x)] => set (s0 := x)
  end.
  assert (H1 : forall s1,
    for_up 0 (L (dims lv))
      (fun z => for_up 0 (R (dims lv)) (wp_pixel lv old new z))
      (Some s0) = Some s1 ->
    forall k z r, tags lv z r < 0 -> wpot_v s1 k z r = wpot_v s k z r).
  { apply (for_up_inv
             (fun o => forall s1, o = Some s1 ->
                forall k z r, tags lv z r < 0 ->
                              wpot_v s1 k z r = wpot_v s k z r)).
    - intros s1 [= <-]; reflexivity.
    - intros z o Ho.
      apply for_up_inv; auto.
      intros r [s1|] Hs1 s2 H2; [|discriminate].
      intros k z' r' Hfix.
      rewrite (@wp_pixel_fixed lv old new z r s1 s2 H2 k z' r' Hfix).
      now apply Hs1. }
  destruct (for_up 0 (L (dims lv)) _ (Some s0)) as [s1|]; [|discriminate].
  specialize (H1 s1 eq_refl).
  destruct (fltb (lit (1 # 10)) (pinched_sum2 s1)); intros [= <-]; auto.
  intros k z r Hfix. rewrite <- (H1 k z r Hfix).
  apply (for_up_inv
           (fun s2 => wpot_v s2 k z r = wpot_v s1 k z r)); auto.
  intros z0 s2 H2.
  apply for_up_inv; auto.
  intros r0 s3 H3. now rewrite float_pixel_fixed.
Qed.

Lemma wp_sweep_defined lv old new s :
  (forall z r, 0 <= z < L (dims lv) -> 0 <= r < R (dims lv) ->
               tags lv z r <= 3) ->
  exists s', wp_sweep lv old new s = Some s'.
Proof.
  intros Htags; unfold wp_sweep.
  match goal with
  | |- context [for_up 0 _ _ (Some ?x)] => set (s0 := x)
  end.
  assert (H1 : exists s1,
    for_up 0 (L (dims lv))
      (fun z => for_up 0 (R (dims lv)) (wp_pixel lv old new z))
      (Some s0) = Some s1).
  { apply (for_up_inv_range
             (fun o : option WRelax => exists s', o = Some s'));
      [eauto|].
    intros z o Hz Ho.
    apply for_up_inv_range; auto.
    intros r o1 Hr [s1 ->]; unfold wp_pixel.
    destruct (tags lv z r <? 0) eqn:Etag; [eauto|].
    apply Z.ltb_ge in Etag.
    destruct (Z.eqb_spec (tags lv z r) 3) as [E3|N3].
    { destruct (pinched _ _ _ _ _) as [p1 p2]; eauto. }
    destruct (@stencil_defined F ops lv (wpot_v s1 old) z r) as [st ->];
      [specialize (Htags z r Hz Hr); lia|].
    destruct (track_dif _ _ _ _) as [sd md]. eauto. }
  destruct H1 as [s1 ->].
  destruct (fltb (lit (1 # 10)) (pinched_sum2 s1)); eauto.
Qed.

Lemma wp_iterates_fixed lv st0 old s :
  wp_iterates lv st0 (old, s) ->
  forall k z r, tags lv z r < 0 -> wpot_v s k z r = wpot_v (snd st0) k z r.
Proof.
  intros Hit.
  remember (old, s) as st eqn:Est; revert old s Est.
  induction Hit as [|old1 s1 s' Hit IH Hsweep]; intros old s Est.
  - subst; reflexivity.
  - injection Est as <- <-. intros k z r Hfix.
    rewrite (@wp_sweep_fixed lv _ _ s1 s' Hsweep k z r Hfix).
    now apply (IH old1 s1 eq_refl).
Qed.

Lemma wp_relax_iterates lv max_its s :
  (forall z r, 0 <= z < L (dims lv) -> 0 <= r < R (dims lv) ->
               tags lv z r <= 3) ->
  exists old s',
    snd (wp_relax lv max_its s) = (old, Some s') /\
    wp_iterates lv (1, s) (old, s').
Proof.
  intros Htags; unfold wp_relax, for_up_break.
  apply (iter_break_inv
           (fun st : Z * option WRelax =>
              exists old s', st = (old, Some s') /\
                             wp_iterates lv (1, s) (old, s'))).
  - exists 1, s; split; auto. constructor.
  - intros i st (old & s1 & -> & Hit); unfold wp_relax_body.
    destruct (@wp_sweep_defined lv (flip old) (flip (flip old)) s1 Htags)
      as [s2 Hs2].
    rewrite Hs2; cbn [fst].
    exists (flip old), s2; split; auto.
    now apply wit_sweep with (s := s1).
Qed.
End WeightingFacts.

(** *** The electrodes *)

Section ElectrodeFacts.
Context {F : Type} {ops : FloatOps F}.
Local Open Scope Z_scope.

(** C1, as the code has it.  On every grid and at every iteration of
    both passes, in both planes: every pixel of the outer (HV) contact
    (z = L, r = R, the taper, the wrap-around at z = 0 with r >= RO)
    holds exactly BV in the pass of the potential, and every pixel of
    the point contact (z <= LC and r <= RC) that is not on an
    interpolated edge (r = RC with dRC < -0.05, or z = LC with dLC <
    -0.05) holds exactly 0.  In the pass of the weighting potential a
    pixel marked as not depleted ('*') holds exactly 1; of the pixels
    with neither that mark nor the pinch-off mark ('B'), those of the
    outer contact hold exactly 0 and those of the point contact that are
    not on an interpolated edge hold exactly 1.  Both relaxation loops
    end in such an iteration. *)
Theorem electrodes_hold_boundary_values :
  (forall (D : @Dims F) (BV n mm eoe : F) (e : Eps) (b0 : Bounds)
          (marks : Z -> Z -> Ascii.ascii) (max_its : Z),
     let b := set_bounds D BV b0 in
     let lv := level_of D e b n mm eoe in
     let s0 := relax_start b marks in
     (exists old s,
        snd (relax lv max_its s0) = (old, Some s) /\
        iterates lv (1, s0) (old, s)) /\
     forall old s, iterates lv (1, s0) (old, s) ->
     forall z r plane,
       0 <= z <= L D -> 0 <= r <= R D -> plane = 0 \/ plane = 1 ->
       (on_outer D z r = true -> pot s plane z r = BV) /\
       (on_outer D z r = false -> on_pc D z r = true ->
        pc_edge D z r = false -> pot s plane z r = fzero)) /\
  (forall (D : @Dims F) (fully_depleted gridfact : Z)
          (marks : Z -> Z -> Ascii.ascii) (n mm eoe : F) (e : Eps)
          (b0 : Bounds) (max_its : Z),
     let b := wp_set_bounds D fully_depleted gridfact marks b0 in
     let lv := level_of D e b n mm eoe in
     let s0 := wp_start b in
     (exists old s,
        snd (wp_relax lv max_its s0) = (old, Some s) /\
        wp_iterates lv (1, s0) (old, s)) /\
     forall old s, wp_iterates lv (1, s0) (old, s) ->
     forall z r plane,
       0 <= z <= L D -> 0 <= r <= R D -> plane = 0 \/ plane = 1 ->
       (marked fully_depleted gridfact marks "*" z r = true ->
        wpot_v s plane z r = fone) /\
       (marked fully_depleted gridfact marks "*" z r = false ->
        marked fully_depleted gridfact marks "B" z r = false ->
        (on_outer D z r = true -> wpot_v s plane z r = fzero) /\
        (on_outer D z r = false -> on_pc D z r = true ->
         pc_edge D z r = false -> wpot_v s plane z r = fone))).
Proof.
  split.
  - intros D BV n mm eoe e b0 marks max_its b lv s0. split.
    + apply relax_iterates. intros z r Hz Hr.
      unfold lv in Hz, Hr; cbn [dims level_of] in Hz, Hr.
      destruct (@set_bounds_spec F ops D BV b0 z r) as (Htag & _);
        [lia | lia |].
      cbn [tags lv level_of]. fold b in Htag. rewrite Htag.
      destruct (bounds_tag_range D z r) as [H|[H|[H|H]]]; lia.
    + intros old s Hit z r plane Hz Hr Hplane.
      destruct (@set_bounds_spec F ops D BV b0 z r Hz Hr)
        as (Htag & Hout & Hpc).
      fold b in Htag, Hout, Hpc.
      assert (Hfixed : bounds_tag D z r < 0 ->
                       pot s plane z r = v b plane z r).
      { intros Hneg.
        apply (@iterates_fixed F ops lv (1, s0) old s Hit plane z r).
        cbn [tags lv level_of]. now rewrite Htag. }
      split.
      * intros Ho. rewrite Hfixed by (apply bounds_tag_fixed; auto).
        destruct (Hout Ho); destruct Hplane as [-> | ->]; auto.
      * intros Ho Hp He. rewrite Hfixed by (apply bounds_tag_fixed; auto).
        destruct (Hpc Ho Hp); destruct Hplane as [-> | ->]; auto.
  - intros D fd gf marks n mm eoe e b0 max_its b lv s0. split.
    + apply wp_relax_iterates. intros z r Hz Hr.
      unfold lv in Hz, Hr; cbn [dims level_of] in Hz, Hr.
      destruct (@wp_set_bounds_spec F ops D fd gf marks b0 z r)
        as (Htag & _); [lia | lia |].
      cbn [tags lv level_of]. fold b in Htag. rewrite Htag.
      pose proof (wp_bounds_tag_range D fd gf marks z r); lia.
    + intros old s Hit z r plane Hz Hr Hplane.
      destruct (@wp_set_bounds_spec F ops D fd gf marks b0 z r Hz Hr)
        as (Htag & Hstar & Hrest).
      fold b in Htag, Hstar, Hrest.
      assert (Hfixed : wp_bounds_tag D fd gf marks z r < 0 ->
                       wpot_v s plane z r = v b plane z r).
      { intros Hneg.
        apply (@wp_iterates_fixed F ops lv (1, s0) old s Hit plane z r).
        cbn [tags lv level_of]. now rewrite Htag. }
      unfold wp_bounds_tag in Hfixed.
      split.
      * intros Hs. rewrite Hs in Hfixed. rewrite Hfixed by lia.
        destruct (Hstar Hs); destruct Hplane as [-> | ->]; auto.
      * intros Hs HB. rewrite Hs, HB in Hfixed.
        destruct (Hrest Hs) as [Hout Hpc]. split.
        -- intros Ho. rewrite Hfixed by (apply bounds_tag_fixed; auto).
           destruct (Hout Ho); destruct Hplane as [-> | ->]; auto.
        -- intros Ho Hp He.
           rewrite Hfixed by (apply bounds_tag_fixed; auto).
           destruct (Hpc Ho Hp); destruct Hplane as [-> | ->]; auto.
Qed.
End ElectrodeFacts.

(** *** The theorems on a small crystal *)

(** C1 as stated fails.  A point contact of radius 1.6 mm on a grid of
    1 mm has RC = 2 and dRC = -0.4: the pixel z = 0, r = 2 is on the
    point contact (z <= LC = 1, r <= RC) and not on the outer contact,
    it is tagged as a radial edge and relaxed, and after the first
    iteration at 100 V it holds 2053798/128125 = 16.03 V and not 0. *)
Lemma edge_pixel_of_point_contact_relaxed :
  let lv := fst (small_level (F := Q) (16 # 10) 100) in
  let b := snd (small_level (F := Q) (16 # 10) 100) in
  let s0 := relax_start b blank_marks in
  exists s,
    iterates lv (1%Z, s0) (0%Z, s) /\
    (on_pc (dims lv) 0 2 = true /\ on_outer (dims lv) 0 2 = false) /\
    pot s 1 0 2 = (2053798 # 128125)%Q /\
    pot s 1 0 2 <> 0%Q.
Proof.
  intros lv b s0.
  assert (Hval : option_map (fun s => pot s 1 0 2)%Z (sweep lv 0 1 s0)
                 = Some (2053798 # 128125)%Q) by (vm_compute; reflexivity).
  destruct (sweep lv 0 1 s0) as [s|] eqn:E; [|discriminate].
  injection Hval as Hval.
  exists s. split.
  - apply (@it_sweep Q Q_ops lv (1%Z, s0) 1%Z s0 s); [constructor|exact E].
  - split; [split; vm_compute; reflexivity|].
    split; [exact Hval|]. rewrite Hval; discriminate.
Qed.

(** The theorem on the same grid, for a point contact of radius 1 mm:
    after the first iteration the pixel z = 4, r = 0 of the outer
    contact holds 100 V and the pixel z = 0, r = 0 of the point contact
    0 V; in the weighting potential they hold 0 and 1. *)
Lemma electrodes_hold_boundary_values_witness :
  let D := level_dims (lit (1 # 100)) (small_crystal (F := Q) 1 100) 1%Q in
  let b := set_bounds D 100%Q blank_bounds in
  let lv := level_of D blank_eps b (-1)%Q 0%Q 1%Q in
  let s0 := relax_start b blank_marks in
  let wb := wp_set_bounds D 1 1 blank_marks blank_bounds in
  let wlv := level_of D blank_eps wb (-1)%Q 0%Q 1%Q in
  let ws0 := wp_start wb in
  exists s ws,
    (sweep lv 0 1 s0 = Some s /\ wp_sweep wlv 0 1 ws0 = Some ws) /\
    ((0 <= 4 <= L D)%Z /\ (0 <= 0 <= R D)%Z /\
     on_outer D 4 0 = true /\ on_outer D 0 0 = false /\
     on_pc D 0 0 = true /\ pc_edge D 0 0 = false) /\
    (pot s 1 4 0 = 100%Q /\ pot s 1 0 0 = fzero) /\
    (wpot_v ws 1 4 0 = fzero /\ wpot_v ws 1 0 0 = fone).
Proof.
  intros D b lv s0 wb wlv ws0.
  destruct (sweep lv 0 1 s0) as [s|] eqn:E;
    [|vm_compute in E; discriminate].
  destruct (wp_sweep wlv 0 1 ws0) as [ws|] eqn:WE;
    [|vm_compute in WE; discriminate].
  exists s, ws. split; [auto|].
  assert (Hz4 : (0 <= 4 <= L D)%Z) by (vm_compute; split; discriminate).
  assert (Hz0 : (0 <= 0 <= L D)%Z) by (vm_compute; split; discriminate).
  assert (Hr : (0 <= 0 <= R D)%Z) by (vm_compute; split; discriminate).
  assert (Ho4 : on_outer D 4 0 = true) by reflexivity.
  assert (Ho0 : on_outer D 0 0 = false) by reflexivity.
  assert (Hp0 : on_pc D 0 0 = true) by reflexivity.
  assert (He0 : pc_edge D 0 0 = false) by reflexivity.
  split; [auto 10|].
  destruct (@electrodes_hold_boundary_values Q Q_ops) as [HV HW].
  destruct (HV D 100%Q (-1)%Q 0%Q 1%Q blank_eps blank_bounds blank_marks
               1%Z) as [_ HV1].
  destruct (HW D 1%Z 1%Z blank_marks (-1)%Q 0%Q 1%Q blank_eps blank_bounds
               1%Z) as [_ HW1].
  assert (Hit : iterates lv (1%Z, s0) (0%Z, s)).
  { apply (@it_sweep Q Q_ops lv (1%Z, s0) 1%Z s0 s); [constructor|exact E]. }
  assert (Hwit : wp_iterates wlv (1%Z, ws0) (0%Z, ws)).
  { apply (@wit_sweep Q Q_ops wlv (1%Z, ws0) 1%Z ws0 ws);
      [constructor|exact WE]. }
  split; split.
  - apply (HV1 0%Z s Hit 4%Z 0%Z 1%Z Hz4 Hr (or_intror eq_refl)); exact Ho4.
  - apply (HV1 0%Z s Hit 0%Z 0%Z 1%Z Hz0 Hr (or_intror eq_refl)); auto.
  - apply (HW1 0%Z ws Hwit 4%Z 0%Z 1%Z Hz4 Hr (or_intror eq_refl));
      auto.
  - apply (HW1 0%Z ws Hwit 0%Z 0%Z 1%Z Hz0 Hr (or_intror eq_refl));
      auto.
Defined.

(** C2 as stated fails.  With a point contact of radius 1.8 mm
    (dRC = -0.2) the edge pixel z = 0, r = 2 has a bulk fraction of
    0.4; at a bias of 1 V the kernel gives it -349157/350000 V in the
    first sweep, it is set to 0, and it is not marked undepleted.  A
    pixel of bulk fraction 0.5 whose new value 0 is neither negative
    nor below the minimum 0 of its neighbours is marked undepleted;
    and for a new value 1 below the minimum 2 the value recorded as
    [bubble_volts] is 2.1, not the value of the pixel. *)
Lemma clamped_edge_pixel_not_marked :
  let lv := fst (small_level (F := Q) (18 # 10) 1) in
  let b := snd (small_level (F := Q) (18 # 10) 1) in
  let s0 := relax_start b blank_marks in
  let v_new := (-349157 # 350000)%Q in
  (tags lv 0 2 = 1%Z /\
   option_map (fun st => raw_value lv st 0 2) (stencil lv (pot s0 0) 0 2) =
     Some v_new /\
   fltb v_new fzero = true /\
   option_map (fun s => pot s 1 0 2) (sweep lv 0 1 s0) = Some 0%Q /\
   option_map (fun s => undepleted s 2 0) (sweep lv 0 1 s0) =
     Some " "%char /\
   " "%char <> "*"%char) /\
  (fltb 0%Q 0%Q = false /\
   clamp (1 # 2)%Q 0%Q 0%Q 0%Q " "%char = (0%Q, 0%Q, "*"%char)) /\
  (fltb 1%Q 2%Q = true /\
   clamp (1 # 2)%Q 1%Q 2%Q 0%Q " "%char =
     ((21 # 10)%Q, (21 # 10)%Q, "*"%char) /\
   (21 # 10)%Q <> 1%Q).
Proof.
  vm_compute. repeat split; discriminate.
Qed.

(** The theorem on that sweep: the edge pixel is set to 0, is not
    marked, and is not negative afterwards. *)
Lemma poisson_clamping_witness :
  let lv := fst (small_level (F := Q) (18 # 10) 1) in
  let b := snd (small_level (F := Q) (18 # 10) 1) in
  let s0 := relax_start b blank_marks in
  exists s,
    (sweep lv 0 1 s0 = Some s /\
     (0 <= 0 < L (dims lv))%Z /\ (0 <= 2 < R (dims lv))%Z /\
     (0 <= tags lv 0 2)%Z) /\
    pot s 1 0 2 = 0%Q /\ undepleted s 2 0 = " "%char /\
    fleb fzero (pot s 1 0 2) = true.
Proof.
  intros lv b s0.
  destruct (sweep lv 0 1 s0) as [s|] eqn:E;
    [|vm_compute in E; discriminate].
  exists s.
  assert (Hz : (0 <= 0 < L (dims lv))%Z)
    by (vm_compute; split; [discriminate|reflexivity]).
  assert (Hr : (0 <= 2 < R (dims lv))%Z)
    by (vm_compute; split; [discriminate|reflexivity]).
  assert (Ht : (0 <= tags lv 0 2)%Z) by (vm_compute; discriminate).
  split; [auto|].
  destruct (@poisson_clamping Q Q_ops lv 0%Z 1%Z s0 s E)
    as (_ & _ & _ & Hpix).
  destruct (Hpix 0%Z 2%Z Hz Hr)
    as (s1 & s2 & E1 & _ & A1 & A2 & _ & Hfree).
  destruct (Hfree Ht) as (st & Hst & Hc). cbv zeta in Hc.
  destruct Hc as (Hneg & _ & _ & Hnn).
  assert (Hs1 : stencil lv (pot s1 0) 0 2 = stencil lv (pot s0 0) 0 2).
  { vm_compute in E1. injection E1 as <-. reflexivity. }
  rewrite Hs1 in Hst. vm_compute in Hst. injection Hst as <-.
  destruct (Hneg eq_refl) as (Hv & _ & Hm).
  split; [rewrite A1; exact Hv|].
  split; [rewrite A2; exact Hm|].
  exact (Hnn Q_order).
Defined.

(** ** Further properties of [calc_signal.c] *)

Section ShapingFacts.
Context {F : Type} {ops : FloatOps F}.
Variable E : Externals (F := F).
Local Open Scope fl_scope.
Local Abbreviation Setup := (MJD_Siggen_Setup F).

(** X1.  The loop of line 130 turns the current signal into the charge
    signal in place: on an array of at least [n] cells, sample 0 is
    kept, every sample 1 <= j < n becomes its old value plus the new
    value of sample j - 1, and the samples from [n] on are kept. *)
Theorem integrate_current_prefix_sums (n : Z) (a : list F) :
  (n <= Z.of_nat (length a))%Z ->
  let b := integrate_current n a in
  length b = length a /\
  aget fzero b 0 = aget fzero a 0 /\
  (forall j, (1 <= j < n)%Z ->
     aget fzero b j = aget fzero a j + aget fzero b (j - 1)) /\
  (forall j, (n <= j)%Z -> aget fzero b j = aget fzero a j).
Proof.
  intros Hn b; subst b; unfold integrate_current.
  destruct (Z_le_gt_dec 1 n) as [H1|H1].
  2: { rewrite for_up_empty by lia. repeat split; auto. intros; lia. }
  apply (for_up_ind
    (fun i b =>
       length b = length a /\
       aget fzero b 0 = aget fzero a 0 /\
       (forall j, (1 <= j < i)%Z ->
          aget fzero b j = aget fzero a j + aget fzero b (j - 1)) /\
       (forall j, (i <= j)%Z -> aget fzero b j = aget fzero a j)));
    [lia | repeat split; auto; intros; lia |].
  intros i b Hi (Hlen & H0 & Hdone & Hrest).
  split; [now rewrite length_aset|].
  split; [rewrite aget_aset_neq by lia; exact H0|].
  split.
  - intros j Hj. destruct (Z.eq_dec j i) as [->|Hne].
    + rewrite aget_aset_eq by lia.
      rewrite aget_aset_neq by lia.
      now rewrite (Hrest i) by lia.
    + rewrite !aget_aset_neq by lia. apply Hdone; lia.
  - intros j Hj. rewrite aget_aset_neq by lia. apply Hrest; lia.
Qed.

(** Line 179 kills the program when there is no output step. *)
Lemma compress_killed (setup : Setup) (signal out : list F) :
  ntsteps_out setup = 0%Z -> compress setup signal out = None.
Proof. intros H. unfold compress. now rewrite H, int_div_zero. Qed.


(** The number of samples of block [k] that the loop of line 181 has
    added when it reaches sample [j]. *)
Lemma compress_step (c j k : Z) :
  (0 < c)%Z -> (0 <= j)%Z -> (0 <= k)%Z ->
  let t (j : Z) := Z.to_nat (Z.max 0 (Z.min c (j - k * c))) in
  t (j + 1)%Z = if (Z.quot j c =? k)%Z then S (t j) else t j.
Proof.
  intros Hc Hj Hk t; subst t; cbv beta.
  rewrite Z.quot_div_nonneg by lia.
  pose proof (Z.div_mod j c ltac:(lia)) as Hdm.
  pose proof (Z.mod_pos_bound j c Hc) as Hmod.
  destruct (Z.eqb_spec (j / c) k) as [Heq|Hne].
  - subst k. nia.
  - assert (j / c < k \/ k < j / c)%Z as [Hlt|Hgt] by lia.
    + assert (j - k * c < 0)%Z by nia. lia.
    + assert (c <= j - k * c)%Z by nia. lia.
Qed.

(** What the two loops of lines 180-182 leave in [signal_out]. *)
Lemma compress_blocks (setup : Setup) (signal out : list F) :
  (0 < ntsteps_out setup <= Z.of_nat (length out))%Z ->
  let c := Z.quot (time_steps_calc setup) (ntsteps_out setup) in
  exists out',
    comp_f setup = Some c /\
    compress setup signal out = Some out' /\
    length out' = length out /\
    (forall k, (0 <= k < ntsteps_out setup)%Z ->
       aget fzero out' k = block_sum c signal k (Z.to_nat c)) /\
    (forall k, (ntsteps_out setup <= k)%Z ->
       aget fzero out' k = aget fzero out k).
Proof.
  intros Hm c; unfold compress, comp_f.
  rewrite int_div_pos by lia. fold c.
  eexists; split; [reflexivity|]. split; [reflexivity|].
  set (m := ntsteps_out setup) in *.
  set (zeroed := for_up 0 m (fun j a => aset a j fzero) out).
  assert (Hz : length zeroed = length out /\
               (forall k, (0 <= k < m)%Z -> aget fzero zeroed k = fzero) /\
               (forall k, (m <= k)%Z ->
                  aget fzero zeroed k = aget fzero out k)).
  { subst zeroed.
    apply (for_up_ind
      (fun i o =>
         length o = length out /\
         (forall k, (0 <= k < i)%Z -> aget fzero o k = fzero) /\
         (forall k, (i <= k)%Z -> aget fzero o k = aget fzero out k)));
      [lia | repeat split; auto; intros; lia |].
    intros i o Hi (Hl & Hdone & Hrest).
    split; [now rewrite length_aset|]. split.
    - intros k Hk. destruct (Z.eq_dec k i) as [->|Hne].
      + apply aget_aset_eq; lia.
      + rewrite aget_aset_neq by lia. apply Hdone; lia.
    - intros k Hk. rewrite aget_aset_neq by lia. apply Hrest; lia. }
  destruct Hz as (Hzl & Hz0 & Hzr).
  destruct (Z_le_gt_dec c 0) as [Hc|Hc'].
  { rewrite for_up_empty by nia.
    repeat split; auto.
    intros k Hk. rewrite Hz0 by lia.
    replace (Z.to_nat c) with 0%nat by lia. reflexivity. }
  assert (Hc : (0 < c)%Z) by lia.
  pose (t := fun (k j : Z) => Z.to_nat (Z.max 0 (Z.min c (j - k * c)))).
  assert (HP :
    let o := for_up 0 (m * c)
               (fun j a =>
                  aset a (Z.quot j c)
                       (aget fzero a (Z.quot j c) +
                        aget fzero signal j / of_int c)) zeroed in
    length o = length out /\
    (forall k, (0 <= k < m)%Z ->
       aget fzero o k = block_sum c signal k (t k (m * c)%Z)) /\
    (forall k, (m <= k)%Z -> aget fzero o k = aget fzero out k)).
  { apply (for_up_ind
      (fun j o =>
         length o = length out /\
         (forall k, (0 <= k < m)%Z ->
            aget fzero o k = block_sum c signal k (t k j)) /\
         (forall k, (m <= k)%Z -> aget fzero o k = aget fzero out k)));
      [nia | |].
    - repeat split; auto. intros k Hk. rewrite Hz0 by lia.
      unfold t. replace (Z.to_nat _) with 0%nat by nia. reflexivity.
    - intros j o Hj (Hl & Hdone & Hrest).
      assert (Hq : (0 <= Z.quot j c < m)%Z).
      { rewrite Z.quot_div_nonneg by lia. split.
        - apply Z.div_pos; lia.
        - apply Z.div_lt_upper_bound; lia. }
      split; [now rewrite length_aset|]. split.
      + intros k Hk. unfold t.
        rewrite (@compress_step c j k) by lia.
        destruct (Z.eqb_spec (Z.quot j c) k) as [Heq|Hne].
        * rewrite Heq, aget_aset_eq by lia.
          rewrite (Hdone k Hk). unfold block_sum, t.
          rewrite seq_S, fold_left_app. cbn [fold_left Nat.add].
          do 3 f_equal.
          rewrite <- Heq, Z.quot_div_nonneg by lia.
          pose proof (Z.div_mod j c ltac:(lia)) as Hdm.
          pose proof (Z.mod_pos_bound j c Hc) as Hmod.
          nia.
        * rewrite aget_aset_neq by lia. apply Hdone; lia.
      + intros k Hk. rewrite aget_aset_neq by lia. apply Hrest; lia. }
  cbv zeta in HP. destruct HP as (Hl & Hdone & Hrest).
  repeat split; auto.
  intros k Hk. rewrite (Hdone k Hk). f_equal. unfold t. nia.
Qed.

(** X2.  Lines 179-182 compress the signal.  With at least one output
    step and a buffer of at least [ntsteps_out] cells, the division of
    line 179 gives [c = time_steps_calc / ntsteps_out], the lines
    complete, and every output sample k < ntsteps_out becomes the sum,
    taken from left to right from 0, of the [c] calculated samples
    k*c ... k*c + c - 1 each divided by [c] (0 when [c <= 0]); the
    cells of [signal_out] from [ntsteps_out] on are kept. *)
Theorem compress_block_means (setup : Setup) (signal out : list F) :
  (0 < ntsteps_out setup <= Z.of_nat (length out))%Z ->
  let c := Z.quot (time_steps_calc setup) (ntsteps_out setup) in
  exists out',
    comp_f setup = Some c /\
    compress setup signal out = Some out' /\
    length out' = length out /\
    (forall k, (0 <= k < ntsteps_out setup)%Z ->
       aget fzero out' k = block_sum c signal k (Z.to_nat c)) /\
    (forall k, (ntsteps_out setup <= k)%Z ->
       aget fzero out' k = aget fzero out k).
Proof. exact (compress_blocks setup signal out). Qed.
End ShapingFacts.

Section RcFrame.
Context {F : Type} {ops : FloatOps F}.
Local Open Scope fl_scope.

(** What [rc_integrate] writes. *)
Lemma rc_integrate_writes (m : @mem F) (s_in s_out : ptr) (tau : F)
      (N : Z) :
  let m' := rc_integrate m s_in s_out tau N in
  (forall p, p <> s_out -> m' p = m p) /\
  (forall p, length (m' p) = length (m p)) /\
  (forall j, (1 <= j)%Z -> (N <= j)%Z ->
     load m' s_out j = load m s_out j) /\
  (m s_out <> [] -> load m' s_out 0 = fzero).
Proof.
  intros m'.
  pose (Q := fun m1 : @mem F =>
    (forall p, p <> s_out -> m1 p = m p) /\
    (forall p, length (m1 p) = length (m p)) /\
    (forall j, (1 <= j)%Z -> (N <= j)%Z ->
       load m1 s_out j = load m s_out j)).
  pose (Z0 := fun m1 : @mem F => m s_out <> [] -> load m1 s_out 0 = fzero).
  assert (Hstore : forall m1 j x, (j < N \/ j = 0)%Z -> Q m1 ->
                     Q (store m1 s_out j x)).
  { intros m1 j x Hj (Ho & Hl & Hk). repeat split.
    - intros p Hp. unfold store.
      destruct (Nat.eqb_spec p s_out); [congruence|auto].
    - intros p. now rewrite length_store.
    - intros k H1 HN. rewrite load_store_other by (right; lia). auto. }
  assert (Hzero : forall m1, Q m1 -> Z0 (store m1 s_out 0 fzero)).
  { intros m1 (Ho & Hl & Hk) Hne. apply load_store_same.
    rewrite Hl. destruct (m s_out); [congruence|cbn; lia]. }
  assert (HQ0 : Q m) by (repeat split; auto).
  assert (Hend : forall m1, Q m1 /\ Z0 m1 ->
    (forall p, p <> s_out -> m1 p = m p) /\
    (forall p, length (m1 p) = length (m p)) /\
    (forall j, (1 <= j)%Z -> (N <= j)%Z ->
       load m1 s_out j = load m s_out j) /\
    (m s_out <> [] -> load m1 s_out 0 = fzero)).
  { intros m1 [(Ho & Hl & Hk) Hz]. repeat split; auto. }
  subst m'; unfold rc_integrate. destruct (tau <? fone).
  - apply Hend.
    assert (Hloop : Q (for_down (N - 1) 0 (rc_shift_body s_in s_out) m)).
    { destruct (Z_le_gt_dec 0 (N - 1)) as [Hle|Hgt].
      + apply (for_down_ind (fun _ => Q)); auto.
        intros i m1 Hi Hm1. unfold rc_shift_body. apply Hstore; auto; lia.
      + rewrite for_down_empty by lia. exact HQ0. }
    split; [apply Hstore; auto; lia | now apply Hzero].
  - apply Hend.
    apply (for_up_inv_range
             (fun st : @mem F * F => Q (fst st) /\ Z0 (fst st))).
    + cbn [fst]. split; [apply Hstore; auto; lia | now apply Hzero].
    + intros j [m1 old] Hj [HQ HZ]. cbn [fst] in *.
      unfold rc_step_body. cbn [fst]. split.
      * apply Hstore; auto; lia.
      * intros Hne. rewrite load_store_other by (right; lia). auto.
Qed.

(** X3.  [rc_integrate] writes only the output block, and of it only
    the samples below [time_steps] and sample 0: every other block
    (the input too, when it is another block) is kept, no block
    changes its length, the output samples from max(1, time_steps) on
    are kept, and sample 0 of a non-empty output block is set to 0
    whatever [time_steps] is, also when it is 0 or negative. *)
Theorem rc_integrate_frame (m : @mem F) (s_in s_out : ptr) (tau : F)
        (N : Z) :
  let m' := rc_integrate m s_in s_out tau N in
  (forall p, p <> s_out -> m' p = m p) /\
  (forall p, length (m' p) = length (m p)) /\
  (forall j, (1 <= j)%Z -> (N <= j)%Z ->
     load m' s_out j = load m s_out j) /\
  (m s_out <> [] -> load m' s_out 0 = fzero).
Proof. exact (rc_integrate_writes m s_in s_out tau N). Qed.
End RcFrame.

(** X3 on a concrete memory with two time steps: the input block 0 is
    kept, sample 2 of the output block 1 is kept and its sample 0 is
    set to 0. *)
Lemma rc_integrate_frame_witness :
  let m : @mem Q := fun p => match p with
                             | O => [1; 2; 3]%Q
                             | 1%nat => [7; 8; 9]%Q
                             | _ => [4; 5]%Q
                             end in
  let m' := rc_integrate m 0%nat 1%nat 3%Q 2 in
  (0%nat <> 1%nat /\ (1 <= 2)%Z /\ (2 <= 2)%Z /\ m 1%nat <> []) /\
  m' 0%nat = m 0%nat /\
  load m' 1%nat 2 = load m 1%nat 2 /\
  load m' 1%nat 0 = fzero.
Proof.
  intros m m'.
  assert (Hp : 0%nat <> 1%nat) by discriminate.
  assert (H1 : (1 <= 2)%Z) by discriminate.
  assert (H2 : (2 <= 2)%Z) by discriminate.
  assert (Hne : m 1%nat <> []) by discriminate.
  split; [auto|].
  destruct (rc_integrate_frame m 0%nat 1%nat 3%Q 2)
    as (Ho & _ & Hk & Hz).
  split; [exact (Ho 0%nat Hp)|].
  split; [exact (Hk 2%Z H1 H2) | exact (Hz Hne)].
Defined.

(** ** What [make_signal] writes *)

Lemma iter_break_inv_range {St : Type} (P : St -> Prop)
      (body : Z -> St -> St * bool) k i (st : St) :
  P st ->
  (forall j st, (i <= j < i + Z.of_nat k)%Z -> P st ->
     P (fst (body j st))) ->
  P (snd (iter_break body k i st)).
Proof.
  revert i st; induction k as [|k IH]; intros i st Hs Hbody; cbn; auto.
  pose proof (Hbody i st ltac:(lia) Hs) as Hnext.
  destruct (body i st) as [st' brk]; destruct brk; cbn in *; auto.
  apply IH; auto. intros j st0 Hj. apply Hbody; lia.
Qed.

(** The final counter of a loop with [break] is within its range. *)
Lemma iter_break_index {St : Type} (body : Z -> St -> St * bool) k i
      (st : St) :
  (i <= fst (iter_break body k i st) <= i + Z.of_nat k)%Z.
Proof.
  revert i st; induction k as [|k IH]; intros i st; cbn; [lia|].
  destruct (body i st) as [st' brk]; destruct brk; cbn; [lia|].
  specialize (IH (i + 1)%Z st'). lia.
Qed.

Section MakeSignalFrame.
Context {F : Type} {ops : FloatOps F}.
Variable E : Externals (F := F).
Local Open Scope fl_scope.
Local Abbreviation Setup := (MJD_Siggen_Setup F).

Lemma paths_kept_refl q K (s : Setup) : paths_kept q K s s.
Proof. repeat split; auto. Qed.

Lemma paths_kept_trans q K (s1 s2 s3 : Setup) :
  paths_kept q K s1 s2 -> paths_kept q K s2 s3 -> paths_kept q K s1 s3.
Proof.
  intros (A1 & A2 & A3 & A4 & A5 & A6 & A7)
         (B1 & B2 & B3 & B4 & B5 & B6 & B7).
  repeat split; try congruence.
  - intros H; rewrite B4, A4; auto.
  - intros H; rewrite B5, A5; auto.
  - intros j Hj; rewrite B6, A6; auto.
  - intros j Hj; rewrite B7, A7; auto.
Qed.

Lemma paths_kept_weaken q (K K' : Z -> Prop) (s s' : Setup) :
  (forall j, K' j -> K j) -> paths_kept q K s s' -> paths_kept q K' s s'.
Proof.
  intros HK (A1 & A2 & A3 & A4 & A5 & A6 & A7); repeat split; auto.
Qed.

Lemma record_path_kept q K (s : Setup) t pt :
  (forall j, K j -> j <> t) ->
  paths_kept q K s (record_path q s t pt) /\
  cloud_kept s (record_path q s t pt).
Proof.
  intros HK; unfold record_path, paths_kept, cloud_kept.
  destruct (q >? fzero);
    cbn [set_dpath_h set_dpath_e dpath_e dpath_h initial_vel final_vel
         final_charge_size_sq];
    rewrite ?length_aset; repeat split; auto; try discriminate;
    intros j Hj; apply aget_aset_neq; intros ->; now apply (HK j).
Qed.

Lemma record_path_own q (s : Setup) t pt :
  (0 <= t < Z.of_nat (length (own_path q s)))%Z ->
  aget zero_pt (own_path q (record_path q s t pt)) t = pt.
Proof.
  unfold own_path, record_path.
  destruct (q >? fzero); cbn [set_dpath_h set_dpath_e dpath_e dpath_h];
    intros Ht; now apply aget_aset_eq.
Qed.

Lemma track_cloud_kept q K c dc t vel (s s' : Setup) vel1 vel1' :
  track_cloud E c dc t vel s vel1 = (s', vel1') ->
  paths_kept q K s s' /\ (c = false -> s' = s) /\
  dpath_e s' = dpath_e s /\ dpath_h s' = dpath_h s.
Proof.
  unfold track_cloud.
  destruct c; [|intros [= <- <-]; repeat split; auto].
  destruct (t =? 1)%Z;
    [|destruct (negb (use_diffusion s =? 0)%Z)];
    intros [= <- <-]; repeat split; auto; discriminate.
Qed.

Lemma paths_kept_own q K (s s' : Setup) j :
  paths_kept q K s s' -> K j ->
  aget zero_pt (own_path q s') j = aget zero_pt (own_path q s) j.
Proof.
  intros (_ & _ & _ & _ & _ & He & Hh) Hj; unfold own_path.
  destruct (q >? fzero); auto.
Qed.

Lemma paths_kept_own_length q K (s s' : Setup) :
  paths_kept q K s s' -> length (own_path q s') = length (own_path q s).
Proof.
  intros (_ & He & Hh & _); unfold own_path.
  destruct (q >? fzero); auto.
Qed.

(** The drift loop entered at step [t] writes the path of its carrier
    at steps t ... ntsteps - 2 (and at step t itself in any case) and
    the signal at the steps max(t, 1) ... ntsteps - 3. *)
Lemma drift_loop_frame fuel q c dc n (d d' : drift) :
  exit_state (drift_loop E fuel q c dc n d) = Some d' ->
  (d_t d <= d_t d')%Z /\
  (d_t d' = d_t d \/ d_t d' <= n - 2)%Z /\
  paths_kept q (fun j => j < d_t d \/ (d_t d < j /\ n - 2 < j))%Z
             (d_setup d) (d_setup d') /\
  (c = false -> cloud_kept (d_setup d) (d_setup d')) /\
  (forall j, (j < d_t d \/ j <= 0 \/ n - 2 <= j)%Z ->
     aget fzero (d_signal d') j = aget fzero (d_signal d) j) /\
  (drift_velocity E (d_new_pt d) q (d_setup d) <> None ->
   (0 <= d_t d < Z.of_nat (length (own_path q (d_setup d))))%Z ->
   aget zero_pt (own_path q (d_setup d')) (d_t d) = d_new_pt d) /\
  (drift_velocity E (d_new_pt d) q (d_setup d) = None -> d' = d).
Proof.
  revert d; induction fuel as [|fuel IH]; intros d; [discriminate|].
  cbn [drift_loop].
  set (K := (fun j => j < d_t d \/ (d_t d < j /\ n - 2 < j))%Z).
  assert (Hcloud_refl : forall s : Setup, cloud_kept s s)
    by (intros; repeat split).
  destruct (drift_velocity E (d_new_pt d) q (d_setup d)) as [vel|] eqn:Ev.
  2: { intros [= <-].
       split; [lia|]. split; [lia|].
       split; [apply paths_kept_refl|]. split; [auto|].
       split; [auto|]. split; [congruence|auto]. }
  destruct (@record_path_kept q K (d_setup d) (d_t d) (d_new_pt d))
    as [Hrec Hrecc]; [unfold K; intros; lia|].
  destruct (track_cloud E c dc (d_t d) vel _ (d_vel1 d))
    as [setup vel1] eqn:Et.
  destruct (@track_cloud_kept q K _ _ _ _ _ _ _ _ Et)
    as (Htr & Htrc & Htre & Htrh).
  assert (Hk1 : paths_kept q K (d_setup d) setup)
    by (eapply paths_kept_trans; eauto).
  assert (Hc1 : c = false -> cloud_kept (d_setup d) setup).
  { intros Hc. rewrite (Htrc Hc). exact Hrecc. }
  assert (Hown1 :
    (0 <= d_t d < Z.of_nat (length (own_path q (d_setup d))))%Z ->
    aget zero_pt (own_path q setup) (d_t d) = d_new_pt d).
  { intros Hr.
    assert (Hfix : own_path q setup =
                   own_path q (record_path q (d_setup d) (d_t d)
                                           (d_new_pt d))).
    { unfold own_path. destruct (q >? fzero); auto. }
    rewrite Hfix. now apply record_path_own. }
  assert (Hstop : forall sg,
    (forall j, (j < d_t d \/ j <= 0 \/ n - 2 <= j)%Z ->
       aget fzero sg j = aget fzero (d_signal d) j) ->
    (d_t d <= d_t d)%Z /\
    (d_t d = d_t d \/ d_t d <= n - 2)%Z /\
    paths_kept q K (d_setup d) setup /\
    (c = false -> cloud_kept (d_setup d) setup) /\
    (forall j, (j < d_t d \/ j <= 0 \/ n - 2 <= j)%Z ->
       aget fzero sg j = aget fzero (d_signal d) j) /\
    (Some vel <> None ->
     (0 <= d_t d < Z.of_nat (length (own_path q (d_setup d))))%Z ->
     aget zero_pt (own_path q setup) (d_t d) = d_new_pt d) /\
    (Some vel = None -> d' = d)).
  { intros sg Hsg.
    split; [lia|]. split; [lia|]. split; [exact Hk1|].
    split; [exact Hc1|]. split; [exact Hsg|].
    split; [intros _; exact Hown1|discriminate]. }
  destruct (d_t d >=? n - 2)%Z eqn:Ege.
  { intros [= <-]; cbn [d_t d_setup d_signal]. now apply Hstop. }
  rewrite Z.geb_leb in Ege; apply Z.leb_gt in Ege.
  destruct (wpotential E (d_new_pt d) setup) as [w|].
  2: { intros [= <-]; cbn [d_t d_setup d_signal]. now apply Hstop. }
  set (sig := if (d_t d >? 0)%Z
              then aset (d_signal d) (d_t d)
                     (aget fzero (d_signal d) (d_t d) +
                      q * (w - d_wpot_old d))
              else d_signal d).
  assert (Hsig : forall j, (j < d_t d \/ j <= 0 \/ n - 2 <= j)%Z ->
                   aget fzero sig j = aget fzero (d_signal d) j).
  { intros j Hj; subst sig. destruct (d_t d >? 0)%Z eqn:Egt; auto.
    apply Z.gtb_lt in Egt. apply aget_aset_neq; lia. }
  match goal with
  | |- context [if ?b then Break _ _ else _] => destruct b
  end.
  - intros [= <-]; cbn [d_t d_setup d_signal]. now apply Hstop.
  - intros Hexit. apply IH in Hexit.
    cbn [d_t d_setup d_signal d_new_pt] in Hexit.
    destruct Hexit as (Ht & Hbound & Hk & Hc & Hs & _ & _).
    split; [lia|]. split; [lia|].
    split.
    { eapply paths_kept_trans; [exact Hk1|].
      eapply paths_kept_weaken; [|exact Hk]. unfold K; intros; lia. }
    split.
    { intros Hcf. destruct (Hc1 Hcf) as (A1 & A2 & A3).
      destruct (Hc Hcf) as (B1 & B2 & B3). repeat split; congruence. }
    split.
    { intros j Hj. rewrite Hs by lia. now apply Hsig. }
    split; [|congruence].
    intros _ Hr. rewrite (@paths_kept_own q _ _ _ (d_t d) Hk) by lia.
    now apply Hown1.
Qed.

Lemma cloud_kept_trans (s1 s2 s3 : Setup) :
  cloud_kept s1 s2 -> cloud_kept s2 s3 -> cloud_kept s1 s3.
Proof.
  intros (A1 & A2 & A3) (B1 & B2 & B3); repeat split; congruence.
Qed.

(** The straight drift to the crystal boundary from step [t] writes
    the path of its carrier at steps t ... ntsteps - 1. *)
Lemma edge_drift_frame q n (d : drift) nn pt' (s' : Setup) :
  edge_drift E q n d = (nn, (pt', s')) ->
  paths_kept q (fun j => j < d_t d \/ n <= j)%Z (d_setup d) s' /\
  cloud_kept (d_setup d) s' /\
  (1 <= nn)%Z /\ (nn <= Z.max 1 (n - d_t d))%Z.
Proof.
  unfold edge_drift, for_up_break.
  set (K := (fun j => j < d_t d \/ n <= j)%Z).
  pose proof (@iter_break_index _ (edge_body E q (d_dx d) (d_t d))
                (Z.to_nat (n - d_t d - 0)) 0 (d_new_pt d, d_setup d))
    as Hidx.
  pose proof (@iter_break_inv_range _
    (fun st : point F * Setup =>
       paths_kept q K (d_setup d) (snd st) /\
       cloud_kept (d_setup d) (snd st))
    (edge_body E q (d_dx d) (d_t d))
    (Z.to_nat (n - d_t d - 0)) 0 (d_new_pt d, d_setup d)) as Hinv.
  destruct (iter_break _ _ _ _) as [n0 [p1 s1]].
  cbn [fst snd] in *.
  intros [= <- <- <-].
  destruct Hinv as [Hk Hc].
  - split; [apply paths_kept_refl | repeat split].
  - intros j [p2 s2] Hj [Hk2 Hc2]. unfold edge_body. cbn [fst snd].
    destruct (@record_path_kept q K s2 (d_t d + j)
                (vector_add E p2 (d_dx d))) as [Hk3 Hc3];
      [unfold K; intros; lia|].
    split; [eapply paths_kept_trans | eapply cloud_kept_trans]; eauto.
  - split; [exact Hk|]. split; [exact Hc|].
    destruct (Z.eqb_spec n0 0); lia.
Qed.

Lemma set_final_vel_kept q K (s : Setup) x :
  paths_kept q K s (set_final_vel s x) /\
  initial_vel (set_final_vel s x) = initial_vel s /\
  final_charge_size_sq (set_final_vel s x) = final_charge_size_sq s.
Proof. repeat split; auto. Qed.

(** What follows the drift loop left at step [t] writes the path of
    its carrier and the signal at steps t ... ntsteps - 1 only, and
    nothing when [t] is 0. *)
Lemma after_drift_frame q n dw lf (d : drift) :
  exists r,
    after_drift E q n dw lf d = Some r /\
    paths_kept q (fun j => j < d_t d \/ n <= j)%Z (d_setup d)
               (ms_setup r) /\
    initial_vel (ms_setup r) = initial_vel (d_setup d) /\
    final_charge_size_sq (ms_setup r) =
      final_charge_size_sq (d_setup d) /\
    ((q >? fzero) = false ->
     final_vel (ms_setup r) = final_vel (d_setup d)) /\
    (forall j, (j < d_t d \/ n <= j)%Z ->
       aget fzero (ms_signal r) j = aget fzero (d_signal d) j) /\
    (d_t d = 0%Z ->
     ms_ret r = (-1)%Z /\ ms_setup r = d_setup d /\
     ms_signal r = d_signal d).
Proof.
  set (K := (fun j => j < d_t d \/ n <= j)%Z).
  assert (Hfinish : forall (sg : list F) (s : Setup) dw',
    paths_kept q K (d_setup d) s -> cloud_kept (d_setup d) s ->
    (forall j, K j -> aget fzero sg j = aget fzero (d_signal d) j) ->
    d_t d <> 0%Z ->
    let s' := if q >? fzero
              then set_final_vel s (vector_length E (d_v d)) else s in
    exists r,
      ms_return 0 sg s' (d_wpot d) (d_wpot_old d) dw' = Some r /\
      paths_kept q K (d_setup d) (ms_setup r) /\
      initial_vel (ms_setup r) = initial_vel (d_setup d) /\
      final_charge_size_sq (ms_setup r) =
        final_charge_size_sq (d_setup d) /\
      ((q >? fzero) = false ->
       final_vel (ms_setup r) = final_vel (d_setup d)) /\
      (forall j, K j ->
         aget fzero (ms_signal r) j = aget fzero (d_signal d) j) /\
      (d_t d = 0%Z ->
       ms_ret r = (-1)%Z /\ ms_setup r = d_setup d /\
       ms_signal r = d_signal d)).
  { intros sg s dw' Hk (Hc1 & Hc2 & Hc3) Hsg Ht s'.
    unfold ms_return. eexists. split; [reflexivity|].
    cbn [ms_setup ms_signal ms_ret]. subst s'.
    destruct (q >? fzero) eqn:Eq.
    - destruct (@set_final_vel_kept q K s (vector_length E (d_v d)))
        as (Hf1 & Hf2 & Hf3).
      split; [eapply paths_kept_trans; eauto|].
      split; [congruence|]. split; [congruence|].
      split; [discriminate|]. split; [auto|congruence].
    - split; [auto|]. split; [auto|]. split; [auto|].
      split; [auto|]. split; [auto|congruence]. }
  assert (Hcr : cloud_kept (d_setup d) (d_setup d)) by (repeat split).
  unfold after_drift.
  destruct (Z.eqb_spec (d_t d) 0) as [Ht|Ht].
  { unfold ms_return. eexists. split; [reflexivity|].
    cbn [ms_setup ms_signal ms_ret]. repeat split; auto. }
  destruct lf.
  { apply Hfinish; auto using paths_kept_refl. }
  unfold truncated.
  destruct (edge_drift E q n d) as [nn [pt' s']] eqn:Ee.
  destruct (edge_drift_frame _ _ _ Ee) as (Hk & Hc & Hn1 & Hn2).
  cbn [fst].
  destruct (nn + d_t d >=? n)%Z eqn:Etr.
  - cbn [andb].
    destruct ((q >? fzero) || (d_wpot d >? WP_THRESH_ELECTRONS E)) eqn:Eq.
    + unfold ms_return. eexists. split; [reflexivity|].
      cbn [ms_setup ms_signal ms_ret].
      destruct Hc as (Hc1 & Hc2 & Hc3).
      split; [auto|]. split; [auto|]. split; [auto|].
      split; [auto|]. split; [auto|congruence].
    + apply Hfinish; auto.
      intros j Hj.
      apply (for_up_inv_range
               (fun sg => aget fzero sg j = aget fzero (d_signal d) j));
        auto.
      intros i sg Hi Hsg. unfold smear_body.
      rewrite aget_aset_neq; auto. unfold K in Hj. lia.
  - cbn [andb]. rewrite Z.geb_leb in Etr. apply Z.leb_gt in Etr.
    apply Hfinish; auto.
    intros j Hj.
    apply (for_up_inv_range
             (fun sg => aget fzero sg j = aget fzero (d_signal d) j));
      auto.
    intros i sg Hi Hsg. unfold smear_body.
    rewrite aget_aset_neq; auto. unfold K in Hj. lia.
Qed.

(** What a call of [make_signal] writes, with [n = time_steps_calc]. *)
Lemma make_signal_frame pt signal q (setup : Setup) w wo dw :
  let n := time_steps_calc setup in
  exists r,
    make_signal E pt signal q setup w wo dw = Some r /\
    paths_kept q (fun j => 1 <= j /\ n <= j)%Z setup (ms_setup r) /\
    (collect2pc q setup = false ->
     initial_vel (ms_setup r) = initial_vel setup /\
     final_charge_size_sq (ms_setup r) = final_charge_size_sq setup /\
     ((q >? fzero) = false ->
      final_vel (ms_setup r) = final_vel setup)) /\
    (forall j, (j <= 0 \/ n <= j)%Z ->
       aget fzero (ms_signal r) j = aget fzero signal j) /\
    (drift_velocity E pt q setup <> None ->
     own_path q setup <> [] ->
     aget zero_pt (own_path q (ms_setup r)) 0 = pt) /\
    (drift_velocity E pt q setup = None ->
     ms_ret r = (-1)%Z /\ ms_setup r = setup /\ ms_signal r = signal).
Proof.
  intros n. unfold make_signal. fold n.
  pose proof (drift_run_fuel E pt signal q setup w wo) as Hfuel.
  set (run := drift_run E pt signal q setup w wo) in *.
  pose proof (fun d' (H : exit_state run = Some d') =>
    @drift_loop_frame (S (Z.to_nat (n - 2))) q
      (collect2pc q setup) (diffusion_coeff q setup) n
      (drift_start pt signal setup w wo) d' H) as Hloop.
  cbn [d_t d_setup d_signal d_new_pt drift_start] in Hloop.
  set (K := (fun j => 1 <= j /\ n <= j)%Z).
  assert (Hafter : forall lf d,
    exit_state run = Some d ->
    exists r,
      after_drift E q n dw lf d = Some r /\
      paths_kept q K setup (ms_setup r) /\
      (collect2pc q setup = false ->
       initial_vel (ms_setup r) = initial_vel setup /\
       final_charge_size_sq (ms_setup r) = final_charge_size_sq setup /\
       ((q >? fzero) = false ->
        final_vel (ms_setup r) = final_vel setup)) /\
      (forall j, (j <= 0 \/ n <= j)%Z ->
         aget fzero (ms_signal r) j = aget fzero signal j) /\
      (drift_velocity E pt q setup <> None ->
       own_path q setup <> [] ->
       aget zero_pt (own_path q (ms_setup r)) 0 = pt) /\
      (drift_velocity E pt q setup = None ->
       ms_ret r = (-1)%Z /\ ms_setup r = setup /\ ms_signal r = signal)).
  { intros lf d Hd.
    destruct (Hloop d Hd) as (Ht & Hb & Hk & Hc & Hs & Hown & Hnone).
    destruct (after_drift_frame q n dw lf d)
      as (r & Hr & Hk2 & Hi2 & Hf2 & Hv2 & Hs2 & H02).
    exists r. split; [exact Hr|].
    split.
    { eapply paths_kept_trans;
        (eapply paths_kept_weaken; [|eassumption]);
        unfold K; intros; cbv beta; lia. }
    split.
    { intros Hcf. destruct (Hc Hcf) as (C1 & C2 & C3).
      split; [congruence|]. split; [congruence|].
      intros Hq. rewrite (Hv2 Hq). exact C2. }
    split.
    { intros j Hj.
      destruct (Z.eq_dec (d_t d) 0) as [H0|H0].
      - destruct (H02 H0) as (_ & _ & ->). apply Hs; lia.
      - rewrite Hs2 by lia. apply Hs; lia. }
    split.
    { intros Hv Hne.
      assert (Hlen : (0 <= 0 < Z.of_nat (length (own_path q setup)))%Z).
      { destruct (own_path q setup); [congruence|cbn; lia]. }
      destruct (Z.eq_dec (d_t d) 0) as [H0|H0].
      - destruct (H02 H0) as (_ & -> & _). now apply Hown.
      - rewrite (@paths_kept_own q _ _ _ 0%Z Hk2) by lia.
        now apply Hown. }
    intros Hv. specialize (Hnone Hv). subst d.
    cbn [d_t drift_start] in H02.
    destruct (H02 eq_refl) as (H1 & H2 & H3). auto. }
  destruct run as [d|lf d|d|]; [| | |congruence].
  - apply Hafter; reflexivity.
  - apply Hafter; reflexivity.
  - destruct (Hloop d eq_refl) as (Ht & Hb & Hk & Hc & Hs & Hown & Hnone).
    unfold ms_return. eexists. split; [reflexivity|].
    cbn [ms_setup ms_signal ms_ret].
    split.
    { eapply paths_kept_weaken; [|exact Hk].
      unfold K; intros; cbv beta; lia. }
    split.
    { intros Hcf. destruct (Hc Hcf) as (C1 & C2 & C3). auto. }
    split; [intros j Hj; apply Hs; lia|].
    split.
    { intros Hv Hne. apply Hown; auto.
      destruct (own_path q setup); [congruence|cbn; lia]. }
    intros Hv. specialize (Hnone Hv). subst d. auto.
Qed.

(** X4.  [make_signal] leaves the configuration alone: of the setup it
    changes at most the drift path of its own carrier (that of the
    holes for q > 0, that of the electrons otherwise), without
    changing its length, and the velocities and the cloud size; and
    for a carrier that is not collected at the point contact it
    leaves [initial_vel] and [final_charge_size_sq], and for such an
    electron also [final_vel], as they were. *)
Theorem make_signal_keeps_configuration pt signal q (setup : Setup)
        w wo dw :
  exists r,
    make_signal E pt signal q setup w wo dw = Some r /\
    fixed_part (ms_setup r) = fixed_part setup /\
    length (dpath_e (ms_setup r)) = length (dpath_e setup) /\
    length (dpath_h (ms_setup r)) = length (dpath_h setup) /\
    ((q >? fzero) = true -> dpath_e (ms_setup r) = dpath_e setup) /\
    ((q >? fzero) = false -> dpath_h (ms_setup r) = dpath_h setup) /\
    (collect2pc q setup = false ->
     initial_vel (ms_setup r) = initial_vel setup /\
     final_charge_size_sq (ms_setup r) = final_charge_size_sq setup /\
     ((q >? fzero) = false ->
      final_vel (ms_setup r) = final_vel setup)).
Proof.
  destruct (make_signal_frame pt signal q setup w wo dw)
    as (r & Hr & (H1 & H2 & H3 & H4 & H5 & _) & Hc & _).
  exists r. auto 10.
Qed.

(** X5.  [make_signal] stays within [time_steps_calc] steps: it never
    writes the signal at step 0 or at a step from [time_steps_calc]
    on, and with at least one time step it never writes a drift path
    at a step from [time_steps_calc] on. *)
Theorem make_signal_writes_in_bounds pt signal q (setup : Setup)
        w wo dw :
  let n := time_steps_calc setup in
  exists r,
    make_signal E pt signal q setup w wo dw = Some r /\
    (forall j, (j <= 0 \/ n <= j)%Z ->
       aget fzero (ms_signal r) j = aget fzero signal j) /\
    ((1 <= n)%Z ->
     forall j, (n <= j)%Z ->
       aget zero_pt (dpath_e (ms_setup r)) j =
         aget zero_pt (dpath_e setup) j /\
       aget zero_pt (dpath_h (ms_setup r)) j =
         aget zero_pt (dpath_h setup) j).
Proof.
  intros n.
  destruct (make_signal_frame pt signal q setup w wo dw)
    as (r & Hr & (_ & _ & _ & _ & _ & He & Hh) & _ & Hs & _).
  exists r. split; [exact Hr|]. split; [exact Hs|].
  intros Hn j Hj. split; [apply He | apply Hh]; fold n; lia.
Qed.

(** X6.  The drift path starts at the start point: when
    [drift_velocity] succeeds at [pt], the path of the carrier holds
    [pt] at step 0 after the call, whatever the call returns; when it
    fails there, the call returns -1 and has written neither the
    signal nor the setup. *)
Theorem make_signal_path_start pt signal q (setup : Setup) w wo dw :
  exists r,
    make_signal E pt signal q setup w wo dw = Some r /\
    (drift_velocity E pt q setup <> None ->
     own_path q setup <> [] ->
     aget zero_pt (own_path q (ms_setup r)) 0 = pt) /\
    (drift_velocity E pt q setup = None ->
     ms_ret r = (-1)%Z /\ ms_setup r = setup /\ ms_signal r = signal).
Proof.
  destruct (make_signal_frame pt signal q setup w wo dw)
    as (r & Hr & _ & _ & _ & Hown & Hnone).
  exists r. auto.
Qed.
End MakeSignalFrame.

(** ** What [get_signal] writes *)

Section GetSignalFrame.
Context {F : Type} {ops : FloatOps F}.
Variable E : Externals (F := F).
Local Open Scope fl_scope.
Local Abbreviation Setup := (MJD_Siggen_Setup F).

Lemma length_clear_path n (a : list (point F)) :
  length (clear_path n a) = length a.
Proof.
  unfold clear_path.
  apply (for_up_inv (fun a' => length a' = length a)); auto.
  intros i a' H; now rewrite length_aset.
Qed.

Lemma clear_paths_kept (setup : Setup) (st : Statics) :
  fixed_part (clear_paths setup st) = fixed_part setup /\
  length (dpath_e (clear_paths setup st)) = length (dpath_e setup) /\
  length (dpath_h (clear_paths setup st)) = length (dpath_h setup).
Proof.
  unfold clear_paths.
  cbn [set_dpath_h set_dpath_e dpath_e dpath_h].
  rewrite !length_clear_path. repeat split.
Qed.

(** The two calls of [make_signal] keep the configuration and the
    lengths of the paths. *)
Lemma drift_both_frame pt (setup : Setup) (st : Statics) :
  exists err setup' st',
    drift_both E pt setup st = Some (err, setup', st') /\
    (err = 0%Z \/ err = (-1)%Z) /\
    fixed_part setup' = fixed_part setup /\
    length (dpath_e setup') = length (dpath_e setup) /\
    length (dpath_h setup') = length (dpath_h setup) /\
    tsteps st' = tsteps st /\ sum st' = sum st /\ tmp st' = tmp st.
Proof.
  unfold drift_both, electron_call, hole_call.
  destruct (clear_paths_kept setup st) as (C1 & C2 & C3).
  destruct (make_signal_frame E pt (signal st) ELECTRON_CHARGE
              (clear_paths setup st) (wpot st) (wpot_old st) (dwpot st))
    as (e & He & (E1 & E2 & E3 & _) & _).
  rewrite He.
  destruct (make_signal_frame E pt (ms_signal e) HOLE_CHARGE (ms_setup e)
              (ms_wpot e) (ms_wpot_old e) (ms_dwpot e))
    as (h & Hh & (H1 & H2 & H3 & _) & _).
  destruct (make_signal_result E pt (ms_signal e) HOLE_CHARGE (ms_setup e)
              (ms_wpot e) (ms_wpot_old e) (ms_dwpot e))
    as (h' & Hh' & Hret & _).
  rewrite Hh in Hh'. injection Hh' as <-.
  rewrite Hh. do 3 eexists. split; [reflexivity|].
  cbn [tsteps sum tmp].
  split; [exact Hret|]. repeat split; congruence.
Qed.

Lemma fixed_part_ntsteps_out (s s' : Setup) :
  fixed_part s' = fixed_part s ->
  ntsteps_out s' = ntsteps_out s /\
  time_steps_calc s' = time_steps_calc s.
Proof.
  intros H. split.
  - exact (f_equal (@ntsteps_out F) H).
  - exact (f_equal (@time_steps_calc F) H).
Qed.


(** The shaping completes unless line 179 divides by zero. *)
Lemma shape_signal_killed (setup : Setup) (st : Statics) out :
  shape_signal E setup st out = None <->
  out <> None /\ comp_f setup = None.
Proof.
  unfold shape_signal, comp_f. destruct out as [out|].
  2: { split; [discriminate|]. intros [H _]; now destruct H. }
  match goal with
  | |- context [if ?c then gaussian E ?a ?b ?x else ?y] =>
      destruct (if c then gaussian E a b x else y) as [[s1 u1] t1]
  end.
  unfold compress.
  destruct (int_div (time_steps_calc setup) (ntsteps_out setup)).
  - split; [discriminate|]. intros [_ H]; discriminate.
  - split; auto. split; [discriminate|reflexivity].
Qed.

(** [get_signal] returns unless it reaches line 179 with a buffer and
    the division kills the program. *)
Lemma get_signal_killed granted pt out (setup : Setup) (st : Statics) :
  get_signal E granted pt out setup st = None <->
  allocated granted setup st = true /\
  outside_detector pt setup = 0%Z /\
  out <> None /\ comp_f setup = None.
Proof.
  unfold get_signal.
  destruct (allocated granted setup st); cbn [negb].
  2: { split; [discriminate|]. intros [H _]; discriminate. }
  destruct (Z.eqb_spec (outside_detector pt setup) 0) as [Hin|Hout];
    cbn [negb].
  2: { split; [discriminate|]. intros (_ & H & _); contradiction. }
  destruct (drift_both_frame pt setup (prepare_statics setup st))
    as (err & setup' & st' & Hd & _ & Hfix & _).
  rewrite Hd.
  destruct (fixed_part_ntsteps_out Hfix) as [Hno Hts].
  assert (Hc : comp_f setup' = comp_f setup)
    by (unfold comp_f; now rewrite Hno, Hts).
  match goal with
  | |- context [shape_signal E setup' ?a out] =>
      pose proof (shape_signal_killed setup' a out) as Hk;
      destruct (shape_signal E setup' a out) as [[st2 o2]|]
  end.
  - split; [discriminate|]. intros (_ & _ & H1 & H2).
    rewrite Hc in Hk. destruct Hk as [_ Hk].
    discriminate (Hk (conj H1 H2)).
  - rewrite Hc in Hk. destruct Hk as [Hk _].
    split; [intros _|reflexivity].
    destruct (Hk eq_refl); auto.
Qed.

Lemma get_signal_returns granted pt out (setup : Setup) (st : Statics) :
  out = None \/ (0 < ntsteps_out setup)%Z ->
  exists r, get_signal E granted pt out setup st = Some r.
Proof.
  intros H.
  destruct (get_signal E granted pt out setup st) as [r|] eqn:Eg;
    [now exists r|].
  apply get_signal_killed in Eg. destruct Eg as (_ & _ & Ho & Hc).
  destruct H as [-> | Hn]; [now destruct Ho|].
  unfold comp_f in Hc. rewrite int_div_pos in Hc by exact Hn.
  discriminate.
Qed.


(** X8.  In a process whose scratch arrays hold [tsteps] cells, and
    called with a NULL [signal_out] or with at least one output step,
    [get_signal] returns, with -1 or 1, and leaves the
    configuration alone: of the setup it changes at most the two drift
    paths, the velocities and the cloud size, and path arrays of
    [time_steps_calc] points stay so.  For a point outside the detector,
    and when an allocation fails, it returns -1 and touches neither
    [signal_out] nor the setup.  Its return value and the setup it
    leaves are the same for every buffer with which it returns, NULL or
    not. *)
Theorem get_signal_keeps_configuration granted pt (out : option (list F))
        (setup : Setup) (st : Statics) :
  statics_ok st ->
  out = None \/ (0 < ntsteps_out setup)%Z ->
  exists r,
    get_signal E granted pt out setup st = Some r /\
    (gs_ret r = (-1)%Z \/ gs_ret r = 1%Z) /\
    fixed_part (gs_setup r) = fixed_part setup /\
    (paths_ok setup -> paths_ok (gs_setup r)) /\
    (out = None -> gs_out r = None) /\
    (outside_detector pt setup <> 0%Z \/
     allocated granted setup st = false ->
     gs_ret r = (-1)%Z /\ gs_out r = out /\ gs_setup r = setup) /\
    (forall out2 r2,
       get_signal E granted pt out2 setup st = Some r2 ->
       gs_ret r2 = gs_ret r /\ gs_setup r2 = gs_setup r).
Proof.
  intros _ Hret.
  destruct (get_signal_returns granted pt setup st Hret) as (r & Hr).
  exists r. split; [exact Hr|].
  revert Hr. unfold get_signal.
  destruct (allocated granted setup st); cbn [negb].
  2: { intros [= <-]. cbn [gs_ret gs_out gs_setup].
       split; [auto|]. split; [auto|]. split; [auto|].
       split; [auto|]. split; [auto|].
       intros out2 r2 [= <-]. auto. }
  destruct (Z.eqb_spec (outside_detector pt setup) 0) as [Hin|Hout];
    cbn [negb].
  2: { intros [= <-]. cbn [gs_ret gs_out gs_setup].
       split; [auto|]. split; [auto|]. split; [auto|].
       split; [auto|]. split; [auto|].
       intros out2 r2 [= <-]. auto. }
  destruct (drift_both_frame pt setup (prepare_statics setup st))
    as (err & setup' & st' & Hd & Herr & Hfix & He & Hh & _).
  rewrite Hd.
  destruct (shape_signal E setup' _ out) as [[st2 o2]|] eqn:Es;
    [|discriminate].
  intros [= <-]. cbn [gs_ret gs_out gs_setup].
  split. { destruct Herr as [-> | ->]; cbn; auto. }
  split; [exact Hfix|].
  split.
  { intros [P1 P2]. destruct (fixed_part_ntsteps_out Hfix) as [_ Hn].
    unfold paths_ok. rewrite Hn, He, Hh. auto. }
  split.
  { intros ->. unfold shape_signal in Es. now inversion Es. }
  split.
  { intros [H | H]; [contradiction|discriminate]. }
  intros out2 r2.
  destruct (shape_signal E setup' _ out2) as [[st3 o3]|];
    [|discriminate].
  intros [= <-]. auto.
Qed.
End GetSignalFrame.

(** ** The return value of [get_signal] and the state between calls *)

Section ReturnFacts.
Context {F : Type} {ops : FloatOps F}.
Variable E : Externals (F := F).
Local Open Scope fl_scope.
Local Abbreviation Setup := (MJD_Siggen_Setup F).

(** C3, as the code has it.  In a process whose scratch arrays hold
    [tsteps] cells and in which no allocation fails, for a start point
    inside the detector and a call with a NULL buffer or with at least
    one output step, [get_signal] makes the two calls of [make_signal]
    and returns -1 or 1: the negative value exactly when the call for
    the hole fails (returns non-zero), whatever the call for the
    electron returned, and 1 when the hole succeeds. *)
Theorem get_signal_fails_iff_hole_fails granted pt signal_out
        (setup : Setup) (st : Statics) :
  statics_ok st ->
  allocated granted setup st = true ->
  outside_detector pt setup = 0%Z ->
  signal_out = None \/ (0 < ntsteps_out setup)%Z ->
  exists e h res,
    electron_call E pt setup (prepare_statics setup st) = Some e /\
    hole_call E pt e = Some h /\
    get_signal E granted pt signal_out setup st = Some res /\
    (gs_ret res = (-1)%Z \/ gs_ret res = 1%Z) /\
    ((gs_ret res < 0)%Z <-> ms_ret h <> 0%Z) /\
    (ms_ret h = 0%Z -> gs_ret res = 1%Z).
Proof.
  intros _ Ha Hin Hret.
  destruct (get_signal_returns E granted pt setup st Hret) as (res & Hres).
  set (st1 := prepare_statics setup st).
  destruct (make_signal_result E pt (signal st1) ELECTRON_CHARGE
              (clear_paths setup st1) (wpot st1) (wpot_old st1)
              (dwpot st1)) as (e & He & _ & _).
  destruct (make_signal_result E pt (ms_signal e) HOLE_CHARGE
              (ms_setup e) (ms_wpot e) (ms_wpot_old e) (ms_dwpot e))
    as (h & Hh & Hr & _).
  exists e, h, res.
  split; [exact He|]. split; [exact Hh|]. split; [exact Hres|].
  unfold get_signal, drift_both in Hres.
  rewrite Ha, Hin in Hres. cbn [Z.eqb negb] in Hres.
  fold st1 in Hres. unfold electron_call, hole_call in Hres.
  rewrite He, Hh in Hres.
  destruct (shape_signal E _ _ signal_out) as [[st2 o]|]; [|discriminate].
  injection Hres as <-. cbn [gs_ret].
  destruct Hr as [-> | ->]; cbn; repeat split; auto; try lia;
    try discriminate.
Qed.

(** X27.  [get_signal] keeps state between calls: the arrays [signal],
    [sum], [tmp] with their length [tsteps], and [wpot], [wpot_old],
    [dwpot] of [make_signal].  Of that state only [wpot_old] reaches
    the caller when no allocation fails: started with arrays of
    [tsteps] cells, two calls with the same point, output buffer and
    setup, with a NULL buffer or at least one output step, in two
    states that agree on [wpot_old] both return, with the same status,
    the same output signal and the same setup, and leave states that
    again agree on [wpot_old] and whose arrays again hold [tsteps]
    cells. *)
Theorem get_signal_scratch_independent
        g1 g2 pt out (setup : Setup) (st1 st2 : Statics) :
  statics_ok st1 -> statics_ok st2 ->
  wpot_old st1 = wpot_old st2 ->
  allocated g1 setup st1 = true -> allocated g2 setup st2 = true ->
  out = None \/ (0 < ntsteps_out setup)%Z ->
  exists r1 r2,
    get_signal E g1 pt out setup st1 = Some r1 /\
    get_signal E g2 pt out setup st2 = Some r2 /\
    visible r1 = visible r2 /\
    statics_ok (gs_statics r1) /\ statics_ok (gs_statics r2).
Proof.
  intros Hok1 Hok2 Hwo Ha1 Ha2 Hret.
  pose proof (@get_signal_scratch F ops E g1 g2 pt out setup st1 st2
                Hok1 Hok2 Hwo Ha1 Ha2) as Hs.
  destruct (get_signal_returns E g1 pt setup st1 Hret) as (r1 & Hr1).
  destruct (get_signal_returns E g2 pt setup st2 Hret) as (r2 & Hr2).
  rewrite Hr1, Hr2 in Hs.
  exists r1, r2. split; [exact Hr1|]. split; [exact Hr2|]. exact Hs.
Qed.
End ReturnFacts.

(** C3 in a crystal of length 100 whose field grid ends at z = 2. *)
Lemma get_signal_fails_iff_hole_fails_witness :
  let setup := Axis.setup 100 8 in
  let out := Some (repeat 0%Q 8) in
  (statics_ok (statics_init (F := Q)) /\
   allocated 3 setup statics_init = true /\
   outside_detector Axis.start setup = 0%Z /\
   (0 < ntsteps_out setup)%Z) /\
  exists e h res,
    electron_call Axis.world Axis.start setup
                  (prepare_statics setup statics_init) = Some e /\
    hole_call Axis.world Axis.start e = Some h /\
    get_signal Axis.world 3 Axis.start out setup statics_init = Some res /\
    (gs_ret res = (-1)%Z \/ gs_ret res = 1%Z) /\
    ((gs_ret res < 0)%Z <-> ms_ret h <> 0%Z) /\
    (ms_ret h = 0%Z -> gs_ret res = 1%Z).
Proof.
  intros setup out.
  assert (Hs : statics_ok (statics_init (F := Q)))
    by (repeat split; reflexivity).
  assert (Ha : allocated 3 setup statics_init = true) by reflexivity.
  assert (Hin : outside_detector Axis.start setup = 0%Z) by reflexivity.
  assert (Hn : (0 < ntsteps_out setup)%Z) by reflexivity.
  split; [auto|].
  exact (@get_signal_fails_iff_hole_fails Q Q_ops Axis.world 3%nat
           Axis.start out setup statics_init Hs Ha Hin (or_intror Hn)).
Defined.

(** There the call for the electron fails, the call for the hole
    succeeds and [get_signal] returns 1. *)
Example electron_failure_is_survivable :
  let setup := Axis.setup 100 8 in
  let out := Some (repeat 0%Q 8) in
  option_map (@ms_ret Q)
    (electron_call Axis.world Axis.start setup
                   (prepare_statics setup statics_init)) = Some (-1)%Z /\
  option_map (@gs_ret Q)
    (get_signal Axis.world 3 Axis.start out setup statics_init) =
    Some 1%Z.
Proof. vm_compute. split; reflexivity. Qed.

(** C3 as stated fails.  In a fresh process in which the first call of
    [malloc] fails, [get_signal] returns -1 for a start point inside
    the detector at line 109, before any call of [make_signal]; the
    hole does not fail at this point: its call returns 0, and with the
    allocations granted [get_signal] returns 1. *)
Lemma get_signal_fails_without_hole_failure :
  let setup := Axis.setup 4 8 in
  let out := Some (repeat 0%Q 8) in
  outside_detector Axis.start setup = 0%Z /\
  option_map (@gs_ret Q)
    (get_signal Axis.world 0 Axis.start out setup statics_init) =
    Some (-1)%Z /\
  option_map (@gs_ret Q)
    (get_signal Axis.world 3 Axis.start out setup statics_init) =
    Some 1%Z /\
  exists e h,
    electron_call Axis.world Axis.start setup
                  (prepare_statics setup statics_init) = Some e /\
    hole_call Axis.world Axis.start e = Some h /\
    ms_ret h = 0%Z.
Proof.
  intros setup out.
  split; [reflexivity|].
  split; [vm_compute; reflexivity|].
  split; [vm_compute; reflexivity|].
  do 2 eexists.
  split; [vm_compute; reflexivity|].
  split; [vm_compute; reflexivity|reflexivity].
Qed.

(** With no output step and a buffer, the call for a point inside the
    detector does not return: the division of line 179 kills the
    program.  With a NULL buffer the same call returns 1. *)
Example get_signal_killed_without_output_step :
  let setup := plain_setup (F := Q) 4 4 0 0 1 0 (-1) 0 1 8 0 in
  outside_detector Axis.start setup = 0%Z /\
  get_signal Axis.world 3 Axis.start (Some []) setup statics_init = None /\
  option_map (@gs_ret Q)
    (get_signal Axis.world 3 Axis.start None setup statics_init) =
    Some 1%Z.
Proof.
  intros setup. split; [reflexivity|].
  split; vm_compute; reflexivity.
Qed.

(** X27 in the crystal of the axis: a fresh process and a process whose
    arrays hold three cells of other values and whose [wpot] and
    [dwpot] differ. *)
Lemma get_signal_scratch_independent_witness :
  let setup := Axis.setup 4 8 in
  let out := Some (repeat 0%Q 8) in
  let used : Statics (F := Q) :=
    {| signal := [5; 5; 5]%Q; sum := [7; 7; 7]%Q; tmp := [9; 9; 9]%Q;
       tsteps := 3; wpot := 1%Q; wpot_old := 0%Q; dwpot := 3%Q |} in
  (statics_ok (statics_init (F := Q)) /\ statics_ok used /\
   allocated 3 setup statics_init = true /\
   allocated 3 setup used = true /\
   (0 < ntsteps_out setup)%Z) /\
  exists r1 r2,
    get_signal Axis.world 3 Axis.start out setup statics_init = Some r1 /\
    get_signal Axis.world 3 Axis.start out setup used = Some r2 /\
    visible r1 = visible r2 /\
    statics_ok (gs_statics r1) /\ statics_ok (gs_statics r2).
Proof.
  intros setup out used.
  assert (H1 : statics_ok (statics_init (F := Q)))
    by (repeat split; reflexivity).
  assert (H2 : statics_ok used) by (repeat split; reflexivity).
  assert (A1 : allocated 3 setup statics_init = true) by reflexivity.
  assert (A2 : allocated 3 setup used = true) by reflexivity.
  assert (Hn : (0 < ntsteps_out setup)%Z) by reflexivity.
  split; [auto 6|].
  exact (@get_signal_scratch_independent Q Q_ops Axis.world 3%nat 3%nat
           Axis.start out setup statics_init used H1 H2 eq_refl A1 A2
           (or_intror Hn)).
Defined.

(** C9.  The result of [get_signal] is not a function of its
    arguments.  Two calls with the same start point, the same output
    buffer and the same setup, in which every allocation succeeds: the
    first, in the state of a fresh process, returns 1 and the charge
    signal; the second, in the static state that the first has left,
    returns -1 and a signal of zeros, also when it is given the setup
    as the first call has left it.  The static [wpot_old] of
    [make_signal] is read at step 0 (line 256) before the call has
    written it (line 261); line 254 guards the same read with t > 0. *)
Theorem get_signal_depends_on_earlier_call :
  let setup := Axis.setup 4 8 in
  let out := Some (repeat 0%Q 8) in
  exists r1 r2 r2',
    get_signal Axis.world 3 Axis.start out setup statics_init = Some r1 /\
    get_signal Axis.world 3 Axis.start out setup (gs_statics r1) =
      Some r2 /\
    get_signal Axis.world 3 Axis.start out (gs_setup r1) (gs_statics r1) =
      Some r2' /\
    gs_ret r1 = 1%Z /\
    gs_out r1 = Some [0; 3 # 4; 1; 1; 1; 1; 1; 1]%Q /\
    wpot_old (gs_statics r1) = 1%Q /\
    gs_ret r2 = (-1)%Z /\ gs_out r2 = Some (repeat 0%Q 8) /\
    gs_ret r2' = (-1)%Z.
Proof.
  intros setup out. do 3 eexists.
  split; [vm_compute; reflexivity|].
  split; [vm_compute; reflexivity|].
  split; [vm_compute; reflexivity|].
  repeat split.
Qed.

(** ** [signal_calc_init] *)

Section InitFacts.
Context {F : Type} {ops : FloatOps F}.
Variable X : InitExternals (F := F).
Local Open Scope fl_scope.
Local Abbreviation Setup := (MJD_Siggen_Setup F).

Lemma length_alloc_path n (old : list (point F)) :
  length (alloc_path n old) = Z.to_nat n.
Proof.
  unfold alloc_path. rewrite length_firstn, length_app, repeat_length. lia.
Qed.

(** X9.  [signal_calc_init] returns unless [read_config] succeeds and
    k = lrintf(step_time_out / step_time_calc) is 0, where the division
    of lines 70-71 kills the program.  It returns 1 exactly when
    [read_config] fails, and otherwise -1 or 0; -1 when [read_config]
    succeeds and one of the two allocations fails.  When it returns 0,
    and [field_setup] keeps the numbers of steps, the drift paths hold
    [time_steps_calc] points, which is the count that [drift_path_e]
    and [drift_path_h] return with them; and with k > 0 there are
    [ntsteps_out >= 0] output steps: with none the division of line 179
    of [get_signal] has no result, and otherwise it gives a [comp_f > 0]
    with [ntsteps_out * comp_f <= time_steps_calc], which is [k] if [k]
    divides a positive [time_steps_calc]. *)
Theorem signal_calc_init_establishes (granted : nat) (name : list ascii)
        (setup : Setup) :
  let rc1 := fst (read_config X name setup) in
  let cfg := snd (read_config X name setup) in
  let k := lrint (step_time_out cfg / step_time_calc cfg) in
  let n := time_steps_calc cfg in
  let res := signal_calc_init X granted name setup in
  (res = None <-> rc1 = 0%Z /\ k = 0%Z) /\
  (forall ret s, res = Some (ret, s) ->
   (ret = 1%Z <-> rc1 <> 0%Z) /\
   (ret = 0%Z \/ ret = 1%Z \/ ret = (-1)%Z) /\
   (rc1 = 0%Z -> (granted < 2)%nat -> ret = (-1)%Z) /\
   ((forall s0, time_steps_calc (snd (field_setup X s0)) =
                  time_steps_calc s0 /\
                ntsteps_out (snd (field_setup X s0)) = ntsteps_out s0) ->
    ret = 0%Z -> (0 <= n)%Z ->
    paths_ok s /\
    snd (drift_path_e s) = Z.of_nat (length (fst (drift_path_e s))) /\
    snd (drift_path_h s) = Z.of_nat (length (fst (drift_path_h s))) /\
    ((0 < k)%Z ->
     (0 <= ntsteps_out s)%Z /\
     (ntsteps_out s = 0%Z -> comp_f s = None) /\
     ((0 < ntsteps_out s)%Z ->
      exists c, comp_f s = Some c /\ (0 < c)%Z /\
                (ntsteps_out s * c <= time_steps_calc s)%Z) /\
     ((0 < n)%Z -> Z.rem n k = 0%Z ->
      comp_f s = Some k /\ (ntsteps_out s * k)%Z = time_steps_calc s)))).
Proof.
  intros rc1 cfg k n res.
  subst res; unfold signal_calc_init.
  destruct (read_config X name setup) as [rc c0] eqn:Er.
  cbn [fst snd] in rc1, cfg. subst rc1 cfg.
  destruct (Z.eqb_spec rc 0) as [Hrc|Hrc]; cbn [negb].
  2: { split. { split; [discriminate|]. intros [H _]; contradiction. }
       intros ret s [= <- <-].
       split; [tauto|]. split; [auto|]. split; [contradiction|].
       intros; lia. }
  fold n k. unfold long_div.
  destruct (Z.eqb_spec k 0) as [Hk0|Hk0].
  { split; [split; auto|]. intros ret s; discriminate. }
  destruct (field_setup X _) as [rc2 c2] eqn:Ef.
  change (field_setup X (set_ntsteps_out c0 (Z.quot n k)) = (rc2, c2))
    in Ef.
  set (c1 := set_ntsteps_out c0 (Z.quot n k)) in *.
  split.
  { split; [|intros [_ H]; contradiction].
    destruct (negb (rc2 =? 0)%Z); [discriminate|].
    destruct granted as [|[|g]]; discriminate. }
  intros ret s.
  destruct (Z.eqb_spec rc2 0) as [Hrc2|Hrc2]; cbn [negb].
  2: { intros [= <- <-]. split; [split; intros; [lia|congruence]|].
       split; [auto|]. split; [auto|]. intros; lia. }
  destruct granted as [|[|g]].
  1, 2: intros [= <- <-]; (split; [split; intros; [lia|congruence]|]);
    (split; [auto|]); (split; [auto|]); intros; lia.
  intros [= <- <-].
  split; [split; intros; [lia|congruence]|]. split; [auto|].
  split; [intros; lia|].
  intros Hkeep _ Hn.
  destruct (Hkeep c1) as [Hk1 Hk2]. rewrite Ef in Hk1, Hk2.
  cbn [snd] in Hk1, Hk2.
  assert (Hts : time_steps_calc c1 = n) by reflexivity.
  assert (Hno : ntsteps_out c1 = Z.quot n k) by reflexivity.
  unfold paths_ok, drift_path_e, drift_path_h, comp_f.
  cbn [set_dpath_h set_dpath_e dpath_e dpath_h time_steps_calc
       ntsteps_out fst snd].
  rewrite !length_alloc_path, Hk1, Hk2, Hts, Hno.
  split; [auto|]. split; [lia|]. split; [lia|].
  intros Hk.
  rewrite !Z.quot_div_nonneg by lia.
  assert (Hm : (0 <= n / k)%Z) by (apply Z.div_pos; lia).
  split; [exact Hm|].
  split; [intros ->; apply int_div_zero|].
  split.
  { intros Hpos. rewrite int_div_pos by exact Hpos.
    eexists; split; [reflexivity|].
    rewrite Z.quot_div_nonneg by lia.
    pose proof (Z.mul_div_le n k Hk) as Hle.
    assert (Hq : (0 < n / (n / k))%Z).
    { apply Z.div_str_pos. split; [lia|]. nia. }
    split; [exact Hq|].
    apply Z.mul_div_le. lia. }
  intros Hpos Hrem.
  rewrite Z.rem_mod_nonneg in Hrem by lia.
  pose proof (Z.div_mod n k ltac:(lia)) as Hdm.
  rewrite Hrem, Z.add_0_r in Hdm.
  assert (Hq : (0 < n / k)%Z) by nia.
  rewrite int_div_pos by exact Hq.
  rewrite Z.quot_div_nonneg by lia.
  assert (Hquot : (n / (n / k) = k)%Z).
  { rewrite Hdm at 1. apply Z.div_mul. lia. }
  split; [now rewrite Hquot|lia].
Qed.
End InitFacts.

(** ** The properties above on concrete inputs *)

(** X1 on three samples. *)
Lemma integrate_current_prefix_sums_witness :
  let a := [1; 2; 3]%Q in
  let b := integrate_current 3 a in
  (3 <= Z.of_nat (length a))%Z /\
  ((1 <= 2 < 3)%Z /\ aget fzero b 2 = fadd (aget fzero a 2) (aget fzero b 1)).
Proof.
  intros a b.
  assert (Hn : (3 <= Z.of_nat (length a))%Z) by (cbn; lia).
  assert (Hj : (1 <= 2 < 3)%Z) by lia.
  split; [exact Hn|]. split; [exact Hj|].
  exact (proj1 (proj2 (proj2 (@integrate_current_prefix_sums Q Q_ops 3%Z a Hn)))
               2%Z Hj).
Defined.

(** X2 for eight calculated samples and four output samples: output
    sample 1 is (0 + 3/2) + 4/2. *)
Lemma compress_block_means_witness :
  let setup := plain_setup (F := Q) 4 4 0 0 1 0 (-1) 0 2 8 4 in
  let signal := [1; 2; 3; 4; 5; 6; 7; 8]%Q in
  let out := [9; 9; 9; 9; 9]%Q in
  (0 < ntsteps_out setup <= Z.of_nat (length out))%Z /\
  (0 <= 1 < ntsteps_out setup)%Z /\
  exists out',
    comp_f setup = Some 2%Z /\
    compress setup signal out = Some out' /\
    aget fzero out' 1 = block_sum 2 signal 1 2.
Proof.
  intros setup signal out.
  assert (Hm : (0 < ntsteps_out setup <= Z.of_nat (length out))%Z)
    by (cbn; lia).
  assert (Hk : (0 <= 1 < ntsteps_out setup)%Z) by (cbn; lia).
  split; [exact Hm|]. split; [exact Hk|].
  destruct (@compress_block_means Q Q_ops setup signal out Hm)
    as (out' & Hc & Hout & _ & Hsum & _).
  exists out'. split; [exact Hc|]. split; [exact Hout|].
  exact (Hsum 1%Z Hk).
Defined.

(** X4 for the electron of the axis in a p-type crystal: it is not
    collected at the point contact, and its call leaves the path of
    the holes, [initial_vel], [final_charge_size_sq] and [final_vel]
    as they were. *)
Lemma make_signal_keeps_configuration_witness :
  let setup := Axis.setup 4 8 in
  let q : Q := ELECTRON_CHARGE in
  (fltb fzero q = false /\ collect2pc q setup = false) /\
  exists r,
    make_signal Axis.world Axis.start (repeat 0%Q 8) q setup 0%Q 0%Q 0%Q
      = Some r /\
    dpath_h (ms_setup r) = dpath_h setup /\
    initial_vel (ms_setup r) = initial_vel setup /\
    final_charge_size_sq (ms_setup r) = final_charge_size_sq setup /\
    final_vel (ms_setup r) = final_vel setup.
Proof.
  intros setup q.
  assert (Hq : fltb fzero q = false) by reflexivity.
  assert (Hc : collect2pc q setup = false) by reflexivity.
  split; [auto|].
  destruct (@make_signal_keeps_configuration Q Q_ops Axis.world Axis.start
              (repeat 0%Q 8) q setup 0%Q 0%Q 0%Q)
    as (r & Hr & _ & _ & _ & _ & Hh & Hcl).
  exists r. split; [exact Hr|]. split; [exact (Hh Hq)|].
  destruct (Hcl Hc) as (H1 & H2 & H3). auto.
Defined.

(** X5 for the hole of the axis, on arrays that are longer than the
    eight time steps: cell 8 of each is kept. *)
Lemma make_signal_writes_in_bounds_witness :
  let setup := set_dpath_h (Axis.setup 4 8)
                 (repeat Axis.start 10) in
  let signal := repeat 5%Q 10 in
  (1 <= time_steps_calc setup)%Z /\ (time_steps_calc setup <= 8)%Z /\
  exists r,
    make_signal Axis.world Axis.start signal HOLE_CHARGE setup 0%Q 0%Q 0%Q
      = Some r /\
    aget fzero (ms_signal r) 8 = aget fzero signal 8 /\
    aget zero_pt (dpath_h (ms_setup r)) 8 = aget zero_pt (dpath_h setup) 8.
Proof.
  intros setup signal.
  assert (Hn : (1 <= time_steps_calc setup)%Z) by (cbn; lia).
  assert (Hj : (time_steps_calc setup <= 8)%Z) by (cbn; lia).
  split; [exact Hn|]. split; [exact Hj|].
  destruct (@make_signal_writes_in_bounds Q Q_ops Axis.world Axis.start
              signal HOLE_CHARGE setup 0%Q 0%Q 0%Q) as (r & Hr & Hs & Hp).
  exists r. split; [exact Hr|].
  split; [exact (Hs 8%Z (or_intror Hj))|].
  exact (proj2 (Hp Hn 8%Z Hj)).
Defined.

(** X6 for the hole of the axis: its path starts at the start
    point. *)
Lemma make_signal_path_start_witness :
  let setup := Axis.setup 4 8 in
  let q : Q := HOLE_CHARGE in
  (drift_velocity Axis.world Axis.start q setup <> None /\
   own_path q setup <> []) /\
  exists r,
    make_signal Axis.world Axis.start (repeat 0%Q 8) q setup 0%Q 0%Q 0%Q
      = Some r /\
    aget zero_pt (own_path q (ms_setup r)) 0 = Axis.start.
Proof.
  intros setup q.
  assert (Hv : drift_velocity Axis.world Axis.start q setup <> None)
    by discriminate.
  assert (Hp : own_path q setup <> []) by discriminate.
  split; [auto|].
  destruct (@make_signal_path_start Q Q_ops Axis.world Axis.start
              (repeat 0%Q 8) q setup 0%Q 0%Q 0%Q) as (r & Hr & Hown & _).
  exists r. split; [exact Hr | exact (Hown Hv Hp)].
Defined.


(** X8 for a point above the crystal and a buffer of eight cells for
    eight output steps. *)
Lemma get_signal_keeps_configuration_witness :
  let setup := Axis.setup 4 8 in
  let pt : point Q := {| px := 0; py := 0; pz := 10 |} in
  let out := Some (repeat 9%Q 8) in
  (statics_ok (statics_init (F := Q)) /\
   (0 < ntsteps_out setup)%Z /\ paths_ok setup /\
   outside_detector pt setup <> 0%Z) /\
  exists r,
    get_signal Axis.world 3 pt out setup statics_init = Some r /\
    paths_ok (gs_setup r) /\
    gs_ret r = (-1)%Z /\ gs_out r = out /\ gs_setup r = setup.
Proof.
  intros setup pt out.
  assert (Hn : (0 < ntsteps_out setup)%Z) by (cbn; lia).
  assert (Hp : paths_ok setup) by (split; reflexivity).
  assert (Ho : outside_detector pt setup <> 0%Z) by discriminate.
  assert (Hs : statics_ok (statics_init (F := Q)))
    by (repeat split; reflexivity).
  split; [auto|].
  destruct (@get_signal_keeps_configuration Q Q_ops Axis.world 3%nat pt out
              setup statics_init Hs (or_intror Hn))
    as (r & Hr & _ & _ & Hpaths & _ & Hout & _).
  exists r. split; [exact Hr|]. split; [exact (Hpaths Hp)|].
  exact (Hout (or_introl Ho)).
Defined.

(** X9 for eight steps of 1 ns and output steps of 2 ns: four output
    steps of two calculated steps each. *)
Lemma signal_calc_init_establishes_witness :
  let X := axis_files 2 8 in
  exists s,
    ((forall s0, time_steps_calc (snd (field_setup X s0)) =
                   time_steps_calc s0 /\
                 ntsteps_out (snd (field_setup X s0)) = ntsteps_out s0) /\
     signal_calc_init X 2 [] (Axis.setup 4 8) = Some (0%Z, s)) /\
    paths_ok s /\ comp_f s = Some 2%Z /\
    (ntsteps_out s * 2)%Z = time_steps_calc s.
Proof.
  intros X.
  assert (Hkeep : forall s0,
            time_steps_calc (snd (field_setup X s0)) = time_steps_calc s0 /\
            ntsteps_out (snd (field_setup X s0)) = ntsteps_out s0)
    by (intros s0; split; reflexivity).
  eexists.
  assert (Hret : signal_calc_init X 2 [] (Axis.setup 4 8) = Some (0%Z, _))
    by reflexivity.
  split; [split; [exact Hkeep | exact Hret]|].
  destruct (@signal_calc_init_establishes Q Q_ops X 2%nat []
              (Axis.setup 4 8)) as (_ & Hok).
  destruct (Hok _ _ Hret) as (_ & _ & _ & Hok').
  destruct (Hok' Hkeep eq_refl ltac:(discriminate)) as (Hp & _ & _ & Hc).
  destruct (Hc eq_refl) as (_ & _ & _ & Hdiv).
  destruct (Hdiv eq_refl eq_refl) as [Hcf Hmul].
  split; [exact Hp|]. split; [exact Hcf | exact Hmul].
Defined.

(** With sixteen-nanosecond output steps there is no output step: the
    initialisation returns 0 and the division of line 179 has no
    result. *)
Example signal_calc_init_no_output_step :
  let X := axis_files 16 8 in
  exists s,
    signal_calc_init X 2 [] (Axis.setup 4 8) = Some (0%Z, s) /\
    ntsteps_out s = 0%Z /\ comp_f s = None.
Proof. eexists. split; [reflexivity|]. split; reflexivity. Qed.

(** With output steps that round to 0 calculated steps the
    initialisation does not return. *)
Example signal_calc_init_killed :
  signal_calc_init (axis_files (1 # 4) 8) 2 [] (Axis.setup 4 8) = None.
Proof. reflexivity. Qed.

(** ** [detector_geometry.c]: points that are not numbers *)

Section NanGeometry.
Local Open Scope fl_scope.
Implicit Types (x y : B32.t).

(** Every comparison with a NaN is false. *)
Lemma b32_nan_ltb_l x : (S754_nan <? x) = false.
Proof. reflexivity. Qed.

Lemma b32_nan_ltb_r x : (x <? S754_nan) = false.
Proof. destruct x; reflexivity. Qed.

Lemma b32_nan_leb_l x : (S754_nan <=? x) = false.
Proof. reflexivity. Qed.

Lemma b32_nan_leb_r x : (x <=? S754_nan) = false.
Proof. destruct x; reflexivity. Qed.

(** So is the comparison of a NaN radius with the bound of the
    bulletized top, in double precision. *)
Lemma b32_nan_dbl (b : dbl (F := B32.t)) :
  dltb b (to_dbl (S754_nan : B32.t)) = false.
Proof. destruct b; reflexivity. Qed.

(** The radius of a point with a NaN among x and y is a NaN. *)
Lemma b32_nan_radius x y :
  x = S754_nan \/ y = S754_nan ->
  fsqrt (SQ x + SQ y) = S754_nan.
Proof.
  intros [-> | ->]; [reflexivity|].
  unfold SQ. cbn [fmul fadd fsqrt B32_ops SFmul].
  destruct (SFmul B32.prec B32.emax x x); reflexivity.
Qed.

(** X10.  In IEEE binary32 the geometry tests take a point that is not
    a number for a point inside the detector, in every setup: the
    cylindrical test returns 0 for a NaN z unless r > rmax, and the
    Cartesian test returns 0 for a NaN x or y whenever 0 <= z < zmax
    holds or z is a NaN too. *)
Theorem nan_point_is_inside (setup : MJD_Siggen_Setup B32.t) :
  (forall r phi,
     (r >? rmax setup) = false ->
     outside_detector_cyl {| cr := r; cphi := phi; cz := S754_nan |} setup
       = 0%Z) /\
  (forall x y z,
     x = S754_nan \/ y = S754_nan ->
     (z >=? zmax setup) = false -> (z <? fzero) = false ->
     outside_detector {| px := x; py := y; pz := z |} setup = 0%Z) /\
  outside_detector
    {| px := S754_nan; py := S754_nan; pz := S754_nan |} setup = 0%Z.
Proof.
  assert (Hcart : forall x y z,
     x = S754_nan \/ y = S754_nan ->
     (z >=? zmax setup) = false -> (z <? fzero) = false ->
     outside_detector {| px := x; py := y; pz := z |} setup = 0%Z).
  { intros x y z Hxy Hz1 Hz2. unfold outside_detector. cbn [px py pz].
    rewrite (b32_nan_radius Hxy), Hz1, Hz2.
    rewrite (b32_nan_dbl (bullet_bound_dbl setup z)).
    rewrite ?b32_nan_ltb_r, ?b32_nan_leb_l, ?b32_nan_ltb_l.
    rewrite ?andb_false_r. reflexivity. }
  split; [|split].
  - intros r phi Hr. unfold outside_detector_cyl. cbn [cr cz].
    rewrite Hr, ?b32_nan_leb_r, ?b32_nan_ltb_l, ?b32_nan_ltb_r,
      ?b32_nan_leb_l.
    rewrite ?andb_false_r. reflexivity.
  - exact Hcart.
  - apply Hcart; [now left | apply b32_nan_leb_r | apply b32_nan_ltb_l].
Qed.

(** Away from NaN the comparisons of binary32 are those of an order. *)
Lemma SFcompare_antisym (x y : spec_float) :
  x <> S754_nan -> y <> S754_nan ->
  SFcompare y x = option_map CompOpp (SFcompare x y).
Proof.
  intros Hx Hy.
  destruct x as [sx|sx| |sx mx ex], y as [sy|sy| |sy my ey];
    try contradiction; try (destruct sx, sy; reflexivity);
    try (destruct sx; reflexivity); try (destruct sy; reflexivity).
  cbn [SFcompare option_map].
  destruct sx, sy; try reflexivity;
    rewrite (Z.compare_antisym ex ey);
    destruct (ex ?= ey)%Z; cbn [CompOpp]; try reflexivity;
    change (Pos.compare_cont Eq my mx)
      with (Pos.compare_cont (CompOpp Eq) my mx);
    rewrite <- (Pos.compare_cont_antisym mx my Eq);
    destruct (Pos.compare_cont Eq mx my); reflexivity.
Qed.

Lemma b32_ltb_leb (x y : B32.t) :
  x <> S754_nan -> y <> S754_nan -> fltb x y = negb (fleb y x).
Proof.
  intros Hx Hy. cbn [fltb fleb B32_ops]. unfold SFltb, SFleb.
  rewrite (SFcompare_antisym Hx Hy).
  destruct (SFcompare x y) as [[| |]|] eqn:E; try reflexivity.
  destruct x, y; try contradiction; discriminate E.
Qed.

Lemma b32_pos_trans (z t : B32.t) :
  fleb fzero z = true -> fltb z t = true -> fltb fzero t = true.
Proof.
  cbn [fltb fleb fzero B32_ops]. unfold SFltb, SFleb.
  destruct z as [sz|sz| |sz mz ez], t as [st|st| |st mt et];
    cbn [SFcompare]; try discriminate;
    try (destruct sz; discriminate);
    try (destruct sz, st; (discriminate || reflexivity)).
Qed.

Lemma b32_ordered_at (setup : MJD_Siggen_Setup B32.t) (r z : B32.t) :
  r <> S754_nan -> z <> S754_nan ->
  zmax setup <> S754_nan -> rmax setup <> S754_nan ->
  ordered_at setup r z.
Proof.
  intros Hr Hz Hzm Hrm. unfold ordered_at.
  split; [now apply b32_ltb_leb|].
  split; [apply b32_ltb_leb; [exact Hz|discriminate]|].
  split; [now apply b32_ltb_leb|].
  apply b32_pos_trans.
Qed.

(** X28.  In IEEE binary32, with the bound of the bulletized top in
    binary64, the cylindrical test returns 0 exactly for the points of
    [inside_guarded], and 1 for the others, whenever none of r, z,
    [zmax] and [rmax] is a NaN. *)
Theorem outside_detector_cyl_binary32 (setup : MJD_Siggen_Setup B32.t)
        (pt : cyl_pt B32.t) :
  cr pt <> S754_nan -> cz pt <> S754_nan ->
  zmax setup <> S754_nan -> rmax setup <> S754_nan ->
  (outside_detector_cyl pt setup = 0%Z <->
   inside_guarded setup (cr pt) (cz pt)) /\
  (outside_detector_cyl pt setup = 0%Z \/
   outside_detector_cyl pt setup = 1%Z).
Proof.
  intros Hr Hz Hzm Hrm. split.
  - apply outside_detector_cyl_inside_at. now apply b32_ordered_at.
  - apply outside_detector_cyl_01.
Qed.
End NanGeometry.

(** X10 in a crystal of 4 x 4 mm. *)
Lemma nan_point_is_inside_witness :
  let setup := plain_setup (F := B32.t) (lit 4) (lit 4) fone fone fone
                 fzero (fneg fone) fzero fone 8 8 in
  let r : B32.t := fone in
  fltb (rmax setup) r = false /\
  outside_detector_cyl {| cr := r; cphi := fzero; cz := S754_nan |} setup
    = 0%Z.
Proof.
  intros setup r.
  assert (Hr : fltb (rmax setup) r = false) by (vm_compute; reflexivity).
  split; [exact Hr|].
  exact (proj1 (nan_point_is_inside setup) r fzero Hr).
Defined.

(** X28 in the same crystal, at r = 1, z = 2 above the point contact:
    the point is inside. *)
Lemma outside_detector_cyl_binary32_witness :
  let setup := plain_setup (F := B32.t) (lit 4) (lit 4) fone fone fone
                 fzero (fneg fone) fzero fone 8 8 in
  let pt : cyl_pt B32.t := {| cr := fone; cphi := fzero; cz := lit 2 |} in
  (cr pt <> S754_nan /\ cz pt <> S754_nan /\
   zmax setup <> S754_nan /\ rmax setup <> S754_nan) /\
  outside_detector_cyl pt setup = 0%Z /\
  inside_guarded setup (cr pt) (cz pt).
Proof.
  intros setup pt.
  assert (Hr : cr pt <> S754_nan) by (vm_compute; discriminate).
  assert (Hz : cz pt <> S754_nan) by (vm_compute; discriminate).
  assert (Hzm : zmax setup <> S754_nan) by (vm_compute; discriminate).
  assert (Hrm : rmax setup <> S754_nan) by (vm_compute; discriminate).
  split; [auto|].
  assert (H0 : outside_detector_cyl pt setup = 0%Z)
    by (vm_compute; reflexivity).
  split; [exact H0|].
  exact (proj1 (proj1 (outside_detector_cyl_binary32 setup pt
                         Hr Hz Hzm Hrm)) H0).
Defined.

(** ** Further properties of [mjd_fieldgen.c] *)

Section GridScan.
Context {St : Type}.

(** A loop over the pixels in the order of the source: [Done] holds
    of the pixels that have had their turn and [Todo] of the others. *)
Lemma grid_scan (Inv : St -> Prop) (Done Todo : Z -> Z -> St -> Prop)
      (body : Z -> Z -> St -> St) (nz nr : Z) (s : St) :
  Inv s ->
  (forall z r, (0 <= z < nz)%Z -> (0 <= r < nr)%Z -> Todo z r s) ->
  (forall z r s, (0 <= z < nz)%Z -> (0 <= r < nr)%Z -> Inv s ->
     (forall z' r', (0 <= z' < nz)%Z -> (0 <= r' < nr)%Z ->
        (z' < z \/ (z' = z /\ r' < r))%Z -> Done z' r' s) ->
     (forall z' r', (0 <= z' < nz)%Z -> (0 <= r' < nr)%Z ->
        (z < z' \/ (z' = z /\ r <= r'))%Z -> Todo z' r' s) ->
     Inv (body z r s) /\
     (forall z' r', (0 <= z' < nz)%Z -> (0 <= r' < nr)%Z ->
        (z' < z \/ (z' = z /\ r' <= r))%Z -> Done z' r' (body z r s)) /\
     (forall z' r', (0 <= z' < nz)%Z -> (0 <= r' < nr)%Z ->
        (z < z' \/ (z' = z /\ r < r'))%Z -> Todo z' r' (body z r s))) ->
  let s' := for_up 0 nz (fun z => for_up 0 nr (body z)) s in
  Inv s' /\
  forall z r, (0 <= z < nz)%Z -> (0 <= r < nr)%Z -> Done z r s'.
Proof.
  intros HInv HTodo Hstep s'; subst s'.
  pose (P := fun (i : Z) (s1 : St) =>
    Inv s1 /\
    (forall z' r', (0 <= z' < nz)%Z -> (0 <= r' < nr)%Z ->
       (z' < i)%Z -> Done z' r' s1) /\
    (forall z' r', (0 <= z' < nz)%Z -> (0 <= r' < nr)%Z ->
       (i <= z')%Z -> Todo z' r' s1)).
  destruct (Z_le_gt_dec 0 nz) as [Hnz|Hnz].
  2: { rewrite for_up_empty by lia. split; auto. intros; lia. }
  assert (HP : P nz (for_up 0 nz (fun z => for_up 0 nr (body z)) s)).
  { apply for_up_ind; [lia| |].
    - repeat split; auto. intros; lia.
    - intros i s1 Hi (Hinv & Hdone & Htodo).
      pose (Q := fun (j : Z) (s2 : St) =>
        Inv s2 /\
        (forall z' r', (0 <= z' < nz)%Z -> (0 <= r' < nr)%Z ->
           (z' < i \/ (z' = i /\ r' < j))%Z -> Done z' r' s2) /\
        (forall z' r', (0 <= z' < nz)%Z -> (0 <= r' < nr)%Z ->
           (i < z' \/ (z' = i /\ j <= r'))%Z -> Todo z' r' s2)).
      destruct (Z_le_gt_dec 0 nr) as [Hnr|Hnr].
      2: { rewrite for_up_empty by lia. repeat split; auto; intros; lia. }
      assert (HQ : Q nr (for_up 0 nr (body i) s1)).
      { apply for_up_ind; [lia| |].
        - repeat split; auto.
          + intros z' r' Hz' Hr' H. apply Hdone; auto; lia.
          + intros z' r' Hz' Hr' H. apply Htodo; auto; lia.
        - intros j s2 Hj (Hinv2 & Hd2 & Ht2).
          destruct (Hstep i j s2 Hi Hj Hinv2 Hd2 Ht2) as (A & B & C).
          repeat split; auto.
          + intros z' r' Hz' Hr' H. apply B; auto; lia.
          + intros z' r' Hz' Hr' H. apply C; auto; lia. }
      destruct HQ as (A & B & C). repeat split; auto.
      + intros z' r' Hz' Hr' H. apply B; auto; lia.
      + intros z' r' Hz' Hr' H. apply C; auto; lia. }
  destruct HP as (A & B & _). split; auto.
  intros z r Hz Hr. apply B; auto; lia.
Qed.
End GridScan.

Ltac zcases :=
  repeat match goal with
  | |- context [(?a =? ?b)%Z] =>
      destruct (Z.eqb_spec a b); try lia; cbn [andb orb]
  | |- context [(?a >? ?b)%Z] =>
      destruct (Z.gtb_spec a b); try lia; cbn [andb orb]
  end.

Section PermittivityFacts.
Context {F : Type} {ops : FloatOps F}.
Local Open Scope Z_scope.

(** What the body of the permittivity loop leaves in the three
    arrays. *)
Lemma eps_pixel_spec (D : @Dims F) z r (e : @Eps F) :
  let e' := eps_pixel D z r e in
  (forall a b,
     eps e' a b =
     if (a =? z) && (b =? r) then eps_at D z r else eps e a b) /\
  (forall a b,
     eps_dr e' a b =
     if (a =? z) && (b =? r - 1) && (r >? 0)
     then ((eps e' z (r - 1) + eps e' z r) / lit 2)%fl
     else if (a =? z) && (b =? r) then lit 16 else eps_dr e a b) /\
  (forall a b,
     eps_dz e' a b =
     if (a =? z - 1) && (b =? r) && (z >? 0)
     then ((eps e' (z - 1) r + eps e' z r) / lit 2)%fl
     else if (a =? z) && (b =? r) then lit 16 else eps_dz e a b).
Proof.
  intros e'; subst e'; unfold eps_pixel, eps_at.
  cbn [eps eps_dr eps_dz].
  destruct ((z <? LO D) && (r <? RO D) && (r >? RO D - WO D - 1));
    (split; [|split]); intros a b; unfold upd2; zcases; reflexivity.
Qed.

(** X11.  After the permittivity loop every pixel of the grid holds
    1 in the ditch and 16 elsewhere, and the permittivity of every
    interface between two pixels of the grid, in r and in z, is the
    mean of the permittivities of the two pixels, whatever the
    arrays held before. *)
Theorem set_permittivity_means (D : @Dims F) (e : @Eps F) :
  let e' := set_permittivity D e in
  forall z r, 0 <= z <= L D -> 0 <= r <= R D ->
    eps e' z r = eps_at D z r /\
    (r < R D ->
     eps_dr e' z r = (eps_at D z r + eps_at D z (r + 1)) / lit 2)%fl /\
    (z < L D ->
     eps_dz e' z r = (eps_at D z r + eps_at D (z + 1) r) / lit 2)%fl.
Proof.
  intros e'.
  pose (Done := fun (z r : Z) (e1 : @Eps F) =>
    eps e1 z r = eps_at D z r /\
    (0 < r -> eps_dr e1 z (r - 1)
              = (eps_at D z (r - 1) + eps_at D z r) / lit 2)%fl /\
    (0 < z -> eps_dz e1 (z - 1) r
              = (eps_at D (z - 1) r + eps_at D z r) / lit 2)%fl).
  destruct (@grid_scan _ (fun _ => True) Done (fun _ _ _ => True)
              (eps_pixel D) (L D + 1) (R D + 1) e) as [_ HD]; auto.
  { intros z r e1 Hz Hr _ Hdone _. split; [exact I|]. split; [|auto].
    destruct (eps_pixel_spec D z r e1) as (He & Hr' & Hz').
    assert (Hfin : forall a b, 0 <= a < L D + 1 -> 0 <= b < R D + 1 ->
              (a < z \/ (a = z /\ b <= r)) ->
              eps (eps_pixel D z r e1) a b = eps_at D a b).
    { intros a b Ha Hb Hab. rewrite He.
      destruct (Z.eqb_spec a z) as [->|Hne]; cbn [andb].
      - destruct (Z.eqb_spec b r) as [->|Hne']; auto.
        apply (Hdone z b); auto; lia.
      - apply (Hdone a b); auto; lia. }
    intros a b Ha Hb Hle. unfold Done.
    split; [apply Hfin; auto|]. split.
    - intros Hb0. rewrite Hr'.
      destruct (Z.eq_dec a z) as [->|Hane].
      + destruct (Z.eq_dec b r) as [->|Hbne].
        * zcases. rewrite !Hfin by lia. reflexivity.
        * zcases. apply (Hdone z b); auto; lia.
      + zcases. apply (Hdone a b); auto; lia.
    - intros Ha0. rewrite Hz'.
      destruct (Z.eq_dec a z) as [->|Hane].
      + destruct (Z.eq_dec b r) as [->|Hbne].
        * zcases. rewrite !Hfin by lia. reflexivity.
        * zcases. apply (Hdone z b); auto; lia.
      + zcases. apply (Hdone a b); auto; lia. }
  intros z r Hz Hr. subst e'.
  split; [apply (HD z r); lia|]. split.
  - intros Hlt.
    destruct (HD z (r + 1) ltac:(lia) ltac:(lia)) as (_ & H & _).
    replace (r + 1 - 1) with r in H by lia. apply H; lia.
  - intros Hlt.
    destruct (HD (z + 1) r ltac:(lia) ltac:(lia)) as (_ & _ & H).
    replace (z + 1 - 1) with z in H by lia. apply H; lia.
Qed.
End PermittivityFacts.

Section PinchOffFacts.
Context {F : Type} {ops : FloatOps F}.
Local Open Scope Z_scope.

(** X12.  The pass over the marks after a relaxation (lines 608-616):
    [fully_depleted] becomes 0 exactly when some pixel of the grid is
    marked undepleted ('*'), and 1 otherwise; a pixel marked '*'
    whose potential exceeds 0.001 V becomes pinched off ('B'), and
    every other mark is kept: so afterwards a pixel of the grid that
    is still marked '*' has a potential that does not exceed
    0.001 V. *)
Theorem mark_pinch_off_spec (D : @Dims F) (vn : Z -> Z -> F)
        (st : Z * (Z -> Z -> Ascii.ascii)) :
  let marks := snd st in
  let fd := fst (mark_pinch_off D vn st) in
  let marks' := snd (mark_pinch_off D vn st) in
  (fd = 0 \/ fd = 1) /\
  (fd = 0 <->
   exists r z, 0 <= r <= R D /\ 0 <= z <= L D /\ marks r z = "*"%char) /\
  (forall r z, 0 <= r <= R D -> 0 <= z <= L D ->
     marks' r z =
       (if Ascii.eqb (marks r z) "*" && (vn z r >? lit (1 # 1000))%fl
        then "B"%char else marks r z) /\
     (marks' r z = "*"%char -> (vn z r >? lit (1 # 1000))%fl = false)).
Proof.
  intros marks fd marks'; subst fd marks'; unfold mark_pinch_off.
  fold marks.
  set (body := fun (r z : Z) (st : Z * (Z -> Z -> Ascii.ascii)) =>
         let '(fully_depleted, marks0) := st in
         if Ascii.eqb (marks0 r z) "*"
         then (0, if (vn z r >? lit (1 # 1000))%fl
                  then upd2 marks0 r z "B"%char else marks0)
         else st).
  pose (expected := fun r z =>
    if Ascii.eqb (marks r z) "*" && (vn z r >? lit (1 # 1000))%fl
    then "B"%char else marks r z).
  pose (Inv := fun s : Z * (Z -> Z -> Ascii.ascii) =>
    fst s = 1 \/
    (fst s = 0 /\
     exists r z, 0 <= r <= R D /\ 0 <= z <= L D /\ marks r z = "*"%char)).
  pose (Done := fun (r z : Z) (s : Z * (Z -> Z -> Ascii.ascii)) =>
    snd s r z = expected r z /\ (marks r z = "*"%char -> fst s = 0)).
  pose (Todo := fun (r z : Z) (s : Z * (Z -> Z -> Ascii.ascii)) =>
    snd s r z = marks r z).
  destruct (@grid_scan _ Inv Done Todo body (R D + 1) (L D + 1)
              (1, marks)) as [HI HD].
  - left; reflexivity.
  - intros; reflexivity.
  - intros r z [fd0 m0] Hr Hz Hinv Hdone Htodo.
    assert (Hcur : m0 r z = marks r z)
      by (apply (Htodo r z); auto; lia).
    unfold body. rewrite Hcur.
    destruct (Ascii.eqb_spec (marks r z) "*") as [Hstar|Hno].
    + split;
        [right; split;
           [reflexivity
           |exists r, z; split; [lia|split; [lia|exact Hstar]]]|].
      split.
      * intros r' z' Hr' Hz' Hle. unfold Done, expected; cbn [fst snd].
        split; [|reflexivity].
        destruct (Z.eq_dec r' r) as [->|Hne].
        -- destruct (Z.eq_dec z' z) as [->|Hne'].
           ++ rewrite Hstar; cbn [Ascii.eqb andb].
              destruct (vn z r >? lit (1 # 1000))%fl; cbn.
              ** unfold upd2. now rewrite !Z.eqb_refl.
              ** rewrite Hcur. exact Hstar.
           ++ destruct (Hdone r z' ltac:(lia) ltac:(lia) ltac:(lia))
                as [Hd _]. cbn [snd] in Hd.
              destruct (vn z r >? lit (1 # 1000))%fl; [|exact Hd].
              unfold upd2; zcases; exact Hd.
        -- destruct (Hdone r' z' ltac:(lia) ltac:(lia) ltac:(lia))
             as [Hd _]. cbn [snd] in Hd.
           destruct (vn z r >? lit (1 # 1000))%fl; [|exact Hd].
           unfold upd2; zcases; exact Hd.
      * intros r' z' Hr' Hz' Hlt. unfold Todo; cbn [snd].
        pose proof (Htodo r' z' Hr' Hz' ltac:(lia)) as Ht.
        unfold Todo in Ht; cbn [snd] in Ht.
        destruct (vn z r >? lit (1 # 1000))%fl; [|exact Ht].
        unfold upd2; zcases; exact Ht.
    + split; [exact Hinv|]. split.
      * intros r' z' Hr' Hz' Hle.
        destruct (Z.eq_dec r' r) as [->|Hne].
        -- destruct (Z.eq_dec z' z) as [->|Hne'].
           ++ unfold Done, expected; cbn [fst snd]. rewrite Hcur.
              destruct (Ascii.eqb_spec (marks r z) "*"); [contradiction|].
              cbn [andb]. split; [reflexivity|contradiction].
           ++ apply Hdone; auto; lia.
        -- apply Hdone; auto; lia.
      * intros r' z' Hr' Hz' Hlt. apply Htodo; auto; lia.
  - cbv zeta in HI, HD.
    change (for_up 0 (R D + 1)
              (fun r : Z =>
               for_up 0 (L D + 1)
                 (fun (z : Z) (st0 : Z * (Z -> Z -> ascii)) =>
                  let '(fully_depleted, marks0) := st0 in
                   if Ascii.eqb (marks0 r z) "*"
                   then
                    (0,
                     if (vn z r >? lit (1 # 1000))%fl
                     then upd2 marks0 r z "B"%char
                     else marks0)
                   else st0)) (1, marks))
      with (for_up 0 (R D + 1) (fun r => for_up 0 (L D + 1) (body r))
                   (1, marks)).
    set (res := for_up 0 (R D + 1) (fun r => for_up 0 (L D + 1) (body r))
                       (1, marks)) in *.
    split; [destruct HI as [H|[H _]]; auto|]. split.
    + split.
      * intros H0. destruct HI as [H1|[_ Hex]]; [congruence|exact Hex].
      * intros (r & z & Hr & Hz & Hstar).
        apply (HD r z); auto; lia.
    + intros r z Hr Hz.
      destruct (HD r z ltac:(lia) ltac:(lia)) as [Hexp _].
      split; [exact Hexp|].
      rewrite Hexp. unfold expected.
      destruct (Ascii.eqb_spec (marks r z) "*") as [Hs|Hn]; cbn [andb].
      * destruct (vn z r >? lit (1 # 1000))%fl; [discriminate|reflexivity].
      * intros H; contradiction.
Qed.
End PinchOffFacts.

Ltac zbools :=
  repeat match goal with
  | |- context [(?a =? ?b)%Z] =>
      destruct (Z.eqb_spec a b); try lia; cbn [andb orb]
  | |- context [(?a <=? ?b)%Z] =>
      destruct (Z.leb_spec a b); try lia; cbn [andb orb]
  | |- context [(?a <? ?b)%Z] =>
      destruct (Z.ltb_spec a b); try lia; cbn [andb orb]
  end.

Section GuessFacts.
Context {F : Type} {ops : FloatOps F}.
Local Open Scope Z_scope.

(** A loop that writes [f z r] to the pixels of a rectangle, in both
    planes. *)
Lemma fill_planes (f : Z -> Z -> F) zlo zhi rlo rhi
      (v : Z -> Z -> Z -> F) :
  let v' :=
    for_up zlo zhi
      (fun z =>
         for_up rlo rhi
           (fun r v => vset (vset v 1 z r (f z r)) 0 z r (f z r))) v in
  forall p z r,
    v' p z r =
    if ((p =? 0) || (p =? 1)) && (zlo <=? z) && (z <? zhi) &&
       (rlo <=? r) && (r <? rhi)
    then f z r else v p z r.
Proof.
  intros v'; subst v'.
  assert (Hrow : forall z (v0 : Z -> Z -> Z -> F) p z' r',
    for_up rlo rhi
      (fun r v => vset (vset v 1 z r (f z r)) 0 z r (f z r)) v0 p z' r' =
    if ((p =? 0) || (p =? 1)) && (z' =? z) && (rlo <=? r') && (r' <? rhi)
    then f z r' else v0 p z' r').
  { intros z v0.
    destruct (Z_le_gt_dec rlo rhi) as [Hle|Hgt].
    2: { rewrite for_up_empty by lia. intros p z' r'. zbools; reflexivity. }
    apply (for_up_ind
      (fun j (v1 : Z -> Z -> Z -> F) => forall p z' r',
         v1 p z' r' =
         if ((p =? 0) || (p =? 1)) && (z' =? z) && (rlo <=? r') &&
            (r' <? j)
         then f z r' else v0 p z' r')); [lia| |].
    - intros p z' r'. zbools; reflexivity.
    - intros j v1 Hj IH p z' r'. unfold vset, upd2.
      zbools; rewrite ?IH; zbools; try reflexivity; subst; reflexivity. }
  destruct (Z_le_gt_dec zlo zhi) as [Hle|Hgt].
  2: { rewrite for_up_empty by lia. intros p z r. zbools; reflexivity. }
  apply (for_up_ind
    (fun i (v1 : Z -> Z -> Z -> F) => forall p z r,
       v1 p z r =
       if ((p =? 0) || (p =? 1)) && (zlo <=? z) && (z <? i) &&
          (rlo <=? r) && (r <? rhi)
       then f z r else v p z r)); [lia| |].
  - intros p z r. zbools; reflexivity.
  - intros i v1 Hi IH p z r. rewrite Hrow, IH.
    zbools; try reflexivity; subst; reflexivity.
Qed.

(** The first guess of the weighting potential, pixel by pixel. *)
Lemma wp_initial_guess_at (D : @Dims F) (v : Z -> Z -> Z -> F) p z r :
  wp_initial_guess D v p z r =
  if ((p =? 0) || (p =? 1)) && (0 <=? z) && (z <? LC D + 1) &&
     (0 <=? r) && (r <? RC D + 1)
  then fone
  else if ((p =? 0) || (p =? 1)) && (1 <=? z) && (z <? L D) &&
          (1 <=? r) && (r <? R D)
  then wp_guess_at D z r
  else if ((p =? 0) || (p =? 1)) && (0 <=? z) && (z <? L D + 1) &&
          (0 <=? r) && (r <? R D + 1)
  then fzero
  else v p z r.
Proof.
  unfold wp_initial_guess. cbv zeta.
  rewrite !fill_planes. reflexivity.
Qed.

(** X13.  The first guess of the weighting potential (lines 776-802)
    is 1 on the pixels of the point contact and lies within [0, 1] on
    every pixel of the grid, in both planes, in the sense of the
    comparisons of the code: it neither compares below 0 nor above 1;
    on the other pixels of the border of the grid it is 0.  This
    holds in an ordered arithmetic in which 1 < 0 is false. *)
Theorem wp_initial_guess_range {ord : FloatOrder F} (D : @Dims F)
        (v : Z -> Z -> Z -> F) :
  (fone <? fzero)%fl = false ->
  forall p z r, p = 0 \/ p = 1 -> 0 <= z <= L D -> 0 <= r <= R D ->
    let w := wp_initial_guess D v p z r in
    (w <? fzero)%fl = false /\ (w >? fone)%fl = false /\
    (z <= LC D -> r <= RC D -> w = fone) /\
    (LC D < z \/ RC D < r ->
     z = 0 \/ r = 0 \/ z = L D \/ r = R D -> w = fzero).
Proof.
  intros H10 p z r Hp Hz Hr w; subst w.
  assert (Hirr : forall x : F, (x <? x)%fl = false).
  { intros x. now rewrite fltb_fleb, fleb_refl. }
  rewrite wp_initial_guess_at.
  assert (Hplane : (p =? 0) || (p =? 1) = true)
    by (destruct Hp as [-> | ->]; reflexivity).
  rewrite Hplane; cbn [andb].
  assert (Hguess : (wp_guess_at D z r <? fzero)%fl = false /\
                   (wp_guess_at D z r >? fone)%fl = false).
  { unfold wp_guess_at. cbv zeta.
    set (c := (_ - _)%fl).
    destruct (c <? fzero)%fl eqn:E0.
    - rewrite H10. auto.
    - destruct (c >? fone)%fl eqn:E1; auto. }
  destruct Hguess as [G0 G1].
  zbools; repeat split; auto; intros; try lia; auto.
Qed.
End GuessFacts.

Lemma for_up_ext {St : Type} lo hi (body1 body2 : Z -> St -> St) s :
  (forall i s, body1 i s = body2 i s) ->
  for_up lo hi body1 s = for_up lo hi body2 s.
Proof.
  intros H; unfold for_up.
  generalize (seq 0 (Z.to_nat (hi - lo))); intros l; revert s.
  induction l as [|k l IH]; intros s; cbn; auto.
  rewrite H. apply IH.
Qed.

Section ToleranceFacts.
Context {F : Type} {ops : FloatOps F} {ord : FloatOrder F}.
Local Open Scope Z_scope.

Lemma fltb_asym (a b : F) : (a <? b)%fl = true -> (b <? a)%fl = false.
Proof.
  intros H. rewrite fltb_fleb. now rewrite (fltb_fleb_incl _ _ H).
Qed.

(** X14.  The potential pass rounds the offset [dLC] of the contact
    length to 0 within 0.01 and the weighting pass within 0.05 (lines
    399 and 763), but the boundary conditions only ask whether [dLC]
    is beyond 0.05: so, in an ordered arithmetic that orders the four
    literals as the reals do, the boundary loop of the potential gives
    the same arrays with either tolerance, and both passes give every
    pixel of the grid the same tag [bulk] when the detector is fully
    depleted. *)
Theorem snapping_tolerance_irrelevant
        (setup : MJD_Siggen_Setup F) (grid BV : F) :
  (fzero <? - lit (5 # 100))%fl = false ->
  (fzero >? lit (5 # 100))%fl = false ->
  (lit (1 # 100) <? lit (5 # 100))%fl = true ->
  (- lit (5 # 100) <? - lit (1 # 100))%fl = true ->
  let DP := level_dims (lit (1 # 100)) setup grid in
  let DW := level_dims (lit (5 # 100)) setup grid in
  (forall b : @Bounds F, set_bounds DP BV b = set_bounds DW BV b) /\
  (forall (b b' : @Bounds F) fd gf marks z r,
     fd <> 0 -> 0 <= z <= L DP -> 0 <= r <= R DP ->
     bulk (set_bounds DP BV b) z r =
     bulk (wp_set_bounds DW fd gf marks b') z r).
Proof.
  intros H1 H2 H3 H4 DP DW.
  assert (Hpix : forall z r (b : @Bounds F),
            bounds_pixel DP BV z r b = bounds_pixel DW BV z r b).
  { intros z r b. subst DP DW. unfold level_dims. cbv zeta.
    set (x := (pc_length setup / grid
               - of_int (lrint (pc_length setup / grid)%fl))%fl).
    destruct ((x <? lit (1 # 100))%fl && (x >? - lit (1 # 100))%fl)
      eqn:EP;
      destruct ((x <? lit (5 # 100))%fl && (x >? - lit (5 # 100))%fl)
        eqn:EW; try reflexivity.
    - (* rounded by the potential pass only: not possible *)
      apply andb_prop in EP. destruct EP as [P1 P2].
      rewrite (fltb_trans _ _ _ P1 H3) in EW.
      rewrite (fltb_trans _ _ _ H4 P2) in EW. discriminate.
    - (* rounded by the weighting pass only *)
      apply andb_prop in EW. destruct EW as [W1 W2].
      pose proof (fltb_asym _ _ W1) as A1.
      pose proof (fltb_asym _ _ W2) as A2.
      unfold bounds_pixel, on_outer, on_pc.
      cbn [L R LC RC LT RO LO WO dLC dRC].
      rewrite A1, A2, H1, H2, !andb_false_r. reflexivity. }
  assert (Hset : forall b : @Bounds F,
            set_bounds DP BV b = set_bounds DW BV b).
  { intros b. unfold set_bounds.
    change (L DW) with (L DP). change (R DW) with (R DP).
    apply for_up_ext. intros z b1. apply for_up_ext. intros r b2.
    apply Hpix. }
  split; [exact Hset|].
  intros b b' fd gf marks z r Hfd Hz Hr.
  rewrite Hset.
  destruct (@set_bounds_spec F ops DW BV b z r Hz Hr) as [Hb _].
  destruct (@wp_set_bounds_spec F ops DW fd gf marks b' z r Hz Hr)
    as [Hw _].
  rewrite Hb, Hw. unfold wp_bounds_tag, marked.
  destruct (Z.eqb_spec fd 0); [contradiction|]. reflexivity.
Qed.
End ToleranceFacts.

Section JacobiFacts.
Context {F : Type} {ops : FloatOps F}.
Local Open Scope Z_scope.
Implicit Types (lv : @Level F).

(** A sweep of the potential reads the plane [old] and writes the
    plane [new] only. *)
Lemma sweep_planes lv old new (s s' : @Relax F) :
  old <> new ->
  sweep lv old new s = Some s' ->
  (forall p z r, p <> new -> pot s' p z r = pot s p z r) /\
  (forall z r,
     ~ (0 <= z < L (dims lv) /\ 0 <= r < R (dims lv)) \/
     tags lv z r < 0 ->
     pot s' new z r = pot s new z r) /\
  (forall z r, 0 <= z < L (dims lv) -> 0 <= r < R (dims lv) ->
     0 <= tags lv z r ->
     exists st bubble mark,
       stencil lv (pot s old) z r = Some st /\
       pot s' new z r =
         fst (fst (clamp (vfrac lv z r) (raw_value lv st z r) (min st)
                         bubble mark))).
Proof.
  intros Hne. unfold sweep.
  set (s0 := {| pot := pot s; undepleted := undepleted s;
                bubble_volts := fzero; sum_dif := fzero;
                max_dif := fzero |}).
  pose (Inv := fun o : option (@Relax F) =>
    forall s1, o = Some s1 ->
      (forall p z r, p <> new -> pot s1 p z r = pot s p z r) /\
      (forall z r,
         ~ (0 <= z < L (dims lv) /\ 0 <= r < R (dims lv)) \/
         tags lv z r < 0 ->
         pot s1 new z r = pot s new z r)).
  pose (Good := fun (z r : Z) (o : option (@Relax F)) =>
    forall s1, o = Some s1 ->
      0 <= tags lv z r ->
      exists st bubble mark,
        stencil lv (pot s old) z r = Some st /\
        pot s1 new z r =
          fst (fst (clamp (vfrac lv z r) (raw_value lv st z r) (min st)
                          bubble mark))).
  assert (Hold : forall s1 : @Relax F,
            (forall p z r, p <> new -> pot s1 p z r = pot s p z r) ->
            forall z r, stencil lv (pot s1 old) z r =
                        stencil lv (pot s old) z r).
  { intros s1 H z r. unfold stencil. rewrite !(H old) by auto.
    reflexivity. }
  destruct (@grid_loop _ Inv Good (relax_pixel lv old new)
              (L (dims lv)) (R (dims lv)) (Some s0)) as [HI HG].
  - intros s1 [= <-]. split; reflexivity.
  - intros z r [s1|] Hz Hr Hinv;
      [|split; intros s2 H; discriminate H].
    destruct (Hinv s1 eq_refl) as [Hp Hout].
    unfold relax_pixel.
    destruct (tags lv z r <? 0) eqn:Etag.
    { apply Z.ltb_lt in Etag. split.
      - intros s2 [= <-]. auto.
      - intros s2 [= <-] Htag. lia. }
    apply Z.ltb_ge in Etag.
    rewrite (Hold s1 Hp).
    destruct (stencil lv (pot s old) z r) as [st|] eqn:Est;
      [|split; intros s2 H; discriminate H].
    rewrite (Hp old z r Hne).
    destruct (clamp (vfrac lv z r) (raw_value lv st z r) (min st)
                    (bubble_volts s1) (undepleted s1 r z))
      as [[v_new bubble] mark] eqn:Ec.
    destruct (track_dif _ _ _ _) as [sd md].
    split.
    + intros s2 [= <-]. cbn [pot]. split.
      * intros p z' r' Hpn. rewrite vset_other_plane by auto. auto.
      * intros z' r' Hcase. rewrite vset_other_pixel; [auto|].
        destruct (Z.eq_dec z' z); destruct (Z.eq_dec r' r); subst; auto.
        destruct Hcase as [Hc|Hc]; [exfalso; apply Hc; auto | lia].
    + intros s2 [= <-] _. cbn [pot].
      exists st, (bubble_volts s1), (undepleted s1 r z).
      split; [exact Est|].
      rewrite vset_same, Ec. reflexivity.
  - intros z r z' r' [s1|] Hz Hr Hdiff Hinv HGood s2 H2;
      [|discriminate].
    intros Htag.
    destruct (HGood s1 eq_refl Htag) as (st & bub & mark & Hst & Hval).
    exists st, bub, mark. split; [exact Hst|].
    rewrite <- Hval.
    unfold relax_pixel in H2.
    destruct (tags lv z r <? 0); [now inversion H2|].
    destruct (stencil lv (pot s1 old) z r) as [st1|]; [|discriminate].
    destruct (clamp _ _ _ _ _) as [[v_new bubble] mark1].
    destruct (track_dif _ _ _ _) as [sd md].
    injection H2 as <-. cbn [pot].
    apply vset_other_pixel. exact Hdiff.
  - intros Hs. cbv zeta in HI, HG.
    destruct (HI s' Hs) as [Hp Hout].
    split; [exact Hp|]. split; [exact Hout|].
    intros z r Hz Hr Htag. exact (HG z r Hz Hr s' Hs Htag).
Qed.

(** X15.  A sweep of the potential is a Jacobi step: it reads the
    plane [old] and writes the plane [new] only.  Every plane other
    than [new] is kept, in the plane [new] the pixels outside
    [0, L) x [0, R) and the fixed pixels are kept, and every other
    pixel of the plane [new] takes the value, and its mark the
    character, that lines 581-592 make of the stencil of the plane
    [old] as it was before the sweep started, of the mark as it was
    before the sweep started, and of [bubble_volts] as the sweep
    carries it: 0 at the first pixel, passed on from every pixel to
    the next in the order of the loops, kept by a fixed pixel and
    otherwise set by lines 581-592. *)
Theorem sweep_is_jacobi lv old new (s s' : @Relax F) :
  old <> new ->
  sweep lv old new s = Some s' ->
  (forall p z r, p <> new -> pot s' p z r = pot s p z r) /\
  (forall z r,
     ~ (0 <= z < L (dims lv) /\ 0 <= r < R (dims lv)) \/
     tags lv z r < 0 ->
     pot s' new z r = pot s new z r) /\
  (exists s0,
     sweep_until lv old new s 0 0 = Some s0 /\ bubble_volts s0 = fzero) /\
  (forall z, 0 <= z ->
     sweep_until lv old new s (z + 1) 0 =
     sweep_until lv old new s z (R (dims lv))) /\
  (forall z r, 0 <= z < L (dims lv) -> 0 <= r < R (dims lv) ->
     exists s1 s2,
       sweep_until lv old new s z r = Some s1 /\
       sweep_until lv old new s z (r + 1) = Some s2 /\
       (tags lv z r < 0 -> bubble_volts s2 = bubble_volts s1) /\
       (0 <= tags lv z r ->
        exists st,
          stencil lv (pot s old) z r = Some st /\
          let c := clamp (vfrac lv z r) (raw_value lv st z r) (min st)
                         (bubble_volts s1) (undepleted s r z) in
          pot s' new z r = fst (fst c) /\
          bubble_volts s2 = snd (fst c) /\
          undepleted s' r z = snd c)).
Proof.
  intros Hne Hsweep.
  destruct (@sweep_planes lv old new s s' Hne Hsweep)
    as (Hplanes & Hfixed & _).
  split; [exact Hplanes|]. split; [exact Hfixed|].
  split.
  { destruct (@sweep_until_start F ops lv old new s)
      as (s0 & H0 & Hb & _).
    now exists s0. }
  split; [intros z Hz; now apply sweep_until_row|].
  intros z r Hz Hr.
  destruct (@sweep_at_pixel F ops lv old new s s' z r Hsweep Hz Hr)
    as (s1 & s2 & E1 & E2 & Hpx & A1 & A2 & M & _ & P).
  exists s1, s2.
  split; [exact E1|]. split; [exact E2|].
  unfold relax_pixel in Hpx.
  destruct (tags lv z r <? 0) eqn:Etag.
  { apply Z.ltb_lt in Etag. injection Hpx as <-.
    split; [reflexivity|intros; lia]. }
  apply Z.ltb_ge in Etag. split; [intros; lia|]. intros _.
  assert (Hst : stencil lv (pot s1 old) z r = stencil lv (pot s old) z r).
  { unfold stencil. rewrite !(P old) by exact Hne. reflexivity. }
  rewrite Hst in Hpx.
  destruct (stencil lv (pot s old) z r) as [st|]; [|discriminate].
  exists st. split; [reflexivity|]. cbv zeta.
  rewrite M in Hpx.
  destruct (clamp _ _ _ _ _) as [[v' b'] m'].
  destruct (track_dif _ _ _ _) as [sd md].
  injection Hpx as <-. rewrite A1, A2.
  cbn [pot undepleted bubble_volts fst snd].
  rewrite vset_same, upd2_same. repeat split.
Qed.

(** The first loop of a sweep of the weighting potential. *)
Lemma wp_pixels_jacobi lv old new (s0 s1 : @WRelax F) :
  old <> new ->
  for_up 0 (L (dims lv))
         (fun z => for_up 0 (R (dims lv)) (wp_pixel lv old new z))
         (Some s0) = Some s1 ->
  (forall p z r, p <> new -> wpot_v s1 p z r = wpot_v s0 p z r) /\
  (forall z r,
     ~ (0 <= z < L (dims lv) /\ 0 <= r < R (dims lv)) \/
     tags lv z r < 0 \/ tags lv z r = 3 ->
     wpot_v s1 new z r = wpot_v s0 new z r) /\
  (forall z r, 0 <= z < L (dims lv) -> 0 <= r < R (dims lv) ->
     0 <= tags lv z r <= 2 ->
     exists st,
       stencil lv (wpot_v s0 old) z r = Some st /\
       wpot_v s1 new z r = (v_sum st / eps_sum st)%fl).
Proof.
  intros Hne.
  pose (Inv := fun o : option (@WRelax F) =>
    forall s2, o = Some s2 ->
      (forall p z r, p <> new -> wpot_v s2 p z r = wpot_v s0 p z r) /\
      (forall z r,
         ~ (0 <= z < L (dims lv) /\ 0 <= r < R (dims lv)) \/
         tags lv z r < 0 \/ tags lv z r = 3 ->
         wpot_v s2 new z r = wpot_v s0 new z r)).
  pose (Good := fun (z r : Z) (o : option (@WRelax F)) =>
    forall s2, o = Some s2 ->
      0 <= tags lv z r <= 2 ->
      exists st,
        stencil lv (wpot_v s0 old) z r = Some st /\
        wpot_v s2 new z r = (v_sum st / eps_sum st)%fl).
  assert (Hold : forall s2 : @WRelax F,
            (forall p z r, p <> new -> wpot_v s2 p z r = wpot_v s0 p z r) ->
            forall z r, stencil lv (wpot_v s2 old) z r =
                        stencil lv (wpot_v s0 old) z r).
  { intros s2 H z r. unfold stencil. rewrite !(H old) by auto.
    reflexivity. }
  destruct (@grid_loop _ Inv Good (wp_pixel lv old new)
              (L (dims lv)) (R (dims lv)) (Some s0)) as [HI HG].
  - intros s2 [= <-]. split; reflexivity.
  - intros z r [s2|] Hz Hr Hinv;
      [|split; intros s3 H; discriminate H].
    destruct (Hinv s2 eq_refl) as [Hp Hout].
    unfold wp_pixel.
    destruct (tags lv z r <? 0) eqn:Etag.
    { apply Z.ltb_lt in Etag. split.
      - intros s3 [= <-]. auto.
      - intros s3 [= <-] Htag. lia. }
    apply Z.ltb_ge in Etag.
    destruct (Z.eqb_spec (tags lv z r) 3) as [E3|E3].
    { destruct (pinched _ _ _ _ _) as [p1 p2]. split.
      - intros s3 [= <-]. cbn [wpot_v]. auto.
      - intros s3 [= <-] Htag. lia. }
    rewrite (Hold s2 Hp).
    destruct (stencil lv (wpot_v s0 old) z r) as [st|] eqn:Est;
      [|split; intros s3 H; discriminate H].
    destruct (track_dif _ _ _ _) as [sd md].
    split.
    + intros s3 [= <-]. cbn [wpot_v]. split.
      * intros p z' r' Hpn. rewrite vset_other_plane by auto. auto.
      * intros z' r' Hcase. rewrite vset_other_pixel; [auto|].
        destruct (Z.eq_dec z' z); destruct (Z.eq_dec r' r); subst; auto.
        destruct Hcase as [Hc|[Hc|Hc]];
          [exfalso; apply Hc; auto | lia | lia].
    + intros s3 [= <-] _. cbn [wpot_v].
      exists st. split; [exact Est|]. now rewrite vset_same.
  - intros z r z' r' [s2|] Hz Hr Hdiff Hinv HGood s3 H3;
      [|discriminate].
    intros Htag.
    destruct (HGood s2 eq_refl Htag) as (st & Hst & Hval).
    exists st. split; [exact Hst|].
    rewrite <- Hval.
    unfold wp_pixel in H3.
    destruct (tags lv z r <? 0); [now inversion H3|].
    destruct (tags lv z r =? 3).
    { destruct (pinched _ _ _ _ _) as [p1 p2]. now inversion H3. }
    destruct (stencil lv (wpot_v s2 old) z r) as [st1|]; [|discriminate].
    destruct (track_dif _ _ _ _) as [sd md].
    injection H3 as <-. cbn [wpot_v].
    apply vset_other_pixel. exact Hdiff.
  - intros Hs. cbv zeta in HI, HG.
    destruct (HI s1 Hs) as [Hp Hout].
    split; [exact Hp|]. split; [exact Hout|].
    intros z r Hz Hr Htag. exact (HG z r Hz Hr s1 Hs Htag).
Qed.

(** The second loop of a sweep of the weighting potential. *)
Lemma float_pixels_spec lv old new mean (s1 : @WRelax F) :
  let s2 := for_up 0 (L (dims lv))
              (fun z =>
                 for_up 0 (R (dims lv)) (float_pixel lv old new mean z))
              s1 in
  pinched_sum1 s2 = pinched_sum1 s1 /\
  pinched_sum2 s2 = pinched_sum2 s1 /\
  (forall p z r, p <> new -> wpot_v s2 p z r = wpot_v s1 p z r) /\
  (forall z r,
     ~ (0 <= z < L (dims lv) /\ 0 <= r < R (dims lv)) \/
     tags lv z r <> 3 ->
     wpot_v s2 new z r = wpot_v s1 new z r) /\
  (forall z r, 0 <= z < L (dims lv) -> 0 <= r < R (dims lv) ->
     tags lv z r = 3 -> wpot_v s2 new z r = mean).
Proof.
  pose (Inv := fun s2 : @WRelax F =>
    pinched_sum1 s2 = pinched_sum1 s1 /\
    pinched_sum2 s2 = pinched_sum2 s1 /\
    (forall p z r, p <> new -> wpot_v s2 p z r = wpot_v s1 p z r) /\
    (forall z r,
       ~ (0 <= z < L (dims lv) /\ 0 <= r < R (dims lv)) \/
       tags lv z r <> 3 ->
       wpot_v s2 new z r = wpot_v s1 new z r)).
  pose (Good := fun (z r : Z) (s2 : @WRelax F) =>
    tags lv z r = 3 -> wpot_v s2 new z r = mean).
  destruct (@grid_loop _ Inv Good (float_pixel lv old new mean)
              (L (dims lv)) (R (dims lv)) s1) as [HI HG].
  - repeat split; auto.
  - intros z r s2 Hz Hr (I1 & I2 & I3 & I4). unfold float_pixel.
    destruct (Z.eqb_spec (tags lv z r) 3) as [E3|E3].
    + destruct (track_dif _ _ _ _) as [sd md]. split.
      * unfold Inv. cbn [wpot_v pinched_sum1 pinched_sum2].
        split; [auto|]. split; [auto|]. split.
        -- intros p z' r' Hp. rewrite vset_other_plane by auto. auto.
        -- intros z' r' Hcase. rewrite vset_other_pixel; [auto|].
           destruct (Z.eq_dec z' z); destruct (Z.eq_dec r' r); subst;
             auto.
           destruct Hcase as [Hc|Hc];
             [exfalso; apply Hc; auto | contradiction].
      * intros _. cbn [wpot_v]. apply vset_same.
    + split; [repeat split; auto|]. intros H; contradiction.
  - intros z r z' r' s2 Hz Hr Hdiff Hinv HGood Htag.
    rewrite <- (HGood Htag). unfold float_pixel.
    destruct (tags lv z r =? 3); [|reflexivity].
    destruct (track_dif _ _ _ _) as [sd md]. cbn [wpot_v].
    apply vset_other_pixel. exact Hdiff.
  - cbv zeta in HI, HG. destruct HI as (I1 & I2 & I3 & I4).
    repeat split; auto.
Qed.

(** X16.  A sweep of the weighting potential is a Jacobi step too:
    it keeps every plane but [new], and in the plane [new] the pixels
    outside [0, L) x [0, R) and the fixed pixels; every pixel with a
    tag 0, 1 or 2 takes the mean [v_sum / eps_sum] of the stencil of
    the plane [old] as it was before the sweep; and the pinched-off
    pixels (tag 3) stay together: they all take the one mean
    [pinched_sum1 / pinched_sum2] when [pinched_sum2 > 0.1], and keep
    their values otherwise. *)
Theorem wp_sweep_is_jacobi lv old new (s s' : @WRelax F) :
  old <> new ->
  wp_sweep lv old new s = Some s' ->
  (forall p z r, p <> new -> wpot_v s' p z r = wpot_v s p z r) /\
  (forall z r,
     ~ (0 <= z < L (dims lv) /\ 0 <= r < R (dims lv)) \/
     tags lv z r < 0 ->
     wpot_v s' new z r = wpot_v s new z r) /\
  (forall z r, 0 <= z < L (dims lv) -> 0 <= r < R (dims lv) ->
     0 <= tags lv z r <= 2 ->
     exists st,
       stencil lv (wpot_v s old) z r = Some st /\
       wpot_v s' new z r = (v_sum st / eps_sum st)%fl) /\
  ((pinched_sum2 s' >? lit (1 # 10))%fl = true ->
   forall z r, 0 <= z < L (dims lv) -> 0 <= r < R (dims lv) ->
     tags lv z r = 3 ->
     wpot_v s' new z r = (pinched_sum1 s' / pinched_sum2 s')%fl) /\
  ((pinched_sum2 s' >? lit (1 # 10))%fl = false ->
   forall z r, tags lv z r = 3 ->
     wpot_v s' new z r = wpot_v s new z r).
Proof.
  intros Hne. unfold wp_sweep.
  set (s0 := {| wpot_v := wpot_v s; w_sum_dif := fzero;
                w_max_dif := fzero; pinched_sum1 := fzero;
                pinched_sum2 := fzero |}).
  destruct (for_up 0 (L (dims lv))
              (fun z => for_up 0 (R (dims lv)) (wp_pixel lv old new z))
              (Some s0)) as [s1|] eqn:E1; [|discriminate].
  destruct (wp_pixels_jacobi lv s0 Hne E1) as (Hp & Hout & Hval).
  cbn [wpot_v s0] in Hp, Hout, Hval.
  destruct (pinched_sum2 s1 >? lit (1 # 10))%fl eqn:Ep.
  - intros [= <-].
    destruct (float_pixels_spec lv old new
                (pinched_sum1 s1 / pinched_sum2 s1)%fl s1)
      as (F1 & F2 & F3 & F4 & F5).
    cbv zeta in F1, F2, F3, F4, F5.
    split. { intros p z r Hpn. rewrite F3 by auto. auto. }
    split. { intros z r Hcase. rewrite F4; [apply Hout|]; lia. }
    split.
    { intros z r Hz Hr Htag.
      destruct (Hval z r Hz Hr Htag) as (st & Hst & Hv).
      exists st. split; [exact Hst|]. rewrite F4; [exact Hv|]. lia. }
    split.
    { intros _ z r Hz Hr Htag. rewrite F1, F2. now apply F5. }
    rewrite F2, Ep. discriminate.
  - intros [= <-].
    split; [exact Hp|].
    split. { intros z r Hcase. apply Hout. lia. }
    split; [exact Hval|].
    split; [rewrite Ep; discriminate|].
    intros _ z r Htag. apply Hout. auto.
Qed.
End JacobiFacts.

Section MainFacts.
Context {F : Type} {ops : FloatOps F}.
Local Open Scope Z_scope.

Lemma grid_ratios_bounds (i0 : Z) :
  6 <= i0 ->
  3 <= fst (grid_ratios i0) <= 5 /\ 2 <= snd (grid_ratios i0) /\
  i0 <= fst (grid_ratios i0) * snd (grid_ratios i0)
     < i0 + snd (grid_ratios i0).
Proof.
  intros Hi. unfold grid_ratios. cbv zeta. cbn [fst snd].
  rewrite (Z.quot_div_nonneg (i0 + 4) 5) by lia.
  pose proof (Z.div_mod (i0 + 4) 5 ltac:(lia)) as Hj.
  pose proof (Z.mod_pos_bound (i0 + 4) 5 ltac:(lia)) as Hjm.
  set (j := (i0 + 4) / 5) in *.
  assert (Hj2 : 2 <= j) by lia.
  rewrite (Z.quot_div_nonneg (i0 + j - 1) j) by lia.
  pose proof (Z.div_mod (i0 + j - 1) j ltac:(lia)) as Hq.
  pose proof (Z.mod_pos_bound (i0 + j - 1) j ltac:(lia)) as Hqm.
  set (i := (i0 + j - 1) / j) in *.
  repeat split; nia.
Qed.

(** X17.  The grid sizes of the relaxation (lines 331-350): one grid,
    the grid of the setup; or two grids, the first 2 to 5 times the
    grid of the setup; or three grids, where the first is 3 to 5
    times the second and the second at least twice the grid of the
    setup.  The last grid is always that of the setup, and the first
    is at least as coarse as the rule of one pixel per hundred asks,
    by less than one step of the second grid. *)
Theorem gridsteps_levels (setup : MJD_Siggen_Setup F) (grid : F) :
  let i0 := 1 + Z.quot (to_int (fsqrt (xtal_length setup
                                       * xtal_radius setup) / grid)%fl)
                       100 in
  let g := gridsteps setup grid in
  (i0 < 2 /\ g = (grid, fzero, fzero)) \/
  (2 <= i0 <= 5 /\ g = ((of_int i0 * grid)%fl, grid, fzero)) \/
  (6 <= i0 /\
   exists i j,
     3 <= i <= 5 /\ 2 <= j /\ i0 <= i * j < i0 + j /\
     g = ((of_int (i * j) * grid)%fl, (of_int j * grid)%fl, grid)).
Proof.
  intros i0 g; subst g; unfold gridsteps. cbv zeta. fold i0.
  destruct (Z.ltb_spec i0 2) as [H2|H2]; [left; auto|].
  destruct (Z.ltb_spec i0 6) as [H6|H6]; [right; left; split; [lia|auto]|].
  right; right. split; [exact H6|].
  destruct (grid_ratios_bounds H6) as (Hi & Hj & Hij).
  destruct (grid_ratios i0) as [i j]. cbn [fst snd] in *.
  exists i, j. auto.
Qed.

(** X18.  The check of the polarity (lines 275-284), in an arithmetic
    where the negative of a positive number is not positive and the
    negative of a number that is not positive is not negative: bias
    and impurity of one sign, and only these, are refused; otherwise
    the impurity [N] that the relaxation uses is never positive, and
    the bias is never negative unless [N] is neither negative nor
    positive, in which case bias, gradient and impurity are used as
    they are given. *)
Theorem check_polarity_signs (BV N M : F) :
  (forall x : F, (x >? fzero)%fl = true -> (- x >? fzero)%fl = false) ->
  (forall x : F, (x >? fzero)%fl = false -> (- x <? fzero)%fl = false) ->
  match check_polarity BV N M with
  | None =>
      ((BV <? fzero)%fl = true /\ (N <? fzero)%fl = true) \/
      ((BV >? fzero)%fl = true /\ (N >? fzero)%fl = true)
  | Some (BV', M', N') =>
      (N' >? fzero)%fl = false /\
      ((N <? fzero)%fl = true \/ (N >? fzero)%fl = true ->
       (BV' <? fzero)%fl = false) /\
      ((N >? fzero)%fl = false -> (BV', M', N') = (BV, M, N)) /\
      ~ (((BV <? fzero)%fl = true /\ (N <? fzero)%fl = true) \/
         ((BV >? fzero)%fl = true /\ (N >? fzero)%fl = true))
  end.
Proof.
  intros Hneg1 Hneg2. unfold check_polarity.
  destruct (BV <? fzero)%fl eqn:B1; destruct (N <? fzero)%fl eqn:N1;
    destruct (BV >? fzero)%fl eqn:B2; destruct (N >? fzero)%fl eqn:N2;
    cbn [andb orb]; auto;
    repeat split; auto; try discriminate;
    try (intros [[H1 H2]|[H1 H2]]; discriminate);
    try (intros [H|H]; discriminate H);
    try (intros _; now apply Hneg2); try now apply Hneg1.
Qed.
End MainFacts.

Lemma iter_break_stop {St : Type} (body : Z -> St -> St * bool) k i
      (st : St) :
  (fst (iter_break body k i st) < i + Z.of_nat k)%Z ->
  exists st0,
    body (fst (iter_break body k i st)) st0 =
    (snd (iter_break body k i st), true).
Proof.
  revert i st; induction k as [|k IH]; intros i st; cbn; [lia|].
  destruct (body i st) as [st' brk] eqn:Eb; destruct brk; cbn.
  - intros _. exists st. exact Eb.
  - intros H. apply IH. lia.
Qed.

Section StopFacts.
Context {F : Type} {ops : FloatOps F}.
Local Open Scope Z_scope.

(** X19.  The relaxation loops stop early only when they have
    converged: with boundary tags as the boundary loops write them,
    both loops end in a state of the relaxation after at most
    [max_its] iterations, and when the loop of the potential stops
    with [iter < max_its] the largest change [max_dif] of its last
    sweep is below 1e-9, that of the weighting potential below
    1e-10. *)
Theorem relaxation_stops_on_convergence (lv : @Level F) (max_its : Z) :
  (forall (s0 : @Relax F),
     (forall z r, 0 <= z < L (dims lv) -> 0 <= r < R (dims lv) ->
                  tags lv z r <= 2) ->
     let res := relax lv max_its s0 in
     0 <= fst res <= Z.max 0 max_its /\
     exists old s,
       snd res = (old, Some s) /\
       (fst res < max_its ->
        (max_dif s <? lit (1 # 1000000000))%fl = true)) /\
  (forall (s0 : @WRelax F),
     (forall z r, 0 <= z < L (dims lv) -> 0 <= r < R (dims lv) ->
                  tags lv z r <= 3) ->
     let res := wp_relax lv max_its s0 in
     0 <= fst res <= Z.max 0 max_its /\
     exists old s,
       snd res = (old, Some s) /\
       (fst res < max_its ->
        (w_max_dif s <? lit (1 # 10000000000))%fl = true)).
Proof.
  split.
  - intros s0 Htags res; subst res.
    destruct (relax_iterates lv max_its s0 Htags) as (old & s & Hs & _).
    unfold relax, for_up_break in *.
    pose proof (iter_break_index
                  (relax_body lv (lit (1 # 1000000000)))
                  (Z.to_nat (max_its - 0)) 0 (1, Some s0)) as Hidx.
    split; [lia|]. exists old, s. split; [exact Hs|].
    intros Hlt.
    destruct (@iter_break_stop _ (relax_body lv (lit (1 # 1000000000)))
                (Z.to_nat (max_its - 0)) 0 (1, Some s0)) as [st0 Hb];
      [lia|].
    rewrite Hs in Hb. unfold relax_body in Hb.
    destruct st0 as [old0 [s1|]]; [|discriminate].
    destruct (sweep lv (flip old0) (flip (flip old0)) s1) as [s2|];
      [|discriminate].
    injection Hb as _ <- Hconv. exact Hconv.
  - intros s0 Htags res; subst res.
    destruct (wp_relax_iterates lv max_its s0 Htags) as (old & s & Hs & _).
    unfold wp_relax, for_up_break in *.
    pose proof (iter_break_index
                  (wp_relax_body lv (lit (1 # 10000000000)))
                  (Z.to_nat (max_its - 0)) 0 (1, Some s0)) as Hidx.
    split; [lia|]. exists old, s. split; [exact Hs|].
    intros Hlt.
    destruct (@iter_break_stop _
                (wp_relax_body lv (lit (1 # 10000000000)))
                (Z.to_nat (max_its - 0)) 0 (1, Some s0)) as [st0 Hb];
      [lia|].
    rewrite Hs in Hb. unfold wp_relax_body in Hb.
    destruct st0 as [old0 [s1|]]; [|discriminate].
    destruct (wp_sweep lv (flip old0) (flip (flip old0)) s1) as [s2|];
      [|discriminate].
    injection Hb as _ <- Hconv. exact Hconv.
Qed.
End StopFacts.

(** ** The properties of the solver on a small crystal *)

(** X11 on the first grid of a crystal of 4 x 4 mm without ditch. *)
Lemma set_permittivity_means_witness :
  let D := level_dims (lit (1 # 100)) (small_crystal (F := Q) 1 100) 1%Q in
  let e := set_permittivity D blank_eps in
  ((0 <= 0 <= L D)%Z /\ (0 <= 0 <= R D)%Z /\ (0 < R D)%Z) /\
  eps e 0 0 = eps_at D 0 0 /\
  eps_dr e 0 0 = fdiv (fadd (eps_at D 0 0) (eps_at D 0 1)) (lit 2).
Proof.
  intros D e.
  assert (Hz : (0 <= 0 <= L D)%Z) by (vm_compute; split; discriminate).
  assert (Hr : (0 <= 0 <= R D)%Z) by (vm_compute; split; discriminate).
  assert (Hlt : (0 < R D)%Z) by (vm_compute; reflexivity).
  split; [auto|].
  destruct (@set_permittivity_means Q Q_ops D blank_eps 0%Z 0%Z Hz Hr)
    as (H1 & H2 & _).
  split; [exact H1 | exact (H2 Hlt)].
Defined.

(** X12 for one undepleted pixel at 1 V: it is told as pinched off and
    the detector as not fully depleted. *)
Lemma mark_pinch_off_spec_witness :
  let D := level_dims (lit (1 # 100)) (small_crystal (F := Q) 1 100) 1%Q in
  let marks := fun r z : Z =>
                 if ((r =? 1) && (z =? 1))%Z then "*"%char else " "%char in
  let vn := fun _ _ : Z => 1%Q in
  ((0 <= 1 <= R D)%Z /\ (0 <= 1 <= L D)%Z /\ marks 1%Z 1%Z = "*"%char) /\
  fst (mark_pinch_off D vn (1%Z, marks)) = 0%Z /\
  snd (mark_pinch_off D vn (1%Z, marks)) 1%Z 1%Z = "B"%char.
Proof.
  intros D marks vn.
  assert (Hr : (0 <= 1 <= R D)%Z) by (vm_compute; split; discriminate).
  assert (Hz : (0 <= 1 <= L D)%Z) by (vm_compute; split; discriminate).
  assert (Hm : marks 1%Z 1%Z = "*"%char) by reflexivity.
  split; [auto|].
  destruct (@mark_pinch_off_spec Q Q_ops D vn (1%Z, marks))
    as (_ & Hfd & Hmarks).
  split.
  - apply (proj2 Hfd). exists 1%Z, 1%Z. auto.
  - exact (proj1 (Hmarks 1%Z 1%Z Hr Hz)).
Defined.

(** X13 at the pixel z = 0, r = 0 of the point contact, in exact
    arithmetic. *)
Lemma wp_initial_guess_range_witness :
  let D := level_dims (lit (5 # 100)) (small_crystal (F := Q) 1 100) 1%Q in
  let w := wp_initial_guess D (fun _ _ _ => 7%Q) 0 0 0 in
  (fltb (fone : Q) fzero = false /\
   (0 <= 0 <= L D)%Z /\ (0 <= 0 <= R D)%Z /\
   (0 <= LC D)%Z /\ (0 <= RC D)%Z) /\
  fltb w fzero = false /\ fltb fone w = false /\ w = fone.
Proof.
  intros D w.
  assert (H10 : fltb (fone : Q) fzero = false) by reflexivity.
  assert (Hz : (0 <= 0 <= L D)%Z) by (vm_compute; split; discriminate).
  assert (Hr : (0 <= 0 <= R D)%Z) by (vm_compute; split; discriminate).
  assert (Hlc : (0 <= LC D)%Z) by (vm_compute; discriminate).
  assert (Hrc : (0 <= RC D)%Z) by (vm_compute; discriminate).
  split; [auto 10|].
  destruct (@wp_initial_guess_range Q Q_ops Q_order D (fun _ _ _ => 7%Q)
              H10 0%Z 0%Z 0%Z (or_introl eq_refl) Hz Hr)
    as (W0 & W1 & Wpc & _).
  split; [exact W0|]. split; [exact W1 | exact (Wpc Hlc Hrc)].
Defined.

(** X14 in exact arithmetic, for a point contact of length 1.03 mm on
    a grid of 1 mm: the offset 0.03 is kept by the potential pass and
    rounded to 0 by the weighting pass. *)
Lemma snapping_tolerance_irrelevant_witness :
  let setup := plain_setup (F := Q) 4 4 (103 # 100) 1 1 100 (-1) 0 1 8 8 in
  let DP := level_dims (lit (1 # 100)) setup 1%Q in
  let DW := level_dims (lit (5 # 100)) setup 1%Q in
  (fltb (fzero : Q) (fneg (lit (5 # 100))) = false /\
   fltb (lit (5 # 100)) (fzero : Q) = false /\
   fltb (lit (1 # 100) : Q) (lit (5 # 100)) = true /\
   fltb (fneg (lit (5 # 100)) : Q) (fneg (lit (1 # 100))) = true) /\
  dLC DP <> dLC DW /\
  set_bounds DP 100%Q blank_bounds = set_bounds DW 100%Q blank_bounds.
Proof.
  intros setup DP DW.
  assert (H1 : fltb (fzero : Q) (fneg (lit (5 # 100))) = false)
    by reflexivity.
  assert (H2 : fltb (lit (5 # 100)) (fzero : Q) = false) by reflexivity.
  assert (H3 : fltb (lit (1 # 100) : Q) (lit (5 # 100)) = true)
    by reflexivity.
  assert (H4 : fltb (fneg (lit (5 # 100)) : Q) (fneg (lit (1 # 100)))
               = true) by reflexivity.
  split; [auto|]. split; [vm_compute; discriminate|].
  exact (proj1 (@snapping_tolerance_irrelevant Q Q_ops Q_order setup
                  1%Q 100%Q H1 H2 H3 H4) blank_bounds).
Defined.

(** X15 for the first sweep on the small crystal: plane 0 is kept,
    and the edge pixel z = 0, r = 2 takes the clamped value of its
    stencil. *)
Lemma sweep_is_jacobi_witness :
  let lv := fst (small_level (F := Q) (18 # 10) 1) in
  let b := snd (small_level (F := Q) (18 # 10) 1) in
  let s0 := relax_start b blank_marks in
  exists s,
    (0%Z <> 1%Z /\ sweep lv 0 1 s0 = Some s /\
     (0 <= 0 < L (dims lv))%Z /\ (0 <= 2 < R (dims lv))%Z /\
     (0 <= tags lv 0 2)%Z) /\
    pot s 0 1 1 = pot s0 0 1 1 /\
    exists s1 st,
      sweep_until lv 0 1 s0 0 2 = Some s1 /\
      stencil lv (pot s0 0) 0 2 = Some st /\
      pot s 1 0 2 =
        fst (fst (clamp (vfrac lv 0 2) (raw_value lv st 0 2) (min st)
                        (bubble_volts s1) (undepleted s0 2 0))).
Proof.
  intros lv b s0.
  destruct (sweep lv 0 1 s0) as [s|] eqn:E;
    [|vm_compute in E; discriminate].
  assert (Hne : 0%Z <> 1%Z) by discriminate.
  assert (Hz : (0 <= 0 < L (dims lv))%Z)
    by (vm_compute; split; [discriminate|reflexivity]).
  assert (Hr : (0 <= 2 < R (dims lv))%Z)
    by (vm_compute; split; [discriminate|reflexivity]).
  assert (Ht : (0 <= tags lv 0 2)%Z) by (vm_compute; discriminate).
  exists s. split; [auto 6|].
  destruct (@sweep_is_jacobi Q Q_ops lv 0%Z 1%Z s0 s Hne E)
    as (Hplanes & _ & _ & _ & Hpix).
  split; [exact (Hplanes 0%Z 1%Z 1%Z Hne)|].
  destruct (Hpix 0%Z 2%Z Hz Hr) as (s1 & s2 & E1 & _ & _ & Hfree).
  destruct (Hfree Ht) as (st & Hst & Hc). cbv zeta in Hc.
  exists s1, st. split; [exact E1|]. split; [exact Hst|].
  exact (proj1 Hc).
Defined.

(** X16 for the first sweep of the weighting potential on the small
    crystal. *)
Lemma wp_sweep_is_jacobi_witness :
  let D := level_dims (lit (5 # 100)) (small_crystal (F := Q) 1 100) 1%Q in
  let wb := wp_set_bounds D 1 1 blank_marks blank_bounds in
  let wlv := level_of D blank_eps wb (-1)%Q 0%Q 1%Q in
  let ws0 := wp_start wb in
  exists ws,
    (0%Z <> 1%Z /\ wp_sweep wlv 0 1 ws0 = Some ws) /\
    wpot_v ws 0 1 1 = wpot_v ws0 0 1 1.
Proof.
  intros D wb wlv ws0.
  destruct (wp_sweep wlv 0 1 ws0) as [ws|] eqn:E;
    [|vm_compute in E; discriminate].
  assert (Hne : 0%Z <> 1%Z) by discriminate.
  exists ws. split; [auto|].
  exact (proj1 (@wp_sweep_is_jacobi Q Q_ops wlv 0%Z 1%Z ws0 ws Hne E)
               0%Z 1%Z 1%Z Hne).
Defined.

(** The two laws of the negation hold in binary32, NaN included. *)
Lemma b32_neg_positive (x : B32.t) :
  fltb fzero x = true -> fltb fzero (fneg x) = false.
Proof. destruct x as [s|s| |s m e]; try destruct s; auto. Defined.

Lemma b32_neg_not_positive (x : B32.t) :
  fltb fzero x = false -> fltb (fneg x) fzero = false.
Proof. destruct x as [s|s| |s m e]; try destruct s; auto. Defined.

(** X18 in binary32 for n-type material biased at -100 V: the
    polarity is swapped. *)
Lemma check_polarity_signs_witness :
  let BV : B32.t := fneg (lit 100) in
  let N : B32.t := fone in
  let M : B32.t := fzero in
  ((forall x : B32.t, fltb fzero x = true -> fltb fzero (fneg x) = false) /\
   (forall x : B32.t, fltb fzero x = false -> fltb (fneg x) fzero = false))
  /\
  match check_polarity BV N M with
  | None => False
  | Some (BV', M', N') =>
      fltb fzero N' = false /\
      (fltb N fzero = true \/ fltb fzero N = true ->
       fltb BV' fzero = false)
  end.
Proof.
  intros BV N M.
  split; [split; [exact b32_neg_positive | exact b32_neg_not_positive]|].
  pose proof (@check_polarity_signs B32.t B32_ops BV N M
                b32_neg_positive b32_neg_not_positive) as H.
  destruct (check_polarity BV N M) as [[[BV' M'] N']|] eqn:E.
  - destruct H as (H1 & H2 & _). auto.
  - vm_compute in E. discriminate E.
Defined.

(** X19 on the small crystal with one iteration allowed. *)
Lemma relaxation_stops_on_convergence_witness :
  let D := level_dims (lit (1 # 100)) (small_crystal (F := Q) 1 100) 1%Q in
  let b := set_bounds D 100%Q blank_bounds in
  let lv := level_of D blank_eps b (-1)%Q 0%Q 1%Q in
  let s0 := relax_start b blank_marks in
  (forall z r, (0 <= z < L (dims lv))%Z -> (0 <= r < R (dims lv))%Z ->
     (tags lv z r <= 2)%Z) /\
  (0 <= fst (relax lv 1 s0) <= Z.max 0 1)%Z.
Proof.
  intros D b lv s0.
  assert (Htags : forall z r,
            (0 <= z < L (dims lv))%Z -> (0 <= r < R (dims lv))%Z ->
            (tags lv z r <= 2)%Z).
  { intros z r Hz Hr. change (tags lv z r) with (bulk b z r).
    destruct (@set_bounds_spec Q Q_ops D 100%Q blank_bounds z r)
      as [Hb _];
      [change (L (dims lv)) with (L D) in Hz; lia
      |change (R (dims lv)) with (R D) in Hr; lia|].
    change (bulk b z r = bounds_tag D z r) in Hb. rewrite Hb.
    destruct (@bounds_tag_range Q Q_ops D z r) as [H|[H|[H|H]]]; lia. }
  split; [exact Htags|].
  exact (proj1 (proj1 (@relaxation_stops_on_convergence Q Q_ops lv 1%Z)
                      s0 Htags)).
Defined.

(** ** The expansion to a finer grid *)

Section RefinementFacts.
Context {F : Type} {ops : FloatOps F}.
Local Open Scope Z_scope.
Implicit Types (v : Z -> Z -> Z -> F).

(** A row of a block writes the pixels zz, i*r ... i*r + i - 1 of
    plane 0. *)
Lemma refine_row_spec i f z r zz f1z v :
  let v' := refine_row i f z r zz f1z v in
  (forall p z' r',
     p <> 0 \/ z' <> zz \/ ~ (i * r <= r' < i * r + i) ->
     v' p z' r' = v p z' r') /\
  (forall b, 0 <= b < i ->
     v' 0 zz (i * r + b) =
       interpolate (v 1) z r f1z (ramp f (Z.to_nat b))).
Proof.
  intros v'; subst v'; unfold refine_row.
  destruct (Z_le_gt_dec 0 i) as [Hi|Hi].
  2: { rewrite for_up_empty by lia. cbn [fst]. split; [auto|intros; lia]. }
  set (body := fun (rr : Z) (st : (Z -> Z -> Z -> F) * F) =>
                 let '(v0, f1r) := st in _).
  pose (P := fun (k : Z) (st : (Z -> Z -> Z -> F) * F) =>
    snd st = ramp f (Z.to_nat (k - i * r)) /\
    (forall p z' r',
       p <> 0 \/ z' <> zz \/ ~ (i * r <= r' < k) ->
       fst st p z' r' = v p z' r') /\
    (forall b, 0 <= b < k - i * r ->
       fst st 0 zz (i * r + b) =
         interpolate (v 1) z r f1z (ramp f (Z.to_nat b)))).
  assert (HP : P (i * r + i) (for_up (i * r) (i * r + i) body (v, fzero))).
  { apply for_up_ind; [lia| |].
    - unfold P; cbn [fst snd]. rewrite Z.sub_diag. cbn [Z.to_nat ramp].
      split; [reflexivity|]. split; [auto|intros; lia].
    - intros k [v0 f1r] Hk (Hf & Hkeep & Hdone). cbn [fst snd] in *.
      unfold P, body; cbn [fst snd].
      split; [|split].
      + replace (k + 1 - i * r) with (Z.succ (k - i * r)) by lia.
        rewrite Z2Nat.inj_succ by lia. cbn [ramp]. now rewrite Hf.
      + intros p z' r' Hout. unfold vset, upd2.
        destruct (Z.eqb_spec p 0) as [->|Hp].
        * destruct (Z.eqb_spec z' zz) as [->|Hz]; cbn [andb];
            [destruct (Z.eqb_spec r' k) as [->|Hr];
               [exfalso; lia|]|];
            apply Hkeep; lia.
        * apply Hkeep; lia.
      + intros b Hb. unfold vset, upd2.
        rewrite Z.eqb_refl, Z.eqb_refl. cbn [andb].
        destruct (Z.eqb_spec (i * r + b) k) as [Hbk|Hbk].
        * assert (Hb' : b = k - i * r) by lia. subst b.
          rewrite <- Hf. unfold interpolate.
          rewrite !(Hkeep 1) by (left; lia). reflexivity.
        * apply Hdone; lia. }
  destruct HP as (_ & Hkeep & Hdone). split.
  - intros p z' r' Hout. apply Hkeep; lia.
  - intros b Hb. apply Hdone; lia.
Qed.

(** A block writes the pixels i*z ... i*z + i - 1 by
    i*r ... i*r + i - 1 of plane 0. *)
Lemma refine_block_spec i f z r v :
  let v' := refine_block i f z r v in
  (forall p z' r',
     p <> 0 \/ ~ (i * z <= z' < i * z + i) \/
     ~ (i * r <= r' < i * r + i) ->
     v' p z' r' = v p z' r') /\
  (forall a b, 0 <= a < i -> 0 <= b < i ->
     v' 0 (i * z + a) (i * r + b) =
       interpolate (v 1) z r (ramp f (Z.to_nat a)) (ramp f (Z.to_nat b))).
Proof.
  intros v'; subst v'; unfold refine_block.
  destruct (Z_le_gt_dec 0 i) as [Hi|Hi].
  2: { rewrite for_up_empty by lia. cbn [fst]. split; [auto|intros; lia]. }
  set (body := fun (zz : Z) (st : (Z -> Z -> Z -> F) * F) =>
                 let '(v0, f1z) := st in _).
  pose (P := fun (k : Z) (st : (Z -> Z -> Z -> F) * F) =>
    snd st = ramp f (Z.to_nat (k - i * z)) /\
    (forall p z' r',
       p <> 0 \/ ~ (i * z <= z' < k) \/ ~ (i * r <= r' < i * r + i) ->
       fst st p z' r' = v p z' r') /\
    (forall a b, 0 <= a < k - i * z -> 0 <= b < i ->
       fst st 0 (i * z + a) (i * r + b) =
         interpolate (v 1) z r (ramp f (Z.to_nat a))
                     (ramp f (Z.to_nat b)))).
  assert (HP : P (i * z + i) (for_up (i * z) (i * z + i) body (v, fzero))).
  { apply for_up_ind; [lia| |].
    - unfold P; cbn [fst snd]. rewrite Z.sub_diag. cbn [Z.to_nat ramp].
      split; [reflexivity|]. split; [auto|intros; lia].
    - intros k [v0 f1z] Hk (Hf & Hkeep & Hdone). cbn [fst snd] in *.
      unfold P, body; cbn [fst snd].
      destruct (refine_row_spec i f z r k f1z v0) as [Rkeep Rdone].
      split; [|split].
      + replace (k + 1 - i * z) with (Z.succ (k - i * z)) by lia.
        rewrite Z2Nat.inj_succ by lia. cbn [ramp]. now rewrite Hf.
      + intros p z' r' Hout.
        rewrite Rkeep by lia. apply Hkeep; lia.
      + intros a b Ha Hb.
        destruct (Z.eq_dec (i * z + a) k) as [Hak|Hak].
        * rewrite Hak, Rdone by lia.
          assert (Ha' : a = k - i * z) by lia. subst a.
          rewrite <- Hf. unfold interpolate.
          rewrite !(Hkeep 1) by (left; lia). reflexivity.
        * rewrite Rkeep by lia. apply Hdone; lia. }
  destruct HP as (_ & Hkeep & Hdone). split.
  - intros p z' r' Hout. apply Hkeep; lia.
  - intros a b Ha Hb. apply Hdone; lia.
Qed.

(** X20.  The expansion of the potential to a finer grid (lines 368-388
    and 734-754) reads plane 1 and writes plane 0, whichever plane the
    relaxation of the coarser grid wrote last.  With the ratio
    [i = (int) (g_prev / g + 0.5)] of the grids and [f = 1 / i], the
    pixel (i*z + a, i*r + b) of plane 0 becomes the value interpolated
    between the four pixels of plane 1 around (z, r), with the weights
    that [a] and [b] additions of [f] to 0 give; the other planes, and
    plane 0 outside [0, i*L) x [0, i*R), are kept, and nothing at all is
    written when [i <= 0]. *)
Theorem refine_interpolates (g_prev g : F) (L R : Z) v :
  let i := to_int (g_prev / g + lit (5 # 10))%fl in
  let f := (fone / of_int i)%fl in
  let v' := refine g_prev g L R v in
  (forall p z r, p <> 0 -> v' p z r = v p z r) /\
  (forall zz rr,
     i <= 0 \/ ~ (0 <= zz < i * L /\ 0 <= rr < i * R) ->
     v' 0 zz rr = v 0 zz rr) /\
  (forall z r a b,
     0 <= z < L -> 0 <= r < R -> 0 <= a < i -> 0 <= b < i ->
     v' 0 (i * z + a) (i * r + b) =
       interpolate (v 1) z r (ramp f (Z.to_nat a)) (ramp f (Z.to_nat b))).
Proof.
  intros i f v'; subst v'; unfold refine. fold i. fold f.
  pose (Inv := fun v1 : Z -> Z -> Z -> F =>
    (forall p z r, p <> 0 -> v1 p z r = v p z r) /\
    (forall zz rr,
       i <= 0 \/ ~ (0 <= zz < i * L /\ 0 <= rr < i * R) ->
       v1 0 zz rr = v 0 zz rr)).
  pose (Good := fun (z r : Z) (v1 : Z -> Z -> Z -> F) =>
    forall a b, 0 <= a < i -> 0 <= b < i ->
      v1 0 (i * z + a) (i * r + b) =
        interpolate (v 1) z r (ramp f (Z.to_nat a))
                    (ramp f (Z.to_nat b))).
  destruct (@grid_loop _ Inv Good (refine_block i f) L R v)
    as [[H1 H2] H3].
  - split; auto.
  - intros z r v1 Hz Hr [I1 I2].
    destruct (refine_block_spec i f z r v1) as [Bkeep Bdone].
    split; [split|].
    + intros p z' r' Hp. rewrite Bkeep by (left; exact Hp). now apply I1.
    + intros zz rr Hout. rewrite Bkeep; [now apply I2|].
      destruct Hout as [Hi|Hout]; [lia|]. right. nia.
    + intros a b Ha Hb. rewrite Bdone by assumption.
      unfold interpolate. rewrite !(I1 1) by lia. reflexivity.
  - intros z r z' r' v1 Hz Hr Hne _ Hgood a b Ha Hb.
    destruct (refine_block_spec i f z r v1) as [Bkeep _].
    rewrite Bkeep; [now apply Hgood|]. right. nia.
  - split; [exact H1|]. split; [exact H2|].
    intros z r a b Hz Hr Ha Hb. now apply H3.
Qed.
End RefinementFacts.

Section SweepReadingsFacts.
Context {F : Type} {ops : FloatOps F}.
Local Open Scope Z_scope.
Implicit Types (lv : @Level F).

(** The mark that [clamp] leaves for a pixel with [vfraction > 0.45] is
    '.' or '*'; for another pixel it is the mark it was given. *)
Lemma clamp_mark (vfr v_new mn bubble : F) mark :
  let m' := snd (clamp vfr v_new mn bubble mark) in
  ((vfr >? lit (45 # 100))%fl = true ->
   m' = "."%char \/ m' = "*"%char) /\
  ((vfr >? lit (45 # 100))%fl = false -> m' = mark).
Proof.
  unfold clamp.
  destruct (fleb v_new fzero); [|destruct (fltb v_new mn)];
    cbn [snd]; destruct (fltb (lit (45 # 100)) vfr);
    split; intros H; try discriminate H; auto.
Qed.

(** X21.  A sweep of the potential writes the mark of a pixel only if
    the pixel is in [0, L) x [0, R), is not fixed and has
    [vfraction > 0.45]: such a mark is '.' or '*' afterwards, whatever
    it was, and every other mark is kept as it was before the sweep,
    also a '*' or 'B' that an earlier grid or an earlier pass has
    left. *)
Theorem sweep_marks_frame lv old new (s s' : @Relax F) :
  sweep lv old new s = Some s' ->
  forall r z,
    (~ (0 <= z < L (dims lv) /\ 0 <= r < R (dims lv)) \/
     tags lv z r < 0 \/ (vfrac lv z r >? lit (45 # 100))%fl = false ->
     undepleted s' r z = undepleted s r z) /\
    (0 <= z < L (dims lv) -> 0 <= r < R (dims lv) ->
     0 <= tags lv z r -> (vfrac lv z r >? lit (45 # 100))%fl = true ->
     undepleted s' r z = "."%char \/ undepleted s' r z = "*"%char).
Proof.
  unfold sweep.
  set (s0 := {| pot := pot s; undepleted := undepleted s;
                bubble_volts := fzero; sum_dif := fzero;
                max_dif := fzero |}).
  pose (Inv := fun o : option (@Relax F) =>
    forall s1, o = Some s1 ->
      forall r z,
        ~ (0 <= z < L (dims lv) /\ 0 <= r < R (dims lv)) \/
        tags lv z r < 0 \/ (vfrac lv z r >? lit (45 # 100))%fl = false ->
        undepleted s1 r z = undepleted s r z).
  pose (Good := fun (z r : Z) (o : option (@Relax F)) =>
    forall s1, o = Some s1 ->
      0 <= tags lv z r -> (vfrac lv z r >? lit (45 # 100))%fl = true ->
      undepleted s1 r z = "."%char \/ undepleted s1 r z = "*"%char).
  destruct (@grid_loop _ Inv Good (relax_pixel lv old new)
              (L (dims lv)) (R (dims lv)) (Some s0)) as [HI HG].
  - intros s1 [= <-] r z _. reflexivity.
  - intros z r [s1|] Hz Hr Hinv;
      [|split; intros s2 H; discriminate H].
    unfold relax_pixel.
    destruct (tags lv z r <? 0) eqn:Etag.
    { apply Z.ltb_lt in Etag. split.
      - intros s2 [= <-]. now apply Hinv.
      - intros s2 [= <-] Htag. lia. }
    apply Z.ltb_ge in Etag.
    destruct (stencil lv (pot s1 old) z r) as [st|] eqn:Est;
      [|split; intros s2 H; discriminate H].
    pose proof (clamp_mark (vfrac lv z r) (raw_value lv st z r) (min st)
                  (bubble_volts s1) (undepleted s1 r z)) as Hc.
    destruct (clamp (vfrac lv z r) (raw_value lv st z r) (min st)
                    (bubble_volts s1) (undepleted s1 r z))
      as [[v_new bubble] mark] eqn:Ec.
    cbn [snd] in Hc. destruct Hc as [Hbig Hsmall].
    destruct (track_dif _ _ _ _) as [sd md].
    split.
    + intros s2 [= <-] r' z' Hcase. cbn [undepleted].
      destruct (Z.eq_dec r' r) as [->|Hr'];
        [destruct (Z.eq_dec z' z) as [->|Hz']|].
      * rewrite upd2_same.
        destruct Hcase as [Hc|[Hc|Hc]];
          [exfalso; apply Hc; auto | lia |].
        rewrite (Hsmall Hc). apply (Hinv s1 eq_refl). auto.
      * rewrite upd2_other by auto. now apply (Hinv s1 eq_refl).
      * rewrite upd2_other by auto. now apply (Hinv s1 eq_refl).
    + intros s2 [= <-] _ Hv. cbn [undepleted]. rewrite upd2_same. auto.
  - intros z r z' r' [s1|] Hz Hr Hdiff Hinv HGood s2 H2;
      [|discriminate].
    intros Htag Hv.
    unfold relax_pixel in H2.
    destruct (tags lv z r <? 0);
      [injection H2 as <-; now apply (HGood s1 eq_refl)|].
    destruct (stencil lv (pot s1 old) z r) as [st1|]; [|discriminate].
    destruct (clamp _ _ _ _ _) as [[v_new bubble] mark1].
    destruct (track_dif _ _ _ _) as [sd md].
    injection H2 as <-. cbn [undepleted].
    rewrite upd2_other by (destruct Hdiff; auto).
    now apply (HGood s1 eq_refl).
  - intros Hs r z. cbv zeta in HI, HG. split.
    + now apply (HI s' Hs).
    + intros Hz Hr Htag Hv. exact (HG z r Hz Hr s' Hs Htag Hv).
Qed.

Context {ord : FloatOrder F}.

Lemma fltb_irrefl (x : F) : fltb x x = false.
Proof. now rewrite fltb_fleb, fleb_refl. Qed.

(** What is not below [a] is not below a larger number either. *)
Lemma fltb_not_below (a b c : F) :
  fltb a b = true -> fltb a c = false -> fltb b c = false.
Proof.
  intros Hab Hac. rewrite fltb_fleb in Hac.
  apply negb_false_iff in Hac.
  destruct (fltb b c) eqn:Hbc; [|reflexivity].
  pose proof (fleb_fltb_trans _ _ _ Hac Hab) as Hcb.
  pose proof (fltb_trans _ _ _ Hbc Hcb) as Hbb.
  now rewrite fltb_irrefl in Hbb.
Qed.

Lemma track_dif_max (v_old v_new sd md : F) :
  let md' := snd (track_dif v_old v_new sd md) in
  fltb md' (abs_dif v_old v_new) = false /\
  (forall c, fltb md c = false -> fltb md' c = false).
Proof.
  unfold track_dif, abs_dif. cbn [snd].
  set (d := if fltb (fsub v_old v_new) fzero
            then fneg (fsub v_old v_new) else fsub v_old v_new).
  destruct (fltb md d) eqn:E.
  - split; [apply fltb_irrefl|].
    intros c Hc. exact (fltb_not_below _ _ _ E Hc).
  - split; [exact E|auto].
Qed.

(** X22.  In an ordered arithmetic [max_dif] bounds the change of
    every pixel: after a sweep of the potential no pixel that is not
    fixed has changed, from the plane [old] to the plane [new], by more
    than [max_dif]; so when the test [max_dif < tol] of the convergence
    passes, every such pixel has changed by less than [tol]. *)
Theorem max_dif_bounds_changes lv old new (s s' : @Relax F) :
  old <> new ->
  sweep lv old new s = Some s' ->
  forall z r, 0 <= z < L (dims lv) -> 0 <= r < R (dims lv) ->
    0 <= tags lv z r ->
    let dif := abs_dif (pot s' old z r) (pot s' new z r) in
    (max_dif s' <? dif)%fl = false /\
    (forall tol : F, (max_dif s' <? tol)%fl = true ->
                     (dif <? tol)%fl = true).
Proof.
  intros Hne Hsweep.
  assert (Hmain : forall z r,
            0 <= z < L (dims lv) -> 0 <= r < R (dims lv) ->
            0 <= tags lv z r ->
            (max_dif s' <? abs_dif (pot s' old z r) (pot s' new z r))%fl
            = false).
  { revert Hsweep. unfold sweep.
    set (s0 := {| pot := pot s; undepleted := undepleted s;
                  bubble_volts := fzero; sum_dif := fzero;
                  max_dif := fzero |}).
    pose (Inv := fun o : option (@Relax F) =>
      forall s1, o = Some s1 ->
        forall p z r, p <> new -> pot s1 p z r = pot s p z r).
    pose (Good := fun (z r : Z) (o : option (@Relax F)) =>
      forall s1, o = Some s1 -> 0 <= tags lv z r ->
        (max_dif s1 <? abs_dif (pot s old z r) (pot s1 new z r))%fl
        = false).
    destruct (@grid_loop _ Inv Good (relax_pixel lv old new)
                (L (dims lv)) (R (dims lv)) (Some s0)) as [HI HG].
    - intros s1 [= <-] p z r _. reflexivity.
    - intros z r [s1|] Hz Hr Hinv;
        [|split; intros s2 H; discriminate H].
      unfold relax_pixel.
      destruct (tags lv z r <? 0) eqn:Etag.
      { apply Z.ltb_lt in Etag. split.
        - intros s2 [= <-]. now apply Hinv.
        - intros s2 [= <-] Htag. lia. }
      destruct (stencil lv (pot s1 old) z r) as [st|] eqn:Est;
        [|split; intros s2 H; discriminate H].
      destruct (clamp (vfrac lv z r) (raw_value lv st z r) (min st)
                      (bubble_volts s1) (undepleted s1 r z))
        as [[v_new bubble] mark] eqn:Ec.
      pose proof (track_dif_max (pot s1 old z r) v_new (sum_dif s1)
                    (max_dif s1)) as Ht.
      destruct (track_dif _ _ _ _) as [sd md].
      cbn [snd] in Ht. destruct Ht as [Ht _].
      split.
      + intros s2 [= <-] p z' r' Hp. cbn [pot].
        rewrite vset_other_plane by auto. now apply (Hinv s1 eq_refl).
      + intros s2 [= <-] _. cbn [pot max_dif]. rewrite vset_same.
        rewrite <- (Hinv s1 eq_refl old z r Hne). exact Ht.
    - intros z r z' r' [s1|] Hz Hr Hdiff Hinv HGood s2 H2;
        [|discriminate].
      intros Htag. specialize (HGood s1 eq_refl Htag).
      unfold relax_pixel in H2.
      destruct (tags lv z r <? 0); [injection H2 as <-; exact HGood|].
      destruct (stencil lv (pot s1 old) z r) as [st1|]; [|discriminate].
      destruct (clamp _ _ _ _ _) as [[v_new bubble] mark1].
      pose proof (track_dif_max (pot s1 old z r) v_new (sum_dif s1)
                    (max_dif s1)) as Ht.
      destruct (track_dif _ _ _ _) as [sd md].
      cbn [snd] in Ht. destruct Ht as [_ Ht].
      injection H2 as <-. cbn [pot max_dif].
      rewrite vset_other_pixel by exact Hdiff.
      now apply Ht.
    - intros Hs z r Hz Hr Htag. cbv zeta in HI, HG.
      rewrite (HI s' Hs old z r Hne).
      exact (HG z r Hz Hr s' Hs Htag). }
  intros z r Hz Hr Htag dif. subst dif.
  pose proof (Hmain z r Hz Hr Htag) as Hle.
  split; [exact Hle|].
  intros tol Htol. rewrite fltb_fleb in Hle.
  apply negb_false_iff in Hle.
  exact (fleb_fltb_trans _ _ _ Hle Htol).
Qed.
End SweepReadingsFacts.

(** X21 for the first sweep on the small crystal: the mark of the
    bulk pixel z = 2, r = 1 is written. *)
Lemma sweep_marks_frame_witness :
  let lv := fst (small_level (F := Q) (18 # 10) 1) in
  let b := snd (small_level (F := Q) (18 # 10) 1) in
  let s0 := relax_start b blank_marks in
  exists s,
    sweep lv 0 1 s0 = Some s /\
    (undepleted s 1 2 = "."%char \/ undepleted s 1 2 = "*"%char).
Proof.
  intros lv b s0.
  destruct (sweep lv 0 1 s0) as [s|] eqn:E;
    [|vm_compute in E; discriminate].
  exists s. split; [reflexivity|].
  assert (Hz : (0 <= 2 < L (dims lv))%Z)
    by (vm_compute; split; [discriminate|reflexivity]).
  assert (Hr : (0 <= 1 < R (dims lv))%Z)
    by (vm_compute; split; [discriminate|reflexivity]).
  assert (Ht : (0 <= tags lv 2 1)%Z) by (vm_compute; discriminate).
  assert (Hv : fltb (lit (45 # 100)) (vfrac lv 2 1) = true)
    by (vm_compute; reflexivity).
  exact (proj2 (@sweep_marks_frame Q Q_ops lv 0%Z 1%Z s0 s E 1%Z 2%Z)
               Hz Hr Ht Hv).
Defined.

(** X22 for the first sweep on the small crystal, at the bulk pixel
    z = 2, r = 1. *)
Lemma max_dif_bounds_changes_witness :
  let lv := fst (small_level (F := Q) (18 # 10) 1) in
  let b := snd (small_level (F := Q) (18 # 10) 1) in
  let s0 := relax_start b blank_marks in
  exists s,
    (0%Z <> 1%Z /\ sweep lv 0 1 s0 = Some s /\
     (0 <= 2 < L (dims lv))%Z /\ (0 <= 1 < R (dims lv))%Z /\
     (0 <= tags lv 2 1)%Z) /\
    fltb (max_dif s) (abs_dif (pot s 0 2 1) (pot s 1 2 1)) = false.
Proof.
  intros lv b s0.
  destruct (sweep lv 0 1 s0) as [s|] eqn:E;
    [|vm_compute in E; discriminate].
  assert (Hne : 0%Z <> 1%Z) by discriminate.
  assert (Hz : (0 <= 2 < L (dims lv))%Z)
    by (vm_compute; split; [discriminate|reflexivity]).
  assert (Hr : (0 <= 1 < R (dims lv))%Z)
    by (vm_compute; split; [discriminate|reflexivity]).
  assert (Ht : (0 <= tags lv 2 1)%Z) by (vm_compute; discriminate).
  exists s. split; [auto 10|].
  exact (proj1 (@max_dif_bounds_changes Q Q_ops Q_order lv 0%Z 1%Z s0 s
                  Hne E 2%Z 1%Z Hz Hr Ht)).
Defined.

(** ** The output buffer of [get_signal] *)

Section OutputFacts.
Context {F : Type} {ops : FloatOps F}.
Variable E : Externals (F := F).
Local Open Scope fl_scope.
Local Abbreviation Setup := (MJD_Siggen_Setup F).

(** The compression overwrites a buffer of [ntsteps_out] samples. *)
Lemma compress_overwrites (setup : Setup) (signal out1 out2 : list F) :
  (0 < ntsteps_out setup)%Z ->
  Z.of_nat (length out1) = ntsteps_out setup ->
  length out2 = length out1 ->
  exists out',
    compress setup signal out1 = Some out' /\
    compress setup signal out2 = Some out' /\
    length out' = length out1.
Proof.
  intros Hn H1 H2.
  destruct (@compress_blocks F ops setup signal out1)
    as (o1 & _ & C1 & L1 & B1 & _); [lia|].
  destruct (@compress_blocks F ops setup signal out2)
    as (o2 & _ & C2 & L2 & B2 & _); [lia|].
  exists o1. split; [exact C1|]. split; [|exact L1].
  rewrite C2. f_equal.
  apply (aget_ext fzero); [congruence|].
  intros i Hi. rewrite B1, B2 by lia. reflexivity.
Qed.

(** X23.  In a process whose scratch arrays hold [tsteps] cells, for a
    point inside the detector and at least one output step,
    [get_signal] called with a buffer [signal_out] of exactly
    [ntsteps_out] samples returns.  When no allocation fails it
    overwrites the whole buffer: what the buffer held before the call
    has no effect on the result, neither on the signal it returns in
    the buffer nor on its return value, the setup and the static
    variables it leaves, and this also when the call fails with -1
    because the hole is not collected.  When an allocation fails it
    returns -1 and the buffer is as it was. *)
Theorem get_signal_overwrites_output granted pt (out1 out2 : list F)
        (setup : Setup) (st : Statics) :
  statics_ok st ->
  outside_detector pt setup = 0%Z ->
  (0 < ntsteps_out setup)%Z ->
  Z.of_nat (length out1) = ntsteps_out setup ->
  length out2 = length out1 ->
  exists r1 r2,
    get_signal E granted pt (Some out1) setup st = Some r1 /\
    get_signal E granted pt (Some out2) setup st = Some r2 /\
    if allocated granted setup st
    then r1 = r2 /\
         exists out', gs_out r1 = Some out' /\ length out' = length out1
    else gs_ret r1 = (-1)%Z /\ gs_ret r2 = (-1)%Z /\
         gs_out r1 = Some out1 /\ gs_out r2 = Some out2.
Proof.
  intros _ Hin Hn H1 H2. unfold get_signal.
  destruct (allocated granted setup st); cbn [negb].
  2: { do 2 eexists. split; [reflexivity|]. split; [reflexivity|].
       cbn [gs_ret gs_out]. auto. }
  rewrite Hin. cbn [Z.eqb negb].
  destruct (drift_both_frame E pt setup (prepare_statics setup st))
    as (err & setup' & st' & Hd & _ & Hfix & _).
  rewrite Hd.
  destruct (fixed_part_ntsteps_out Hfix) as [Hno _].
  unfold shape_signal.
  match goal with
  | |- context [if ?c then gaussian E ?a ?b ?x else ?y] =>
      destruct (if c then gaussian E a b x else y) as [[s1 u1] t1]
  end.
  destruct (@compress_overwrites setup' s1 out1 out2)
    as (o & C1 & C2 & L); [lia | congruence | exact H2 |].
  rewrite C1, C2.
  do 2 eexists. split; [reflexivity|]. split; [reflexivity|].
  split; [reflexivity|].
  cbn [gs_out]. eexists. split; [reflexivity|].
  unfold preamp. destruct (_ >=? _).
  - rewrite length_rc_integrate. exact L.
  - exact L.
Qed.
End OutputFacts.

(** X23 for a point of the axis that is inside the crystal but outside
    the field grid: the call fails with -1, and two buffers with
    different contents leave it with one and the same result. *)
Lemma get_signal_overwrites_output_witness :
  let setup := Axis.setup 4 8 in
  let pt : point Q := {| px := 0; py := 0; pz := 3 |} in
  let out1 := repeat 9%Q 8 in
  let out2 := repeat 7%Q 8 in
  (statics_ok (statics_init (F := Q)) /\
   outside_detector pt setup = 0%Z /\
   (0 < ntsteps_out setup)%Z /\
   Z.of_nat (length out1) = ntsteps_out setup /\
   length out2 = length out1) /\
  exists r out',
    get_signal Axis.world 3 pt (Some out1) setup statics_init = Some r /\
    get_signal Axis.world 3 pt (Some out2) setup statics_init = Some r /\
    gs_out r = Some out' /\ length out' = length out1 /\
    gs_ret r = (-1)%Z.
Proof.
  intros setup pt out1 out2.
  assert (Hin : outside_detector pt setup = 0%Z) by reflexivity.
  assert (Hn : (0 < ntsteps_out setup)%Z) by reflexivity.
  assert (H1 : Z.of_nat (length out1) = ntsteps_out setup) by reflexivity.
  assert (H2 : length out2 = length out1) by reflexivity.
  assert (Hs : statics_ok (statics_init (F := Q)))
    by (repeat split; reflexivity).
  split; [auto 6|].
  destruct (@get_signal_overwrites_output Q Q_ops Axis.world 3%nat pt
              out1 out2 setup statics_init Hs Hin Hn H1 H2)
    as (r1 & r2 & Hr1 & Hr2 & Hsame).
  change (allocated 3 setup statics_init) with true in Hsame.
  destruct Hsame as (<- & out' & Ho & Hl).
  exists r1, out'. split; [exact Hr1|]. split; [exact Hr2|].
  split; [exact Ho|]. split; [exact Hl|].
  vm_compute in Hr1. injection Hr1 as <-. reflexivity.
Defined.

(** A loop with [break] keeps an invariant of the counter: it holds
    for the number of bodies that have run. *)
Lemma iter_break_count {St : Type} (P : Z -> St -> Prop)
      (body : Z -> St -> St * bool) k i (st : St) :
  P i st ->
  (forall j st, (i <= j < i + Z.of_nat k)%Z -> P j st ->
     P (j + 1)%Z (fst (body j st))) ->
  let res := iter_break body k i st in
  P (if (fst res <? i + Z.of_nat k)%Z then (fst res + 1)%Z
     else (i + Z.of_nat k)%Z) (snd res).
Proof.
  revert i st; induction k as [|k IH]; intros i st Hs Hbody res;
    subst res; cbn [iter_break].
  - cbn [fst snd]. destruct (Z.ltb_spec i (i + Z.of_nat 0)); [lia|].
    replace (i + Z.of_nat 0)%Z with i by lia. exact Hs.
  - pose proof (Hbody i st ltac:(lia) Hs) as Hnext.
    destruct (body i st) as [st' brk]; destruct brk; cbn [fst snd] in *.
    + destruct (Z.ltb_spec i (i + Z.of_nat (S k))); [exact Hnext|lia].
    + specialize (IH (i + 1)%Z st' Hnext).
      replace (i + 1 + Z.of_nat k)%Z
        with (i + Z.of_nat (S k))%Z in IH by lia.
      apply IH. intros j st0 Hj. apply Hbody; lia.
Qed.

Section PlaneFacts.
Context {F : Type} {ops : FloatOps F}.
Local Open Scope Z_scope.

Lemma flip_parity (j : Z) :
  flip (if Z.even j then 1 else 0) = if Z.even (j + 1) then 1 else 0.
Proof.
  rewrite Z.even_add. destruct (Z.even j); reflexivity.
Qed.

(** X24.  The two planes take turns: with [n] the number of sweeps
    that a relaxation has done ([iter + 1] when it stopped on
    convergence, [max_its] otherwise), the last sweep has read the
    plane [old] and written the plane [new], where [new] is plane 1
    when [n] is odd and plane 0 when [n] is even.  So the plane 1, which
    the expansion to the next grid reads, holds the result of the last
    sweep only after an odd number of sweeps. *)
Theorem relax_last_plane (lv : @Level F) (max_its : Z) :
  (forall (s0 : @Relax F),
     (forall z r, 0 <= z < L (dims lv) -> 0 <= r < R (dims lv) ->
                  tags lv z r <= 2) ->
     let res := relax lv max_its s0 in
     let n := if fst res <? max_its then fst res + 1
              else Z.max 0 max_its in
     exists old s,
       snd res = (old, Some s) /\
       old = (if Z.even n then 1 else 0) /\
       flip old = (if Z.even n then 0 else 1)) /\
  (forall (s0 : @WRelax F),
     (forall z r, 0 <= z < L (dims lv) -> 0 <= r < R (dims lv) ->
                  tags lv z r <= 3) ->
     let res := wp_relax lv max_its s0 in
     let n := if fst res <? max_its then fst res + 1
              else Z.max 0 max_its in
     exists old s,
       snd res = (old, Some s) /\
       old = (if Z.even n then 1 else 0) /\
       flip old = (if Z.even n then 0 else 1)).
Proof.
  split.
  - intros s0 Htags res n.
    destruct (relax_iterates lv max_its s0 Htags) as (old & s & Hs & _).
    exists old, s. split; [exact Hs|].
    assert (Hold : old = if Z.even n then 1 else 0).
    { subst n res. unfold relax, for_up_break in *.
      pose proof (@iter_break_count _
        (fun j (st : Z * option (@Relax F)) =>
           snd st <> None -> fst st = if Z.even j then 1 else 0)
        (relax_body lv (lit (1 # 1000000000)))
        (Z.to_nat (max_its - 0)) 0 (1, Some s0)) as H.
      pose proof (iter_break_index
                  (relax_body lv (lit (1 # 1000000000)))
                  (Z.to_nat (max_its - 0)) 0 (1, Some s0)) as Hidx.
      cbv zeta in H.
      set (r := iter_break _ _ _ _) in *.
      rewrite Hs in H. cbn [fst snd] in H.
      replace (0 + Z.of_nat (Z.to_nat (max_its - 0)))
        with (Z.max 0 max_its) in * by lia.
      assert (Hn : (if fst r <? max_its then fst r + 1
                    else Z.max 0 max_its) =
                   (if fst r <? Z.max 0 max_its then fst r + 1
                    else Z.max 0 max_its)).
      { destruct (Z.ltb_spec (fst r) max_its);
          destruct (Z.ltb_spec (fst r) (Z.max 0 max_its)); lia. }
      rewrite Hn. apply H; [reflexivity| |discriminate].
      intros j [old0 [s1|]] Hj Hp; unfold relax_body;
        cbn [fst snd] in *.
      * destruct (sweep lv (flip old0) (flip (flip old0)) s1);
          cbn [fst snd]; intros _;
          rewrite (Hp ltac:(discriminate)); apply flip_parity.
      * intros Hc. now elim Hc. }
    split; [exact Hold|]. rewrite Hold. destruct (Z.even n); reflexivity.
  - intros s0 Htags res n.
    destruct (wp_relax_iterates lv max_its s0 Htags) as (old & s & Hs & _).
    exists old, s. split; [exact Hs|].
    assert (Hold : old = if Z.even n then 1 else 0).
    { subst n res. unfold wp_relax, for_up_break in *.
      pose proof (@iter_break_count _
        (fun j (st : Z * option (@WRelax F)) =>
           snd st <> None -> fst st = if Z.even j then 1 else 0)
        (wp_relax_body lv (lit (1 # 10000000000)))
        (Z.to_nat (max_its - 0)) 0 (1, Some s0)) as H.
      pose proof (iter_break_index
                  (wp_relax_body lv (lit (1 # 10000000000)))
                  (Z.to_nat (max_its - 0)) 0 (1, Some s0)) as Hidx.
      cbv zeta in H.
      set (r := iter_break _ _ _ _) in *.
      rewrite Hs in H. cbn [fst snd] in H.
      replace (0 + Z.of_nat (Z.to_nat (max_its - 0)))
        with (Z.max 0 max_its) in * by lia.
      assert (Hn : (if fst r <? max_its then fst r + 1
                    else Z.max 0 max_its) =
                   (if fst r <? Z.max 0 max_its then fst r + 1
                    else Z.max 0 max_its)).
      { destruct (Z.ltb_spec (fst r) max_its);
          destruct (Z.ltb_spec (fst r) (Z.max 0 max_its)); lia. }
      rewrite Hn. apply H; [reflexivity| |discriminate].
      intros j [old0 [s1|]] Hj Hp; unfold wp_relax_body;
        cbn [fst snd] in *.
      * destruct (wp_sweep lv (flip old0) (flip (flip old0)) s1);
          cbn [fst snd]; intros _;
          rewrite (Hp ltac:(discriminate)); apply flip_parity.
      * intros Hc. now elim Hc. }
    split; [exact Hold|]. rewrite Hold. destruct (Z.even n); reflexivity.
Qed.
End PlaneFacts.

(** X24 on the small crystal with two iterations allowed. *)
Lemma relax_last_plane_witness :
  let D := level_dims (lit (1 # 100)) (small_crystal (F := Q) 1 100) 1%Q in
  let b := set_bounds D 100%Q blank_bounds in
  let lv := level_of D blank_eps b (-1)%Q 0%Q 1%Q in
  let s0 := relax_start b blank_marks in
  let res := relax lv 2 s0 in
  let n := if (fst res <? 2)%Z then (fst res + 1)%Z else Z.max 0 2 in
  (forall z r, (0 <= z < L (dims lv))%Z -> (0 <= r < R (dims lv))%Z ->
     (tags lv z r <= 2)%Z) /\
  exists old s,
    snd res = (old, Some s) /\ old = (if Z.even n then 1 else 0)%Z.
Proof.
  intros D b lv s0 res n.
  assert (Htags : forall z r,
            (0 <= z < L (dims lv))%Z -> (0 <= r < R (dims lv))%Z ->
            (tags lv z r <= 2)%Z).
  { intros z r Hz Hr. change (tags lv z r) with (bulk b z r).
    destruct (@set_bounds_spec Q Q_ops D 100%Q blank_bounds z r)
      as [Hb _];
      [change (L (dims lv)) with (L D) in Hz; lia
      |change (R (dims lv)) with (R D) in Hr; lia|].
    change (bulk b z r = bounds_tag D z r) in Hb. rewrite Hb.
    destruct (@bounds_tag_range Q Q_ops D z r) as [H|[H|[H|H]]]; lia. }
  split; [exact Htags|].
  destruct (proj1 (@relax_last_plane Q Q_ops lv 2%Z) s0 Htags)
    as (old & s & Hs & Hold & _).
  exists old, s. split; [exact Hs | exact Hold].
Defined.

(** ** The options of [main] *)

(** Induction over a list, two elements at a time. *)
Lemma list_pair_ind {A : Type} (P : list A -> Prop) :
  P [] -> (forall a, P [a]) ->
  (forall a b l, P l -> P (a :: b :: l)) ->
  forall l, P l.
Proof.
  intros H0 H1 H2.
  assert (H : forall l, P l /\ forall a, P (a :: l)).
  { induction l as [|b l [IH1 IH2]]; split; auto. }
  intros l. apply H.
Qed.

Section OptionFacts.
Context {F : Type} {ops : FloatOps F}.
Variable X : MainExternals (F := F).
Local Open Scope Z_scope.
Local Abbreviation Setup := (MJD_Siggen_Setup F).

(** An accepted option is known, and it keeps the size of the grid
    unless it names a configuration file. *)
Lemma parse_option_accepts flag value (o o' : MainVars (F := F)) :
  parse_option X flag value o = Some o' ->
  known_option flag = true /\
  (strstr flag ["-"; "c"]%char = false ->
   o_L o' = o_L o /\ o_R o' = o_R o).
Proof.
  unfold parse_option, known_option.
  destruct (strstr flag ["-"; "c"]%char).
  { intros _. split; [reflexivity | discriminate]. }
  destruct (strstr flag ["-"; "b"]%char).
  { intros [= <-]. split; [reflexivity | split; reflexivity]. }
  destruct (strstr flag ["-"; "w"]%char).
  { intros [= <-]. split; [reflexivity | split; reflexivity]. }
  destruct (strstr flag ["-"; "p"]%char).
  { intros [= <-]. split; [reflexivity | split; reflexivity]. }
  discriminate.
Qed.

Lemma parse_options_accepts args :
  forall (o o' : MainVars (F := F)),
  parse_options X args o = Some o' ->
  (forall f v, In (f, v) (pairs args) -> known_option f = true) /\
  ((exists f v, In (f, v) (pairs args) /\
                strstr f ["-"; "c"]%char = true) \/
   (o_L o' = o_L o /\ o_R o' = o_R o)).
Proof.
  induction args as [| a | f v rest IH] using list_pair_ind;
    intros o o'; cbn [parse_options pairs].
  - intros [= <-]. split; [intros f v []|auto].
  - intros [= <-]. split; [intros f v []|auto].
  - destruct (parse_option X f v o) as [o1|] eqn:E1; [|discriminate].
    intros Hrest.
    destruct (parse_option_accepts _ _ _ E1) as [Hk Hkeep].
    destruct (IH o1 o' Hrest) as [Hknown Hcfg].
    split.
    + intros f' v' [[= <- <-]|Hin]; [exact Hk | eauto].
    + destruct (strstr f ["-"; "c"]%char) eqn:Ec.
      * left. exists f, v. split; [now left | exact Ec].
      * destruct Hcfg as [(f' & v' & Hin & Hc)|[HL HR]].
        -- left. exists f', v'. split; [now right | exact Hc].
        -- right. destruct (Hkeep eq_refl) as [HL1 HR1].
           split; congruence.
Qed.

(** X25.  [main] of the field generator goes on past its options
    (lines 190-284) only if the number of arguments is odd, every
    option is one of -c, -b, -w and -p (a flag counts as the first of
    these that occurs anywhere in it), and some option names a
    configuration file: without one the program stops.  Then the grid
    has at least two pixels each way, the product L*R, as an [int],
    is at most 2500*2500, [WV] is 0, 1 or 2, and [RO] lies strictly
    between 0 and [R] or is [R - LT]. *)
Theorem main_options_accepts (argv : list (list ascii)) (setup : Setup)
        (o : MainVars (F := F)) :
  main_options X argv setup = Some o ->
  Z.rem (Z.of_nat (length argv)) 2 = 1 /\
  (forall f v, In (f, v) (pairs (tl argv)) -> known_option f = true) /\
  (exists f v, In (f, v) (pairs (tl argv)) /\
               strstr f ["-"; "c"]%char = true) /\
  2 <= o_L o /\ 2 <= o_R o /\
  to_int32 (o_L o * o_R o) <= 2500 * 2500 /\
  0 <= o_WV o <= 2 /\
  (0 < o_RO o < o_R o \/ o_RO o = o_R o - o_LT o).
Proof.
  unfold main_options.
  destruct (Z.eqb_spec (Z.rem (Z.of_nat (length argv)) 2) 1) as [Hodd|];
    cbn [negb]; [|discriminate].
  destruct (parse_options X (tl argv) (main_defaults setup)) as [o1|] eqn:E;
    [|discriminate].
  destruct (parse_options_accepts _ _ E) as [Hknown Hcfg].
  destruct (Z.leb_spec (o_L o1) 1) as [|HL]; cbn [orb]; [discriminate|].
  destruct (Z.leb_spec (o_R o1) 1) as [|HR]; cbn [orb]; [discriminate|].
  destruct (Z.gtb_spec (to_int32 (o_L o1 * o_R o1)) (2500 * 2500))
    as [|Hsize]; [discriminate|].
  set (o2 := if (o_WV o1 <? 0) || (o_WV o1 >? 2) then set_o_WV o1 0
             else o1).
  set (o3 := if (o_RO o2 <=? 0) || (o_RO o2 >=? o_R o2)
             then set_o_RO o2 (o_R o2 - o_LT o2) else o2).
  destruct (check_polarity (o_BV o3) (o_N o3) (o_M o3))
    as [[[BV' M'] N']|]; [|discriminate].
  intros [= <-]. cbn [set_polarity o_L o_R o_WV o_RO o_LT].
  assert (H2 : o_L o2 = o_L o1 /\ o_R o2 = o_R o1 /\ 0 <= o_WV o2 <= 2 /\
               o_RO o2 = o_RO o1 /\ o_LT o2 = o_LT o1).
  { subst o2.
    destruct (Z.ltb_spec (o_WV o1) 0); cbn [orb];
      [cbn; repeat split; lia|].
    destruct (Z.gtb_spec (o_WV o1) 2); cbn; repeat split; lia. }
  destruct H2 as (L2 & R2 & W2 & RO2 & LT2).
  assert (H3 : o_L o3 = o_L o2 /\ o_R o3 = o_R o2 /\ o_WV o3 = o_WV o2 /\
               o_LT o3 = o_LT o2 /\
               (0 < o_RO o3 < o_R o3 \/ o_RO o3 = o_R o3 - o_LT o3)).
  { subst o3.
    destruct (Z.leb_spec (o_RO o2) 0); cbn [orb];
      [cbn; repeat split; lia|].
    destruct (Z.geb_spec (o_RO o2) (o_R o2)); cbn; repeat split; lia. }
  destruct H3 as (L3 & R3 & W3 & LT3 & RO3).
  split; [exact Hodd|]. split; [exact Hknown|]. split.
  { destruct Hcfg as [Hc|[HL0 HR0]]; [exact Hc|].
    cbn [main_defaults o_L] in HL0. lia. }
  rewrite L3, L2, R3, R2, W3. repeat split; lia.
Qed.

Lemma parse_options_app args :
  Nat.even (length args) = true ->
  forall flag value (o : MainVars (F := F)),
  parse_options X (args ++ [flag; value]) o =
  match parse_options X args o with
  | None => None
  | Some o1 => parse_option X flag value o1
  end.
Proof.
  induction args as [| a | f v rest IH] using list_pair_ind;
    intros Hev flag value o.
  - cbn. destruct (parse_option X flag value o); reflexivity.
  - discriminate Hev.
  - cbn [app parse_options].
    destruct (parse_option X f v o) as [o1|]; [|reflexivity].
    apply IH. exact Hev.
Qed.

(** X26.  The options are taken from left to right and the later one
    wins.  After an even number of arguments [args], one more option
    acts on the variables that [args] have left: an option -c sets the
    grid sizes, the bias, the impurities and the two output choices
    anew from the configuration file, so that a -b, -w or -p before it
    has no effect; and an option -b (that is not taken for -c) changes
    the bias alone, to [atof] of its value. *)
Theorem parse_options_last (args : list (list ascii))
        (flag value : list ascii) (o0 : MainVars (F := F)) :
  Nat.even (length args) = true ->
  parse_options X (args ++ [flag; value]) o0 =
    match parse_options X args o0 with
    | None => None
    | Some o1 => parse_option X flag value o1
    end /\
  (forall o1 o2 : MainVars (F := F),
     parse_options X args o0 = Some o1 ->
     parse_options X (args ++ [flag; value]) o0 = Some o2 ->
     (strstr flag ["-"; "c"]%char = true ->
      fst (fst (main_read_config X value (o_setup o1))) = 0 /\
      o_WV o2 = fst (snd (main_read_config X value (o_setup o1))) /\
      o_WP o2 = snd (snd (main_read_config X value (o_setup o1))) /\
      o_BV o2 = xtal_HV (o_setup o2) /\
      o_N o2 = impurity_z0 (o_setup o2) /\
      o_M o2 = impurity_gradient (o_setup o2) /\
      o_grid o2 = xtal_grid (o_setup o2) /\
      o_L o2 = lrint (xtal_length (o_setup o2) / o_grid o2)%fl /\
      o_R o2 = lrint (xtal_radius (o_setup o2) / o_grid o2)%fl) /\
     (strstr flag ["-"; "c"]%char = false ->
      strstr flag ["-"; "b"]%char = true ->
      o2 = set_o_BV o1 (atof X value))).
Proof.
  intros Hev.
  pose proof (parse_options_app args Hev flag value o0) as Happ.
  split; [exact Happ|].
  intros o1 o2 H1 H2. rewrite Happ, H1 in H2.
  unfold parse_option in H2. split.
  - intros Hc. rewrite Hc in H2.
    destruct (main_read_config X value (o_setup o1))
      as [[rc setup'] [wf wp]].
    cbn [fst snd].
    destruct (Z.eqb_spec rc 0) as [Hrc|]; cbn [negb] in H2;
      [|discriminate].
    injection H2 as <-.
    cbn [o_WV o_WP o_BV o_N o_M o_grid o_L o_R o_setup].
    repeat split; auto.
  - intros Hc Hb. rewrite Hc, Hb in H2. now injection H2 as <-.
Qed.
End OptionFacts.

(** X25 for the command line [f -b 250 -c x]: the program goes on,
    with a grid of at least 2 x 2 pixels. *)
Lemma main_options_accepts_witness :
  let argv := [["f"]; ["-"; "b"]; ["2"; "5"; "0"]; ["-"; "c"]; ["x"]]%char in
  exists o,
    main_options small_files argv (small_crystal 0 0) = Some o /\
    (2 <= o_L o)%Z /\ (2 <= o_R o)%Z /\ (0 <= o_WV o <= 2)%Z.
Proof.
  intros argv.
  destruct (main_options small_files argv (small_crystal 0 0)) as [o|] eqn:E;
    [|vm_compute in E; discriminate].
  exists o. split; [reflexivity|].
  destruct (@main_options_accepts Q Q_ops small_files argv
              (small_crystal 0 0) o E)
    as (_ & _ & _ & HL & HR & _ & HW & _).
  auto.
Defined.

(** X26 for [-b 250] followed by [-c x]: the bias is the 100 V of the
    configuration file. *)
Lemma parse_options_last_witness :
  let args := [["-"; "b"]; ["2"; "5"; "0"]]%char in
  let flag := ["-"; "c"]%char in
  let o0 := main_defaults (small_crystal (F := Q) 0 0) in
  exists o1 o2,
    (Nat.even (length args) = true /\
     parse_options small_files args o0 = Some o1 /\
     parse_options small_files (args ++ [flag; ["x"]%char]) o0 = Some o2 /\
     strstr flag ["-"; "c"]%char = true) /\
    o_BV o1 = 250%Q /\
    o_BV o2 = xtal_HV (o_setup o2) /\ xtal_HV (o_setup o2) = 100%Q.
Proof.
  intros args flag o0.
  assert (Hev : Nat.even (length args) = true) by reflexivity.
  assert (Hc : strstr flag ["-"; "c"]%char = true) by reflexivity.
  destruct (parse_options small_files args o0) as [o1|] eqn:E1;
    [|vm_compute in E1; discriminate].
  destruct (parse_options small_files (args ++ [flag; ["x"]%char]) o0)
    as [o2|] eqn:E2; [|vm_compute in E2; discriminate].
  exists o1, o2. split; [auto|].
  destruct (@parse_options_last Q Q_ops small_files args flag ["x"]%char
              o0 Hev) as [_ Hlast].
  destruct (Hlast o1 o2 E1 E2) as [Hcfg _].
  destruct (Hcfg Hc) as (_ & _ & _ & HBV & _).
  split; [|split; [exact HBV|]].
  - vm_compute in E1. injection E1 as <-. reflexivity.
  - vm_compute in E2. injection E2 as <-. reflexivity.
Defined.
